(** * Asteroid Storm: the simulation core, embedded and verified

    A shallow embedding of the shared simulation code
    ([shared/src/math.ts], [utils.ts], [constants.ts],
    [simulation/entities.ts], [simulation/collision.ts],
    [simulation/gameWorld.ts]), of the server's room loop
    ([server/src/room/Room.ts]) and of the client's prediction
    ([client/src/game/ClientPrediction.ts]), followed by the properties
    proved of them.

    Numbers.  A TypeScript [number] is read as a real number: [+ - * /] are
    the field operations of [R], [Math.sqrt], [Math.cos], [Math.sin] are
    [sqrt], [cos], [sin], [Math.floor] is the integer part and [%] is the
    remainder of the division truncated toward zero.  Rounding, NaN and the
    infinities of IEEE doubles are outside this model.  Where a property
    turns on rounding, the function is embedded a second time over binary64
    values, in [Module Double].

    Objects.  Player objects are mutated in place and shared between the
    world's map, the client connection and the collision events, so they
    live in a store indexed by references; asteroids, bullets and particles
    are only read by the code modelled here and are passed by value.

    Randomness and time.  [Math.random()] and [Date.now()] read the next
    value of an oracle; the functions that call them take the index of the
    next read and return the index after their last one. *)

From Stdlib Require Import Reals Lra Lia ZArith List Bool.
From Stdlib Require SpecFloat.
From stdpp Require Import gmap strings list.

Local Open Scope R_scope.

(** ** Numbers *)

Module Num.

(** [a < b], [a <= b], [a === b] as tests. *)
Definition ltb (a b : R) : bool := if Rlt_dec a b then true else false.
Definition leb (a b : R) : bool := if Rle_dec a b then true else false.
Definition eqb (a b : R) : bool := if Req_dec_T a b then true else false.

(** [Math.floor] *)
Definition floor (r : R) : Z := Int_part r.

(** Truncation toward zero, the quotient behind [%]. *)
Definition trunc (r : R) : Z :=
  if Rle_dec 0 r then floor r else (- floor (- r))%Z.

(** [a % b]: the remainder has the sign of the dividend. *)
Definition rem (a b : R) : R := a - b * IZR (trunc (a / b)).

(** [Math.atan2(y, x)] *)
Definition atan2 (y0 x0 : R) : R :=
  if ltb 0 x0 then atan (y0 / x0)
  else if ltb x0 0 then
    (if leb 0 y0 then atan (y0 / x0) + PI else atan (y0 / x0) - PI)
  else if ltb 0 y0 then PI / 2
  else if ltb y0 0 then - (PI / 2)
  else 0.

End Num.

(** ** [shared/src/types.ts] *)

Record Vector2 : Type := mkVector2 { x : R; y : R }.

Record Transform : Type := mkTransform { position : Vector2; rotation : R }.

Record Velocity : Type := mkVelocity { linear : Vector2; angular : R }.

Module Player.
Record t : Type := mk {
  id : string;
  name : string;
  transform : Transform;
  velocity : Velocity;
  health : R;
  score : R;
  lives : R;
  isAlive : bool;
  lastInputSequence : R;
  invulnerableUntil : R;
  lastShotTime : R
}.

(** Field assignments [player.f = v]. *)
Definition set_transform (p : t) (v : Transform) : t :=
  mk (id p) (name p) v (velocity p) (health p) (score p) (lives p) (isAlive p)
     (lastInputSequence p) (invulnerableUntil p) (lastShotTime p).
Definition set_velocity (p : t) (v : Velocity) : t :=
  mk (id p) (name p) (transform p) v (health p) (score p) (lives p) (isAlive p)
     (lastInputSequence p) (invulnerableUntil p) (lastShotTime p).
Definition set_health (p : t) (v : R) : t :=
  mk (id p) (name p) (transform p) (velocity p) v (score p) (lives p) (isAlive p)
     (lastInputSequence p) (invulnerableUntil p) (lastShotTime p).
Definition set_lives (p : t) (v : R) : t :=
  mk (id p) (name p) (transform p) (velocity p) (health p) (score p) v (isAlive p)
     (lastInputSequence p) (invulnerableUntil p) (lastShotTime p).
Definition set_isAlive (p : t) (v : bool) : t :=
  mk (id p) (name p) (transform p) (velocity p) (health p) (score p) (lives p) v
     (lastInputSequence p) (invulnerableUntil p) (lastShotTime p).
Definition set_lastShotTime (p : t) (v : R) : t :=
  mk (id p) (name p) (transform p) (velocity p) (health p) (score p) (lives p) (isAlive p)
     (lastInputSequence p) (invulnerableUntil p) v.
End Player.
Abbreviation Player := Player.t.

Inductive AsteroidSize : Type := LARGE | MEDIUM | SMALL.

Module Asteroid.
Record t : Type := mk {
  id : string;
  transform : Transform;
  velocity : Velocity;
  size : AsteroidSize;
  radius : R
}.
End Asteroid.
Abbreviation Asteroid := Asteroid.t.

Module Bullet.
Record t : Type := mk {
  id : string;
  playerId : string;
  transform : Transform;
  velocity : Vector2;
  createdAt : R;
  lifetime : R
}.
End Bullet.
Abbreviation Bullet := Bullet.t.

Inductive ParticleType : Type := THRUST | EXPLOSION | BULLET_HIT.

Module Particle.
Record t : Type := mk {
  id : string;
  transform : Transform;
  velocity : Vector2;
  lifetime : R;
  maxLifetime : R;
  type : ParticleType
}.
End Particle.
Abbreviation Particle := Particle.t.

Record InputState : Type := mkInputState {
  thrust : bool;
  rotate : R;
  brake : bool;
  shoot : bool
}.

Record CollisionResult : Type := mkCollisionResult {
  collided : bool;
  depth : option R;
  normal : option Vector2
}.

(** ** [shared/src/constants.ts] *)

Module GAME_CONFIG.
Definition WORLD_WIDTH : R := 4096.
Definition WORLD_HEIGHT : R := 4096.
Definition TICK_RATE : R := 60.
Definition SNAPSHOT_RATE : R := 20.
Definition FIXED_TIMESTEP : R := 1 / 60.
Definition MAX_PLAYERS_PER_ROOM : R := 8.
End GAME_CONFIG.

Module PLAYER_CONFIG.
Definition RADIUS : R := 8.
Definition MAX_SPEED : R := 420.
Definition ACCELERATION : R := 320.
Definition BRAKE_DECELERATION : R := 180.
Definition ROTATION_SPEED : R := 52 / 10.
Definition MAX_HEALTH : R := 100.
Definition MAX_LIVES : R := 3.
Definition INVULNERABILITY_TIME : R := 2000.
Definition FIRE_RATE : R := 120.
Definition BULLET_SPEED : R := 900.
Definition BULLET_LIFETIME : R := 3000.
End PLAYER_CONFIG.

Record AsteroidConfig : Type := mkAsteroidConfig {
  RADIUS : R;
  MIN_SPEED : R;
  MAX_SPEED : R;
  POINTS : R;
  SPLIT_COUNT : nat
}.

(** [ASTEROID_CONFIG[size.toUpperCase()]] *)
Definition ASTEROID_CONFIG (size : AsteroidSize) : AsteroidConfig :=
  match size with
  | LARGE => mkAsteroidConfig 40 20 60 20 2
  | MEDIUM => mkAsteroidConfig 20 40 100 50 2
  | SMALL => mkAsteroidConfig 10 60 140 100 0
  end.

Record ParticleConfig : Type := mkParticleConfig {
  LIFETIME : R;
  COUNT : R;
  SPEED_RANGE : R * R
}.

(** [PARTICLE_CONFIG[type.toUpperCase()]] *)
Definition PARTICLE_CONFIG (type : ParticleType) : ParticleConfig :=
  match type with
  | THRUST => mkParticleConfig 200 3 (50, 100)
  | EXPLOSION => mkParticleConfig 1000 8 (100, 300)
  | BULLET_HIT => mkParticleConfig 300 4 (30, 80)
  end.

Module PHYSICS_CONFIG.
Definition SPATIAL_HASH_CELL_SIZE : R := 100.
End PHYSICS_CONFIG.

(** ** [shared/src/math.ts] *)

Module Vec2.

Definition zero : Vector2 := {| x := 0; y := 0 |}.
Definition create (x0 y0 : R) : Vector2 := {| x := x0; y := y0 |}.
Definition copy (v : Vector2) : Vector2 := {| x := x v; y := y v |}.
Definition add (a b : Vector2) : Vector2 := {| x := x a + x b; y := y a + y b |}.
Definition subtract (a b : Vector2) : Vector2 := {| x := x a - x b; y := y a - y b |}.
Definition multiply (v : Vector2) (scalar : R) : Vector2 :=
  {| x := x v * scalar; y := y v * scalar |}.
Definition divide (v : Vector2) (scalar : R) : Vector2 :=
  {| x := x v / scalar; y := y v / scalar |}.
Definition dot (a b : Vector2) : R := x a * x b + y a * y b.
Definition length (v : Vector2) : R := sqrt (x v * x v + y v * y v).
Definition lengthSquared (v : Vector2) : R := x v * x v + y v * y v.
Definition distance (a b : Vector2) : R := length (subtract a b).
Definition distanceSquared (a b : Vector2) : R := lengthSquared (subtract a b).

Definition normalize (v : Vector2) : Vector2 :=
  let len := length v in
  if Num.eqb len 0 then {| x := 0; y := 0 |} else divide v len.

Definition angle (v : Vector2) : R := Num.atan2 (y v) (x v).

(** [fromAngle(angle, magnitude = 1)]: callers that leave the magnitude out
    pass [1] here. *)
Definition fromAngle (angle magnitude : R) : Vector2 :=
  {| x := cos angle * magnitude; y := sin angle * magnitude |}.

Definition limitLength (v : Vector2) (maxLength : R) : Vector2 :=
  let lenSq := lengthSquared v in
  if Num.ltb (maxLength * maxLength) lenSq
  then multiply (normalize v) maxLength
  else v.

Definition cross (a b : Vector2) : R := x a * y b - y a * x b.

Definition rotate (v : Vector2) (angle : R) : Vector2 :=
  let cos := cos angle in
  let sin := sin angle in
  {| x := x v * cos - y v * sin;
     y := x v * sin + y v * cos |}.

Definition lerp (a b : Vector2) (t : R) : Vector2 :=
  {| x := x a + (x b - x a) * t;
     y := y a + (y b - y a) * t |}.

Definition clamp (v min max : Vector2) : Vector2 :=
  {| x := Rmax (x min) (Rmin (x max) (x v));
     y := Rmax (y min) (Rmin (y max) (y v)) |}.

End Vec2.

Definition wrapPosition (position : Vector2) (worldWidth worldHeight : R) : Vector2 :=
  {| x := Num.rem (Num.rem (x position) worldWidth + worldWidth) worldWidth;
     y := Num.rem (Num.rem (y position) worldHeight + worldHeight) worldHeight |}.

Definition circleCircleCollision
    (pos1 : Vector2) (radius1 : R) (pos2 : Vector2) (radius2 : R) : CollisionResult :=
  let delta := Vec2.subtract pos2 pos1 in
  let distance := Vec2.length delta in
  let minDistance := radius1 + radius2 in
  if Num.ltb distance minDistance && Num.ltb 0 distance then
    let depth := minDistance - distance in
    let normal := Vec2.normalize delta in
    {| collided := true; depth := Some depth; normal := Some normal |}
  else
    {| collided := false; depth := None; normal := None |}.

Definition wrapAngle (angle : R) : R :=
  Num.rem (Num.rem angle (2 * PI) + 2 * PI) (2 * PI).

Definition lerpAngle (from to t : R) : R :=
  let diff := wrapAngle (to - from) in
  let adjustedDiff := if Num.ltb PI diff then diff - 2 * PI else diff in
  wrapAngle (from + adjustedDiff * t).

Definition pointInCircle (point center : Vector2) (radius : R) : bool :=
  Num.leb (Vec2.distanceSquared point center) (radius * radius).

Definition clamp (value min max : R) : R := Rmax min (Rmin max value).

Definition lerp (a b t : R) : R := a + (b - a) * t.

Definition smoothstep (a b t : R) : R :=
  let x := clamp ((t - a) / (b - a)) 0 1 in
  x * x * (3 - 2 * x).

Definition easeInOut (t : R) : R :=
  if Num.ltb t (5 / 10) then 2 * t * t else 1 - 2 * (1 - t) * (1 - t).

Definition degToRad (degrees : R) : R := degrees * (PI / 180).

Definition radToDeg (radians : R) : R := radians * (180 / PI).

(** ** [shared/src/utils.ts]: the spatial hash

    A cell key is the string [`${cx},${cy}`] of two integers, read here as
    the pair [(cx, cy)].  A bucket is a [Set<string>], kept as the list of
    its members in insertion order. *)

Module SpatialHash.

Record StoredObject : Type := mkStoredObject {
  position : Vector2;
  radius : R;
  cellKeys : list (Z * Z)
}.

Record t : Type := mk {
  cellSize : R;
  cells : gmap (Z * Z) (list string);
  objects : gmap string StoredObject
}.

(** [new SpatialHash(cellSize)] *)
Definition create (cellSize : R) : t := mk cellSize ∅ ∅.

(** [Set.prototype.add] and [Set.prototype.delete] *)
Definition set_add (id : string) (s : list string) : list string :=
  if decide (id ∈ s) then s else s ++ [id].

Definition set_delete (id : string) (s : list string) : list string :=
  List.filter (fun e => negb (String.eqb e id)) s.

(** The values taken by [for (let i = lo; i <= hi; i++)]. *)
Definition range (lo hi : Z) : list Z :=
  List.map (fun i => (lo + Z.of_nat i)%Z) (seq 0 (Z.to_nat (hi - lo + 1))).

Definition getCellsForObject (cellSize : R) (position : Vector2) (radius : R)
  : list (Z * Z) :=
  let minX := Num.floor ((x position - radius) / cellSize) in
  let maxX := Num.floor ((x position + radius) / cellSize) in
  let minY := Num.floor ((y position - radius) / cellSize) in
  let maxY := Num.floor ((y position + radius) / cellSize) in
  flat_map (fun cx => List.map (fun cy => (cx, cy)) (range minY maxY)) (range minX maxX).

(** One turn of the loop of [remove]. *)
Definition remove_key (id : string) (cs : gmap (Z * Z) (list string)) (key : Z * Z)
  : gmap (Z * Z) (list string) :=
  match cs !! key with
  | Some cell =>
      let cell' := set_delete id cell in
      if Nat.eqb (List.length cell') 0 then delete key cs else <[key := cell']> cs
  | None => cs
  end.

Definition remove (id : string) (h : t) : t :=
  match objects h !! id with
  | None => h
  | Some obj =>
      mk (cellSize h)
         (fold_left (remove_key id) (cellKeys obj) (cells h))
         (delete id (objects h))
  end.

(** One turn of the loop of [insert]. *)
Definition insert_key (id : string) (cs : gmap (Z * Z) (list string)) (key : Z * Z)
  : gmap (Z * Z) (list string) :=
  match cs !! key with
  | None => <[key := set_add id []]> cs
  | Some cell => <[key := set_add id cell]> cs
  end.

Definition insert (id : string) (position : Vector2) (radius : R) (h : t) : t :=
  let h1 := remove id h in
  let cellKeys := getCellsForObject (cellSize h1) position radius in
  mk (cellSize h1)
     (fold_left (insert_key id) cellKeys (cells h1))
     (<[id := mkStoredObject position radius cellKeys]> (objects h1)).

(** One turn of the outer loop of [query]. *)
Definition query_key (cs : gmap (Z * Z) (list string)) (candidates : list string)
    (key : Z * Z) : list string :=
  match cs !! key with
  | Some cell => fold_left (fun c id => set_add id c) cell candidates
  | None => candidates
  end.

Definition query (position : Vector2) (radius : R) (h : t) : list string :=
  let cellKeys := getCellsForObject (cellSize h) position radius in
  fold_left (query_key (cells h)) cellKeys [].

Definition clear (h : t) : t := mk (cellSize h) ∅ ∅.

Definition getObjectCount (h : t) : nat := size (objects h).
Definition getCellCount (h : t) : nat := size (cells h).

End SpatialHash.

(** ** Oracles and the object store *)

(** What the code reads from outside: the draws of [Math.random()], the
    values of [Date.now()], and the base-36 rendering of a number
    ([Number.prototype.toString(36)]) used by [generateId]. *)
Class Oracle : Type := mkOracle {
  Math_random : nat -> R;
  Date_now : nat -> R;
  toString36 : R -> string
}.

(** A reference to a player object, and the store the references denote. *)
Definition ref : Type := nat.
Definition Store : Type := ref -> Player.

Definition assign (s : Store) (r : ref) (p : Player) : Store :=
  fun r' => if Nat.eqb r' r then p else s r'.

(** [generateId()]: draws twice. *)
Definition generateId `{Oracle} (n : nat) : string * nat :=
  (String.append (String.substring 2 13 (toString36 (Math_random n)))
                 (String.substring 2 13 (toString36 (Math_random (n + 1)))),
   (n + 2)%nat).

(** [randomFloat(min, max)] *)
Definition randomFloat `{Oracle} (min max : R) (n : nat) : R * nat :=
  (Math_random n * (max - min) + min, (n + 1)%nat).

(** [randomInt(min, max)]: the value of [Math.floor], an integer, is kept
    as a [Z]. *)
Definition randomInt `{Oracle} (min max : R) (n : nat) : Z * nat :=
  let '(v, n1) := randomFloat min (max + 1) n in
  (Num.floor v, n1).

Definition randomVector2 `{Oracle} (minMagnitude maxMagnitude : R) (n : nat)
  : Vector2 * nat :=
  let '(angle, n1) := randomFloat 0 (2 * PI) n in
  let '(magnitude, n2) := randomFloat minMagnitude maxMagnitude n1 in
  (Vec2.fromAngle angle magnitude, n2).

(** [array[i]] for an integer [i]: [undefined] outside the array. *)
Definition at_index {T : Type} (array : list T) (i : Z) : option T :=
  if (i <? 0)%Z then None else nth_error array (Z.to_nat i).

Definition randomChoice `{Oracle} {T : Type} (array : list T) (n : nat) : option T * nat :=
  let '(i, n1) := randomInt 0 (INR (List.length array) - 1) n in
  (at_index array i, n1).

(** [s.charAt(i)] for an integer [i]: the empty string outside the string. *)
Definition charAt (s : string) (i : Z) : string :=
  if (i <? 0)%Z then ""%string
  else match String.get (Z.to_nat i) s with
       | Some c => String c ""
       | None => ""%string
       end.

(** The loop of [generateRoomCode], run [k] more times. *)
Fixpoint generateRoomCode_loop `{Oracle} (chars : string) (k : nat) (result : string)
    (n : nat) : string * nat :=
  match k with
  | O => (result, n)
  | S k' =>
      generateRoomCode_loop chars k'
        (String.append result
           (charAt chars (Num.floor (Math_random n * INR (String.length chars)))))
        (n + 1)%nat
  end.

Definition generateRoomCode `{Oracle} (n : nat) : string * nat :=
  let chars := "ABCDEFGHIJKLMNOPQRSTUVWXYZ0123456789"%string in
  generateRoomCode_loop chars 6 ""%string n.

(** ** [shared/src/simulation/entities.ts] *)

(** [updatePlayerMovement] reads and writes only [player.transform] and
    [player.velocity]; the server passes a [Player], the client an object
    with just these two fields.  [Movable] is that structural interface. *)
Class Movable (A : Type) : Type := mkMovable {
  get_transform : A -> Transform;
  get_velocity : A -> Velocity;
  put_transform : A -> Transform -> A;
  put_velocity : A -> Velocity -> A
}.

#[export] Instance Player_Movable : Movable Player :=
  {| get_transform := Player.transform;
     get_velocity := Player.velocity;
     put_transform := Player.set_transform;
     put_velocity := Player.set_velocity |}.

Definition createPlayer (id name : string) (position : Vector2) : Player :=
  Player.mk id name
    (mkTransform (Vec2.copy position) 0)
    (mkVelocity Vec2.zero 0)
    PLAYER_CONFIG.MAX_HEALTH 0 PLAYER_CONFIG.MAX_LIVES true 0 0 0.

Definition createAsteroid `{Oracle}
    (position velocity : Vector2) (size : AsteroidSize) (n : nat) : Asteroid * nat :=
  let config := ASTEROID_CONFIG size in
  let '(id, n1) := generateId n in
  (Asteroid.mk id
     (mkTransform (Vec2.copy position) (Math_random n1 * PI * 2))
     (mkVelocity (Vec2.copy velocity) ((Math_random (n1 + 1) - 5 / 10) * 4))
     size
     (RADIUS config),
   (n1 + 2)%nat).

(** [createBullet] declares four parameters. *)
Definition createBullet `{Oracle}
    (playerId : string) (position direction : Vector2) (timestamp : R) (n : nat)
  : Bullet * nat :=
  let '(id, n1) := generateId n in
  (Bullet.mk id playerId
     (mkTransform (Vec2.copy position) (Vec2.angle direction))
     (Vec2.multiply (Vec2.normalize direction) PLAYER_CONFIG.BULLET_SPEED)
     timestamp
     PLAYER_CONFIG.BULLET_LIFETIME,
   n1).

(** [lifetime || config.LIFETIME]: an absent or zero lifetime falls back. *)
Definition createParticle `{Oracle}
    (position velocity : Vector2) (type : ParticleType) (lifetime : option R) (n : nat)
  : Particle * nat :=
  let config := PARTICLE_CONFIG type in
  let particleLifetime :=
    match lifetime with
    | Some l => if Num.eqb l 0 then LIFETIME config else l
    | None => LIFETIME config
    end in
  let '(id, n1) := generateId n in
  (Particle.mk id
     (mkTransform (Vec2.copy position) (Vec2.angle velocity))
     (Vec2.copy velocity)
     particleLifetime particleLifetime type,
   n1).

Definition updatePlayerMovement {A : Type} `{Movable A}
    (player : A) (input : InputState) (deltaTime : R) : A :=
  let transform := get_transform player in
  let velocity := get_velocity player in
  (* Apply rotation *)
  let rotation1 :=
    if Num.eqb (rotate input) 0 then rotation transform
    else rotation transform + rotate input * PLAYER_CONFIG.ROTATION_SPEED * deltaTime in
  (* Apply thrust *)
  let linear1 :=
    if thrust input then
      let thrustVector :=
        Vec2.fromAngle rotation1 (PLAYER_CONFIG.ACCELERATION * deltaTime) in
      Vec2.add (linear velocity) thrustVector
    else linear velocity in
  (* Apply braking *)
  let linear2 :=
    if brake input then
      let speed := Vec2.length linear1 in
      if Num.ltb 0 speed then
        let brakeForce := PLAYER_CONFIG.BRAKE_DECELERATION * deltaTime in
        let normalizedVel := Vec2.normalize linear1 in
        let brakeVector := Vec2.multiply normalizedVel (Rmin brakeForce speed) in
        Vec2.subtract linear1 brakeVector
      else linear1
    else linear1 in
  (* Limit maximum speed *)
  let linear3 := Vec2.limitLength linear2 PLAYER_CONFIG.MAX_SPEED in
  (* Update position *)
  let deltaPos := Vec2.multiply linear3 deltaTime in
  let position1 := Vec2.add (position transform) deltaPos in
  (* Wrap around world boundaries *)
  let position2 :=
    wrapPosition position1 GAME_CONFIG.WORLD_WIDTH GAME_CONFIG.WORLD_HEIGHT in
  put_velocity
    (put_transform player (mkTransform position2 rotation1))
    (mkVelocity linear3 (angular velocity)).

(** The body of the loop of [splitAsteroid], run for the given indices. *)
Fixpoint splitAsteroid_loop `{Oracle}
    (asteroid : Asteroid) (config newConfig : AsteroidConfig) (newSize : AsteroidSize)
    (indices : list nat) (n : nat) : list Asteroid * nat :=
  match indices with
  | [] => ([], n)
  | i :: rest =>
      let angle := PI * 2 * INR i / INR (SPLIT_COUNT config) + Math_random n * (5 / 10) in
      let speed :=
        Math_random (n + 1) * (MAX_SPEED newConfig - MIN_SPEED newConfig)
        + MIN_SPEED newConfig in
      let velocity := Vec2.fromAngle angle speed in
      let offsetDistance := Asteroid.radius asteroid + RADIUS newConfig + 5 in
      let offsetPosition :=
        Vec2.add (position (Asteroid.transform asteroid))
                 (Vec2.fromAngle angle offsetDistance) in
      let '(child, n1) := createAsteroid offsetPosition velocity newSize (n + 2) in
      let '(others, n2) := splitAsteroid_loop asteroid config newConfig newSize rest n1 in
      (child :: others, n2)
  end.

Definition splitAsteroid `{Oracle} (asteroid : Asteroid) (n : nat) : list Asteroid * nat :=
  let config := ASTEROID_CONFIG (Asteroid.size asteroid) in
  if Nat.eqb (SPLIT_COUNT config) 0 then ([], n)
  else
    match Asteroid.size asteroid with
    | LARGE =>
        splitAsteroid_loop asteroid config (ASTEROID_CONFIG MEDIUM) MEDIUM
          (seq 0 (SPLIT_COUNT config)) n
    | MEDIUM =>
        splitAsteroid_loop asteroid config (ASTEROID_CONFIG SMALL) SMALL
          (seq 0 (SPLIT_COUNT config)) n
    | SMALL => ([], n)
    end.

Definition canPlayerShoot (player : Player) (currentTime : R) : bool :=
  Num.leb PLAYER_CONFIG.FIRE_RATE (currentTime - Player.lastShotTime player).

Definition isPlayerInvulnerable (player : Player) (currentTime : R) : bool :=
  Num.ltb currentTime (Player.invulnerableUntil player).

Definition getScoreForAsteroid (size : AsteroidSize) : R :=
  POINTS (ASTEROID_CONFIG size).

(** ** [shared/src/simulation/collision.ts]: resolution

    The events carry the player object itself ([collision.player]), here a
    reference into the store, so two events against one player act on the
    same object. *)

Module PlayerAsteroidCollision.
Record t : Type := mk {
  playerId : string;
  asteroidId : string;
  player : ref;
  asteroid : Asteroid
}.
End PlayerAsteroidCollision.

Module BulletAsteroidCollision.
Record t : Type := mk {
  bulletId : string;
  asteroidId : string;
  bullet : Bullet;
  asteroid : Asteroid
}.
End BulletAsteroidCollision.

Module PlayerBulletCollision.
Record t : Type := mk {
  playerId : string;
  bulletId : string;
  player : ref;
  bullet : Bullet
}.
End PlayerBulletCollision.

Record CollisionEvents : Type := mkCollisionEvents {
  playerAsteroidCollisions : list PlayerAsteroidCollision.t;
  bulletAsteroidCollisions : list BulletAsteroidCollision.t;
  playerBulletCollisions : list PlayerBulletCollision.t
}.

Module ScoreUpdate.
Record t : Type := mk { playerId : string; points : R }.
End ScoreUpdate.

Module ParticleEffect.
Record t : Type := mk { position : Vector2; type : string; count : R }.
End ParticleEffect.

Record ResolveCollisionResult : Type := mkResolveCollisionResult {
  destroyedPlayers : list string;
  destroyedAsteroids : list string;
  destroyedBullets : list string;
  newAsteroids : list Asteroid;
  scoreUpdates : list ScoreUpdate.t;
  particleEffects : list ParticleEffect.t
}.

(** The player object after the call, and the returned flag. *)
Definition damagePlayerFromCollision (player : Player) (damage currentTime : R)
  : Player * bool :=
  if Num.ltb currentTime (Player.invulnerableUntil player) || negb (Player.isAlive player)
  then (player, false)
  else
    let player1 := Player.set_health player (Player.health player - damage) in
    if Num.leb (Player.health player1) 0 then
      let player2 := Player.set_health player1 0 in
      let player3 := Player.set_isAlive player2 false in
      let player4 := Player.set_lives player3 (Rmax 0 (Player.lives player3 - 1)) in
      (player4, true)
    else (player1, false).

(** The dynamic [import(...).then(...)] only schedules a callback whose
    value is dropped; the function itself returns the empty array. *)
Definition splitAsteroidFromBullet (asteroid : Asteroid) : list Asteroid := [].

(** Likewise the [import] is without effect on the value returned by the
    [switch]; its [default] arm is out of reach of the three sizes. *)
Definition getAsteroidScore (asteroid : Asteroid) : R :=
  match Asteroid.size asteroid with
  | LARGE => 20
  | MEDIUM => 50
  | SMALL => 100
  end.

(** One turn of the player-asteroid loop. *)
Definition resolve_playerAsteroid (currentTime : R)
    (acc : ResolveCollisionResult * Store) (collision : PlayerAsteroidCollision.t)
  : ResolveCollisionResult * Store :=
  let '(result, store) := acc in
  let player := PlayerAsteroidCollision.player collision in
  let '(player', playerDestroyed) :=
    damagePlayerFromCollision (store player) 100 currentTime in
  let store' := assign store player player' in
  if playerDestroyed then
    (mkResolveCollisionResult
       (destroyedPlayers result ++ [PlayerAsteroidCollision.playerId collision])
       (destroyedAsteroids result)
       (destroyedBullets result)
       (newAsteroids result)
       (scoreUpdates result)
       (particleEffects result ++
          [ParticleEffect.mk (Vec2.copy (position (Player.transform player')))
                             "explosion" 8]),
     store')
  else (result, store').

(** One turn of the bullet-asteroid loop. *)
Definition resolve_bulletAsteroid
    (acc : ResolveCollisionResult * Store) (collision : BulletAsteroidCollision.t)
  : ResolveCollisionResult * Store :=
  let '(result, store) := acc in
  let bullet := BulletAsteroidCollision.bullet collision in
  let asteroid := BulletAsteroidCollision.asteroid collision in
  let newAsteroids' := splitAsteroidFromBullet asteroid in
  let score := getAsteroidScore asteroid in
  (mkResolveCollisionResult
     (destroyedPlayers result)
     (destroyedAsteroids result ++ [BulletAsteroidCollision.asteroidId collision])
     (destroyedBullets result ++ [BulletAsteroidCollision.bulletId collision])
     (newAsteroids result ++ newAsteroids')
     (scoreUpdates result ++ [ScoreUpdate.mk (Bullet.playerId bullet) score])
     (particleEffects result ++
        [ParticleEffect.mk (Vec2.copy (position (Asteroid.transform asteroid)))
                           "explosion" 6;
         ParticleEffect.mk (Vec2.copy (position (Bullet.transform bullet)))
                           "bulletHit" 3]),
   store).

(** One turn of the player-bullet loop. *)
Definition resolve_playerBullet (currentTime : R)
    (acc : ResolveCollisionResult * Store) (collision : PlayerBulletCollision.t)
  : ResolveCollisionResult * Store :=
  let '(result, store) := acc in
  let player := PlayerBulletCollision.player collision in
  let bullet := PlayerBulletCollision.bullet collision in
  let destroyedBullets' :=
    destroyedBullets result ++ [PlayerBulletCollision.bulletId collision] in
  let '(player', playerDestroyed) :=
    damagePlayerFromCollision (store player) 25 currentTime in
  let store' := assign store player player' in
  let hit :=
    ParticleEffect.mk (Vec2.copy (position (Bullet.transform bullet))) "bulletHit" 2 in
  if playerDestroyed then
    (mkResolveCollisionResult
       (destroyedPlayers result ++ [PlayerBulletCollision.playerId collision])
       (destroyedAsteroids result)
       destroyedBullets'
       (newAsteroids result)
       (scoreUpdates result)
       (particleEffects result ++
          [ParticleEffect.mk (Vec2.copy (position (Player.transform player')))
                             "explosion" 6;
           hit]),
     store')
  else
    (mkResolveCollisionResult
       (destroyedPlayers result)
       (destroyedAsteroids result)
       destroyedBullets'
       (newAsteroids result)
       (scoreUpdates result)
       (particleEffects result ++ [hit]),
     store').

(** [resolveCollisions] never reads its [players], [asteroids] and
    [bullets] arguments. *)
Definition resolveCollisions
    (events : CollisionEvents)
    (players : gmap string ref)
    (asteroids : gmap string Asteroid)
    (bullets : gmap string Bullet)
    (currentTime : R) (store : Store) : ResolveCollisionResult * Store :=
  let result := mkResolveCollisionResult [] [] [] [] [] [] in
  let acc1 :=
    fold_left (resolve_playerAsteroid currentTime)
              (playerAsteroidCollisions events) (result, store) in
  let acc2 :=
    fold_left resolve_bulletAsteroid (bulletAsteroidCollisions events) acc1 in
  fold_left (resolve_playerBullet currentTime) (playerBulletCollisions events) acc2.

(** ** [shared/src/simulation/gameWorld.ts]: input handling *)

Module GameWorld.

Record t : Type := mk {
  players : gmap string ref;
  asteroids : gmap string Asteroid;
  bullets : gmap string Bullet;
  particles : gmap string Particle;
  tick : R;
  lastUpdate : R
}.

(** The world together with what its methods act on besides it: the store
    of player objects and the index of the next random draw. *)
Record state : Type := mkState {
  heap : Store;
  rng : nat;
  world : t
}.

Definition set_bullets (w : t) (v : gmap string Bullet) : t :=
  mk (players w) (asteroids w) v (particles w) (tick w) (lastUpdate w).

Definition set_particles (w : t) (v : gmap string Particle) : t :=
  mk (players w) (asteroids w) (bullets w) v (tick w) (lastUpdate w).

(** The call site passes [player.velocity.linear] as a fifth argument, which
    the four-parameter [createBullet] does not receive. *)
Definition shootBullet `{Oracle} (s : state) (player : ref) (currentTime : R) : state :=
  let p := heap s player in
  let bulletDirection := Vec2.fromAngle (rotation (Player.transform p)) 1 in
  let bulletStartPos :=
    Vec2.add (position (Player.transform p)) (Vec2.multiply bulletDirection 12) in
  let '(bullet, n1) :=
    createBullet (Player.id p) bulletStartPos bulletDirection currentTime (rng s) in
  mkState
    (assign (heap s) player (Player.set_lastShotTime p currentTime))
    n1
    (set_bullets (world s) (<[Bullet.id bullet := bullet]> (bullets (world s)))).

Definition processInput `{Oracle}
    (s : state) (playerId : string) (input : InputState) (currentTime : R) : state :=
  match players (world s) !! playerId with
  | None => s
  | Some player =>
      if negb (Player.isAlive (heap s player)) then s
      else if shoot input && canPlayerShoot (heap s player) currentTime
      then shootBullet s player currentTime
      else s
  end.

(** The method [GameWorld.updatePlayerMovement]. *)
Definition updatePlayerMovement `{Oracle}
    (s : state) (playerId : string) (input : InputState) (deltaTime : R) : state :=
  match players (world s) !! playerId with
  | None => s
  | Some player =>
      if negb (Player.isAlive (heap s player)) then s
      else
        let p := updatePlayerMovement (heap s player) input deltaTime in
        let heap1 := assign (heap s) player p in
        if thrust input then
          let thrustDirection :=
            Vec2.fromAngle (rotation (Player.transform p) + PI) 1 in
          let thrustPosition :=
            Vec2.add (position (Player.transform p)) (Vec2.multiply thrustDirection 8) in
          let '(speed, n1) := randomFloat 50 100 (rng s) in
          let thrustVelocity :=
            Vec2.add (Vec2.multiply thrustDirection speed)
                     (Vec2.multiply (linear (Player.velocity p)) (5 / 10)) in
          let '(particle, n2) := createParticle thrustPosition thrustVelocity THRUST None n1 in
          mkState heap1 n2
            (set_particles (world s)
               (<[Particle.id particle := particle]> (particles (world s))))
        else mkState heap1 (rng s) (world s)
  end.

End GameWorld.

(** ** [server/src/types.ts] and [server/src/room/Room.ts] *)

Module ClientInputEntry.
Record t : Type := mk {
  sequence : R;
  timestamp : R;
  input : InputState;
  processed : bool
}.
Definition set_processed (e : t) (v : bool) : t :=
  mk (sequence e) (timestamp e) (input e) v.
End ClientInputEntry.

(** The socket, room id and last ping of a connection are not read by the
    code modelled here. *)
Module ClientConnection.
Record t : Type := mk {
  id : string;
  player : option ref;
  inputBuffer : list ClientInputEntry.t;
  acknowledged : R
}.
End ClientConnection.

Module Room.

(** [clients] is a [Map] iterated in insertion order. *)
Record t : Type := mk {
  clients : list (string * ClientConnection.t);
  lastTick : R;
  isActive : bool
}.

(** The room, its world and the index of the next [Date.now()]. *)
Record state : Type := mkState {
  game : GameWorld.state;
  clock : nat;
  room : t
}.

(** [Array.prototype.shift] *)
Definition shift {A : Type} (l : list A) : list A := List.tl l.

(** What [processInput] does to the connection it finds. *)
Definition buffer_input (client : ClientConnection.t)
    (sequence timestamp : R) (input : InputState) : ClientConnection.t :=
  match ClientConnection.player client with
  | None => client
  | Some _ =>
      let inputEntry := ClientInputEntry.mk sequence timestamp input false in
      let buffer1 := ClientConnection.inputBuffer client ++ [inputEntry] in
      let buffer2 :=
        if Nat.ltb 60 (List.length buffer1) then shift buffer1 else buffer1 in
      ClientConnection.mk
        (ClientConnection.id client)
        (ClientConnection.player client)
        buffer2
        (if Num.ltb (ClientConnection.acknowledged client) sequence
         then sequence else ClientConnection.acknowledged client)
  end.

(** The public [processInput(clientId, inputData)]: the connection stored
    under [clientId], if any, buffers the record. *)
Definition processInput (r : t) (clientId : string)
    (sequence timestamp : R) (input : InputState) : t :=
  mk (List.map
        (fun entry : string * ClientConnection.t =>
           if String.eqb (fst entry) clientId
           then (fst entry, buffer_input (snd entry) sequence timestamp input)
           else entry)
        (clients r))
     (lastTick r) (isActive r).

(** One turn of the loop of [processClientInput] over the buffer: the world
    after the record and the record as it is left in the buffer. *)
Definition process_entry `{Oracle} (clientId : string) (deltaTime : R)
    (acc : GameWorld.state * list ClientInputEntry.t) (inputEntry : ClientInputEntry.t)
  : GameWorld.state * list ClientInputEntry.t :=
  let '(s, done) := acc in
  if negb (ClientInputEntry.processed inputEntry) then
    let s1 := GameWorld.processInput s clientId
                (ClientInputEntry.input inputEntry)
                (ClientInputEntry.timestamp inputEntry) in
    let s2 := GameWorld.updatePlayerMovement s1 clientId
                (ClientInputEntry.input inputEntry) deltaTime in
    (s2, done ++ [ClientInputEntry.set_processed inputEntry true])
  else (s, done ++ [inputEntry]).

Definition processClientInput `{Oracle}
    (s : GameWorld.state) (clk : nat) (client : ClientConnection.t) (deltaTime : R)
  : GameWorld.state * nat * ClientConnection.t :=
  match ClientConnection.player client with
  | None => (s, clk, client)
  | Some player =>
      if negb (Player.isAlive (GameWorld.heap s player)) then (s, clk, client)
      else
        let '(s', buffer) :=
          fold_left (process_entry (ClientConnection.id client) deltaTime)
                    (ClientConnection.inputBuffer client) (s, []) in
        let cutoff := Date_now clk - 1000 in
        (s', S clk,
         ClientConnection.mk
           (ClientConnection.id client)
           (ClientConnection.player client)
           (List.filter (fun e => Num.ltb cutoff (ClientInputEntry.timestamp e)) buffer)
           (ClientConnection.acknowledged client))
  end.

(** One turn of the loop of [tick] over the clients. *)
Definition tick_client `{Oracle} (deltaTime : R)
    (acc : GameWorld.state * nat * list (string * ClientConnection.t))
    (entry : string * ClientConnection.t)
  : GameWorld.state * nat * list (string * ClientConnection.t) :=
  let '(s, clk, done) := acc in
  let '(s', clk', client') := processClientInput s clk (snd entry) deltaTime in
  (s', clk', done ++ [(fst entry, client')]).

(** [tick] up to and including the processing of the input buffers; the
    world update and the acknowledgements that follow it are not part of
    this model. *)
Definition tick_inputs `{Oracle} (st : state) : state :=
  let now := Date_now (clock st) in
  let deltaTime := (now - lastTick (room st)) / 1000 in
  let '(s', clk', clients') :=
    fold_left (tick_client deltaTime) (clients (room st))
              (game st, S (clock st), []) in
  mkState s' clk' (mk clients' now (isActive (room st))).

End Room.

(** ** [client/src/game/ClientPrediction.ts] *)

Module PredictionInput.
Record t : Type := mk {
  sequence : R;
  timestamp : R;
  input : InputState;
  processed : bool
}.
End PredictionInput.

(** The [Partial<Player>] built by [reconcile]. *)
Module PredictedState.
Record t : Type := mk {
  id : string;
  transform : Transform;
  velocity : Velocity;
  isAlive : bool
}.
End PredictedState.

(** The [playerCopy] of [applyInputToState]. *)
Module PlayerCopy.
Record t : Type := mk {
  transform : Transform;
  velocity : Velocity
}.
End PlayerCopy.

#[export] Instance PlayerCopy_Movable : Movable PlayerCopy.t :=
  {| get_transform := PlayerCopy.transform;
     get_velocity := PlayerCopy.velocity;
     put_transform := fun c t => PlayerCopy.mk t (PlayerCopy.velocity c);
     put_velocity := fun c v => PlayerCopy.mk (PlayerCopy.transform c) v |}.

Module ClientPrediction.

Record t : Type := mk {
  playerId : option string;
  inputBuffer : list PredictionInput.t;
  sequenceNumber : R;
  lastAcknowledgedSequence : R;
  predictedState : option PredictedState.t
}.

Definition setPlayerId (c : t) (playerId : string) : t :=
  mk (Some playerId) (inputBuffer c) (sequenceNumber c)
     (lastAcknowledgedSequence c) (predictedState c).

Definition applyInput `{Oracle}
    (c : t) (clk : nat) (playerId : string) (inputState : InputState) : t * nat :=
  match ClientPrediction.playerId c with
  | None => (c, clk)
  | Some own =>
      if String.eqb own "" || negb (String.eqb own playerId) then (c, clk)
      else
        let sequenceNumber' := sequenceNumber c + 1 in
        let inputEntry :=
          PredictionInput.mk sequenceNumber' (Date_now clk) inputState false in
        let buffer1 := inputBuffer c ++ [inputEntry] in
        let buffer2 :=
          if Nat.ltb 60 (List.length buffer1) then Room.shift buffer1 else buffer1 in
        (mk (ClientPrediction.playerId c) buffer2 sequenceNumber'
            (lastAcknowledgedSequence c) (predictedState c),
         S clk)
  end.

Definition applyInputToState (player : PredictedState.t) (input : InputState)
  : PredictedState.t :=
  let deltaTime := GAME_CONFIG.FIXED_TIMESTEP in
  let playerCopy :=
    PlayerCopy.mk
      (mkTransform (Vec2.copy (position (PredictedState.transform player)))
                   (rotation (PredictedState.transform player)))
      (mkVelocity (Vec2.copy (linear (PredictedState.velocity player)))
                  (angular (PredictedState.velocity player))) in
  let playerCopy' := updatePlayerMovement playerCopy input deltaTime in
  PredictedState.mk
    (PredictedState.id player)
    (mkTransform (position (PlayerCopy.transform playerCopy'))
                 (rotation (PlayerCopy.transform playerCopy')))
    (mkVelocity (linear (PlayerCopy.velocity playerCopy'))
                (angular (PlayerCopy.velocity playerCopy')))
    (PredictedState.isAlive player).

(** One turn of the replay loop of [reconcile]. *)
Definition replay_entry (predicted : PredictedState.t) (inputEntry : PredictionInput.t)
  : PredictedState.t :=
  if PredictedState.isAlive predicted
  then applyInputToState predicted (PredictionInput.input inputEntry)
  else predicted.

(** [snapshot.players] is the only part of the snapshot that is read.  An
    empty [playerId] is as good as none ([!this.playerId]). *)
Definition reconcile (c : t) (snapshot_players : list Player) : t :=
  match playerId c with
  | None => c
  | Some own =>
      if String.eqb own "" then c else
      match List.find (fun p => String.eqb (Player.id p) own) snapshot_players with
      | None => c
      | Some serverPlayer =>
          let unprocessedInputs :=
            List.filter
              (fun input => Num.ltb (lastAcknowledgedSequence c)
                                    (PredictionInput.sequence input))
              (inputBuffer c) in
          let predicted0 :=
            PredictedState.mk
              (Player.id serverPlayer)
              (mkTransform (Vec2.copy (position (Player.transform serverPlayer)))
                           (rotation (Player.transform serverPlayer)))
              (mkVelocity (Vec2.copy (linear (Player.velocity serverPlayer)))
                          (angular (Player.velocity serverPlayer)))
              (Player.isAlive serverPlayer) in
          mk (playerId c) (inputBuffer c) (sequenceNumber c)
             (lastAcknowledgedSequence c)
             (Some (fold_left replay_entry unprocessedInputs predicted0))
      end
  end.

Definition acknowledgeSequence (c : t) (sequence : R) : t :=
  mk (playerId c) (inputBuffer c) (sequenceNumber c)
     (Rmax (lastAcknowledgedSequence c) sequence) (predictedState c).

End ClientPrediction.

(** ** Predicates and example data used by the statements below *)

(** What [splitAsteroid] promises of a child of [parent]. *)
Definition child_of (parent : Asteroid) (newSize : AsteroidSize) (c : Asteroid) : Prop :=
  Asteroid.size c = newSize /\
  Asteroid.radius c = RADIUS (ASTEROID_CONFIG newSize) /\
  MIN_SPEED (ASTEROID_CONFIG newSize)
    <= Vec2.length (linear (Asteroid.velocity c))
    <= MAX_SPEED (ASTEROID_CONFIG newSize) /\
  Asteroid.radius parent + Asteroid.radius c
    <= Vec2.distance (position (Asteroid.transform c))
                     (position (Asteroid.transform parent)).

(** An oracle for the examples below: every draw is one half, the clock
    stands at zero. *)
Definition halves : Oracle :=
  {| Math_random := fun _ => 1 / 2;
     Date_now := fun _ => 0;
     toString36 := fun _ => "0.i"%string |}.

(** The scenario's LARGE asteroid at [(100, 100)], at rest. *)
Definition large_rock : Asteroid :=
  Asteroid.mk "rock" (mkTransform (mkVector2 100 100) 0)
              (mkVelocity (mkVector2 0 0) 0) LARGE 40.

(** The gate of [damagePlayerFromCollision]: closed for a player who is
    invulnerable at [t] or not alive. *)
Definition shielded (t : R) (p : Player) : Prop :=
  t < Player.invulnerableUntil p \/ Player.isAlive p = false.

(** What a resolution pass at time [t] may have done to a player who was
    [p0] when the pass began. *)
Definition pass_inv (t : R) (p0 p : Player) : Prop :=
  Player.lives p0 - Player.lives p <= 1 /\
  (Player.lives p <> Player.lives p0 -> Player.isAlive p = false) /\
  (0 <= Player.health p0 -> 0 <= Player.health p) /\
  Player.invulnerableUntil p = Player.invulnerableUntil p0 /\
  (Player.isAlive p0 = false -> Player.isAlive p = false) /\
  (shielded t p0 ->
     Player.health p = Player.health p0 /\
     Player.lives p = Player.lives p0 /\
     Player.isAlive p = Player.isAlive p0).

(** The scenario's bullet, fired by player [P], at [(100, 100)] as well. *)
Definition scenario_bullet : Bullet :=
  Bullet.mk "shot" "P" (mkTransform (mkVector2 100 100) 0) (mkVector2 900 0) 0 3000.

Definition scenario_events : CollisionEvents :=
  mkCollisionEvents
    []
    [BulletAsteroidCollision.mk "shot" "rock" scenario_bullet large_rock]
    [].

(** The scenario's player with one life left. *)
Definition last_life : Player :=
  Player.mk "P" "pilot" (mkTransform (mkVector2 10 10) 0)
            (mkVelocity (mkVector2 0 0) 0) 100 0 1 true 0 0 0.

(** The part of a player that [updatePlayerMovement] acts on. *)
Definition kin (p : Player) : PlayerCopy.t :=
  PlayerCopy.mk (Player.transform p) (Player.velocity p).

(** The same part of the client's predicted player. *)
Definition predicted_kin (p : PredictedState.t) : PlayerCopy.t :=
  PlayerCopy.mk (PredictedState.transform p) (PredictedState.velocity p).

(** The inputs replayed one after the other through
    [updatePlayerMovement], each over the same [deltaTime]. *)
Definition replay (deltaTime : R) (inputs : list InputState) (k : PlayerCopy.t)
  : PlayerCopy.t :=
  fold_left (fun b i => updatePlayerMovement b i deltaTime) inputs k.

(** The inputs of the records of a buffer that are still to be processed. *)
Definition pending (buffer : list ClientInputEntry.t) : list InputState :=
  List.map ClientInputEntry.input
    (List.filter (fun e => negb (ClientInputEntry.processed e)) buffer).

(** A record as [processClientInput] leaves it in the buffer. *)
Definition mark (e : ClientInputEntry.t) : ClientInputEntry.t :=
  if negb (ClientInputEntry.processed e)
  then ClientInputEntry.set_processed e true
  else e.

(** The reading of the specification that the code is compared with in
    C3: each record is integrated over the time elapsed, in seconds, between
    the previously processed record ([prev] for the first one) and the
    record's own timestamp. *)
Fixpoint replay_own_deltas (prev : R) (buffer : list ClientInputEntry.t)
    (k : PlayerCopy.t) : PlayerCopy.t :=
  match buffer with
  | [] => k
  | e :: rest =>
      replay_own_deltas (ClientInputEntry.timestamp e) rest
        (updatePlayerMovement k (ClientInputEntry.input e)
           ((ClientInputEntry.timestamp e - prev) / 1000))
  end.

(** What a step of the server's input pass preserves, seen from reference
    [r]: the world's player table and [r]'s aliveness. *)
Definition same_cast (r : ref) (s s' : GameWorld.state) : Prop :=
  GameWorld.players (GameWorld.world s') = GameWorld.players (GameWorld.world s) /\
  Player.isAlive (GameWorld.heap s' r) = Player.isAlive (GameWorld.heap s r).

(** An oracle whose clock stands at 2000 ms. *)
Definition at_2000 : Oracle :=
  {| Math_random := fun _ => 1 / 2;
     Date_now := fun _ => 2000;
     toString36 := fun _ => "0.i"%string |}.

(** A player at rest at the origin of the world. *)
Definition pilot : Player :=
  Player.mk "P" "pilot" (mkTransform (mkVector2 0 0) 0)
            (mkVelocity (mkVector2 0 0) 0) 100 0 3 true 0 0 0.

Definition idle : InputState := mkInputState false 0 false false.
Definition turn : InputState := mkInputState false 1 false false.

(** A room whose last tick was at 1983 ms, with one client whose buffer
    holds an idle record stamped 1000 ms and a turning record stamped
    1500 ms, both still to be processed. *)
Definition burst : list ClientInputEntry.t :=
  [ClientInputEntry.mk 1 1000 idle false; ClientInputEntry.mk 2 1500 turn false].

Definition burst_room : Room.state :=
  Room.mkState
    (GameWorld.mkState (fun _ => pilot) 0
       (GameWorld.mk {["P"%string := 0%nat]} ∅ ∅ ∅ 0 0))
    0
    (Room.mk [("P"%string, ClientConnection.mk "P" (Some 0%nat) burst 2)] 1983 true).

(** A room like [burst_room] whose player is not alive. *)
Definition wreck : Player :=
  Player.mk "P" "pilot" (mkTransform (mkVector2 0 0) 0)
            (mkVelocity (mkVector2 0 0) 0) 0 0 2 false 0 0 0.

Definition wreck_room : Room.state :=
  Room.mkState
    (GameWorld.mkState (fun _ => wreck) 0
       (GameWorld.mk {["P"%string := 0%nat]} ∅ ∅ ∅ 0 0))
    0
    (Room.mk [("P"%string, ClientConnection.mk "P" (Some 0%nat) burst 2)] 1983 true).

(** The client of [burst_room]: the same two inputs, buffered and not yet
    acknowledged. *)
Definition burst_prediction : ClientPrediction.t :=
  ClientPrediction.mk (Some "P"%string)
    [PredictionInput.mk 1 1000 idle false; PredictionInput.mk 2 1500 turn false]
    2 0 None.

(** The spatial hashes that the operations of the class can build, starting
    from [new SpatialHash(cellSize)]. *)
Inductive reachable (cellSize : R) : SpatialHash.t -> Prop :=
| reachable_create : reachable cellSize (SpatialHash.create cellSize)
| reachable_insert id position radius h :
    reachable cellSize h ->
    reachable cellSize (SpatialHash.insert id position radius h)
| reachable_remove id h :
    reachable cellSize h -> reachable cellSize (SpatialHash.remove id h)
| reachable_clear h :
    reachable cellSize h -> reachable cellSize (SpatialHash.clear h).

(** [x] is a member of the bucket of cell [key]. *)
Definition in_bucket (cs : gmap (Z * Z) (list string)) (key : Z * Z) (x : string) : Prop :=
  exists cell, cs !! key = Some cell /\ x ∈ cell.

(** Every stored object was filed under the cells of its bounding square
    and sits in the bucket of each of them. *)
Definition indexed (h : SpatialHash.t) : Prop :=
  forall id obj,
    SpatialHash.objects h !! id = Some obj ->
    SpatialHash.cellKeys obj
    = SpatialHash.getCellsForObject (SpatialHash.cellSize h)
        (SpatialHash.position obj) (SpatialHash.radius obj) /\
    forall key, key ∈ SpatialHash.cellKeys obj -> in_bucket (SpatialHash.cells h) key id.

(** A fresh index of cell size 100 holding one asteroid of radius 40. *)
Definition one_rock_index : SpatialHash.t :=
  SpatialHash.insert "asteroid_rock" (mkVector2 150 150) 40
    (SpatialHash.create PHYSICS_CONFIG.SPATIAL_HASH_CELL_SIZE).

(** * More of the code *)

(** ** [shared/src/utils.ts]: the circular buffer

    The backing array [new Array(capacity)] is a list of cells, a cell being
    a value or a hole ([undefined]).  Indices are natural numbers and [%] on
    them is [mod]; [capacity] is meant positive, as in every
    [new CircularBuffer(60)] of the code (for capacity 0 the indices of the
    original become [NaN], which is not followed here). *)

Module CircularBuffer.

Record t (T : Type) : Type := mk {
  capacity : nat;
  buffer : list (option T);
  head : nat;
  tail : nat;
  size : nat
}.
Arguments mk {T} _ _ _ _ _.
Arguments capacity {T} _.
Arguments buffer {T} _.
Arguments head {T} _.
Arguments tail {T} _.
Arguments size {T} _.

(** [array[i] = v]: an assignment past the end extends the array. *)
Definition array_set {T : Type} (i : nat) (v : option T) (array : list (option T))
  : list (option T) :=
  if Nat.ltb i (List.length array) then <[i := v]> array
  else array ++ replicate (i - List.length array) None ++ [v].

(** [array[i]]: a hole and an index past the end both read [undefined]. *)
Definition array_get {T : Type} (array : list (option T)) (i : nat) : option T :=
  match array !! i with
  | Some v => v
  | None => None
  end.

(** [new CircularBuffer(capacity)] *)
Definition create {T : Type} (capacity : nat) : t T :=
  mk capacity (replicate capacity None) 0 0 0.

Definition push {T : Type} (item : T) (b : t T) : t T :=
  let buffer' := array_set (tail b) (Some item) (buffer b) in
  let tail' := ((tail b + 1) mod capacity b)%nat in
  if Nat.ltb (size b) (capacity b)
  then mk (capacity b) buffer' (head b) tail' (size b + 1)
  else mk (capacity b) buffer' ((head b + 1) mod capacity b)%nat tail' (size b).

(** [(tail - 1 + capacity) % capacity], written without passing below
    zero. *)
Definition before_tail {T : Type} (b : t T) : nat :=
  ((tail b + capacity b - 1) mod capacity b)%nat.

Definition pop {T : Type} (b : t T) : option T * t T :=
  if Nat.eqb (size b) 0 then (None, b)
  else
    let tail' := before_tail b in
    let item := array_get (buffer b) tail' in
    (item, mk (capacity b) (buffer b) (head b) tail' (size b - 1)).

Definition peek {T : Type} (b : t T) : option T :=
  if Nat.eqb (size b) 0 then None
  else array_get (buffer b) (before_tail b).

(** [get(index)] for an index that is a natural number. *)
Definition get {T : Type} (index : nat) (b : t T) : option T :=
  if Nat.leb (size b) index then None
  else array_get (buffer b) ((head b + index) mod capacity b)%nat.

Definition clear {T : Type} (b : t T) : t T :=
  mk (capacity b) (buffer b) 0 0 0.

Definition toArray {T : Type} (b : t T) : list (option T) :=
  List.map (fun i => array_get (buffer b) ((head b + i) mod capacity b)%nat)
           (seq 0 (size b)).

Definition length {T : Type} (b : t T) : nat := size b.
Definition isFull {T : Type} (b : t T) : bool := Nat.eqb (size b) (capacity b).
Definition isEmpty {T : Type} (b : t T) : bool := Nat.eqb (size b) 0.

End CircularBuffer.


(** ** [shared/src/simulation/entities.ts]: the other entities *)

Definition updateAsteroid (asteroid : Asteroid) (deltaTime : R) : Asteroid :=
  let transform := Asteroid.transform asteroid in
  let velocity := Asteroid.velocity asteroid in
  (* Update rotation *)
  let rotation1 := rotation transform + angular velocity * deltaTime in
  (* Update position *)
  let deltaPos := Vec2.multiply (linear velocity) deltaTime in
  let position1 := Vec2.add (position transform) deltaPos in
  (* Wrap around world boundaries *)
  let position2 :=
    wrapPosition position1 GAME_CONFIG.WORLD_WIDTH GAME_CONFIG.WORLD_HEIGHT in
  Asteroid.mk (Asteroid.id asteroid) (mkTransform position2 rotation1) velocity
    (Asteroid.size asteroid) (Asteroid.radius asteroid).

(** The bullet after the call, and the returned flag. *)
Definition updateBullet (bullet : Bullet) (deltaTime : R) : Bullet * bool :=
  let transform := Bullet.transform bullet in
  let velocity := Bullet.velocity bullet in
  let deltaPos := Vec2.multiply velocity deltaTime in
  let position1 := Vec2.add (position transform) deltaPos in
  let position2 :=
    wrapPosition position1 GAME_CONFIG.WORLD_WIDTH GAME_CONFIG.WORLD_HEIGHT in
  let lifetime1 := Bullet.lifetime bullet - deltaTime * 1000 in
  (Bullet.mk (Bullet.id bullet) (Bullet.playerId bullet)
     (mkTransform position2 (rotation transform)) velocity
     (Bullet.createdAt bullet) lifetime1,
   Num.ltb 0 lifetime1).

(** The particle after the call, and the returned flag.  [lifetimeRatio]
    is computed and not used. *)
Definition updateParticle (particle : Particle) (deltaTime : R) : Particle * bool :=
  let transform := Particle.transform particle in
  let velocity := Particle.velocity particle in
  let deltaPos := Vec2.multiply velocity deltaTime in
  let position1 := Vec2.add (position transform) deltaPos in
  let lifetime1 := Particle.lifetime particle - deltaTime * 1000 in
  let velocity1 :=
    match Particle.type particle with
    | EXPLOSION => {| x := x velocity * (95 / 100); y := y velocity * (95 / 100) |}
    | _ => velocity
    end in
  (Particle.mk (Particle.id particle)
     (mkTransform position1 (rotation transform)) velocity1
     lifetime1 (Particle.maxLifetime particle) (Particle.type particle),
   Num.ltb 0 lifetime1).

Definition respawnPlayer (player : Player) (position : Vector2) (currentTime : R) : Player :=
  Player.mk (Player.id player) (Player.name player)
    (mkTransform (Vec2.copy position) 0)
    (mkVelocity Vec2.zero 0)
    PLAYER_CONFIG.MAX_HEALTH
    (Player.score player)
    (Player.lives player)
    true
    (Player.lastInputSequence player)
    (currentTime + PLAYER_CONFIG.INVULNERABILITY_TIME)
    (Player.lastShotTime player).

(** The player after the call, and the returned flag. *)
Definition damagePlayer (player : Player) (damage currentTime : R) : Player * bool :=
  if isPlayerInvulnerable player currentTime || negb (Player.isAlive player)
  then (player, false)
  else
    let player1 := Player.set_health player (Player.health player - damage) in
    if Num.leb (Player.health player1) 0 then
      let player2 := Player.set_health player1 0 in
      let player3 := Player.set_isAlive player2 false in
      let player4 := Player.set_lives player3 (Rmax 0 (Player.lives player3 - 1)) in
      (player4, true)
    else (player1, false).

(** ** [shared/src/simulation/collision.ts]: detection

    A [Map] is iterated in the order of insertion; the three maps passed to
    [update] are the lists of their entries in that order, the keys of a
    list being distinct.  The entry of a player holds the reference to the
    player object, which the events pass on. *)

Module CollisionSystem.

Record t : Type := mk { spatialHash : SpatialHash.t }.

(** The constructor. *)
Definition create : t :=
  mk (SpatialHash.create PHYSICS_CONFIG.SPATIAL_HASH_CELL_SIZE).

(** [Map.prototype.get] *)
Definition get {A : Type} (m : list (string * A)) (key : string) : option A :=
  option_map snd (List.find (fun e => String.eqb (fst e) key) m).

(** [String.prototype.startsWith], and [substring] with a start only. *)
Definition startsWith (s searchString : string) : bool := String.prefix searchString s.

Definition substring (s : string) (start : nat) : string :=
  String.substring start (String.length s - start) s.

Definition checkPlayerAsteroidCollision (player : Player) (asteroid : Asteroid) : bool :=
  collided
    (circleCircleCollision
       (position (Player.transform player)) PLAYER_CONFIG.RADIUS
       (position (Asteroid.transform asteroid)) (Asteroid.radius asteroid)).

Definition checkBulletAsteroidCollision (bullet : Bullet) (asteroid : Asteroid) : bool :=
  collided
    (circleCircleCollision
       (position (Bullet.transform bullet)) 2
       (position (Asteroid.transform asteroid)) (Asteroid.radius asteroid)).

Definition checkPlayerBulletCollision (player : Player) (bullet : Bullet) : bool :=
  collided
    (circleCircleCollision
       (position (Player.transform player)) PLAYER_CONFIG.RADIUS
       (position (Bullet.transform bullet)) 2).

(** One turn of each of the three loops that fill the spatial hash. *)
Definition insert_player (store : Store) (h : SpatialHash.t) (entry : string * ref)
  : SpatialHash.t :=
  let player := store (snd entry) in
  if Player.isAlive player
  then SpatialHash.insert (String.append "player_" (fst entry))
         (position (Player.transform player)) PLAYER_CONFIG.RADIUS h
  else h.

Definition insert_asteroid (h : SpatialHash.t) (entry : string * Asteroid)
  : SpatialHash.t :=
  SpatialHash.insert (String.append "asteroid_" (fst entry))
    (position (Asteroid.transform (snd entry))) (Asteroid.radius (snd entry)) h.

Definition insert_bullet (h : SpatialHash.t) (entry : string * Bullet) : SpatialHash.t :=
  SpatialHash.insert (String.append "bullet_" (fst entry))
    (position (Bullet.transform (snd entry))) 2 h.

(** What each of the three inner loops pushes for one candidate. *)
Definition playerAsteroid_candidate (store : Store) (asteroids : list (string * Asteroid))
    (playerId : string) (player : ref) (candidateId : string)
  : list PlayerAsteroidCollision.t :=
  if startsWith candidateId "asteroid_" then
    let asteroidId := substring candidateId 9 in
    match get asteroids asteroidId with
    | Some asteroid =>
        if checkPlayerAsteroidCollision (store player) asteroid
        then [PlayerAsteroidCollision.mk playerId asteroidId player asteroid]
        else []
    | None => []
    end
  else [].

Definition bulletAsteroid_candidate (asteroids : list (string * Asteroid))
    (bulletId : string) (bullet : Bullet) (candidateId : string)
  : list BulletAsteroidCollision.t :=
  if startsWith candidateId "asteroid_" then
    let asteroidId := substring candidateId 9 in
    match get asteroids asteroidId with
    | Some asteroid =>
        if checkBulletAsteroidCollision bullet asteroid
        then [BulletAsteroidCollision.mk bulletId asteroidId bullet asteroid]
        else []
    | None => []
    end
  else [].

Definition playerBullet_candidate (store : Store) (bullets : list (string * Bullet))
    (playerId : string) (player : ref) (candidateId : string)
  : list PlayerBulletCollision.t :=
  if startsWith candidateId "bullet_" then
    let bulletId := substring candidateId 7 in
    match get bullets bulletId with
    | Some bullet =>
        if negb (String.eqb (Bullet.playerId bullet) playerId)
           && checkPlayerBulletCollision (store player) bullet
        then [PlayerBulletCollision.mk playerId bulletId player bullet]
        else []
    | None => []
    end
  else [].

(** The events in the order in which the loops push them, and the system
    with the hash as [update] leaves it. *)
Definition update (store : Store)
    (players : list (string * ref))
    (asteroids : list (string * Asteroid))
    (bullets : list (string * Bullet))
    (c : t) : CollisionEvents * t :=
  let h0 := SpatialHash.clear (spatialHash c) in
  let h1 := fold_left (insert_player store) players h0 in
  let h2 := fold_left insert_asteroid asteroids h1 in
  let h3 := fold_left insert_bullet bullets h2 in
  let around (player : ref) :=
    SpatialHash.query (position (Player.transform (store player)))
      PLAYER_CONFIG.RADIUS h3 in
  (mkCollisionEvents
     (flat_map
        (fun entry : string * ref =>
           if negb (Player.isAlive (store (snd entry))) then []
           else flat_map (playerAsteroid_candidate store asteroids (fst entry) (snd entry))
                         (around (snd entry)))
        players)
     (flat_map
        (fun entry : string * Bullet =>
           flat_map (bulletAsteroid_candidate asteroids (fst entry) (snd entry))
                    (SpatialHash.query (position (Bullet.transform (snd entry))) 2 h3))
        bullets)
     (flat_map
        (fun entry : string * ref =>
           if negb (Player.isAlive (store (snd entry))) then []
           else flat_map (playerBullet_candidate store bullets (fst entry) (snd entry))
                         (around (snd entry)))
        players),
   mk h3).

End CollisionSystem.

(** ** [entities.ts]: the configuration of a particle, as it is looked up

    [createParticle] reads [PARTICLE_CONFIG[type.toUpperCase()]].  The
    values of the enum [ParticleType] are ['thrust'], ['explosion'] and
    ['bulletHit']; the keys of [PARTICLE_CONFIG] are [THRUST], [EXPLOSION]
    and [BULLET_HIT]. *)

Definition ParticleType_value (type : ParticleType) : string :=
  match type with
  | THRUST => "thrust"
  | EXPLOSION => "explosion"
  | BULLET_HIT => "bulletHit"
  end.

(** [effect.type as ParticleType]: the member of which the string is the
    value, if it is one. *)
Definition as_ParticleType (type : string) : option ParticleType :=
  if String.eqb type "thrust" then Some THRUST
  else if String.eqb type "explosion" then Some EXPLOSION
  else if String.eqb type "bulletHit" then Some BULLET_HIT
  else None.

(** [String.prototype.toUpperCase] on the letters [a] to [z]. *)
Definition toUpperCase_char (c : Ascii.ascii) : Ascii.ascii :=
  let n := Ascii.nat_of_ascii c in
  if Nat.leb 97 n && Nat.leb n 122 then Ascii.ascii_of_nat (n - 32) else c.

Fixpoint toUpperCase (s : string) : string :=
  match s with
  | EmptyString => EmptyString
  | String c rest => String (toUpperCase_char c) (toUpperCase rest)
  end.

(** [PARTICLE_CONFIG[key]]: [undefined] for a string that is no key. *)
Definition PARTICLE_CONFIG_at (key : string) : option ParticleConfig :=
  if String.eqb key "THRUST" then Some (PARTICLE_CONFIG THRUST)
  else if String.eqb key "EXPLOSION" then Some (PARTICLE_CONFIG EXPLOSION)
  else if String.eqb key "BULLET_HIT" then Some (PARTICLE_CONFIG BULLET_HIT)
  else None.

Module Keyed.

(** [createParticle] with the configuration looked up under the key
    [type.toUpperCase()].  [lifetime || config.LIFETIME] reads
    [config.LIFETIME] only for an absent or zero [lifetime]; where [config]
    is [undefined] this read throws a [TypeError], here [None]. *)
Definition createParticle `{Oracle}
    (position velocity : Vector2) (type : ParticleType) (lifetime : option R) (n : nat)
  : option (Particle * nat) :=
  let config := PARTICLE_CONFIG_at (toUpperCase (ParticleType_value type)) in
  let particleLifetime :=
    match lifetime with
    | Some l => if Num.eqb l 0 then option_map LIFETIME config else Some l
    | None => option_map LIFETIME config
    end in
  match particleLifetime with
  | None => None
  | Some particleLifetime =>
      let '(id, n1) := generateId n in
      Some (Particle.mk id
              (mkTransform (Vec2.copy position) (Vec2.angle velocity))
              (Vec2.copy velocity)
              particleLifetime particleLifetime type,
            n1)
  end.

End Keyed.

(** ** [shared/src/simulation/gameWorld.ts]: the update of the world *)

(** How a method ends: it returns, or it throws a [TypeError]; either way
    with the state it has reached. *)
Inductive completion (A : Type) : Type :=
| Normal (a : A)
| TypeError (a : A).
Arguments Normal {A} a.
Arguments TypeError {A} a.

Module World.

(** The world with its collision system and the calls of
    [respawnPlayerSafely] that [setTimeout] holds: the id and the time
    they will be made with. *)
Record t : Type := mk {
  base : GameWorld.state;
  collisionSystem : CollisionSystem.t;
  timers : list (string * R)
}.

Definition set_asteroids (w : GameWorld.t) (v : gmap string Asteroid) : GameWorld.t :=
  GameWorld.mk (GameWorld.players w) v (GameWorld.bullets w) (GameWorld.particles w)
    (GameWorld.tick w) (GameWorld.lastUpdate w).

(** The entries of a [Map] in the order of insertion, which is the order
    [order] of its keys. *)
Definition entries {A : Type} (order : list string) (m : gmap string A)
  : list (string * A) :=
  flat_map (fun k => match m !! k with Some a => [(k, a)] | None => [] end) order.

(** The number of turns of [for (let i = 0; i < count; i++)]. *)
Definition turns (count : R) : nat := Z.to_nat (- Num.floor (- count)).

(** The loop of [createParticleEffect], with [k] turns to go. *)
Fixpoint createParticleEffect_loop `{Oracle}
    (s : GameWorld.state) (position : Vector2) (type : ParticleType) (k : nat)
  : completion GameWorld.state :=
  match k with
  | O => Normal s
  | S k' =>
      let '(velocity, n1) := randomVector2 50 200 (GameWorld.rng s) in
      match Keyed.createParticle position velocity type None n1 with
      | None => TypeError (GameWorld.mkState (GameWorld.heap s) n1 (GameWorld.world s))
      | Some (particle, n2) =>
          createParticleEffect_loop
            (GameWorld.mkState (GameWorld.heap s) n2
               (GameWorld.set_particles (GameWorld.world s)
                  (<[Particle.id particle := particle]>
                     (GameWorld.particles (GameWorld.world s)))))
            position type k'
      end
  end.

Definition createParticleEffect `{Oracle}
    (s : GameWorld.state) (position : Vector2) (type : ParticleType) (count : R)
  : completion GameWorld.state :=
  createParticleEffect_loop s position type (turns count).

(** The two loops of [findSafeSpawnPosition] over the asteroids and over
    the players only look for one entry that is too close: what they find
    does not depend on the order of the entries. *)
Definition isSafe (s : GameWorld.state) (spot : Vector2) : bool :=
  let minDistance := 100 in
  forallb
    (fun entry : string * Asteroid =>
       negb (Num.ltb
               (Vec2.distance spot (position (Asteroid.transform (snd entry))))
               (minDistance + Asteroid.radius (snd entry))))
    (map_to_list (GameWorld.asteroids (GameWorld.world s)))
  && forallb
       (fun entry : string * ref =>
          let player := GameWorld.heap s (snd entry) in
          if Player.isAlive player
          then negb (Num.ltb
                       (Vec2.distance spot (position (Player.transform player)))
                       minDistance)
          else true)
       (map_to_list (GameWorld.players (GameWorld.world s))).

(** The loop over the attempts, with [k] attempts to go. *)
Fixpoint findSafeSpawnPosition_loop `{Oracle} (s : GameWorld.state) (k : nat) (n : nat)
  : Vector2 * nat :=
  match k with
  | O => ({| x := GAME_CONFIG.WORLD_WIDTH / 2; y := GAME_CONFIG.WORLD_HEIGHT / 2 |}, n)
  | S k' =>
      let '(x0, n1) := randomFloat 100 (GAME_CONFIG.WORLD_WIDTH - 100) n in
      let '(y0, n2) := randomFloat 100 (GAME_CONFIG.WORLD_HEIGHT - 100) n1 in
      let position := {| x := x0; y := y0 |} in
      if isSafe s position then (position, n2)
      else findSafeSpawnPosition_loop s k' n2
  end.

Definition findSafeSpawnPosition `{Oracle} (s : GameWorld.state) (n : nat) : Vector2 * nat :=
  findSafeSpawnPosition_loop s 50 n.

Definition respawnPlayerSafely `{Oracle}
    (s : GameWorld.state) (playerId : string) (currentTime : R) : GameWorld.state :=
  match GameWorld.players (GameWorld.world s) !! playerId with
  | None => s
  | Some player =>
      if Num.leb (Player.lives (GameWorld.heap s player)) 0 then s
      else
        let '(spawnPosition, n1) := findSafeSpawnPosition s (GameWorld.rng s) in
        GameWorld.mkState
          (assign (GameWorld.heap s) player
             (respawnPlayer (GameWorld.heap s player) spawnPosition currentTime))
          n1 (GameWorld.world s)
  end.

(** The loop of [maintainAsteroidCount], with [k] asteroids to spawn. *)
Fixpoint maintainAsteroidCount_loop `{Oracle} (s : GameWorld.state) (k : nat)
  : GameWorld.state :=
  match k with
  | O => s
  | S k' =>
      let '(position, n1) := findSafeSpawnPosition s (GameWorld.rng s) in
      let '(velocity, n2) :=
        randomVector2 (MIN_SPEED (ASTEROID_CONFIG LARGE)) (MAX_SPEED (ASTEROID_CONFIG LARGE))
          n1 in
      let '(asteroid, n3) := createAsteroid position velocity LARGE n2 in
      maintainAsteroidCount_loop
        (GameWorld.mkState (GameWorld.heap s) n3
           (set_asteroids (GameWorld.world s)
              (<[Asteroid.id asteroid := asteroid]>
                 (GameWorld.asteroids (GameWorld.world s)))))
        k'
  end.

Definition maintainAsteroidCount `{Oracle} (s : GameWorld.state) : GameWorld.state :=
  let minAsteroids := 4%nat in
  let count := size (GameWorld.asteroids (GameWorld.world s)) in
  if Nat.ltb count minAsteroids
  then maintainAsteroidCount_loop s (minAsteroids - count)
  else s.

(** One turn of the loop of [processCollisions] over the destroyed
    players. *)
Definition destroy_player (players : gmap string ref) (currentTime : R)
    (acc : Store * list (string * R)) (playerId : string) : Store * list (string * R) :=
  let '(heap, timers) := acc in
  match players !! playerId with
  | Some player =>
      let p := Player.set_health (Player.set_isAlive (heap player) false) 0 in
      (assign heap player p,
       if Num.ltb 0 (Player.lives p)
       then timers ++ [(playerId, currentTime + 3000)]
       else timers)
  | None => acc
  end.

(** One turn of its loop over the score updates. *)
Definition add_score (players : gmap string ref) (heap : Store)
    (scoreUpdate : ScoreUpdate.t) : Store :=
  match players !! ScoreUpdate.playerId scoreUpdate with
  | Some player =>
      let p := heap player in
      assign heap player
        (Player.mk (Player.id p) (Player.name p) (Player.transform p) (Player.velocity p)
           (Player.health p)
           (Player.score p + ScoreUpdate.points scoreUpdate)
           (Player.lives p) (Player.isAlive p) (Player.lastInputSequence p)
           (Player.invulnerableUntil p) (Player.lastShotTime p))
  | None => heap
  end.

(** Its loop over the particle effects.  The type of an effect is a string
    that the code takes for a [ParticleType]; [None] stands for a string
    that is none, which [resolveCollisions] does not produce. *)
Fixpoint particleEffects_loop `{Oracle}
    (effects : list ParticleEffect.t) (s : GameWorld.state)
  : option (completion GameWorld.state) :=
  match effects with
  | [] => Some (Normal s)
  | effect :: rest =>
      match as_ParticleType (ParticleEffect.type effect) with
      | None => None
      | Some type =>
          match createParticleEffect s (ParticleEffect.position effect) type
                  (ParticleEffect.count effect) with
          | Normal s' => particleEffects_loop rest s'
          | TypeError s' => Some (TypeError s')
          end
      end
  end.

(** The world with the results of the resolution applied, up to the
    particle effects. *)
Definition apply_result (w : t) (result : ResolveCollisionResult) (heap1 : Store)
    (currentTime : R) : t :=
  let world := GameWorld.world (base w) in
  let '(heap2, timers1) :=
    fold_left (destroy_player (GameWorld.players world) currentTime)
              (destroyedPlayers result) (heap1, timers w) in
  let asteroids1 :=
    fold_left (fun m id => delete id m) (destroyedAsteroids result)
              (GameWorld.asteroids world) in
  let bullets1 :=
    fold_left (fun m id => delete id m) (destroyedBullets result)
              (GameWorld.bullets world) in
  let asteroids2 :=
    fold_left (fun m asteroid => <[Asteroid.id asteroid := asteroid]> m)
              (newAsteroids result) asteroids1 in
  let heap3 :=
    fold_left (add_score (GameWorld.players world)) (scoreUpdates result) heap2 in
  mk (GameWorld.mkState heap3 (GameWorld.rng (base w))
        (GameWorld.mk (GameWorld.players world) asteroids2 bullets1
           (GameWorld.particles world) (GameWorld.tick world)
           (GameWorld.lastUpdate world)))
     (collisionSystem w) timers1.

(** [processCollisions], the maps being iterated in the orders [porder],
    [aorder] and [border] of their keys. *)
Definition processCollisions `{Oracle} (porder aorder border : list string)
    (w : t) (currentTime : R) : option (completion t) :=
  let world := GameWorld.world (base w) in
  let heap := GameWorld.heap (base w) in
  let '(events, system1) :=
    CollisionSystem.update heap
      (entries porder (GameWorld.players world))
      (entries aorder (GameWorld.asteroids world))
      (entries border (GameWorld.bullets world))
      (collisionSystem w) in
  let '(result, heap1) :=
    resolveCollisions events (GameWorld.players world) (GameWorld.asteroids world)
      (GameWorld.bullets world) currentTime heap in
  let w1 := apply_result (mk (base w) system1 (timers w)) result heap1 currentTime in
  match particleEffects_loop (particleEffects result) (base w1) with
  | None => None
  | Some (Normal s) => Some (Normal (mk s (collisionSystem w1) (timers w1)))
  | Some (TypeError s) => Some (TypeError (mk s (collisionSystem w1) (timers w1)))
  end.

(** The asteroids, bullets and particles moved, and the expired bullets
    and particles removed: [update] before the collisions. *)
Definition advance (world : GameWorld.t) (deltaTime currentTime : R) : GameWorld.t :=
  GameWorld.mk
    (GameWorld.players world)
    ((fun asteroid => updateAsteroid asteroid deltaTime) <$> GameWorld.asteroids world)
    (omap (fun bullet =>
             let '(bullet', live) := updateBullet bullet deltaTime in
             if live then Some bullet' else None)
          (GameWorld.bullets world))
    (omap (fun particle =>
             let '(particle', live) := updateParticle particle deltaTime in
             if live then Some particle' else None)
          (GameWorld.particles world))
    (GameWorld.tick world + 1)
    currentTime.

Definition update `{Oracle} (porder aorder border : list string)
    (w : t) (deltaTime currentTime : R) : option (completion t) :=
  let s := base w in
  let w1 :=
    mk (GameWorld.mkState (GameWorld.heap s) (GameWorld.rng s)
          (advance (GameWorld.world s) deltaTime currentTime))
       (collisionSystem w) (timers w) in
  match processCollisions porder aorder border w1 currentTime with
  | Some (Normal w2) =>
      Some (Normal (mk (maintainAsteroidCount (base w2)) (collisionSystem w2) (timers w2)))
  | other => other
  end.

End World.

(** ** [client/src/game/ClientPrediction.ts]: the other methods *)

Module GameState.
Record t : Type := mk {
  players : list Player;
  asteroids : list Asteroid;
  bullets : list Bullet;
  particles : list Particle;
  tick : R;
  timestamp : R
}.
End GameState.

Module Prediction.

(** The object as its field initialisers leave it. *)
Definition create : ClientPrediction.t := ClientPrediction.mk None [] 0 0 None.

(** [update] does not use its argument; it reads the clock once. *)
Definition update `{Oracle} (c : ClientPrediction.t) (clk : nat) : ClientPrediction.t * nat :=
  let cutoffTime := Date_now clk - 2000 in
  (ClientPrediction.mk
     (ClientPrediction.playerId c)
     (List.filter (fun input => Num.ltb cutoffTime (PredictionInput.timestamp input))
                  (ClientPrediction.inputBuffer c))
     (ClientPrediction.sequenceNumber c)
     (ClientPrediction.lastAcknowledgedSequence c)
     (ClientPrediction.predictedState c),
   S clk).

(** The predicted state built by [reconcile] always has a transform and a
    velocity, so that [predictedState.transform || player.transform] is the
    former. *)
Definition getPredictedState (c : ClientPrediction.t) (gameState : GameState.t)
  : GameState.t :=
  match ClientPrediction.playerId c, ClientPrediction.predictedState c with
  | Some own, Some predicted =>
      if String.eqb own "" then gameState
      else
        GameState.mk
          (List.map
             (fun player =>
                if String.eqb (Player.id player) own
                then Player.set_velocity
                       (Player.set_transform player (PredictedState.transform predicted))
                       (PredictedState.velocity predicted)
                else player)
             (GameState.players gameState))
          (GameState.asteroids gameState)
          (GameState.bullets gameState)
          (GameState.particles gameState)
          (GameState.tick gameState)
          (GameState.timestamp gameState)
  | _, _ => gameState
  end.

Definition getCurrentSequence (c : ClientPrediction.t) : R :=
  ClientPrediction.sequenceNumber c.

End Prediction.
(** ** Further predicates and example data *)

(** The alphabet of room codes. *)
Definition roomCodeChars : string := "ABCDEFGHIJKLMNOPQRSTUVWXYZ0123456789".

(** The circular buffers that the methods can build from
    [new CircularBuffer(capacity)]. *)
Inductive built {T : Type} (capacity : nat) : CircularBuffer.t T -> Prop :=
| built_create : built capacity (CircularBuffer.create capacity)
| built_push item b :
    built capacity b -> built capacity (CircularBuffer.push item b)
| built_pop b :
    built capacity b -> built capacity (snd (CircularBuffer.pop b))
| built_clear b :
    built capacity b -> built capacity (CircularBuffer.clear b).

(** The buffer [b] of capacity [cap] holds the items [xs], oldest first. *)
Definition holds {T : Type} (cap : nat) (b : CircularBuffer.t T) (xs : list T) : Prop :=
  CircularBuffer.capacity b = cap /\
  List.length (CircularBuffer.buffer b) = cap /\
  CircularBuffer.size b = List.length xs /\
  (List.length xs <= cap)%nat /\
  (CircularBuffer.head b < cap)%nat /\
  CircularBuffer.tail b = ((CircularBuffer.head b + List.length xs) mod cap)%nat /\
  forall i x, xs !! i = Some x ->
    CircularBuffer.buffer b !! ((CircularBuffer.head b + i) mod cap)%nat = Some (Some x).

(** The last [cap] items of a list. *)
Definition keep_last {T : Type} (cap : nat) (l : list T) : list T :=
  skipn (List.length l - cap) l.

(** Every bucket of the hash is non-empty and without duplicates, and each
    of its members is a stored object filed under the bucket's cell. *)
Definition tidy (h : SpatialHash.t) : Prop :=
  forall key cell,
    SpatialHash.cells h !! key = Some cell ->
    cell <> [] /\ NoDup cell /\
    forall id, id ∈ cell ->
      exists obj, SpatialHash.objects h !! id = Some obj /\
                  key ∈ SpatialHash.cellKeys obj.

(** The bounding squares of two circles share a grid cell. *)
Definition share_cell (cellSize : R) (p : Vector2) (r : R) (q : Vector2) (s : R) : Prop :=
  exists key,
    key ∈ SpatialHash.getCellsForObject cellSize p r /\
    key ∈ SpatialHash.getCellsForObject cellSize q s.

(** The asteroid, bullet and particle after [k] updates of [deltaTime]
    each. *)
Definition asteroid_after (deltaTime : R) (k : nat) (a : Asteroid) : Asteroid :=
  Nat.iter k (fun a => updateAsteroid a deltaTime) a.

Definition bullet_after (deltaTime : R) (k : nat) (b : Bullet) : Bullet :=
  Nat.iter k (fun b => fst (updateBullet b deltaTime)) b.

Definition particle_after (deltaTime : R) (k : nat) (p : Particle) : Particle :=
  Nat.iter k (fun p => fst (updateParticle p deltaTime)) p.

(** [u] is [v] moved by whole multiples of the world's width and height. *)
Definition same_place (u v : Vector2) : Prop :=
  exists i j : Z,
    x u = x v + IZR i * GAME_CONFIG.WORLD_WIDTH /\
    y u = y v + IZR j * GAME_CONFIG.WORLD_HEIGHT.

(** The position lies in the world. *)
Definition in_world (p : Vector2) : Prop :=
  0 <= x p < GAME_CONFIG.WORLD_WIDTH /\ 0 <= y p < GAME_CONFIG.WORLD_HEIGHT.

(** A system, a store and three maps to run the detection on: one pilot
    inside a rock, and a shot of another pilot's on both. *)
Definition field_store : Store := fun _ =>
  Player.mk "P" "pilot" (mkTransform (mkVector2 110 100) 0)
            (mkVelocity (mkVector2 0 0) 0) 100 0 3 true 0 0 0.

Definition field_players : list (string * ref) := [("P"%string, 0%nat)].

Definition field_asteroids : list (string * Asteroid) := [("rock"%string, large_rock)].

Definition field_bullets : list (string * Bullet) :=
  [("shot"%string,
    Bullet.mk "shot" "Q" (mkTransform (mkVector2 105 100) 0) (mkVector2 900 0) 0 3000)].

(** The player objects that the events name, each with the id it is named
    by. *)
Definition named (events : CollisionEvents) : list (string * ref) :=
  List.map (fun c => (PlayerAsteroidCollision.playerId c, PlayerAsteroidCollision.player c))
           (playerAsteroidCollisions events)
  ++ List.map (fun c => (PlayerBulletCollision.playerId c, PlayerBulletCollision.player c))
              (playerBulletCollisions events).

(** What holds of the list of destroyed players [destroyed] and of the
    store [s] while a pass over events naming [names] goes on, [s0] being
    the store at its beginning. *)
Definition pass_destroyed (t : R) (names : list (string * ref)) (s0 : Store)
    (destroyed : list string) (s : Store) : Prop :=
  NoDup destroyed /\
  (forall r, pass_inv t (s0 r) (s r)) /\
  forall id, id ∈ destroyed ->
    exists r, In (id, r) names /\
      ~ shielded t (s0 r) /\
      Player.isAlive (s r) = false /\ Player.health (s r) = 0 /\
      Player.lives (s r) = Rmax 0 (Player.lives (s0 r) - 1).

(** The events of the pilot of [field_store] inside two rocks at once. *)
Definition double_crash : CollisionEvents :=
  mkCollisionEvents
    [PlayerAsteroidCollision.mk "P" "rock" 0%nat large_rock;
     PlayerAsteroidCollision.mk "P" "rock2" 0%nat large_rock]
    []
    [].

(** The effect is of the given type. *)
Definition of_type (type : string) (effect : ParticleEffect.t) : Prop :=
  ParticleEffect.type effect = type.

(** An effect as [resolveCollisions] queues them: an explosion or a hit
    spark, of at least one particle. *)
Definition queued (effect : ParticleEffect.t) : Prop :=
  (of_type "explosion" effect \/ of_type "bulletHit" effect) /\
  0 < ParticleEffect.count effect.

(** What is left of the world when the loop over the effects ends. *)
Definition same_but_particles (s s' : GameWorld.state) : Prop :=
  GameWorld.heap s' = GameWorld.heap s /\
  GameWorld.players (GameWorld.world s') = GameWorld.players (GameWorld.world s) /\
  GameWorld.asteroids (GameWorld.world s') = GameWorld.asteroids (GameWorld.world s) /\
  GameWorld.bullets (GameWorld.world s') = GameWorld.bullets (GameWorld.world s) /\
  GameWorld.tick (GameWorld.world s') = GameWorld.tick (GameWorld.world s) /\
  GameWorld.lastUpdate (GameWorld.world s') = GameWorld.lastUpdate (GameWorld.world s).

(** A world to run the collisions in: the pilot, the rock and the shot of
    [field_players], [field_asteroids] and [field_bullets]. *)
Definition field_world : World.t :=
  World.mk
    (GameWorld.mkState field_store 0%nat
       (GameWorld.mk (list_to_map field_players) (list_to_map field_asteroids)
          (list_to_map field_bullets) ∅ 0 0))
    CollisionSystem.create [].

(** No asteroid of the world is nearer to the spot than 100 plus its
    radius, and no living player nearer than 100. *)
Definition clear_of_all (s : GameWorld.state) (spot : Vector2) : Prop :=
  (forall id a,
     GameWorld.asteroids (GameWorld.world s) !! id = Some a ->
     100 + Asteroid.radius a <= Vec2.distance spot (position (Asteroid.transform a))) /\
  (forall id r,
     GameWorld.players (GameWorld.world s) !! id = Some r ->
     Player.isAlive (GameWorld.heap s r) = true ->
     100 <= Vec2.distance spot (position (Player.transform (GameWorld.heap s r)))).

(** The spot is at least 100 away from every edge of the world. *)
Definition in_spawn_box (spot : Vector2) : Prop :=
  100 <= x spot <= GAME_CONFIG.WORLD_WIDTH - 100 /\
  100 <= y spot <= GAME_CONFIG.WORLD_HEIGHT - 100.

(** The centre of the world. *)
Definition centre : Vector2 :=
  {| x := GAME_CONFIG.WORLD_WIDTH / 2; y := GAME_CONFIG.WORLD_HEIGHT / 2 |}.

(** The position that attempt [j] of [findSafeSpawnPosition] draws when the
    search starts at draw [n]: attempt 0 takes the draws [n] and [n + 1],
    attempt 1 the two after them, and so on. *)
Definition drawn `{Oracle} (n j : nat) : Vector2 :=
  {| x := fst (randomFloat 100 (GAME_CONFIG.WORLD_WIDTH - 100) (n + 2 * j));
     y := fst (randomFloat 100 (GAME_CONFIG.WORLD_HEIGHT - 100) (n + 2 * j + 1)) |}.

(** The player as the loop of [processCollisions] over the destroyed
    players leaves it. *)
Definition laid_out (p : Player) : Player :=
  Player.set_health (Player.set_isAlive p false) 0.

(** The timers that the loop adds for the ids [ids], the store being
    [heap] when it begins. *)
Definition respawns (players : gmap string ref) (heap : Store) (t : R)
    (ids : list string) : list (string * R) :=
  flat_map
    (fun id =>
       match players !! id with
       | Some r => if Num.ltb 0 (Player.lives (heap r)) then [(id, t + 3000)] else []
       | None => []
       end)
    ids.

(** An asteroid as [maintainAsteroidCount] spawns them. *)
Definition spawned (a : Asteroid) : Prop :=
  Asteroid.size a = LARGE /\
  Asteroid.radius a = RADIUS (ASTEROID_CONFIG LARGE) /\
  MIN_SPEED (ASTEROID_CONFIG LARGE)
    <= Vec2.length (linear (Asteroid.velocity a))
    <= MAX_SPEED (ASTEROID_CONFIG LARGE) /\
  in_spawn_box (position (Asteroid.transform a)).

(** The parts of the world that spawning asteroids leaves alone. *)
Definition same_but_asteroids (s s' : GameWorld.state) : Prop :=
  GameWorld.heap s' = GameWorld.heap s /\
  GameWorld.players (GameWorld.world s') = GameWorld.players (GameWorld.world s) /\
  GameWorld.bullets (GameWorld.world s') = GameWorld.bullets (GameWorld.world s) /\
  GameWorld.particles (GameWorld.world s') = GameWorld.particles (GameWorld.world s) /\
  GameWorld.tick (GameWorld.world s') = GameWorld.tick (GameWorld.world s) /\
  GameWorld.lastUpdate (GameWorld.world s') = GameWorld.lastUpdate (GameWorld.world s).

(** A record as the network hands it to [Room.processInput]. *)
Record InputData : Type := mkInputData {
  data_sequence : R;
  data_timestamp : R;
  data_input : InputState
}.

(** The record as it enters the buffer. *)
Definition buffered (d : InputData) : ClientInputEntry.t :=
  ClientInputEntry.mk (data_sequence d) (data_timestamp d) (data_input d) false.

(** The records handed to [processInput] for one client, in order. *)
Definition receive (r : Room.t) (clientId : string) (records : list InputData) : Room.t :=
  fold_left
    (fun r d => Room.processInput r clientId (data_sequence d) (data_timestamp d)
                  (data_input d))
    records r.

(** The predictions that the methods can build from a new
    [ClientPrediction]. *)
Inductive predicting `{Oracle} : ClientPrediction.t -> Prop :=
| predicting_create : predicting Prediction.create
| predicting_setPlayerId c playerId :
    predicting c -> predicting (ClientPrediction.setPlayerId c playerId)
| predicting_applyInput c clk playerId inputState :
    predicting c -> predicting (fst (ClientPrediction.applyInput c clk playerId inputState))
| predicting_reconcile c snapshot_players :
    predicting c -> predicting (ClientPrediction.reconcile c snapshot_players)
| predicting_acknowledgeSequence c sequence :
    predicting c -> predicting (ClientPrediction.acknowledgeSequence c sequence)
| predicting_update c clk :
    predicting c -> predicting (fst (Prediction.update c clk)).

(** The sequence numbers of a buffer go up strictly and lie in
    [(0, top]]. *)
Fixpoint numbered (top : R) (floor : R) (buffer : list PredictionInput.t) : Prop :=
  match buffer with
  | [] => floor <= top
  | e :: rest =>
      floor < PredictionInput.sequence e /\
      numbered top (PredictionInput.sequence e) rest
  end.

(** A room with one client, and two records for it. *)
Definition lobby : Room.t :=
  Room.mk [("c1"%string, ClientConnection.mk "c1" (Some 0%nat) [] 0)] 0 true.

Definition two_records : list InputData :=
  [mkInputData 1 10 (mkInputState true 0 false false);
   mkInputData 2 26 (mkInputState false 1 false false)].

(** A game state with the pilot of the scenario alone in it. *)
Definition lone_pilot : GameState.t := GameState.mk [last_life] [] [] [] 7 1000.


(** ** Numbers as IEEE 754 doubles

    The arithmetic of a TypeScript [number] as the machine does it: a
    binary64 value is a [spec_float] of the Standard Library at precision 53
    and maximal exponent 1024, and [+ - * /] round to the nearest value,
    ties to even.  The functions below are those of [math.ts] whose results
    rounding changes, written over these values. *)

Module Double.

Definition prec : Z := 53.
Definition emax : Z := 1024.

Definition t : Type := SpecFloat.spec_float.

Definition NaN : t := SpecFloat.S754_nan.
Definition zero : t := SpecFloat.S754_zero false.

Definition add : t -> t -> t := SpecFloat.SFadd prec emax.
Definition sub : t -> t -> t := SpecFloat.SFsub prec emax.
Definition mul : t -> t -> t := SpecFloat.SFmul prec emax.
Definition div : t -> t -> t := SpecFloat.SFdiv prec emax.
Definition ltb : t -> t -> bool := SpecFloat.SFltb.
Definition leb : t -> t -> bool := SpecFloat.SFleb.

(** The double of an integer literal. *)
Definition of_Z (z : Z) : t := SpecFloat.binary_normalize prec emax z 0 false.

(** [n % d].  The remainder of two finite doubles is computed exactly, on
    their mantissas brought to the smaller of the two exponents; it has the
    sign of the dividend, also when it is zero, and is a double itself, so
    that the last step rounds nothing. *)
Definition rem (n d : t) : t :=
  match n, d with
  | SpecFloat.S754_nan, _ | _, SpecFloat.S754_nan => NaN
  | SpecFloat.S754_infinity _, _ => NaN
  | _, SpecFloat.S754_infinity _ => n
  | _, SpecFloat.S754_zero _ => NaN
  | SpecFloat.S754_zero _, _ => n
  | SpecFloat.S754_finite sn mn en, SpecFloat.S754_finite _ md ed =>
      let e := Z.min en ed in
      let r := Z.rem (Z.pos mn * 2 ^ (en - e)) (Z.pos md * 2 ^ (ed - e)) in
      SpecFloat.binary_normalize prec emax (SpecFloat.cond_Zopp sn r) e sn
  end.

(** [Math.floor]: NaN, the infinities and the zeros are returned as they
    are, and so is a double without fractional bits. *)
Definition floor (v : t) : t :=
  match v with
  | SpecFloat.S754_finite s m e =>
      if (0 <=? e)%Z then v
      else SpecFloat.binary_normalize prec emax
             (SpecFloat.cond_Zopp s (Z.pos m) / 2 ^ (- e)) 0 s
  | _ => v
  end.

Record Vector2 : Type := mkVector2 { x : t; y : t }.

Definition wrapPosition (position : Vector2) (worldWidth worldHeight : t) : Vector2 :=
  {| x := rem (add (rem (x position) worldWidth) worldWidth) worldWidth;
     y := rem (add (rem (y position) worldHeight) worldHeight) worldHeight |}.

(** [randomFloat(min, max)] and [randomInt(min, max)], the value that
    [Math.random()] returns being [random]. *)
Definition randomFloat (random min max : t) : t := add (mul random (sub max min)) min.

Definition randomInt (random min max : t) : t :=
  floor (randomFloat random min (add max (of_Z 1))).

(** The literal [0.1]: the double nearest to one tenth. *)
Definition tenth : t := div (of_Z 1) (of_Z 10).

(** The literal [-4095.9999999999995]: the double next to [-4096] on the
    side of zero, [-(2^53 - 1) * 2^-41]. *)
Definition inside_edge : t := SpecFloat.S754_finite true 9007199254740991 (-41).

(** [1 - 2^-53], the largest double below 1. *)
Definition last_draw : t := SpecFloat.S754_finite false 9007199254740991 (-53).

End Double.

(** The sum of the turns that the inputs ask for. *)
Fixpoint turning (inputs : list InputState) : R :=
  match inputs with
  | [] => 0
  | input :: rest => rotate input + turning rest
  end.
(** * Properties *)

(** ** Numbers *)

Lemma ltb_true a b : Num.ltb a b = true <-> a < b.
Proof. unfold Num.ltb. destruct (Rlt_dec a b); split; (lra || discriminate || auto). Qed.

Lemma ltb_false a b : Num.ltb a b = false <-> b <= a.
Proof. unfold Num.ltb. destruct (Rlt_dec a b); split; (lra || discriminate || auto). Qed.

Lemma leb_true a b : Num.leb a b = true <-> a <= b.
Proof. unfold Num.leb. destruct (Rle_dec a b); split; (lra || discriminate || auto). Qed.

Lemma leb_false a b : Num.leb a b = false <-> b < a.
Proof. unfold Num.leb. destruct (Rle_dec a b); split; (lra || discriminate || auto). Qed.

Lemma eqb_true a b : Num.eqb a b = true <-> a = b.
Proof. unfold Num.eqb. destruct (Req_dec_T a b); split; (congruence || auto). Qed.

Lemma eqb_false a b : Num.eqb a b = false <-> a <> b.
Proof. unfold Num.eqb. destruct (Req_dec_T a b); split; (congruence || auto). Qed.

(** Decides the tests of the code on concrete or bounded reals. *)
Ltac num_test :=
  repeat match goal with
  | |- context [Num.ltb ?a ?b] =>
      let E := fresh "E" in
      destruct (Num.ltb a b) eqn:E;
      [apply ltb_true in E | apply ltb_false in E]; try lra
  | |- context [Num.leb ?a ?b] =>
      let E := fresh "E" in
      destruct (Num.leb a b) eqn:E;
      [apply leb_true in E | apply leb_false in E]; try lra
  | |- context [Num.eqb ?a ?b] =>
      let E := fresh "E" in
      destruct (Num.eqb a b) eqn:E;
      [apply eqb_true in E | apply eqb_false in E]; try lra
  end.

Lemma floor_spec r : IZR (Num.floor r) <= r < IZR (Num.floor r) + 1.
Proof.
  unfold Num.floor. destruct (base_Int_part r) as [Hle Hgt]. lra.
Qed.

Lemma floor_unique r (z : Z) : IZR z <= r < IZR z + 1 -> Num.floor r = z.
Proof.
  intros [Hlo Hhi]. destruct (floor_spec r) as [Flo Fhi].
  assert (A1 : IZR z < IZR (Num.floor r + 1)) by (rewrite plus_IZR; lra).
  assert (A2 : IZR (Num.floor r) < IZR (z + 1)) by (rewrite plus_IZR; lra).
  apply lt_IZR in A1, A2. lia.
Qed.

Lemma floor_mono a b : a <= b -> (Num.floor a <= Num.floor b)%Z.
Proof.
  intros Hab. destruct (floor_spec a) as [Alo _], (floor_spec b) as [_ Bhi].
  assert (A : IZR (Num.floor a) < IZR (Num.floor b + 1)) by (rewrite plus_IZR; lra).
  apply lt_IZR in A. lia.
Qed.

Lemma trunc_unique_nonneg r (z : Z) :
  0 <= r -> IZR z <= r < IZR z + 1 -> Num.trunc r = z.
Proof.
  intros Hr Hz. unfold Num.trunc. destruct (Rle_dec 0 r); [|lra].
  now apply floor_unique.
Qed.

Lemma div_lt_1 a b : 0 <= a < b -> 0 <= a / b < 1.
Proof.
  intros [Ha Hab].
  assert (0 < / b) by (apply Rinv_0_lt_compat; lra).
  split; [unfold Rdiv; nra|].
  apply (Rmult_lt_reg_r b); [lra|]. unfold Rdiv.
  rewrite Rmult_assoc, Rinv_l; lra.
Qed.

(** For a positive divisor the remainder carries the sign of the dividend
    and is smaller than the divisor in absolute value. *)
Lemma rem_nonneg a b : 0 < b -> 0 <= a -> 0 <= Num.rem a b < b.
Proof.
  intros Hb Ha. unfold Num.rem, Num.trunc.
  assert (0 <= a / b) by (apply Rmult_le_pos; [lra | left; now apply Rinv_0_lt_compat]).
  destruct (Rle_dec 0 (a / b)); [|lra].
  destruct (floor_spec (a / b)) as [Flo Fhi].
  assert (a = (a / b) * b) as E by (field; lra).
  split; nra.
Qed.

Lemma rem_neg a b : 0 < b -> a < 0 -> - b < Num.rem a b <= 0.
Proof.
  intros Hb Ha. unfold Num.rem, Num.trunc.
  assert (a / b < 0).
  { assert (0 < / b) by now apply Rinv_0_lt_compat. unfold Rdiv. nra. }
  destruct (Rle_dec 0 (a / b)); [lra|].
  destruct (floor_spec (- (a / b))) as [Flo Fhi].
  assert (a = (a / b) * b) as E by (field; lra).
  rewrite opp_IZR. split; nra.
Qed.

Lemma rem_small a b : 0 <= a < b -> Num.rem a b = a.
Proof.
  intros Hab. destruct (div_lt_1 a b Hab). unfold Num.rem.
  assert (Num.trunc (a / b) = 0%Z) as ->; [|lra].
  apply trunc_unique_nonneg; simpl; lra.
Qed.

Lemma rem_shift a b : 0 <= a < b -> Num.rem (a + b) b = a.
Proof.
  intros Hab. destruct (div_lt_1 a b Hab). unfold Num.rem.
  assert ((a + b) / b = a / b + 1) as E by (field; lra).
  assert (Num.trunc ((a + b) / b) = 1%Z) as ->; [|lra].
  apply trunc_unique_nonneg; rewrite E; simpl; lra.
Qed.

(** ** World wrap *)

(** One axis of [wrapPosition]. *)
Lemma wrap_axis_range (a w : R) :
  0 < w -> 0 <= Num.rem (Num.rem a w + w) w < w.
Proof.
  intros Hw. apply rem_nonneg; [assumption|].
  destruct (Rle_dec 0 a) as [Ha|Ha].
  - destruct (rem_nonneg a w Hw Ha). lra.
  - destruct (rem_neg a w Hw ltac:(lra)). lra.
Qed.

Lemma wrap_axis_fixed (a w : R) :
  0 <= a < w -> Num.rem (Num.rem a w + w) w = a.
Proof.
  intros Ha. rewrite (rem_small a w Ha). now apply rem_shift.
Qed.

(** C8, as the code has it.  For world dimensions [w, h > 0],
    [wrapPosition p w h] lies in [[0,w) x [0,h)]. *)
Theorem wrapPosition_range (p : Vector2) (w h : R) :
  0 < w -> 0 < h ->
  0 <= x (wrapPosition p w h) < w /\ 0 <= y (wrapPosition p w h) < h.
Proof.
  intros Hw Hh. split; [apply wrap_axis_range, Hw | apply wrap_axis_range, Hh].
Qed.

Lemma wrapPosition_range_witness :
  0 <= x (wrapPosition (mkVector2 5000 (-10)) 4096 4096) < 4096 /\
  0 <= y (wrapPosition (mkVector2 5000 (-10)) 4096 4096) < 4096.
Proof.
  apply (wrapPosition_range (mkVector2 5000 (-10)) 4096 4096); lra.
Defined.

(** C8, as the claim words it, fails in the arithmetic of the machine,
    where the sum [(x % w) + w] is rounded.  In a world of width and height
    4096 the position [(0.1, 0.1)] lies in the world, and yet
    [wrapPosition] returns another one, [0.1000000000003638] on each axis;
    and the wrapped position of [(-4095.9999999999995, 0)] has [x = 2^-41],
    which wrapping once more turns into [0].  The results lie in
    [[0, 4096)] all the same. *)
Lemma wrapPosition_moves_wrapped_position :
  let w := Double.of_Z 4096 in
  let p := Double.mkVector2 Double.tenth Double.tenth in
  let q := Double.mkVector2 Double.inside_edge Double.zero in
  (Double.leb Double.zero Double.tenth = true /\ Double.ltb Double.tenth w = true) /\
  Double.wrapPosition p w w
  = Double.mkVector2 (SpecFloat.S754_finite false 7205759403819008 (-56))
                     (SpecFloat.S754_finite false 7205759403819008 (-56)) /\
  Double.wrapPosition p w w <> p /\
  Double.x (Double.wrapPosition q w w) = SpecFloat.S754_finite false 4503599627370496 (-93) /\
  Double.x (Double.wrapPosition (Double.wrapPosition q w w) w w) = Double.zero /\
  Double.wrapPosition (Double.wrapPosition q w w) w w <> Double.wrapPosition q w w /\
  (Double.leb Double.zero (Double.x (Double.wrapPosition p w w)) = true /\
   Double.ltb (Double.x (Double.wrapPosition p w w)) w = true) /\
  (Double.leb Double.zero (Double.x (Double.wrapPosition q w w)) = true /\
   Double.ltb (Double.x (Double.wrapPosition q w w)) w = true).
Proof.
  cbv zeta.
  assert (Hp : Double.wrapPosition
                 (Double.mkVector2 Double.tenth Double.tenth)
                 (Double.of_Z 4096) (Double.of_Z 4096)
               = Double.mkVector2 (SpecFloat.S754_finite false 7205759403819008 (-56))
                                  (SpecFloat.S754_finite false 7205759403819008 (-56)))
    by (vm_compute; reflexivity).
  assert (Hq : Double.wrapPosition
                 (Double.mkVector2 Double.inside_edge Double.zero)
                 (Double.of_Z 4096) (Double.of_Z 4096)
               = Double.mkVector2 (SpecFloat.S754_finite false 4503599627370496 (-93))
                                  Double.zero)
    by (vm_compute; reflexivity).
  assert (Hqq : Double.wrapPosition
                  (Double.mkVector2 (SpecFloat.S754_finite false 4503599627370496 (-93))
                                    Double.zero)
                  (Double.of_Z 4096) (Double.of_Z 4096)
                = Double.mkVector2 Double.zero Double.zero)
    by (vm_compute; reflexivity).
  rewrite Hq, Hqq, Hp. cbn [Double.x].
  split; [split; vm_compute; reflexivity|].
  split; [reflexivity|].
  split; [vm_compute; discriminate|].
  split; [reflexivity|]. split; [reflexivity|].
  split; [vm_compute; discriminate|].
  split; split; vm_compute; reflexivity.
Qed.

(** ** Vectors *)

Lemma length_nonneg (v : Vector2) : 0 <= Vec2.length v.
Proof. apply sqrt_pos. Qed.

Lemma lengthSquared_nonneg (v : Vector2) : 0 <= Vec2.lengthSquared v.
Proof. unfold Vec2.lengthSquared. nra. Qed.

Lemma length_sqr (v : Vector2) : Vec2.length v * Vec2.length v = Vec2.lengthSquared v.
Proof. apply sqrt_sqrt, lengthSquared_nonneg. Qed.

Lemma length_multiply (v : Vector2) (k : R) :
  Vec2.length (Vec2.multiply v k) = Vec2.length v * Rabs k.
Proof.
  unfold Vec2.length, Vec2.multiply; cbn [x y].
  replace (x v * k * (x v * k) + y v * k * (y v * k))
    with ((x v * x v + y v * y v) * (k * k)) by ring.
  rewrite sqrt_mult_alt by nra.
  f_equal. replace (k * k) with (k²) by reflexivity. apply sqrt_Rsqr_abs.
Qed.

Lemma length_fromAngle (angle magnitude : R) :
  Vec2.length (Vec2.fromAngle angle magnitude) = Rabs magnitude.
Proof.
  unfold Vec2.length, Vec2.fromAngle; cbn [x y].
  replace (cos angle * magnitude * (cos angle * magnitude)
           + sin angle * magnitude * (sin angle * magnitude))
    with (((sin angle)² + (cos angle)²) * (magnitude * magnitude))
    by (unfold Rsqr; ring).
  rewrite sin2_cos2, Rmult_1_l.
  replace (magnitude * magnitude) with (magnitude²) by reflexivity.
  apply sqrt_Rsqr_abs.
Qed.

(** Away from the zero vector [normalize] divides by a non-zero length and
    returns a unit vector. *)
Lemma normalize_nonzero (v : Vector2) :
  0 < Vec2.length v ->
  Vec2.normalize v = Vec2.divide v (Vec2.length v) /\
  Vec2.length (Vec2.normalize v) = 1.
Proof.
  intros Hpos. unfold Vec2.normalize.
  destruct (Num.eqb (Vec2.length v) 0) eqn:E.
  - apply eqb_true in E. lra.
  - split; [reflexivity|].
    replace (Vec2.divide v (Vec2.length v))
      with (Vec2.multiply v (/ Vec2.length v)) by reflexivity.
    rewrite length_multiply, Rabs_right.
    + field. lra.
    + left. now apply Rinv_0_lt_compat.
Qed.

Lemma normalize_zero (v : Vector2) :
  Vec2.length v = 0 -> Vec2.normalize v = {| x := 0; y := 0 |}.
Proof.
  intros E. unfold Vec2.normalize. rewrite E.
  destruct (Num.eqb 0 0) eqn:E0; [reflexivity|].
  apply eqb_false in E0. congruence.
Qed.

(** ** Circle against circle *)

(** C9.  With [d] the distance between the centres: no collision is reported
    exactly when [d = 0] or [d >= r1 + r2]; a reported collision carries the
    depth [(r1 + r2) - d] and the normal [(c2 - c1) / d], a unit vector, and
    the divisor [d] of that normalisation is not zero. *)
Theorem circleCircleCollision_spec (pos1 pos2 : Vector2) (radius1 radius2 : R) :
  let res := circleCircleCollision pos1 radius1 pos2 radius2 in
  let delta := Vec2.subtract pos2 pos1 in
  let d := Vec2.length delta in
  (collided res = false <-> (d = 0 \/ radius1 + radius2 <= d)) /\
  (collided res = true ->
     d <> 0 /\
     Num.eqb (Vec2.length delta) 0 = false /\
     depth res = Some (radius1 + radius2 - d) /\
     normal res = Some (Vec2.divide delta d) /\
     (forall n, normal res = Some n -> Vec2.length n = 1)).
Proof.
  cbv zeta. unfold circleCircleCollision.
  set (delta := Vec2.subtract pos2 pos1).
  assert (Hd := length_nonneg delta).
  destruct (Num.ltb (Vec2.length delta) (radius1 + radius2)) eqn:E1;
    destruct (Num.ltb 0 (Vec2.length delta)) eqn:E2; cbn [andb collided depth normal].
  - apply ltb_true in E1, E2.
    destruct (normalize_nonzero delta E2) as [Hn Hu].
    split.
    + split; [discriminate | intros [?|?]; lra].
    + intros _. repeat split.
      * lra.
      * apply eqb_false. lra.
      * now rewrite Hn.
      * intros n [= <-]. exact Hu.
  - apply ltb_false in E2. split; [|discriminate].
    split; [intros _; left; lra | reflexivity].
  - apply ltb_false in E1. split; [|discriminate].
    split; [intros _; right; lra | reflexivity].
  - apply ltb_false in E1. split; [|discriminate].
    split; [intros _; right; lra | reflexivity].
Qed.

Lemma circleCircleCollision_spec_witness :
  depth (circleCircleCollision (mkVector2 0 0) 5 (mkVector2 3 4) 2)
  = Some (5 + 2 - Vec2.length (Vec2.subtract (mkVector2 3 4) (mkVector2 0 0))).
Proof.
  apply (circleCircleCollision_spec (mkVector2 0 0) (mkVector2 3 4) 5 2).
  unfold circleCircleCollision.
  assert (L : Vec2.length (Vec2.subtract (mkVector2 3 4) (mkVector2 0 0)) = 5).
  { unfold Vec2.length, Vec2.subtract; cbn [x y].
    replace ((3 - 0) * (3 - 0) + (4 - 0) * (4 - 0)) with (5 * 5) by ring.
    apply sqrt_square. lra. }
  rewrite L. num_test. reflexivity.
Defined.

(** ** Player movement *)

Lemma vec_eq (a b : Vector2) : x a = x b -> y a = y b -> a = b.
Proof. destruct a, b; cbn; intros -> ->; reflexivity. Qed.

(** [{ ...v }] of a vector is an equal vector. *)
Lemma copy_id (v : Vector2) : Vec2.copy v = v.
Proof. now destruct v. Qed.

Lemma limitLength_bound (v : Vector2) (m : R) :
  0 <= m -> Vec2.length (Vec2.limitLength v m) <= m.
Proof.
  intros Hm. unfold Vec2.limitLength.
  destruct (Num.ltb (m * m) (Vec2.lengthSquared v)) eqn:E.
  - apply ltb_true in E.
    assert (0 < Vec2.length v).
    { destruct (length_nonneg v) as [Hp|Hz]; [exact Hp|].
      assert (Hs := length_sqr v). rewrite <- Hz in Hs. nra. }
    destruct (normalize_nonzero v H) as [_ Hu].
    rewrite length_multiply, Hu, Rabs_right; lra.
  - apply ltb_false in E.
    assert (Hs := length_sqr v). assert (Hl := length_nonneg v). nra.
Qed.

(** What braking does to a velocity [v]: it takes [min(force, |v|)] off
    along [v]'s own direction, which scales [v] by a factor that is never
    negative. *)
Lemma brake_scales (v : Vector2) (force : R) :
  let v' :=
    Vec2.subtract v (Vec2.multiply (Vec2.normalize v) (Rmin force (Vec2.length v))) in
  exists k, 0 <= k /\ v' = Vec2.multiply v k /\
            (0 <= force -> k <= 1).
Proof.
  cbv zeta. destruct (length_nonneg v) as [Hp|Hz].
  - destruct (normalize_nonzero v Hp) as [-> _].
    exists (1 - Rmin force (Vec2.length v) / Vec2.length v).
    assert (Hmin := Rmin_r force (Vec2.length v)).
    assert (0 < / Vec2.length v) by now apply Rinv_0_lt_compat.
    split; [|split].
    + assert (Rmin force (Vec2.length v) / Vec2.length v <= 1); [|lra].
      apply (Rmult_le_reg_r (Vec2.length v)); [lra|].
      unfold Rdiv. rewrite Rmult_assoc, Rinv_l; lra.
    + apply vec_eq; unfold Vec2.subtract, Vec2.multiply, Vec2.divide; cbn [x y];
        field; lra.
    + intros Hf.
      assert (0 <= Rmin force (Vec2.length v)) by (apply Rmin_glb; lra).
      unfold Rdiv. nra.
  - rewrite normalize_zero by congruence.
    exists 1. split; [lra|split; [|lra]].
    apply vec_eq; unfold Vec2.subtract, Vec2.multiply; cbn [x y]; ring.
Qed.


(** ** Asteroid splitting *)

Lemma distance_offset (p f : Vector2) :
  Vec2.distance (Vec2.copy (Vec2.add p f)) p = Vec2.length f.
Proof.
  unfold Vec2.distance, Vec2.length, Vec2.subtract, Vec2.copy, Vec2.add; cbn [x y].
  f_equal. ring.
Qed.

Section Splitting.

Context {oracle : Oracle}.
Hypothesis random_unit : forall i, 0 <= Math_random i < 1.

Lemma splitAsteroid_loop_children
    (a : Asteroid) (config : AsteroidConfig) (newSize : AsteroidSize)
    (indices : list nat) (n : nat) :
  0 <= MIN_SPEED (ASTEROID_CONFIG newSize) <= MAX_SPEED (ASTEROID_CONFIG newSize) ->
  let out := fst (splitAsteroid_loop a config (ASTEROID_CONFIG newSize) newSize indices n) in
  List.length out = List.length indices /\ Forall (child_of a newSize) out.
Proof.
  intros Hcfg. revert n. induction indices as [|i rest IH]; intros n; cbn.
  - split; [reflexivity | constructor].
  - destruct (splitAsteroid_loop a config (ASTEROID_CONFIG newSize) newSize rest
                (n + 2 + 2 + 2)) as [others n2] eqn:E.
    specialize (IH (n + 2 + 2 + 2)%nat). rewrite E in IH. cbn in IH.
    destruct IH as [IHlen IHall]. cbn. split; [now rewrite IHlen|].
    constructor; [|exact IHall].
    unfold child_of; cbn [Asteroid.size Asteroid.radius Asteroid.velocity
                          Asteroid.transform linear position].
    split; [reflexivity|]. split; [reflexivity|].
    destruct (random_unit (n + 1)) as [R0 R1].
    set (speed := Math_random (n + 1)
                  * (MAX_SPEED (ASTEROID_CONFIG newSize) - MIN_SPEED (ASTEROID_CONFIG newSize))
                  + MIN_SPEED (ASTEROID_CONFIG newSize)).
    assert (Hs : MIN_SPEED (ASTEROID_CONFIG newSize) <= speed
                 <= MAX_SPEED (ASTEROID_CONFIG newSize)) by (unfold speed; nra).
    split.
    + replace (Vec2.length (Vec2.copy _)) with (Rabs speed).
      * rewrite Rabs_right; lra.
      * rewrite <- (length_fromAngle
                      (PI * 2 * INR i / INR (SPLIT_COUNT config)
                       + Math_random n * (5 / 10)) speed).
        reflexivity.
    + rewrite distance_offset, length_fromAngle.
      set (off := Asteroid.radius a + RADIUS (ASTEROID_CONFIG newSize) + 5).
      assert (off <= Rabs off) by apply Rle_abs.
      unfold off in *. lra.
Qed.

(** C7.  [splitAsteroid] of a LARGE asteroid returns exactly two asteroids,
    each MEDIUM, with the MEDIUM radius, a speed within the MEDIUM
    [MIN_SPEED, MAX_SPEED] and at distance at least [parentRadius +
    childRadius] from the parent's position; likewise a MEDIUM asteroid gives
    two SMALL ones; a SMALL asteroid gives the empty list.  [Math.random()]
    is taken to return values in [[0, 1)]. *)
Theorem splitAsteroid_spec (a : Asteroid) (n : nat) :
  let out := fst (splitAsteroid a n) in
  (Asteroid.size a = LARGE ->
     List.length out = 2%nat /\ Forall (child_of a MEDIUM) out) /\
  (Asteroid.size a = MEDIUM ->
     List.length out = 2%nat /\ Forall (child_of a SMALL) out) /\
  (Asteroid.size a = SMALL -> out = []).
Proof.
  cbv zeta. unfold splitAsteroid.
  split; [|split]; intros ->; cbn [ASTEROID_CONFIG SPLIT_COUNT Nat.eqb].
  - apply (splitAsteroid_loop_children a (ASTEROID_CONFIG LARGE) MEDIUM (seq 0 2) n).
    cbn. lra.
  - apply (splitAsteroid_loop_children a (ASTEROID_CONFIG MEDIUM) SMALL (seq 0 2) n).
    cbn. lra.
  - reflexivity.
Qed.

End Splitting.

Lemma splitAsteroid_spec_witness :
  List.length (fst (@splitAsteroid halves large_rock 0)) = 2%nat /\
  Forall (child_of large_rock MEDIUM) (fst (@splitAsteroid halves large_rock 0)).
Proof.
  apply (@splitAsteroid_spec halves).
  - intros i. cbn. lra.
  - reflexivity.
Defined.

(** ** Collision resolution: damage *)

Lemma assign_same (s : Store) (r : ref) (p : Player) : assign s r p r = p.
Proof. unfold assign. now rewrite Nat.eqb_refl. Qed.

Lemma assign_other (s : Store) (r r' : ref) (p : Player) :
  r' <> r -> assign s r p r' = s r'.
Proof. intros Hne. unfold assign. apply Nat.eqb_neq in Hne. now rewrite Hne. Qed.

(** One call of [damagePlayerFromCollision], case by case. *)
Lemma damagePlayerFromCollision_cases (p : Player) (damage t : R) :
  let p' := fst (damagePlayerFromCollision p damage t) in
  let destroyed := snd (damagePlayerFromCollision p damage t) in
  (shielded t p -> p' = p /\ destroyed = false) /\
  (~ shielded t p -> Player.health p - damage <= 0 ->
     p' = Player.set_lives
            (Player.set_isAlive (Player.set_health p 0) false)
            (Rmax 0 (Player.lives p - 1))
     /\ destroyed = true) /\
  (~ shielded t p -> 0 < Player.health p - damage ->
     p' = Player.set_health p (Player.health p - damage) /\ destroyed = false).
Proof.
  cbv zeta. unfold shielded, damagePlayerFromCollision.
  destruct (Num.ltb t (Player.invulnerableUntil p)) eqn:E1;
    [apply ltb_true in E1 | apply ltb_false in E1];
    destruct (Player.isAlive p) eqn:E2; cbn [orb negb fst snd].
  1,2,4: (split; [intros _; split; reflexivity|];
          split; intros Hn; exfalso; apply Hn; (now left) || (now right)).
  cbn [Player.set_health Player.health].
  destruct (Num.leb (Player.health p - damage) 0) eqn:E3;
    [apply leb_true in E3 | apply leb_false in E3]; cbn [fst snd].
  - split; [intros [?|?]; [lra | discriminate]|].
    split; [intros _ _; split; reflexivity | intros _ ?; lra].
  - split; [intros [?|?]; [lra | discriminate]|].
    split; [intros _ ?; lra | intros _ _; split; reflexivity].
Qed.

Lemma pass_inv_refl (t : R) (p : Player) : pass_inv t p p.
Proof. unfold pass_inv. repeat split; auto; lra. Qed.

Lemma pass_inv_damage (t damage : R) (p0 p : Player) :
  pass_inv t p0 p -> pass_inv t p0 (fst (damagePlayerFromCollision p damage t)).
Proof.
  intros Hall. assert (Hall' := Hall). destruct Hall' as (Hl & Hd & Hh & Hi & Ha & Hs).
  destruct (damagePlayerFromCollision_cases p damage t) as (Cg & Ck & Cs).
  destruct (Rlt_dec t (Player.invulnerableUntil p)) as [Hinv|Hinv].
  { destruct Cg as [-> _]; [now left | exact Hall]. }
  destruct (Player.isAlive p) eqn:Ealive.
  2:{ destruct Cg as [-> _]; [now right | exact Hall]. }
  assert (Hopen : ~ shielded t p) by (intros [?|?]; [lra | congruence]).
  assert (Hopen0 : ~ shielded t p0).
  { intros [G|G]; [lra|]. apply Ha in G. discriminate. }
  assert (Hlives : Player.lives p = Player.lives p0).
  { destruct (Req_dec_T (Player.lives p) (Player.lives p0)) as [E|E]; [exact E|].
    apply Hd in E. discriminate. }
  destruct (Rle_dec (Player.health p - damage) 0) as [Hdead|Hlive].
  - destruct (Ck Hopen Hdead) as [-> _].
    unfold pass_inv; cbn.
    assert (Hm := Rmax_r 0 (Player.lives p - 1)).
    assert (Hm0 := Rmax_l 0 (Player.lives p - 1)).
    split; [lra|]. split; [reflexivity|]. split; [intros _; lra|].
    split; [exact Hi|]. split; [reflexivity|]. intros G. contradiction.
  - destruct (Cs Hopen ltac:(lra)) as [-> _].
    unfold pass_inv; cbn.
    split; [lra|]. split; [intros G; contradiction|]. split; [intros _; lra|].
    split; [exact Hi|]. split; [intros G; apply Ha in G; discriminate|].
    intros G. contradiction.
Qed.

Lemma pass_inv_assign (t damage : R) (p0 : Player) (s : Store) (r player : ref) :
  pass_inv t p0 (s r) ->
  pass_inv t p0 (assign s player (fst (damagePlayerFromCollision (s player) damage t)) r).
Proof.
  intros Hinv. destruct (Nat.eq_dec r player) as [->|Hne].
  - rewrite assign_same. now apply pass_inv_damage.
  - now rewrite assign_other.
Qed.

Lemma resolve_playerAsteroid_inv (t : R) (p0 : Player) (r : ref) acc c :
  pass_inv t p0 (snd acc r) -> pass_inv t p0 (snd (resolve_playerAsteroid t acc c) r).
Proof.
  destruct acc as [res s]. cbn [snd]. intros Hinv. unfold resolve_playerAsteroid.
  assert (H := pass_inv_assign t 100 p0 s r (PlayerAsteroidCollision.player c) Hinv).
  destruct (damagePlayerFromCollision (s (PlayerAsteroidCollision.player c)) 100 t)
    as [p' [|]]; exact H.
Qed.

Lemma resolve_bulletAsteroid_store acc c :
  snd (resolve_bulletAsteroid acc c) = snd acc.
Proof. now destruct acc. Qed.

Lemma resolve_playerBullet_inv (t : R) (p0 : Player) (r : ref) acc c :
  pass_inv t p0 (snd acc r) -> pass_inv t p0 (snd (resolve_playerBullet t acc c) r).
Proof.
  destruct acc as [res s]. cbn [snd]. intros Hinv. unfold resolve_playerBullet.
  assert (H := pass_inv_assign t 25 p0 s r (PlayerBulletCollision.player c) Hinv).
  destruct (damagePlayerFromCollision (s (PlayerBulletCollision.player c)) 25 t)
    as [p' [|]]; exact H.
Qed.

(** An invariant of every turn of a loop is an invariant of the loop. *)
Lemma fold_left_inv {A B : Type} (P : A -> Prop) (f : A -> B -> A) (l : list B) (a : A) :
  (forall a b, P a -> P (f a b)) -> P a -> P (fold_left f l a).
Proof.
  intros Hstep. revert a. induction l as [|b l IH]; intros a Ha; cbn; auto.
Qed.

Lemma resolveCollisions_inv events players asteroids bullets (t : R) (s : Store) (r : ref) :
  pass_inv t (s r) (snd (resolveCollisions events players asteroids bullets t s) r).
Proof.
  unfold resolveCollisions.
  apply (fold_left_inv (fun acc => pass_inv t (s r) (snd acc r))).
  { intros; now apply resolve_playerBullet_inv. }
  apply (fold_left_inv (fun acc => pass_inv t (s r) (snd acc r))).
  { intros a b. now rewrite resolve_bulletAsteroid_store. }
  apply (fold_left_inv (fun acc => pass_inv t (s r) (snd acc r))).
  { intros; now apply resolve_playerAsteroid_inv. }
  apply pass_inv_refl.
Qed.

(** C5.  One call of [damagePlayerFromCollision] leaves a player who is
    invulnerable or not alive untouched; otherwise it takes the damage off
    the health and, when that reaches zero or less, sets the health to
    exactly 0 and [isAlive] to false; a health that was not negative is not
    negative afterwards.  Over a whole pass of [resolveCollisions], whatever
    the events and however many name the same player object, that player
    loses at most one life, a non-negative health stays non-negative, and a
    player shielded when the pass begins keeps health, lives and
    aliveness. *)
Theorem damage_gate_and_single_life
    (events : CollisionEvents) (players : gmap string ref)
    (asteroids : gmap string Asteroid) (bullets : gmap string Bullet)
    (currentTime : R) (store : Store) (r : ref) (p : Player) (damage : R) :
  let p' := fst (damagePlayerFromCollision p damage currentTime) in
  let after := snd (resolveCollisions events players asteroids bullets currentTime store) r in
  (* one call *)
  ((currentTime < Player.invulnerableUntil p \/ Player.isAlive p = false) -> p' = p) /\
  (~ (currentTime < Player.invulnerableUntil p) -> Player.isAlive p = true ->
     (Player.health p - damage <= 0 ->
        Player.health p' = 0 /\ Player.isAlive p' = false /\
        Player.lives p' = Rmax 0 (Player.lives p - 1)) /\
     (0 < Player.health p - damage ->
        Player.health p' = Player.health p - damage /\ Player.isAlive p' = true /\
        Player.lives p' = Player.lives p) /\
     (0 < damage -> 0 < Player.health p -> Player.health p' < Player.health p)) /\
  (0 <= Player.health p -> 0 <= Player.health p') /\
  (* one pass *)
  Player.lives (store r) - Player.lives after <= 1 /\
  (0 <= Player.health (store r) -> 0 <= Player.health after) /\
  ((currentTime < Player.invulnerableUntil (store r) \/ Player.isAlive (store r) = false) ->
     Player.health after = Player.health (store r) /\
     Player.lives after = Player.lives (store r) /\
     Player.isAlive after = Player.isAlive (store r)).
Proof.
  cbv zeta.
  destruct (damagePlayerFromCollision_cases p damage currentTime) as (Cg & Ck & Cs).
  assert (Hone := pass_inv_damage currentTime damage p p (pass_inv_refl currentTime p)).
  destruct (resolveCollisions_inv events players asteroids bullets currentTime store r)
    as (Hl & _ & Hh & _ & _ & Hs).
  split; [intros G; now apply Cg|].
  split.
  { intros Hinv Halive.
    assert (Hopen : ~ shielded currentTime p) by (intros [?|?]; [lra | congruence]).
    split; [|split].
    - intros Hdead. destruct (Ck Hopen Hdead) as [-> _]. cbn. auto.
    - intros Hlive. destruct (Cs Hopen Hlive) as [-> _]. cbn. auto.
    - intros Hdmg Hpos.
      destruct (Rle_dec (Player.health p - damage) 0) as [Hdead|Hlive].
      + destruct (Ck Hopen Hdead) as [-> _]. cbn. lra.
      + destruct (Cs Hopen ltac:(lra)) as [-> _]. cbn. lra. }
  split; [apply Hone|].
  split; [exact Hl|]. split; [exact Hh|]. exact Hs.
Qed.

Lemma damage_gate_and_single_life_witness :
  Player.health (fst (damagePlayerFromCollision last_life 100 1000)) = 0 /\
  Player.isAlive (fst (damagePlayerFromCollision last_life 100 1000)) = false /\
  Player.lives (fst (damagePlayerFromCollision last_life 100 1000)) = Rmax 0 (1 - 1).
Proof.
  apply (damage_gate_and_single_life
           scenario_events ∅ ∅ ∅ 1000 (fun _ => last_life) 0%nat last_life 100).
  - cbn. lra.
  - reflexivity.
  - cbn. lra.
Defined.

(** ** Collision resolution: bullet against asteroid *)

Lemma resolve_bulletAsteroid_newAsteroids acc c :
  newAsteroids (fst (resolve_bulletAsteroid acc c)) = newAsteroids (fst acc).
Proof.
  destruct acc as [res s]. cbn. unfold splitAsteroidFromBullet. apply app_nil_r.
Qed.

Lemma resolve_playerAsteroid_newAsteroids t acc c :
  newAsteroids (fst (resolve_playerAsteroid t acc c)) = newAsteroids (fst acc).
Proof.
  destruct acc as [res s]. unfold resolve_playerAsteroid.
  destruct (damagePlayerFromCollision _ _ _) as [p' [|]]; reflexivity.
Qed.

Lemma resolve_playerBullet_newAsteroids t acc c :
  newAsteroids (fst (resolve_playerBullet t acc c)) = newAsteroids (fst acc).
Proof.
  destruct acc as [res s]. unfold resolve_playerBullet.
  destruct (damagePlayerFromCollision _ _ _) as [p' [|]]; reflexivity.
Qed.

(** The score table written out in [getAsteroidScore] agrees with the
    [POINTS] of [ASTEROID_CONFIG]. *)
Lemma getAsteroidScore_agrees (a : Asteroid) :
  getAsteroidScore a = getScoreForAsteroid (Asteroid.size a).
Proof. unfold getAsteroidScore, getScoreForAsteroid. now destruct (Asteroid.size a). Qed.

(** One bullet-asteroid event, whatever the asteroid's size: the bullet and
    the asteroid are marked destroyed, the owner of the bullet is awarded
    the asteroid's points, one explosion and one hit spark are queued; the
    store and the list of new asteroids are as before. *)
Lemma resolve_bulletAsteroid_effect (result : ResolveCollisionResult) (store : Store)
    (c : BulletAsteroidCollision.t) :
  let bullet := BulletAsteroidCollision.bullet c in
  let asteroid := BulletAsteroidCollision.asteroid c in
  resolve_bulletAsteroid (result, store) c
  = (mkResolveCollisionResult
       (destroyedPlayers result)
       (destroyedAsteroids result ++ [BulletAsteroidCollision.asteroidId c])
       (destroyedBullets result ++ [BulletAsteroidCollision.bulletId c])
       (newAsteroids result)
       (scoreUpdates result ++
          [ScoreUpdate.mk (Bullet.playerId bullet)
                          (POINTS (ASTEROID_CONFIG (Asteroid.size asteroid)))])
       (particleEffects result ++
          [ParticleEffect.mk (position (Asteroid.transform asteroid)) "explosion" 6;
           ParticleEffect.mk (position (Bullet.transform bullet)) "bulletHit" 3]),
     store).
Proof.
  cbv zeta. unfold resolve_bulletAsteroid, splitAsteroidFromBullet.
  rewrite app_nil_r, getAsteroidScore_agrees, !copy_id. reflexivity.
Qed.

(** Whatever the events, [resolveCollisions] reports no new asteroid. *)
Lemma resolveCollisions_newAsteroids events players asteroids bullets t s :
  newAsteroids (fst (resolveCollisions events players asteroids bullets t s)) = [].
Proof.
  unfold resolveCollisions.
  apply (fold_left_inv (fun acc => newAsteroids (fst acc) = [])).
  { intros a b. now rewrite resolve_playerBullet_newAsteroids. }
  apply (fold_left_inv (fun acc => newAsteroids (fst acc) = [])).
  { intros a b. now rewrite resolve_bulletAsteroid_newAsteroids. }
  apply (fold_left_inv (fun acc => newAsteroids (fst acc) = [])).
  { intros a b. now rewrite resolve_playerAsteroid_newAsteroids. }
  reflexivity.
Qed.

(** C1.  The scenario of the specification, run on the code: a bullet of
    player [P] strikes a LARGE asteroid at [(100, 100)].  The bullet and the
    asteroid are marked destroyed, [P] is awarded 20 points, one explosion
    and one hit spark are queued at [(100, 100)] -- and [newAsteroids] is
    empty, as it is for every list of events, although [splitAsteroid] on
    the same asteroid yields two children. *)
Theorem resolveCollisions_large_asteroid_scenario (store : Store) :
  fst (resolveCollisions scenario_events ∅ ∅ ∅ 1000 store)
  = mkResolveCollisionResult
      [] ["rock"%string] ["shot"%string] []
      [ScoreUpdate.mk "P" 20]
      [ParticleEffect.mk (mkVector2 100 100) "explosion" 6;
       ParticleEffect.mk (mkVector2 100 100) "bulletHit" 3]
  /\ List.length (fst (@splitAsteroid halves large_rock 0)) = 2%nat
  /\ forall events players asteroids bullets t,
       newAsteroids (fst (resolveCollisions events players asteroids bullets t store)) = [].
Proof.
  split; [|split].
  - unfold resolveCollisions, scenario_events.
    cbn [playerAsteroidCollisions bulletAsteroidCollisions playerBulletCollisions
         fold_left].
    rewrite resolve_bulletAsteroid_effect. reflexivity.
  - reflexivity.
  - intros events players asteroids bullets t.
    apply resolveCollisions_newAsteroids.
Qed.

(** ** Shooting *)

Lemma fromAngle_unit (angle : R) : Vec2.length (Vec2.fromAngle angle 1) = 1.
Proof. rewrite length_fromAngle. apply Rabs_R1. Qed.

Section Shooting.

Context {oracle : Oracle}.

(** C6.  For a living player: an input without [shoot] changes nothing; a
    [shoot] input less than [FIRE_RATE] after the last shot changes nothing;
    a [shoot] input at least [FIRE_RATE] after the last shot adds one bullet,
    owned by the player, placed 12 units ahead of the player along the
    heading, with velocity [heading * BULLET_SPEED] (the player's own
    velocity does not enter), and sets [lastShotTime] to the shot time, so
    that any further attempt less than [FIRE_RATE] later changes nothing. *)
Theorem shoot_gate
    (s : GameWorld.state) (playerId : string) (r : ref) (input : InputState) (now : R) :
  GameWorld.players (GameWorld.world s) !! playerId = Some r ->
  Player.isAlive (GameWorld.heap s r) = true ->
  let p := GameWorld.heap s r in
  let heading := {| x := cos (rotation (Player.transform p));
                    y := sin (rotation (Player.transform p)) |} in
  let s' := GameWorld.processInput s playerId input now in
  (shoot input = false -> s' = s) /\
  (now - Player.lastShotTime p < PLAYER_CONFIG.FIRE_RATE -> s' = s) /\
  (shoot input = true ->
   PLAYER_CONFIG.FIRE_RATE <= now - Player.lastShotTime p ->
   exists b : Bullet,
     GameWorld.bullets (GameWorld.world s')
       = <[Bullet.id b := b]> (GameWorld.bullets (GameWorld.world s)) /\
     Bullet.playerId b = Player.id p /\
     position (Bullet.transform b)
       = Vec2.add (position (Player.transform p)) (Vec2.multiply heading 12) /\
     Bullet.velocity b = Vec2.multiply heading PLAYER_CONFIG.BULLET_SPEED /\
     Bullet.createdAt b = now /\
     GameWorld.heap s' r = Player.set_lastShotTime p now /\
     forall (input2 : InputState) (now2 : R),
       now2 - now < PLAYER_CONFIG.FIRE_RATE ->
       GameWorld.processInput s' playerId input2 now2 = s').
Proof.
  intros Hlook Halive. cbv zeta. unfold GameWorld.processInput.
  rewrite Hlook, Halive. cbn [negb].
  split; [intros ->; reflexivity|]. split.
  { intros Hgate. unfold canPlayerShoot.
    destruct (Num.leb _ _) eqn:E; [apply leb_true in E; lra|].
    now rewrite andb_false_r. }
  intros -> Hgate. unfold canPlayerShoot.
  destruct (Num.leb _ _) eqn:E; [clear E | apply leb_false in E; lra].
  cbn [andb]. unfold GameWorld.shootBullet, createBullet.
  destruct (generateId (GameWorld.rng s)) as [bid n1] eqn:Eid.
  cbv beta iota zeta.
  match goal with |- context [base.insert _ ?b _] => exists b end.
  cbn [GameWorld.world GameWorld.heap GameWorld.bullets GameWorld.set_bullets
                Bullet.id Bullet.playerId Bullet.transform Bullet.velocity
                Bullet.createdAt position].
  split; [reflexivity|]. split; [reflexivity|].
  split.
  { apply vec_eq; unfold Vec2.copy, Vec2.add, Vec2.multiply, Vec2.fromAngle;
      cbn [x y]; ring. }
  split.
  { assert (Hu := fromAngle_unit (rotation (Player.transform (GameWorld.heap s r)))).
    destruct (normalize_nonzero _ ltac:(rewrite Hu; lra)) as [-> _]. rewrite Hu.
    apply vec_eq; unfold Vec2.divide, Vec2.multiply, Vec2.fromAngle; cbn [x y]; field. }
  split; [reflexivity|]. split; [apply assign_same|].
  intros input2 now2 Hsoon.
  cbn [GameWorld.players GameWorld.set_bullets]. rewrite Hlook, assign_same.
  cbn [Player.isAlive Player.set_lastShotTime Player.lastShotTime]. rewrite Halive.
  cbn [negb].
  destruct (Num.leb _ _) eqn:E2; [apply leb_true in E2; lra|].
  now rewrite andb_false_r.
Qed.

End Shooting.

Lemma shoot_gate_witness :
  exists b : Bullet,
    GameWorld.bullets
      (GameWorld.world
         (@GameWorld.processInput halves
            (GameWorld.mkState (fun _ => last_life) 0
               (GameWorld.mk {["P"%string := 0%nat]} ∅ ∅ ∅ 0 0))
            "P" (mkInputState false 0 false true) 1000))
    = <[Bullet.id b := b]> ∅ /\
    Bullet.velocity b
    = Vec2.multiply {| x := cos 0; y := sin 0 |} PLAYER_CONFIG.BULLET_SPEED.
Proof.
  destruct (@shoot_gate halves
              (GameWorld.mkState (fun _ => last_life) 0
                 (GameWorld.mk {["P"%string := 0%nat]} ∅ ∅ ∅ 0 0))
              "P" 0%nat (mkInputState false 0 false true) 1000)
    as (_ & _ & Hopen).
  - apply lookup_singleton_eq.
  - reflexivity.
  - destruct Hopen as (b & Hb & _ & _ & Hv & _).
    + reflexivity.
    + cbn. unfold PLAYER_CONFIG.FIRE_RATE. lra.
    + exists b. split; [exact Hb | exact Hv].
Defined.

(** ** The server's input pass *)

(** Splits a conjunction into its conjuncts, without entering them. *)
Ltac conjuncts := repeat match goal with |- _ /\ _ => split end.

Lemma kin_move (p : Player) (input : InputState) (dt : R) :
  kin (updatePlayerMovement p input dt) = updatePlayerMovement (kin p) input dt.
Proof. reflexivity. Qed.

Lemma isAlive_move (p : Player) (input : InputState) (dt : R) :
  Player.isAlive (updatePlayerMovement p input dt) = Player.isAlive p.
Proof. reflexivity. Qed.

Lemma rotation_move (k : PlayerCopy.t) (input : InputState) (dt : R) :
  rotation (PlayerCopy.transform (updatePlayerMovement k input dt))
  = rotation (PlayerCopy.transform k)
    + rotate input * PLAYER_CONFIG.ROTATION_SPEED * dt.
Proof.
  unfold updatePlayerMovement.
  cbn [get_transform get_velocity put_transform put_velocity PlayerCopy_Movable
       PlayerCopy.transform rotation].
  destruct (Num.eqb (rotate input) 0) eqn:E; [|reflexivity].
  apply eqb_true in E. rewrite E. ring.
Qed.

Section InputPass.

Context {oracle : Oracle}.

(** Shooting leaves every player's motion and aliveness alone. *)
Lemma gw_processInput_frame (s : GameWorld.state) (pid : string)
    (input : InputState) (t : R) (r : ref) :
  let s' := GameWorld.processInput s pid input t in
  same_cast r s s' /\ kin (GameWorld.heap s' r) = kin (GameWorld.heap s r).
Proof.
  cbv zeta. unfold GameWorld.processInput, same_cast.
  destruct (GameWorld.players (GameWorld.world s) !! pid) as [player|]; [|auto].
  destruct (negb (Player.isAlive (GameWorld.heap s player))); [auto|].
  destruct (shoot input && canPlayerShoot (GameWorld.heap s player) t); [|auto].
  unfold GameWorld.shootBullet.
  destruct (createBullet _ _ _ _ _) as [bullet n1].
  cbn [GameWorld.world GameWorld.heap GameWorld.players GameWorld.set_bullets].
  destruct (Nat.eq_dec r player) as [->|Hne].
  - rewrite assign_same. auto.
  - rewrite assign_other by assumption. auto.
Qed.

(** The world's movement method moves the player stored under [pid], if
    alive, and no other. *)
Lemma gw_updatePlayerMovement_frame (s : GameWorld.state) (pid : string)
    (input : InputState) (dt : R) (r : ref) :
  let s' := GameWorld.updatePlayerMovement s pid input dt in
  same_cast r s s' /\
  (GameWorld.players (GameWorld.world s) !! pid = Some r ->
   Player.isAlive (GameWorld.heap s r) = true ->
   kin (GameWorld.heap s' r) = updatePlayerMovement (kin (GameWorld.heap s r)) input dt) /\
  (GameWorld.players (GameWorld.world s) !! pid <> Some r ->
   kin (GameWorld.heap s' r) = kin (GameWorld.heap s r)).
Proof.
  cbv zeta. unfold GameWorld.updatePlayerMovement, same_cast.
  destruct (GameWorld.players (GameWorld.world s) !! pid) as [player|] eqn:Hlook.
  2:{ conjuncts; auto. discriminate. }
  destruct (Player.isAlive (GameWorld.heap s player)) eqn:Halive; cbn [negb].
  2:{ conjuncts; auto. intros [= ->]. congruence. }
  assert (Hheap :
    forall h, h = assign (GameWorld.heap s) player
                    (updatePlayerMovement (GameWorld.heap s player) input dt) ->
    (Player.isAlive (h r) = Player.isAlive (GameWorld.heap s r)) /\
    (Some player = Some r -> Player.isAlive (GameWorld.heap s r) = true ->
     kin (h r) = updatePlayerMovement (kin (GameWorld.heap s r)) input dt) /\
    (Some player <> Some r -> kin (h r) = kin (GameWorld.heap s r))).
  { intros h ->. destruct (Nat.eq_dec r player) as [->|Hne].
    - rewrite assign_same. conjuncts; auto. intros Hc. now contradiction Hc.
    - rewrite assign_other by assumption. conjuncts; auto.
      intros [= ->]. now contradiction Hne. }
  destruct (thrust input).
  - destruct (randomFloat 50 100 (GameWorld.rng s)) as [speed n1].
    destruct (createParticle _ _ _ _ _) as [particle n2].
    cbn [GameWorld.world GameWorld.heap GameWorld.players GameWorld.set_particles].
    destruct (Hheap _ eq_refl) as (A & B & C). auto.
  - cbn [GameWorld.world GameWorld.heap GameWorld.players].
    destruct (Hheap _ eq_refl) as (A & B & C). auto.
Qed.

(** One record of the buffer of the client [cid]. *)
Lemma process_entry_step (cid : string) (dt : R) (s : GameWorld.state)
    (done : list ClientInputEntry.t) (e : ClientInputEntry.t) (r : ref) :
  let out := Room.process_entry cid dt (s, done) e in
  snd out = done ++ [mark e] /\
  same_cast r s (fst out) /\
  (GameWorld.players (GameWorld.world s) !! cid = Some r ->
   Player.isAlive (GameWorld.heap s r) = true ->
   kin (GameWorld.heap (fst out) r)
   = replay dt (pending [e]) (kin (GameWorld.heap s r))) /\
  (GameWorld.players (GameWorld.world s) !! cid <> Some r ->
   kin (GameWorld.heap (fst out) r) = kin (GameWorld.heap s r)).
Proof.
  cbv zeta. unfold Room.process_entry, mark, pending, replay. cbn [List.filter].
  destruct (negb (ClientInputEntry.processed e)); cbn [fst snd List.map fold_left].
  2:{ unfold same_cast. auto. }
  destruct (gw_processInput_frame s cid (ClientInputEntry.input e)
              (ClientInputEntry.timestamp e) r) as ([P1 A1] & K1).
  destruct (gw_updatePlayerMovement_frame
              (GameWorld.processInput s cid (ClientInputEntry.input e)
                 (ClientInputEntry.timestamp e))
              cid (ClientInputEntry.input e) dt r) as ([P2 A2] & K2 & F2).
  split; [reflexivity|]. split; [|split].
  - split; congruence.
  - intros Hlook Halive. rewrite K2, K1; [reflexivity | congruence | congruence].
  - intros Hlook. rewrite F2, K1; [reflexivity | congruence].
Qed.

(** The whole loop over the buffer. *)
Lemma process_entries (cid : string) (dt : R) (buffer : list ClientInputEntry.t)
    (s : GameWorld.state) (done : list ClientInputEntry.t) (r : ref) :
  let out := fold_left (Room.process_entry cid dt) buffer (s, done) in
  snd out = done ++ List.map mark buffer /\
  same_cast r s (fst out) /\
  (GameWorld.players (GameWorld.world s) !! cid = Some r ->
   Player.isAlive (GameWorld.heap s r) = true ->
   kin (GameWorld.heap (fst out) r)
   = replay dt (pending buffer) (kin (GameWorld.heap s r))) /\
  (GameWorld.players (GameWorld.world s) !! cid <> Some r ->
   kin (GameWorld.heap (fst out) r) = kin (GameWorld.heap s r)).
Proof.
  cbv zeta. revert s done. induction buffer as [|e rest IH]; intros s done.
  - cbn. rewrite app_nil_r. unfold same_cast. auto.
  - cbn [fold_left].
    destruct (process_entry_step cid dt s done e r) as (B1 & [P1 A1] & K1 & F1).
    destruct (Room.process_entry cid dt (s, done) e) as [s1 done1] eqn:E1.
    cbn [fst snd] in *.
    destruct (IH s1 done1) as (B2 & [P2 A2] & K2 & F2).
    split; [|split; [|split]].
    + rewrite B2, B1. cbn [List.map]. now rewrite <- app_assoc.
    + split; congruence.
    + intros Hlook Halive. rewrite K2, K1 by congruence.
      unfold replay, pending. cbn [List.filter].
      destruct (negb (ClientInputEntry.processed e)); reflexivity.
    + intros Hlook. rewrite F2, F1 by congruence. reflexivity.
Qed.

Lemma mark_processed (e : ClientInputEntry.t) : ClientInputEntry.processed (mark e) = true.
Proof.
  unfold mark. destruct (ClientInputEntry.processed e) eqn:E; cbn; auto.
Qed.

(** [processClientInput] for one client, seen from reference [r]. *)
Lemma processClientInput_effect (s : GameWorld.state) (clk : nat)
    (client : ClientConnection.t) (dt : R) (r : ref) :
  let out := Room.processClientInput s clk client dt in
  let s' := fst (fst out) in
  let client' := snd out in
  same_cast r s s' /\
  ClientConnection.id client' = ClientConnection.id client /\
  ClientConnection.player client' = ClientConnection.player client /\
  (* the client that owns [r], alive *)
  (ClientConnection.player client = Some r ->
   GameWorld.players (GameWorld.world s) !! ClientConnection.id client = Some r ->
   Player.isAlive (GameWorld.heap s r) = true ->
   kin (GameWorld.heap s' r)
   = replay dt (pending (ClientConnection.inputBuffer client)) (kin (GameWorld.heap s r)) /\
   ClientConnection.inputBuffer client'
   = List.filter (fun e => Num.ltb (Date_now clk - 1000) (ClientInputEntry.timestamp e))
                 (List.map mark (ClientConnection.inputBuffer client))) /\
  (* the client that owns [r], dead: nothing is touched *)
  (ClientConnection.player client = Some r ->
   Player.isAlive (GameWorld.heap s r) = false ->
   out = (s, clk, client)) /\
  (* any other client *)
  (GameWorld.players (GameWorld.world s) !! ClientConnection.id client <> Some r ->
   kin (GameWorld.heap s' r) = kin (GameWorld.heap s r)).
Proof.
  cbv zeta. unfold Room.processClientInput.
  destruct (ClientConnection.player client) as [player|] eqn:Hp.
  2:{ cbn [fst snd]. unfold same_cast. conjuncts; auto; discriminate. }
  destruct (Player.isAlive (GameWorld.heap s player)) eqn:Halive; cbn [negb].
  2:{ cbn [fst snd]. unfold same_cast. conjuncts; auto.
      intros [= ->]. congruence. }
  destruct (process_entries (ClientConnection.id client) dt
              (ClientConnection.inputBuffer client) s [] r) as (B & C & K & F).
  destruct (fold_left _ _ _) as [s' buffer] eqn:E.
  cbn [fst snd ClientConnection.id ClientConnection.player
       ClientConnection.inputBuffer] in *.
  split; [exact C|]. split; [reflexivity|]. split; [reflexivity|].
  split; [|split].
  - intros [= ->] Hlook _. split; [now apply K|]. now rewrite B.
  - intros [= ->] Hdead. congruence.
  - exact F.
Qed.

End InputPass.

(** ** The room tick *)

Section Tick.

Context {oracle : Oracle}.

(** The clients that do not hold [r] leave its motion alone. *)
Lemma tick_clients_others (dt : R) (r : ref)
    (cl : list (string * ClientConnection.t)) (s : GameWorld.state) (clk : nat)
    (done : list (string * ClientConnection.t)) :
  (forall e, In e cl ->
     GameWorld.players (GameWorld.world s) !! ClientConnection.id (snd e) <> Some r) ->
  let out := fold_left (Room.tick_client dt) cl (s, clk, done) in
  same_cast r s (fst (fst out)) /\
  kin (GameWorld.heap (fst (fst out)) r) = kin (GameWorld.heap s r) /\
  exists cl', snd out = done ++ cl' /\ List.length cl' = List.length cl.
Proof.
  cbv zeta. revert s clk done. induction cl as [|e rest IH]; intros s clk done Hothers.
  - cbn. unfold same_cast. conjuncts; auto. exists []. now rewrite app_nil_r.
  - cbn [fold_left].
    destruct (processClientInput_effect s clk (snd e) dt r)
      as ([P1 A1] & _ & _ & _ & _ & F1).
    destruct (Room.processClientInput s clk (snd e) dt) as [[s1 clk1] c1] eqn:E1.
    assert (Hstep : Room.tick_client dt (s, clk, done) e
                    = (s1, clk1, done ++ [(fst e, c1)])).
    { unfold Room.tick_client. now rewrite E1. }
    rewrite Hstep. cbn [fst snd] in *.
    destruct (IH s1 clk1 (done ++ [(fst e, c1)])) as ([P2 A2] & K2 & cl' & B2 & L2).
    { intros e' Hin. rewrite P1. apply Hothers. now right. }
    split; [split; congruence|]. split.
    + rewrite K2. apply F1. apply Hothers. now left.
    + exists ((fst e, c1) :: cl'). split.
      * rewrite B2. now rewrite <- app_assoc.
      * cbn. now rewrite L2.
Qed.

(** The tick, unrolled around the client [c], seen from reference [r] that
    no other client holds: the clients before [c] leave [r]'s motion and
    aliveness as they were, [c] is processed over the tick's delta, and the
    clients after [c] leave [r]'s motion as [c] left it. *)
Lemma tick_inputs_around (st : Room.state)
    (before after : list (string * ClientConnection.t))
    (k : string) (c : ClientConnection.t) (r : ref) :
  Room.clients (Room.room st) = before ++ (k, c) :: after ->
  (forall e, In e (before ++ after) ->
     GameWorld.players (GameWorld.world (Room.game st)) !! ClientConnection.id (snd e)
     <> Some r) ->
  let deltaTime := (Date_now (Room.clock st) - Room.lastTick (Room.room st)) / 1000 in
  exists s1 clk1 before' after',
    same_cast r (Room.game st) s1 /\
    kin (GameWorld.heap s1 r) = kin (GameWorld.heap (Room.game st) r) /\
    kin (GameWorld.heap (Room.game (Room.tick_inputs st)) r)
    = kin (GameWorld.heap (fst (fst (Room.processClientInput s1 clk1 c deltaTime))) r) /\
    Room.clients (Room.room (Room.tick_inputs st))
    = before' ++ (k, snd (Room.processClientInput s1 clk1 c deltaTime)) :: after' /\
    List.length before' = List.length before /\
    List.length after' = List.length after.
Proof.
  intros Hcl Hothers. cbv zeta. unfold Room.tick_inputs.
  set (dt := (Date_now (Room.clock st) - Room.lastTick (Room.room st)) / 1000).
  rewrite Hcl, fold_left_app. cbn [fold_left].
  destruct (tick_clients_others dt r before (Room.game st) (S (Room.clock st)) [])
    as ([P1 A1] & K1 & before' & B1 & L1).
  { intros e Hin. apply Hothers, in_or_app. now left. }
  destruct (fold_left (Room.tick_client dt) before _) as [[s1 clk1] done1] eqn:E1.
  cbn [fst snd] in *. cbn [app] in B1. subst done1.
  destruct (processClientInput_effect s1 clk1 c dt r) as ([P2 A2] & _).
  destruct (Room.processClientInput s1 clk1 c dt) as [[s2 clk2] c'] eqn:E2.
  assert (Hstep : Room.tick_client dt (s1, clk1, before') (k, c)
                  = (s2, clk2, before' ++ [(k, c')])).
  { unfold Room.tick_client. cbn [fst snd]. now rewrite E2. }
  rewrite Hstep. cbn [fst snd] in *.
  destruct (tick_clients_others dt r after s2 clk2 (before' ++ [(k, c')]))
    as ([P3 A3] & K3 & after' & B3 & L3).
  { intros e Hin. rewrite P2, P1. apply Hothers, in_or_app. now right. }
  destruct (fold_left (Room.tick_client dt) after _) as [[s3 clk3] done3] eqn:E3.
  cbn [fst snd Room.game Room.room Room.clients] in *.
  exists s1, clk1, before', after'. rewrite E2. cbn [fst snd].
  split; [split; assumption|]. split; [assumption|]. split; [assumption|].
  split; [rewrite B3, <- app_assoc; reflexivity|]. split; assumption.
Qed.

(** The clients of a tick, whoever they are, leave the cast as it was, and
    each of them leaves one connection in the list. *)
Lemma tick_clients_cast (dt : R) (r : ref)
    (cl : list (string * ClientConnection.t)) (s : GameWorld.state) (clk : nat)
    (done : list (string * ClientConnection.t)) :
  let out := fold_left (Room.tick_client dt) cl (s, clk, done) in
  same_cast r s (fst (fst out)) /\
  exists cl', snd out = done ++ cl' /\ List.length cl' = List.length cl.
Proof.
  cbv zeta. revert s clk done. induction cl as [|e rest IH]; intros s clk done.
  - cbn. unfold same_cast. conjuncts; auto. exists []. now rewrite app_nil_r.
  - cbn [fold_left].
    destruct (processClientInput_effect s clk (snd e) dt r) as ([P1 A1] & _).
    destruct (Room.processClientInput s clk (snd e) dt) as [[s1 clk1] c1] eqn:E1.
    assert (Hstep : Room.tick_client dt (s, clk, done) e
                    = (s1, clk1, done ++ [(fst e, c1)])).
    { unfold Room.tick_client. now rewrite E1. }
    rewrite Hstep. cbn [fst snd] in *.
    destruct (IH s1 clk1 (done ++ [(fst e, c1)])) as ([P2 A2] & cl' & B2 & L2).
    split; [split; congruence|].
    exists ((fst e, c1) :: cl'). split.
    + rewrite B2. now rewrite <- app_assoc.
    + cbn. now rewrite L2.
Qed.

(** A client whose player is not alive when the tick begins comes out of
    the tick as it went in. *)
Lemma tick_inputs_dead (st : Room.state)
    (before after : list (string * ClientConnection.t))
    (k : string) (c : ClientConnection.t) (r : ref) :
  Room.clients (Room.room st) = before ++ (k, c) :: after ->
  ClientConnection.player c = Some r ->
  Player.isAlive (GameWorld.heap (Room.game st) r) = false ->
  exists before' after',
    Room.clients (Room.room (Room.tick_inputs st)) = before' ++ (k, c) :: after' /\
    List.length before' = List.length before /\
    List.length after' = List.length after.
Proof.
  intros Hcl Hp Hdead. unfold Room.tick_inputs.
  set (dt := (Date_now (Room.clock st) - Room.lastTick (Room.room st)) / 1000).
  rewrite Hcl, fold_left_app. cbn [fold_left].
  destruct (tick_clients_cast dt r before (Room.game st) (S (Room.clock st)) [])
    as ([P1 A1] & before' & B1 & L1).
  destruct (fold_left (Room.tick_client dt) before _) as [[s1 clk1] done1] eqn:E1.
  cbn [fst snd] in *. cbn [app] in B1. subst done1.
  destruct (processClientInput_effect s1 clk1 c dt r) as (_ & _ & _ & _ & Hskip & _).
  assert (Hstep : Room.tick_client dt (s1, clk1, before') (k, c)
                  = (s1, clk1, before' ++ [(k, c)])).
  { unfold Room.tick_client. cbn [fst snd].
    rewrite (Hskip Hp ltac:(congruence)). reflexivity. }
  rewrite Hstep.
  destruct (tick_clients_cast dt r after s1 clk1 (before' ++ [(k, c)]))
    as (_ & after' & B3 & L3).
  destruct (fold_left (Room.tick_client dt) after _) as [[s3 clk3] done3] eqn:E3.
  cbn [fst snd Room.game Room.room Room.clients] in *.
  exists before', after'.
  split; [rewrite B3, <- app_assoc; reflexivity|]. split; assumption.
Qed.

(** C3, as the code has it.  On a room tick, for a connected client whose
    player is alive and is held by no other client, every buffered record
    not yet processed is applied in buffer order through
    [updatePlayerMovement], each over the same delta: the tick's wall-clock
    delta [(now - lastTick) / 1000], whatever the records' own timestamps;
    and every record the clean-up keeps in the buffer is marked processed.
    A client whose player is not alive comes out of the tick as it went in:
    its buffer is left untouched, no record of it is processed or dropped. *)
Theorem tick_integrates_each_record_over_tick_delta (st : Room.state)
    (before after : list (string * ClientConnection.t))
    (k : string) (c : ClientConnection.t) (r : ref) :
  Room.clients (Room.room st) = before ++ (k, c) :: after ->
  ClientConnection.player c = Some r ->
  let deltaTime := (Date_now (Room.clock st) - Room.lastTick (Room.room st)) / 1000 in
  let st' := Room.tick_inputs st in
  (Player.isAlive (GameWorld.heap (Room.game st) r) = true ->
   GameWorld.players (GameWorld.world (Room.game st)) !! ClientConnection.id c = Some r ->
   (forall e, In e (before ++ after) ->
      GameWorld.players (GameWorld.world (Room.game st)) !! ClientConnection.id (snd e)
      <> Some r) ->
   kin (GameWorld.heap (Room.game st') r)
   = replay deltaTime (pending (ClientConnection.inputBuffer c))
            (kin (GameWorld.heap (Room.game st) r)) /\
   exists before' c' after' j,
     Room.clients (Room.room st') = before' ++ (k, c') :: after' /\
     List.length before' = List.length before /\
     List.length after' = List.length after /\
     ClientConnection.inputBuffer c'
     = List.filter (fun e => Num.ltb (Date_now j - 1000) (ClientInputEntry.timestamp e))
                   (List.map mark (ClientConnection.inputBuffer c)) /\
     Forall (fun e => ClientInputEntry.processed e = true)
            (ClientConnection.inputBuffer c')) /\
  (Player.isAlive (GameWorld.heap (Room.game st) r) = false ->
   exists before' after',
     Room.clients (Room.room st') = before' ++ (k, c) :: after' /\
     List.length before' = List.length before /\
     List.length after' = List.length after).
Proof.
  intros Hcl Hp. cbv zeta. split.
  - intros Halive Hlook Hothers.
    destruct (tick_inputs_around st before after k c r Hcl Hothers)
      as (s1 & clk1 & before' & after' & [P1 A1] & K1 & K & Hclients & L1 & L2).
    set (dt := (Date_now (Room.clock st) - Room.lastTick (Room.room st)) / 1000) in *.
    destruct (processClientInput_effect s1 clk1 c dt r) as (_ & _ & _ & Own & _ & _).
    destruct Own as [K2 B2]; [assumption | congruence | congruence |].
    split; [rewrite K, K2, K1; reflexivity|].
    exists before', (snd (Room.processClientInput s1 clk1 c dt)), after', clk1.
    split; [exact Hclients|]. split; [exact L1|]. split; [exact L2|].
    split; [exact B2|].
    rewrite B2. apply List.Forall_forall. intros e Hin.
    apply filter_In in Hin. destruct Hin as [Hin _].
    apply in_map_iff in Hin. destruct Hin as (e0 & <- & _). apply mark_processed.
  - intros Hdead. exact (tick_inputs_dead st before after k c r Hcl Hp Hdead).
Qed.

End Tick.

Lemma burst_room_premises :
  Room.clients (Room.room burst_room)
  = [] ++ ("P"%string, ClientConnection.mk "P" (Some 0%nat) burst 2) :: [] /\
  GameWorld.players (GameWorld.world (Room.game burst_room)) !! "P"%string = Some 0%nat /\
  (forall e : string * ClientConnection.t, In e ([] ++ []) ->
     GameWorld.players (GameWorld.world (Room.game burst_room))
       !! ClientConnection.id (snd e) <> Some 0%nat).
Proof.
  split; [reflexivity|]. split; [apply lookup_singleton_eq|]. intros e [].
Qed.

Lemma tick_integrates_each_record_over_tick_delta_witness :
  kin (GameWorld.heap (Room.game (@Room.tick_inputs at_2000 burst_room)) 0%nat)
  = replay ((2000 - 1983) / 1000) (pending burst) (kin pilot)
  /\ exists before' after',
       Room.clients (Room.room (@Room.tick_inputs at_2000 wreck_room))
       = before' ++ ("P"%string, ClientConnection.mk "P" (Some 0%nat) burst 2) :: after' /\
       List.length before' = 0%nat /\ List.length after' = 0%nat.
Proof.
  destruct burst_room_premises as (Hcl & Hlook & Hothers).
  split.
  - apply (@tick_integrates_each_record_over_tick_delta at_2000 burst_room [] []
             "P"%string (ClientConnection.mk "P" (Some 0%nat) burst 2) 0%nat
             Hcl eq_refl);
      [reflexivity | exact Hlook | exact Hothers].
  - apply (@tick_integrates_each_record_over_tick_delta at_2000 wreck_room [] []
             "P"%string (ClientConnection.mk "P" (Some 0%nat) burst 2) 0%nat
             eq_refl eq_refl).
    reflexivity.
Defined.

(** The tick of [burst_room] turns its player by the tick's delta. *)
Lemma burst_room_tick_rotation :
  rotation (Player.transform
              (GameWorld.heap (Room.game (@Room.tick_inputs at_2000 burst_room)) 0%nat))
  = 52 / 10 * (17 / 1000).
Proof.
  destruct burst_room_premises as (Hcl & Hlook & Hothers).
  destruct (@tick_inputs_around at_2000 burst_room [] []
              "P"%string (ClientConnection.mk "P" (Some 0%nat) burst 2) 0%nat
              Hcl Hothers)
    as (s1 & clk1 & _ & _ & [P1 A1] & K1 & K & _).
  destruct (@processClientInput_effect at_2000 s1 clk1
              (ClientConnection.mk "P" (Some 0%nat) burst 2)
              ((@Date_now at_2000 (Room.clock burst_room)
                - Room.lastTick (Room.room burst_room)) / 1000) 0%nat)
    as (_ & _ & _ & Own & _ & _).
  destruct Own as [K2 _]; [reflexivity | now rewrite P1 | now rewrite A1 |].
  change (Player.transform ?p) with (PlayerCopy.transform (kin p)).
  rewrite K, K2, K1.
  cbn [Date_now at_2000 Room.clock Room.lastTick Room.room burst_room
       ClientConnection.inputBuffer Room.game GameWorld.heap].
  unfold replay, pending, burst.
  cbn [List.filter List.map fold_left
       ClientInputEntry.processed ClientInputEntry.input negb].
  rewrite !rotation_move. cbn. unfold PLAYER_CONFIG.ROTATION_SPEED. field.
Qed.

(** C3, as the claim words it, fails on [burst_room]: the turning record
    comes 500 ms after the record before it, yet the tick turns the player
    by [ROTATION_SPEED * 0.017], the tick's delta, and not by
    [ROTATION_SPEED * 0.5].  It fails on [wreck_room] too, whose player is
    not alive: the tick leaves the two records unprocessed. *)
Lemma tick_ignores_record_timestamps :
  Room.clients (Room.room (@Room.tick_inputs at_2000 wreck_room))
  = [("P"%string, ClientConnection.mk "P" (Some 0%nat) burst 2)]
  /\ rotation (Player.transform
                (GameWorld.heap (Room.game (@Room.tick_inputs at_2000 burst_room)) 0%nat))
     = 52 / 10 * (17 / 1000)
  /\ rotation (PlayerCopy.transform (replay_own_deltas 900 burst (kin pilot)))
     = 52 / 10 * (500 / 1000)
  /\ kin (GameWorld.heap (Room.game (@Room.tick_inputs at_2000 burst_room)) 0%nat)
     <> replay_own_deltas 900 burst (kin pilot).
Proof.
  assert (Hcode := burst_room_tick_rotation).
  assert (Hspec :
    rotation (PlayerCopy.transform (replay_own_deltas 900 burst (kin pilot)))
    = 52 / 10 * (500 / 1000)).
  { unfold burst. cbn [replay_own_deltas ClientInputEntry.timestamp ClientInputEntry.input].
    rewrite !rotation_move. cbn. unfold PLAYER_CONFIG.ROTATION_SPEED. field. }
  split; [reflexivity|]. split; [exact Hcode|]. split; [exact Hspec|].
  intros Heq.
  change (Player.transform ?p) with (PlayerCopy.transform (kin p)) in Hcode.
  rewrite Heq, Hspec in Hcode. lra.
Qed.

(** ** Client reconciliation *)

Lemma transform_eta (t : Transform) : mkTransform (position t) (rotation t) = t.
Proof. now destruct t. Qed.

Lemma velocity_eta (v : Velocity) : mkVelocity (linear v) (angular v) = v.
Proof. now destruct v. Qed.

Lemma playerCopy_eta (k : PlayerCopy.t) :
  PlayerCopy.mk (PlayerCopy.transform k) (PlayerCopy.velocity k) = k.
Proof. now destruct k. Qed.

(** [applyInputToState] is [updatePlayerMovement] over the fixed timestep,
    on the motion of the predicted player; the rest of it is kept. *)
Lemma applyInputToState_effect (p : PredictedState.t) (input : InputState) :
  let p' := ClientPrediction.applyInputToState p input in
  predicted_kin p' = updatePlayerMovement (predicted_kin p) input GAME_CONFIG.FIXED_TIMESTEP /\
  PredictedState.id p' = PredictedState.id p /\
  PredictedState.isAlive p' = PredictedState.isAlive p.
Proof.
  cbv zeta. unfold ClientPrediction.applyInputToState, predicted_kin.
  cbn [PredictedState.transform PredictedState.velocity PredictedState.id
       PredictedState.isAlive].
  rewrite !copy_id, transform_eta, velocity_eta.
  rewrite transform_eta, velocity_eta, playerCopy_eta. auto.
Qed.

Lemma replay_entries_effect (entries : list PredictionInput.t) (p : PredictedState.t) :
  let p' := fold_left ClientPrediction.replay_entry entries p in
  PredictedState.id p' = PredictedState.id p /\
  PredictedState.isAlive p' = PredictedState.isAlive p /\
  predicted_kin p'
  = if PredictedState.isAlive p
    then replay GAME_CONFIG.FIXED_TIMESTEP (List.map PredictionInput.input entries)
                (predicted_kin p)
    else predicted_kin p.
Proof.
  cbv zeta. revert p. induction entries as [|e rest IH]; intros p.
  - cbn. destruct (PredictedState.isAlive p); auto.
  - cbn [fold_left List.map]. destruct (IH (ClientPrediction.replay_entry p e))
      as (I & A & K).
    unfold ClientPrediction.replay_entry in *.
    destruct (PredictedState.isAlive p) eqn:Halive.
    + destruct (applyInputToState_effect p (PredictionInput.input e)) as (K1 & I1 & A1).
      rewrite I, A, K, A1, I1, Halive, K1. auto.
    + rewrite I, A, K, Halive. auto.
Qed.

(** What [reconcile] leaves as the predicted state. *)
Lemma reconcile_effect (c : ClientPrediction.t) (snapshot_players : list Player)
    (own : string) (serverPlayer : Player) :
  ClientPrediction.playerId c = Some own ->
  own <> ""%string ->
  List.find (fun p => String.eqb (Player.id p) own) snapshot_players = Some serverPlayer ->
  exists ps,
    ClientPrediction.predictedState (ClientPrediction.reconcile c snapshot_players) = Some ps /\
    PredictedState.isAlive ps = Player.isAlive serverPlayer /\
    predicted_kin ps
    = if Player.isAlive serverPlayer
      then replay GAME_CONFIG.FIXED_TIMESTEP
             (List.map PredictionInput.input
                (List.filter
                   (fun input => Num.ltb (ClientPrediction.lastAcknowledgedSequence c)
                                         (PredictionInput.sequence input))
                   (ClientPrediction.inputBuffer c)))
             (kin serverPlayer)
      else kin serverPlayer.
Proof.
  intros Hown Hne Hfind. unfold ClientPrediction.reconcile.
  apply String.eqb_neq in Hne. rewrite Hown, Hne, Hfind.
  eexists. cbn [ClientPrediction.predictedState]. split; [reflexivity|].
  match goal with |- context [fold_left ClientPrediction.replay_entry ?l ?p0] =>
    destruct (replay_entries_effect l p0) as (_ & A & K)
  end.
  rewrite A, K. cbn [PredictedState.isAlive]. split; [reflexivity|].
  unfold predicted_kin, kin. cbn [PredictedState.transform PredictedState.velocity].
  now rewrite !copy_id, transform_eta, velocity_eta.
Qed.

Lemma filter_all {A : Type} (f : A -> bool) (l : list A) :
  Forall (fun a => f a = true) l -> List.filter f l = l.
Proof.
  induction 1 as [|a l Ha _ IH]; cbn; [reflexivity|]. now rewrite Ha, IH.
Qed.

(** The rotation after a replay: every input turns the player by its own
    [rotate] times the rotation speed times the delta. *)
Lemma replay_rotation (dt : R) (inputs : list InputState) (k : PlayerCopy.t) :
  rotation (PlayerCopy.transform (replay dt inputs k))
  = rotation (PlayerCopy.transform k)
    + turning inputs * PLAYER_CONFIG.ROTATION_SPEED * dt.
Proof.
  unfold replay. revert k.
  induction inputs as [|input rest IH]; intros k; cbn [fold_left turning].
  - ring.
  - rewrite IH, rotation_move. ring.
Qed.

(** [Date.now()] counts whole milliseconds, and no whole number of
    milliseconds is the sixtieth of a second that the client replays
    with. *)
Lemma tick_delta_never_fixed_timestep (now last : Z) :
  (IZR now - IZR last) / 1000 <> GAME_CONFIG.FIXED_TIMESTEP.
Proof.
  unfold GAME_CONFIG.FIXED_TIMESTEP. intros H.
  assert (E : IZR (3 * (now - last)) = IZR 50).
  { rewrite mult_IZR, minus_IZR. lra. }
  apply eq_IZR in E. lia.
Qed.

Section Reconciliation.

Context {oracle : Oracle}.

(** The server's tick and the client's reconciliation, set side by side.
    The room's clock and its last tick are whole milliseconds.  The server
    holds the player [S] of a living client with N records still to be
    processed; the client reconciles against a snapshot showing the same
    [S], with the same N inputs buffered and not acknowledged.  Both replay
    the inputs through [updatePlayerMovement], the tick over its wall-clock
    delta and the client over the fixed timestep, and so their rotations
    differ by the turns asked for times the difference of the two deltas:
    whenever the inputs turn the player at all, the predicted transform is
    not the server's. *)
Lemma reconcile_differs_at_every_tick (st : Room.state)
    (before after : list (string * ClientConnection.t))
    (k : string) (client : ClientConnection.t) (r : ref)
    (c : ClientPrediction.t) (snapshot_players : list Player) (own : string)
    (now last : Z) :
  Room.clients (Room.room st) = before ++ (k, client) :: after ->
  ClientConnection.player client = Some r ->
  GameWorld.players (GameWorld.world (Room.game st)) !! ClientConnection.id client
    = Some r ->
  Player.isAlive (GameWorld.heap (Room.game st) r) = true ->
  (forall e, In e (before ++ after) ->
     GameWorld.players (GameWorld.world (Room.game st)) !! ClientConnection.id (snd e)
     <> Some r) ->
  Date_now (Room.clock st) = IZR now ->
  Room.lastTick (Room.room st) = IZR last ->
  ClientPrediction.playerId c = Some own ->
  own <> ""%string ->
  List.find (fun p => String.eqb (Player.id p) own) snapshot_players
    = Some (GameWorld.heap (Room.game st) r) ->
  List.map PredictionInput.input (ClientPrediction.inputBuffer c)
    = pending (ClientConnection.inputBuffer client) ->
  Forall (fun e => ClientPrediction.lastAcknowledgedSequence c < PredictionInput.sequence e)
         (ClientPrediction.inputBuffer c) ->
  turning (pending (ClientConnection.inputBuffer client)) <> 0 ->
  let served := GameWorld.heap (Room.game (Room.tick_inputs st)) r in
  exists ps,
    ClientPrediction.predictedState (ClientPrediction.reconcile c snapshot_players) = Some ps /\
    rotation (PredictedState.transform ps) - rotation (Player.transform served)
    = turning (pending (ClientConnection.inputBuffer client))
      * PLAYER_CONFIG.ROTATION_SPEED
      * (GAME_CONFIG.FIXED_TIMESTEP - (IZR now - IZR last) / 1000) /\
    PredictedState.transform ps <> Player.transform served.
Proof.
  intros Hcl Hp Hlook Halive Hothers Hnow Hlast Hown Hne Hfind Hsame Hunack Hturn.
  cbv zeta.
  destruct (reconcile_effect c snapshot_players own _ Hown Hne Hfind)
    as (ps & Hps & _ & K).
  rewrite Halive, filter_all, Hsame in K.
  2:{ eapply List.Forall_impl; [|exact Hunack]. intros e He. now apply ltb_true. }
  destruct (tick_inputs_around st before after k client r Hcl Hothers)
    as (s1 & clk1 & _ & _ & [P1 A1] & K1 & Kt & _).
  rewrite Hnow, Hlast in Kt.
  destruct (processClientInput_effect s1 clk1 client
              ((IZR now - IZR last) / 1000) r) as (_ & _ & _ & Own & _ & _).
  destruct Own as [K2 _]; [assumption | congruence | congruence |].
  rewrite K2, K1 in Kt.
  assert (Hdiff :
    rotation (PredictedState.transform ps)
    - rotation (Player.transform (GameWorld.heap (Room.game (Room.tick_inputs st)) r))
    = turning (pending (ClientConnection.inputBuffer client))
      * PLAYER_CONFIG.ROTATION_SPEED
      * (GAME_CONFIG.FIXED_TIMESTEP - (IZR now - IZR last) / 1000)).
  { change (PredictedState.transform ps) with (PlayerCopy.transform (predicted_kin ps)).
    change (Player.transform ?p) with (PlayerCopy.transform (kin p)).
    rewrite K, Kt, !replay_rotation. ring. }
  exists ps. split; [exact Hps|]. split; [exact Hdiff|].
  intros Heq. rewrite Heq in Hdiff.
  assert (Hdelta := tick_delta_never_fixed_timestep now last).
  unfold PLAYER_CONFIG.ROTATION_SPEED in Hdiff.
  assert (Hzero :
    turning (pending (ClientConnection.inputBuffer client))
    * (GAME_CONFIG.FIXED_TIMESTEP - (IZR now - IZR last) / 1000) = 0) by lra.
  apply Rmult_integral in Hzero. destruct Hzero as [Hz|Hz]; [contradiction|].
  apply Hdelta. lra.
Qed.

End Reconciliation.

(** C2.  The claim fails on [burst_room], as it does on every tick.  The
    server's tick at 2000 ms, 17 ms after the last one, integrates the two
    buffered inputs over 0.017 s each and leaves the player turned by
    [5.2 * 0.017]; the client, reconciling against the same player with the
    same two inputs, replays them over [FIXED_TIMESTEP = 1/60] s each and
    predicts a turn of [5.2 / 60]: the predicted transform is not the
    server's. *)
Theorem reconcile_differs_from_tick :
  exists ps,
    ClientPrediction.predictedState (ClientPrediction.reconcile burst_prediction [pilot])
    = Some ps /\
    rotation (PredictedState.transform ps) = 52 / 10 * (1 / 60) /\
    rotation (Player.transform
                (GameWorld.heap (Room.game (@Room.tick_inputs at_2000 burst_room)) 0%nat))
    = 52 / 10 * (17 / 1000) /\
    PredictedState.transform ps
    <> Player.transform
         (GameWorld.heap (Room.game (@Room.tick_inputs at_2000 burst_room)) 0%nat).
Proof.
  destruct (reconcile_effect burst_prediction [pilot] "P"%string pilot
              eq_refl ltac:(discriminate) eq_refl)
    as (ps & Hps & _ & K).
  exists ps. split; [exact Hps|].
  assert (Hserver := burst_room_tick_rotation).
  assert (Hclient : rotation (PredictedState.transform ps) = 52 / 10 * (1 / 60)).
  { change (PredictedState.transform ps) with (PlayerCopy.transform (predicted_kin ps)).
    rewrite K. cbn [Player.isAlive pilot].
    rewrite filter_all by (repeat constructor; cbn; apply ltb_true; lra).
    unfold replay. cbn [List.map fold_left burst_prediction
                        ClientPrediction.inputBuffer PredictionInput.input].
    rewrite !rotation_move. cbn.
    unfold PLAYER_CONFIG.ROTATION_SPEED, GAME_CONFIG.FIXED_TIMESTEP. field. }
  split; [exact Hclient|]. split; [exact Hserver|].
  intros Heq. rewrite Heq, Hserver in Hclient. lra.
Qed.


(** The tick of [burst_room] is one of those ticks: its clock reads 2000 ms,
    its last tick 1983 ms, and the one turning input is still pending. *)
Lemma reconcile_differs_at_burst_room :
  exists ps,
    ClientPrediction.predictedState (ClientPrediction.reconcile burst_prediction [pilot])
    = Some ps /\
    rotation (PredictedState.transform ps)
    - rotation (Player.transform
                  (GameWorld.heap (Room.game (@Room.tick_inputs at_2000 burst_room)) 0%nat))
    = 1 * PLAYER_CONFIG.ROTATION_SPEED * (GAME_CONFIG.FIXED_TIMESTEP - (2000 - 1983) / 1000).
Proof.
  destruct burst_room_premises as (Hcl & Hlook & Hothers).
  destruct (@reconcile_differs_at_every_tick at_2000 burst_room [] []
              "P"%string (ClientConnection.mk "P" (Some 0%nat) burst 2) 0%nat
              burst_prediction [pilot] "P"%string 2000 1983
              Hcl eq_refl Hlook eq_refl Hothers eq_refl eq_refl eq_refl)
    as (ps & Hps & Hdiff & _).
  - discriminate.
  - reflexivity.
  - reflexivity.
  - repeat constructor; cbn; lra.
  - cbn. lra.
  - exists ps. split; [exact Hps|]. rewrite Hdiff. cbn. ring.
Qed.
(** ** The spatial hash *)

Lemma set_add_self (id : string) (s : list string) : id ∈ SpatialHash.set_add id s.
Proof.
  unfold SpatialHash.set_add. destruct (decide (id ∈ s)); [assumption|].
  apply elem_of_app. right. apply list_elem_of_singleton. reflexivity.
Qed.

Lemma set_add_keeps (id x : string) (s : list string) :
  x ∈ s -> x ∈ SpatialHash.set_add id s.
Proof.
  intros Hx. unfold SpatialHash.set_add. destruct (decide (id ∈ s)); [assumption|].
  apply elem_of_app. now left.
Qed.

Lemma set_add_NoDup (id : string) (s : list string) :
  NoDup s -> NoDup (SpatialHash.set_add id s).
Proof.
  intros Hs. unfold SpatialHash.set_add. destruct (decide (id ∈ s)); [assumption|].
  apply NoDup_app. split; [assumption|]. split.
  - intros x Hx Hx'. apply list_elem_of_singleton in Hx'. now subst.
  - apply NoDup_singleton.
Qed.

Lemma set_delete_keeps (id x : string) (s : list string) :
  x <> id -> x ∈ s -> x ∈ SpatialHash.set_delete id s.
Proof.
  intros Hne Hx. unfold SpatialHash.set_delete.
  apply list_elem_of_In, filter_In. split; [now apply list_elem_of_In|].
  apply negb_true_iff, String.eqb_neq. exact Hne.
Qed.

Lemma insert_key_adds id cs key : in_bucket (SpatialHash.insert_key id cs key) key id.
Proof.
  unfold SpatialHash.insert_key, in_bucket.
  destruct (cs !! key) as [cell|]; eexists; (split; [apply lookup_insert_eq|]);
    apply set_add_self.
Qed.

Lemma insert_key_keeps id cs key k x :
  in_bucket cs k x -> in_bucket (SpatialHash.insert_key id cs key) k x.
Proof.
  intros (cell & Hcell & Hx). unfold SpatialHash.insert_key, in_bucket.
  destruct (decide (key = k)) as [->|Hne].
  - rewrite Hcell. eexists. split; [apply lookup_insert_eq|]. now apply set_add_keeps.
  - exists cell. split; [|assumption].
    destruct (cs !! key); now rewrite lookup_insert_ne.
Qed.

Lemma insert_keys_keep id keys cs k x :
  in_bucket cs k x -> in_bucket (fold_left (SpatialHash.insert_key id) keys cs) k x.
Proof.
  revert cs. induction keys as [|key rest IH]; intros cs H; cbn; [assumption|].
  apply IH. now apply insert_key_keeps.
Qed.

Lemma insert_keys_add id keys cs key :
  key ∈ keys -> in_bucket (fold_left (SpatialHash.insert_key id) keys cs) key id.
Proof.
  revert cs. induction keys as [|k rest IH]; intros cs Hin; cbn.
  - now apply elem_of_nil in Hin.
  - apply elem_of_cons in Hin. destruct Hin as [->|Hin].
    + apply insert_keys_keep, insert_key_adds.
    + now apply IH.
Qed.

Lemma remove_key_keeps id cs key k x :
  x <> id -> in_bucket cs k x -> in_bucket (SpatialHash.remove_key id cs key) k x.
Proof.
  intros Hne (cell & Hcell & Hx). unfold SpatialHash.remove_key, in_bucket.
  destruct (decide (key = k)) as [->|Hk].
  - rewrite Hcell.
    assert (Hx' := set_delete_keeps id x cell Hne Hx).
    destruct (SpatialHash.set_delete id cell) as [|e l] eqn:E.
    + now apply elem_of_nil in Hx'.
    + cbn [List.length Nat.eqb]. eexists. split; [apply lookup_insert_eq | exact Hx'].
  - exists cell. split; [|assumption].
    destruct (cs !! key) as [c|]; [|assumption].
    destruct (Nat.eqb _ 0); [now rewrite lookup_delete_ne | now rewrite lookup_insert_ne].
Qed.

Lemma remove_keys_keep id keys cs k x :
  x <> id -> in_bucket cs k x ->
  in_bucket (fold_left (SpatialHash.remove_key id) keys cs) k x.
Proof.
  intros Hne. revert cs. induction keys as [|key rest IH]; intros cs H; cbn; [assumption|].
  apply IH. now apply remove_key_keeps.
Qed.

Lemma remove_cellSize id h : SpatialHash.cellSize (SpatialHash.remove id h) = SpatialHash.cellSize h.
Proof. unfold SpatialHash.remove. now destruct (SpatialHash.objects h !! id). Qed.

Lemma remove_objects id h :
  SpatialHash.objects (SpatialHash.remove id h) = delete id (SpatialHash.objects h).
Proof.
  unfold SpatialHash.remove. destruct (SpatialHash.objects h !! id) eqn:E; [reflexivity|].
  symmetry. now apply delete_id.
Qed.

Lemma remove_indexed id h : indexed h -> indexed (SpatialHash.remove id h).
Proof.
  intros Hidx id' obj Hobj. rewrite remove_objects in Hobj. rewrite remove_cellSize.
  destruct (decide (id' = id)) as [->|Hne].
  { now rewrite lookup_delete_eq in Hobj. }
  rewrite lookup_delete_ne in Hobj by congruence.
  destruct (Hidx id' obj Hobj) as [Hkeys Hin]. split; [exact Hkeys|].
  intros key Hkey. unfold SpatialHash.remove.
  destruct (SpatialHash.objects h !! id); cbn [SpatialHash.cells]; [|now apply Hin].
  apply remove_keys_keep; [assumption | now apply Hin].
Qed.

Lemma insert_objects id position radius h :
  SpatialHash.objects (SpatialHash.insert id position radius h)
  = <[id := SpatialHash.mkStoredObject position radius
              (SpatialHash.getCellsForObject (SpatialHash.cellSize h) position radius)]>
      (SpatialHash.objects h).
Proof.
  unfold SpatialHash.insert. cbn [SpatialHash.objects].
  rewrite remove_cellSize, remove_objects. apply insert_delete_eq.
Qed.

Lemma insert_cellSize id position radius h :
  SpatialHash.cellSize (SpatialHash.insert id position radius h) = SpatialHash.cellSize h.
Proof. unfold SpatialHash.insert. cbn. apply remove_cellSize. Qed.

Lemma insert_indexed id position radius h :
  indexed h -> indexed (SpatialHash.insert id position radius h).
Proof.
  intros Hidx id' obj Hobj. rewrite insert_objects in Hobj. rewrite insert_cellSize.
  unfold SpatialHash.insert. cbn [SpatialHash.cells]. rewrite remove_cellSize.
  destruct (decide (id' = id)) as [->|Hne].
  - rewrite lookup_insert_eq in Hobj. injection Hobj as <-.
    cbn [SpatialHash.cellKeys SpatialHash.position SpatialHash.radius].
    split; [reflexivity|]. intros key Hkey. now apply insert_keys_add.
  - rewrite lookup_insert_ne in Hobj by congruence.
    assert (Hobj' : SpatialHash.objects (SpatialHash.remove id h) !! id' = Some obj).
    { rewrite remove_objects, lookup_delete_ne by congruence. exact Hobj. }
    destruct (remove_indexed id h Hidx id' obj Hobj') as [Hkeys Hin].
    rewrite remove_cellSize in Hkeys. split; [exact Hkeys|].
    intros key Hkey. apply insert_keys_keep. now apply Hin.
Qed.

Lemma reachable_indexed cellSize h :
  reachable cellSize h -> SpatialHash.cellSize h = cellSize /\ indexed h.
Proof.
  induction 1 as [|id position radius h _ [IHc IHi]|id h _ [IHc IHi]|h _ [IHc IHi]].
  - split; [reflexivity|]. intros id obj Hobj. cbn in Hobj.
    now rewrite lookup_empty in Hobj.
  - split; [now rewrite insert_cellSize | now apply insert_indexed].
  - split; [now rewrite remove_cellSize | now apply remove_indexed].
  - split; [exact IHc|]. intros id obj Hobj. cbn in Hobj.
    now rewrite lookup_empty in Hobj.
Qed.

(** *** [query] *)

Lemma add_all_spec (cell candidates : list string) :
  let out := fold_left (fun c id => SpatialHash.set_add id c) cell candidates in
  (NoDup candidates -> NoDup out) /\
  (forall x, x ∈ candidates -> x ∈ out) /\
  (forall x, x ∈ cell -> x ∈ out).
Proof.
  cbv zeta. revert candidates. induction cell as [|id rest IH]; intros candidates; cbn.
  - conjuncts; auto. intros x Hx. now apply elem_of_nil in Hx.
  - destruct (IH (SpatialHash.set_add id candidates)) as (N & K & A).
    conjuncts.
    + intros Hn. now apply N, set_add_NoDup.
    + intros x Hx. now apply K, set_add_keeps.
    + intros x Hx. apply elem_of_cons in Hx. destruct Hx as [->|Hx].
      * apply K, set_add_self.
      * now apply A.
Qed.

Lemma query_keys_spec (cs : gmap (Z * Z) (list string)) (keys : list (Z * Z))
    (candidates : list string) :
  let out := fold_left (SpatialHash.query_key cs) keys candidates in
  (NoDup candidates -> NoDup out) /\
  (forall x, x ∈ candidates -> x ∈ out) /\
  (forall key x, key ∈ keys -> in_bucket cs key x -> x ∈ out).
Proof.
  cbv zeta. revert candidates. induction keys as [|k rest IH]; intros candidates; cbn.
  - conjuncts; auto. intros key x Hk. now apply elem_of_nil in Hk.
  - destruct (IH (SpatialHash.query_key cs candidates k)) as (N & K & A).
    assert (Hstep :
      (NoDup candidates -> NoDup (SpatialHash.query_key cs candidates k)) /\
      (forall x, x ∈ candidates -> x ∈ SpatialHash.query_key cs candidates k) /\
      (forall x, in_bucket cs k x -> x ∈ SpatialHash.query_key cs candidates k)).
    { unfold SpatialHash.query_key, in_bucket.
      destruct (cs !! k) as [cell|].
      - destruct (add_all_spec cell candidates) as (N1 & K1 & A1).
        conjuncts; auto. intros x (cell' & [= <-] & Hx). now apply A1.
      - conjuncts; auto. intros x (cell' & Hc & _). discriminate. }
    destruct Hstep as (N1 & K1 & A1). conjuncts.
    + intros Hn. now apply N, N1.
    + intros x Hx. now apply K, K1.
    + intros key x Hk Hb. apply elem_of_cons in Hk. destruct Hk as [->|Hk].
      * now apply K, A1.
      * now apply (A key).
Qed.

(** *** Cells of a bounding square *)

Lemma range_spec (lo hi z : Z) : z ∈ SpatialHash.range lo hi <-> (lo <= z <= hi)%Z.
Proof.
  unfold SpatialHash.range. rewrite list_elem_of_In, in_map_iff. split.
  - intros (i & <- & Hi). apply in_seq in Hi. lia.
  - intros Hz. exists (Z.to_nat (z - lo)). split; [lia|]. apply in_seq. lia.
Qed.

Lemma getCellsForObject_spec (cellSize : R) (p : Vector2) (radius : R) (cx cy : Z) :
  (cx, cy) ∈ SpatialHash.getCellsForObject cellSize p radius <->
  (Num.floor ((x p - radius) / cellSize) <= cx <= Num.floor ((x p + radius) / cellSize))%Z /\
  (Num.floor ((y p - radius) / cellSize) <= cy <= Num.floor ((y p + radius) / cellSize))%Z.
Proof.
  unfold SpatialHash.getCellsForObject. rewrite list_elem_of_In, in_flat_map.
  rewrite <- !range_spec. split.
  - intros (cx' & Hcx & Hin). apply in_map_iff in Hin. destruct Hin as (cy' & [= <- <-] & Hcy).
    split; now apply list_elem_of_In.
  - intros [Hcx Hcy]. exists cx. split; [now apply list_elem_of_In|].
    apply in_map_iff. exists cy. split; [reflexivity | now apply list_elem_of_In].
Qed.

Lemma div_mono (a b c : R) : 0 < c -> a <= b -> a / c <= b / c.
Proof.
  intros Hc Hab. unfold Rdiv. apply Rmult_le_compat_r; [|assumption].
  left. now apply Rinv_0_lt_compat.
Qed.

(** Two intervals [[a - r, a + r]] and [[b - s, b + s]] that meet share the
    cell index of a common point. *)
Lemma shared_index (cellSize a r b s : R) :
  0 < cellSize -> 0 <= r -> 0 <= s -> Rabs (a - b) <= r + s ->
  exists c : Z,
    (Num.floor ((a - r) / cellSize) <= c <= Num.floor ((a + r) / cellSize))%Z /\
    (Num.floor ((b - s) / cellSize) <= c <= Num.floor ((b + s) / cellSize))%Z.
Proof.
  intros Hc Hr Hs Habs.
  assert (Hd : - (r + s) <= a - b <= r + s).
  { unfold Rabs in Habs. destruct (Rcase_abs (a - b)); lra. }
  exists (Num.floor (Rmax (a - r) (b - s) / cellSize)).
  assert (H1 := Rmax_l (a - r) (b - s)). assert (H2 := Rmax_r (a - r) (b - s)).
  assert (H3 : Rmax (a - r) (b - s) <= a + r) by (apply Rmax_lub; lra).
  assert (H4 : Rmax (a - r) (b - s) <= b + s) by (apply Rmax_lub; lra).
  split; split; apply floor_mono, div_mono; assumption.
Qed.

Lemma abs_x_le_length (v : Vector2) : Rabs (x v) <= Vec2.length v.
Proof.
  unfold Vec2.length. rewrite <- sqrt_Rsqr_abs. apply sqrt_le_1_alt. unfold Rsqr. nra.
Qed.

Lemma abs_y_le_length (v : Vector2) : Rabs (y v) <= Vec2.length v.
Proof.
  unfold Vec2.length. rewrite <- sqrt_Rsqr_abs. apply sqrt_le_1_alt. unfold Rsqr. nra.
Qed.

(** Circles that touch or overlap have bounding squares with a common
    cell. *)
Lemma circles_share_cell (cellSize : R) (p q : Vector2) (r s : R) :
  0 < cellSize -> 0 <= r -> 0 <= s -> Vec2.distance p q <= r + s ->
  exists key,
    key ∈ SpatialHash.getCellsForObject cellSize p r /\
    key ∈ SpatialHash.getCellsForObject cellSize q s.
Proof.
  intros Hc Hr Hs Hd. unfold Vec2.distance in Hd.
  assert (Hx := abs_x_le_length (Vec2.subtract p q)).
  assert (Hy := abs_y_le_length (Vec2.subtract p q)).
  cbn [Vec2.subtract x y] in Hx, Hy.
  destruct (shared_index cellSize (x p) r (x q) s Hc Hr Hs ltac:(lra)) as (cx & X1 & X2).
  destruct (shared_index cellSize (y p) r (y q) s Hc Hr Hs ltac:(lra)) as (cy & Y1 & Y2).
  exists (cx, cy). split; apply getCellsForObject_spec; auto.
Qed.

Lemma circleCircleCollision_collided (pos1 : Vector2) (radius1 : R)
    (pos2 : Vector2) (radius2 : R) :
  collided (circleCircleCollision pos1 radius1 pos2 radius2) = true ->
  Vec2.length (Vec2.subtract pos2 pos1) < radius1 + radius2 /\
  0 < Vec2.length (Vec2.subtract pos2 pos1).
Proof.
  unfold circleCircleCollision.
  destruct (Num.ltb _ (radius1 + radius2)) eqn:E1;
    destruct (Num.ltb 0 _) eqn:E2; cbn [andb collided]; try discriminate.
  intros _. split; now apply ltb_true.
Qed.

(** C10.  In a spatial hash built by any sequence of the class's
    operations, with a positive cell size: [insert] stores the object under
    its id, replacing what the id stood for and touching no other id;
    [query] returns a list without duplicates that contains every stored id
    whose bounding square shares a grid cell with the query's bounding
    square, hence every stored id whose circle touches or overlaps the query
    circle (radii not negative), hence every id for which
    [circleCircleCollision] against the query circle reports a collision. *)
Theorem query_complete (cellSize : R) (h : SpatialHash.t) (q : Vector2) (radius : R) :
  0 < cellSize ->
  reachable cellSize h ->
  (forall id position r,
     SpatialHash.objects (SpatialHash.insert id position r h) !! id
     = Some (SpatialHash.mkStoredObject position r
               (SpatialHash.getCellsForObject cellSize position r)) /\
     forall id', id' <> id ->
       SpatialHash.objects (SpatialHash.insert id position r h) !! id'
       = SpatialHash.objects h !! id') /\
  NoDup (SpatialHash.query q radius h) /\
  forall id obj,
    SpatialHash.objects h !! id = Some obj ->
    ((exists key,
        key ∈ SpatialHash.getCellsForObject cellSize
                (SpatialHash.position obj) (SpatialHash.radius obj) /\
        key ∈ SpatialHash.getCellsForObject cellSize q radius) ->
     id ∈ SpatialHash.query q radius h) /\
    (0 <= SpatialHash.radius obj -> 0 <= radius ->
     Vec2.distance (SpatialHash.position obj) q <= SpatialHash.radius obj + radius ->
     id ∈ SpatialHash.query q radius h) /\
    (0 <= SpatialHash.radius obj -> 0 <= radius ->
     collided (circleCircleCollision q radius
                 (SpatialHash.position obj) (SpatialHash.radius obj)) = true ->
     id ∈ SpatialHash.query q radius h).
Proof.
  intros Hc Hreach. destruct (reachable_indexed cellSize h Hreach) as [Hsize Hidx].
  destruct (query_keys_spec (SpatialHash.cells h)
              (SpatialHash.getCellsForObject (SpatialHash.cellSize h) q radius) [])
    as (N & _ & A).
  assert (Hcell : forall id obj,
    SpatialHash.objects h !! id = Some obj ->
    (exists key,
        key ∈ SpatialHash.getCellsForObject cellSize
                (SpatialHash.position obj) (SpatialHash.radius obj) /\
        key ∈ SpatialHash.getCellsForObject cellSize q radius) ->
    id ∈ SpatialHash.query q radius h).
  { intros id obj Hobj (key & Hk1 & Hk2). destruct (Hidx id obj Hobj) as [Hkeys Hin].
    unfold SpatialHash.query. rewrite Hsize in *. apply (A key); [exact Hk2|].
    apply Hin. now rewrite Hkeys. }
  assert (Htouch : forall id obj,
    SpatialHash.objects h !! id = Some obj ->
    0 <= SpatialHash.radius obj -> 0 <= radius ->
    Vec2.distance (SpatialHash.position obj) q <= SpatialHash.radius obj + radius ->
    id ∈ SpatialHash.query q radius h).
  { intros id obj Hobj Hr Hrad Hd. apply (Hcell id obj Hobj).
    now apply circles_share_cell. }
  split; [|split; [|intros id obj Hobj; split; [|split]]].
  - intros id position r. rewrite insert_objects, Hsize. split.
    + apply lookup_insert_eq.
    + intros id' Hne. now apply lookup_insert_ne.
  - apply N. constructor.
  - now apply Hcell.
  - now apply Htouch.
  - intros Hr Hrad Hcol. apply (Htouch id obj Hobj Hr Hrad).
    destruct (circleCircleCollision_collided q radius (SpatialHash.position obj)
                (SpatialHash.radius obj)) as [Hlt _]; [exact Hcol|].
    unfold Vec2.distance. lra.
Qed.

Lemma query_complete_witness :
  "asteroid_rock"%string ∈ SpatialHash.query (mkVector2 160 160) 2 one_rock_index.
Proof.
  assert (Hpos : 0 < PHYSICS_CONFIG.SPATIAL_HASH_CELL_SIZE)
    by (unfold PHYSICS_CONFIG.SPATIAL_HASH_CELL_SIZE; lra).
  assert (Hreach : reachable PHYSICS_CONFIG.SPATIAL_HASH_CELL_SIZE one_rock_index)
    by (apply reachable_insert, reachable_create).
  destruct (query_complete PHYSICS_CONFIG.SPATIAL_HASH_CELL_SIZE one_rock_index
              (mkVector2 160 160) 2 Hpos Hreach) as (_ & _ & Hall).
  destruct (Hall "asteroid_rock"%string
              (SpatialHash.mkStoredObject (mkVector2 150 150) 40
                 (SpatialHash.getCellsForObject PHYSICS_CONFIG.SPATIAL_HASH_CELL_SIZE
                    (mkVector2 150 150) 40)))
    as (_ & Htouch & _).
  - unfold one_rock_index. rewrite insert_objects. apply lookup_insert_eq.
  - apply Htouch; cbn [SpatialHash.radius SpatialHash.position]; try lra.
    unfold Vec2.distance, Vec2.length, Vec2.subtract; cbn [x y].
    rewrite <- (sqrt_square (40 + 2)) by lra.
    apply sqrt_le_1_alt. lra.
Defined.


(** * Further properties of the code *)

(** ** [math.ts] *)

Lemma length_flip (a b : Vector2) :
  Vec2.length (Vec2.subtract a b) = Vec2.length (Vec2.subtract b a).
Proof.
  unfold Vec2.length, Vec2.subtract; cbn [x y]. f_equal. ring.
Qed.

(** X1.  Swapping the two circles of [circleCircleCollision] changes
    neither the verdict nor the depth, and turns the normal around. *)
Theorem circleCircleCollision_symmetric (pos1 pos2 : Vector2) (radius1 radius2 : R) :
  let forth := circleCircleCollision pos1 radius1 pos2 radius2 in
  let back := circleCircleCollision pos2 radius2 pos1 radius1 in
  collided forth = collided back /\
  depth forth = depth back /\
  normal back = option_map (fun n => Vec2.multiply n (-1)) (normal forth).
Proof.
  cbv zeta. unfold circleCircleCollision.
  rewrite (length_flip pos1 pos2), (Rplus_comm radius2 radius1).
  destruct (Num.ltb _ (radius1 + radius2) && Num.ltb 0 _) eqn:E;
    cbn [collided depth normal option_map]; [|auto].
  apply andb_prop in E. destruct E as [_ E]. apply ltb_true in E.
  split; [reflexivity|]. split; [reflexivity|]. f_equal.
  destruct (normalize_nonzero (Vec2.subtract pos2 pos1) E) as [-> _].
  assert (E' : 0 < Vec2.length (Vec2.subtract pos1 pos2))
    by now rewrite (length_flip pos1 pos2).
  destruct (normalize_nonzero (Vec2.subtract pos1 pos2) E') as [-> _].
  rewrite (length_flip pos1 pos2).
  set (d := Vec2.length (Vec2.subtract pos2 pos1)) in *.
  apply vec_eq; unfold Vec2.divide, Vec2.multiply, Vec2.subtract; cbn [x y]; field; lra.
Qed.

(** The double remainder of [wrapPosition] and [wrapAngle] shifts its
    argument by a whole number of periods. *)
Lemma wrap_axis_shift (a w : R) :
  exists k : Z, Num.rem (Num.rem a w + w) w = a + IZR k * w.
Proof.
  unfold Num.rem.
  exists (1 - Num.trunc (a / w)
          - Num.trunc ((a - w * IZR (Num.trunc (a / w)) + w) / w))%Z.
  rewrite !minus_IZR. ring.
Qed.

Lemma wrap_axis_unique (w u v : R) (k : Z) :
  0 < w -> 0 <= u < w -> 0 <= v < w -> u = v + IZR k * w -> u = v.
Proof.
  intros Hw Hu Hv E.
  assert (Hk : (-1 < k < 1)%Z).
  { split; apply lt_IZR.
    - assert (-1 * w < IZR k * w) by lra. nra.
    - assert (IZR k * w < 1 * w) by lra. nra. }
  assert (k = 0%Z) as -> by lia. lra.
Qed.

Lemma wrap_axis_periodic (a w : R) (k : Z) :
  0 < w ->
  Num.rem (Num.rem (a + IZR k * w) w + w) w = Num.rem (Num.rem a w + w) w.
Proof.
  intros Hw.
  destruct (wrap_axis_shift (a + IZR k * w) w) as [k1 E1].
  destruct (wrap_axis_shift a w) as [k2 E2].
  apply (wrap_axis_unique w _ _ (k1 + k - k2)%Z Hw);
    [now apply wrap_axis_range | now apply wrap_axis_range |].
  rewrite E1, E2, minus_IZR, plus_IZR. ring.
Qed.

Lemma two_PI_pos : 0 < 2 * PI.
Proof. assert (H := PI_RGT_0). lra. Qed.

(** X2.  [wrapAngle] lands in [[0, 2*PI)] and forgets whole turns;
    [lerpAngle] lands there too, starts at [wrapAngle from], ends at
    [wrapAngle to], and turns by an arc [d * t] whose full length [d] is
    more than [-PI] and at most [PI]. *)
Theorem lerpAngle_shortest_arc (from to : R) :
  (forall a (k : Z),
     0 <= wrapAngle a < 2 * PI /\ wrapAngle (a + IZR k * (2 * PI)) = wrapAngle a) /\
  exists d,
    - PI < d <= PI /\
    (forall t, lerpAngle from to t = wrapAngle (from + d * t)) /\
    (forall t, 0 <= lerpAngle from to t < 2 * PI) /\
    lerpAngle from to 0 = wrapAngle from /\
    lerpAngle from to 1 = wrapAngle to.
Proof.
  assert (Hw := two_PI_pos).
  split.
  { intros a k. split; [apply wrap_axis_range, Hw | apply wrap_axis_periodic, Hw]. }
  unfold lerpAngle.
  destruct (wrap_axis_range (to - from) (2 * PI) Hw) as [D0 D1].
  destruct (wrap_axis_shift (to - from) (2 * PI)) as [k Ek].
  fold (wrapAngle (to - from)) in D0, D1, Ek.
  set (diff := wrapAngle (to - from)) in *.
  set (d := if Num.ltb PI diff then diff - 2 * PI else diff).
  assert (Hd : - PI < d <= PI).
  { unfold d. destruct (Num.ltb PI diff) eqn:E;
      [apply ltb_true in E | apply ltb_false in E]; lra. }
  assert (Hto : exists k' : Z, from + d = to + IZR k' * (2 * PI)).
  { unfold d. destruct (Num.ltb PI diff).
    - exists (k - 1)%Z. rewrite minus_IZR. lra.
    - exists k. lra. }
  exists d. split; [exact Hd|]. split; [reflexivity|].
  split; [intros t; apply wrap_axis_range, Hw|]. split.
  - now rewrite Rmult_0_r, Rplus_0_r.
  - rewrite Rmult_1_r. destruct Hto as [k' ->]. apply wrap_axis_periodic, Hw.
Qed.

(** X3.  For a bound that is not negative, [Vec2.limitLength] returns a
    vector no longer than the bound, pointing the way the argument does
    (it is the argument scaled by some [k] in [[0, 1]]), and returns the
    argument itself when that is within the bound already. *)
Theorem limitLength_spec (v : Vector2) (maxLength : R) :
  0 <= maxLength ->
  Vec2.length (Vec2.limitLength v maxLength) <= maxLength /\
  (exists k, 0 <= k <= 1 /\ Vec2.limitLength v maxLength = Vec2.multiply v k) /\
  (Vec2.length v <= maxLength -> Vec2.limitLength v maxLength = v).
Proof.
  intros Hm. split; [now apply limitLength_bound|].
  assert (Hl := length_nonneg v). assert (Hs := length_sqr v).
  unfold Vec2.limitLength.
  destruct (Num.ltb (maxLength * maxLength) (Vec2.lengthSquared v)) eqn:E;
    [apply ltb_true in E | apply ltb_false in E].
  - assert (Hlong : maxLength < Vec2.length v) by nra.
    split; [|intros; lra].
    destruct (normalize_nonzero v ltac:(lra)) as [-> _].
    assert (0 < / Vec2.length v) by (apply Rinv_0_lt_compat; lra).
    exists (maxLength / Vec2.length v). split.
    + split; [unfold Rdiv; nra|].
      apply (Rmult_le_reg_r (Vec2.length v)); [lra|].
      unfold Rdiv. rewrite Rmult_assoc, Rinv_l; lra.
    + apply vec_eq; unfold Vec2.multiply, Vec2.divide; cbn [x y]; field; lra.
  - split; [|reflexivity].
    exists 1. split; [lra|].
    apply vec_eq; unfold Vec2.multiply; cbn [x y]; ring.
Qed.

Lemma limitLength_spec_witness :
  Vec2.length (Vec2.limitLength (mkVector2 300 400) 420) <= 420.
Proof. apply (limitLength_spec (mkVector2 300 400) 420). lra. Defined.

Lemma length_zero_iff (v : Vector2) : Vec2.length v = 0 <-> v = Vec2.zero.
Proof.
  split.
  - intros Hz. assert (Hs := length_sqr v). rewrite Hz in Hs.
    unfold Vec2.lengthSquared in Hs.
    apply vec_eq; cbn [Vec2.zero x y]; nra.
  - intros ->. unfold Vec2.length, Vec2.zero; cbn [x y].
    replace (0 * 0 + 0 * 0) with 0 by ring. apply sqrt_0.
Qed.

(** X4.  [Vec2.normalize] sends the zero vector, and only it, to the zero
    vector and every other vector to a vector of length 1; scaling the
    result by the argument's length gives the argument back, and
    normalising twice is normalising once. *)
Theorem normalize_spec (v : Vector2) :
  (Vec2.normalize v = Vec2.zero <-> v = Vec2.zero) /\
  (v <> Vec2.zero -> Vec2.length (Vec2.normalize v) = 1) /\
  Vec2.multiply (Vec2.normalize v) (Vec2.length v) = v /\
  Vec2.normalize (Vec2.normalize v) = Vec2.normalize v.
Proof.
  destruct (length_nonneg v) as [Hpos|Hz].
  - destruct (normalize_nonzero v Hpos) as [Hn Hu].
    assert (Hne : v <> Vec2.zero).
    { intros E. apply length_zero_iff in E. lra. }
    split; [|split; [|split]].
    + split; [|intros E; contradiction].
      intros E. rewrite E in Hu. exfalso.
      assert (Vec2.length Vec2.zero = 0) by now apply length_zero_iff.
      lra.
    + intros _. exact Hu.
    + rewrite Hn. apply vec_eq; unfold Vec2.multiply, Vec2.divide; cbn [x y]; field; lra.
    + destruct (normalize_nonzero (Vec2.normalize v) ltac:(lra)) as [-> _].
      rewrite Hu. apply vec_eq; unfold Vec2.divide; cbn [x y]; field.
  - symmetry in Hz. assert (Hv : v = Vec2.zero) by now apply length_zero_iff.
    assert (Hn := normalize_zero v Hz). fold Vec2.zero in Hn.
    split; [|split; [|split]].
    + split; auto.
    + intros Hne. contradiction.
    + rewrite Hn, Hz, Hv. apply vec_eq; unfold Vec2.multiply; cbn; ring.
    + rewrite Hn. apply normalize_zero. now apply length_zero_iff.
Qed.

(** X5.  [Vec2.rotate] keeps the length of a vector, does nothing for the
    angle 0, composes by adding the angles, and turns the unit vector of
    the x axis into [Vec2.fromAngle]. *)
Theorem rotate_spec (v : Vector2) (a b : R) :
  Vec2.length (Vec2.rotate v a) = Vec2.length v /\
  Vec2.rotate v 0 = v /\
  Vec2.rotate (Vec2.rotate v a) b = Vec2.rotate v (a + b) /\
  Vec2.rotate (mkVector2 1 0) a = Vec2.fromAngle a 1.
Proof.
  split; [|split; [|split]].
  - unfold Vec2.length, Vec2.rotate; cbn [x y]. f_equal.
    assert (H := sin2_cos2 a). unfold Rsqr in H. nra.
  - unfold Vec2.rotate. rewrite cos_0, sin_0.
    apply vec_eq; cbn [x y]; ring.
  - unfold Vec2.rotate; cbn [x y]. rewrite cos_plus, sin_plus.
    apply vec_eq; cbn [x y]; ring.
  - apply vec_eq; unfold Vec2.rotate, Vec2.fromAngle; cbn [x y]; ring.
Qed.

Lemma clamp_range (value min max : R) :
  min <= max -> min <= clamp value min max <= max.
Proof.
  intros H. unfold clamp. split; [apply Rmax_l|].
  apply Rmax_lub; [assumption | apply Rmin_l].
Qed.

(** X6.  [clamp] returns a value between its bounds when they are in
    order, leaves a value between them alone, and returns the lower bound
    when they are not in order.  For [a < b], [smoothstep a b] stays within
    [[0, 1]], is 0 up to [a] and 1 from [b] on. *)
Theorem clamp_smoothstep_spec (value min max a b t : R) :
  (min <= max -> min <= clamp value min max <= max) /\
  (min <= value <= max -> clamp value min max = value) /\
  (max < min -> clamp value min max = min) /\
  (a < b ->
     0 <= smoothstep a b t <= 1 /\
     (t <= a -> smoothstep a b t = 0) /\
     (b <= t -> smoothstep a b t = 1)).
Proof.
  split; [apply clamp_range|]. split; [|split].
  - intros [H1 H2]. unfold clamp. rewrite Rmin_right, Rmax_right; lra.
  - intros H. unfold clamp. apply Rmax_left.
    assert (Hm := Rmin_l max value). lra.
  - intros Hab. unfold smoothstep.
    destruct (clamp_range ((t - a) / (b - a)) 0 1 ltac:(lra)) as [C0 C1].
    set (c := clamp ((t - a) / (b - a)) 0 1) in *.
    assert (Hinv : 0 < / (b - a)) by (apply Rinv_0_lt_compat; lra).
    split.
    { assert (0 <= c * c * (3 - 2 * c)) by (apply Rmult_le_pos; nra).
      assert (0 <= (1 - c) * (1 - c) * (1 + 2 * c)) by (apply Rmult_le_pos; nra).
      assert (1 - c * c * (3 - 2 * c) = (1 - c) * (1 - c) * (1 + 2 * c)) by ring.
      lra. }
    split.
    + intros Hta. assert (Hc0 : c = 0); [|rewrite Hc0; ring].
      unfold c, clamp. assert ((t - a) / (b - a) <= 0) by (unfold Rdiv; nra).
      rewrite Rmin_right, Rmax_left; lra.
    + intros Hbt. assert (Hc1 : c = 1); [|rewrite Hc1; ring].
      unfold c, clamp. assert (1 <= (t - a) / (b - a)).
      { apply (Rmult_le_reg_r (b - a)); [lra|]. unfold Rdiv.
        rewrite Rmult_assoc, Rinv_l; lra. }
      rewrite Rmin_left, Rmax_right; lra.
Qed.

Lemma clamp_smoothstep_spec_witness :
  0 <= clamp 7 0 5 <= 5 /\ smoothstep 0 10 12 = 1.
Proof.
  destruct (clamp_smoothstep_spec 7 0 5 0 10 12) as (Hc & _ & _ & Hs).
  split; [apply Hc; lra|].
  destruct Hs as (_ & _ & H1); [lra|]. apply H1. lra.
Defined.

(** ** Random helpers *)

Lemma floor_ge (r : R) (z : Z) : IZR z <= r -> (z <= Num.floor r)%Z.
Proof.
  intros H. destruct (floor_spec r) as [_ Hhi].
  assert (A : IZR z < IZR (Num.floor r + 1)) by (rewrite plus_IZR; lra).
  apply lt_IZR in A. lia.
Qed.

Lemma floor_lt (r : R) (z : Z) : r < IZR z -> (Num.floor r < z)%Z.
Proof.
  intros H. destruct (floor_spec r) as [Hlo _]. apply lt_IZR. lra.
Qed.

Lemma get_nth_error (s : string) (i : nat) :
  String.get i s = nth_error (String.list_ascii_of_string s) i.
Proof.
  revert i. induction s as [|c s IH]; intros [|i]; cbn; auto.
Qed.

Lemma list_ascii_of_append (s1 s2 : string) :
  String.list_ascii_of_string (String.append s1 s2)
  = String.list_ascii_of_string s1 ++ String.list_ascii_of_string s2.
Proof.
  induction s1 as [|c s1 IH]; [reflexivity|].
  change (String.append (String c s1) s2) with (String c (String.append s1 s2)).
  cbn [String.list_ascii_of_string app]. now rewrite IH.
Qed.

Lemma length_list_ascii (s : string) :
  List.length (String.list_ascii_of_string s) = String.length s.
Proof. induction s as [|c s IH]; cbn; [reflexivity | now rewrite IH]. Qed.

Section Random.

Context {oracle : Oracle}.
Hypothesis random_unit : forall i, 0 <= Math_random i < 1.

Lemma randomFloat_range (min max : R) (n : nat) :
  min <= max -> min <= fst (randomFloat min max n) <= max.
Proof.
  intros H. unfold randomFloat; cbn [fst]. destruct (random_unit n). nra.
Qed.

Lemma randomInt_range (lo hi : Z) (n : nat) :
  (lo <= hi)%Z -> (lo <= fst (randomInt (IZR lo) (IZR hi) n) <= hi + 1)%Z.
Proof.
  intros H. unfold randomInt.
  destruct (randomFloat_range (IZR lo) (IZR hi + 1) n) as [V0 V1].
  { apply IZR_le in H. lra. }
  destruct (randomFloat (IZR lo) (IZR hi + 1) n) as [v n1]. cbn [fst] in *.
  split; [now apply floor_ge|].
  assert (Num.floor v < hi + 1 + 1)%Z; [|lia].
  apply floor_lt. rewrite !plus_IZR. lra.
Qed.

(** The index that [randomChoice] draws for an array of [len] elements. *)
Lemma randomChoice_index (len n : nat) :
  (0 < len)%nat ->
  (0 <= fst (randomInt 0 (INR len - 1) n) < Z.of_nat len)%Z.
Proof.
  intros Hlen. unfold randomInt, randomFloat. cbn [fst].
  destruct (random_unit n) as [R0 R1].
  assert (0 < INR len) by (apply lt_0_INR; lia).
  split.
  - apply (floor_ge _ 0). cbn. nra.
  - apply floor_lt. rewrite <- INR_IZR_INZ. nra.
Qed.

(** X7.  With draws in [[0, 1)]: [randomFloat min max] lies in
    [[min, max]], both ends included; [randomInt] of two integers in order
    is an integer from the lower one to the upper one plus 1, the sum
    [random * (max + 1 - min) + min] being at most [max + 1];
    [randomChoice] returns a member of a non-empty array, its index being
    below the length, and [undefined] for the empty one. *)
Theorem random_ranges {T : Type} (array : list T) (min max : R) (lo hi : Z) (n : nat) :
  (min <= max -> min <= fst (randomFloat min max n) <= max) /\
  ((lo <= hi)%Z -> (lo <= fst (randomInt (IZR lo) (IZR hi) n) <= hi + 1)%Z) /\
  (array <> [] -> exists v, fst (randomChoice array n) = Some v /\ In v array) /\
  fst (randomChoice (@nil T) n) = None.
Proof.
  split; [apply randomFloat_range|]. split; [apply randomInt_range|]. split.
  - intros Hne. unfold randomChoice.
    assert (Hlen : (0 < List.length array)%nat).
    { destruct array; [contradiction | cbn; lia]. }
    assert (Hr := randomChoice_index (List.length array) n Hlen).
    destruct (randomInt 0 (INR (List.length array) - 1) n) as [i n1].
    cbn [fst] in *. unfold at_index.
    destruct (Z.ltb_spec i 0) as [Hneg|_]; [lia|].
    destruct (nth_error array (Z.to_nat i)) as [v|] eqn:Ev.
    + exists v. split; [reflexivity|]. eapply nth_error_In. exact Ev.
    + apply nth_error_None in Ev. lia.
  - unfold randomChoice, randomInt, randomFloat. cbn [List.length INR fst].
    replace (Math_random n * (0 - 1 + 1 - 0) + 0) with 0 by ring.
    replace (Num.floor 0) with 0%Z; [reflexivity|].
    symmetry. apply floor_unique. cbn. lra.
Qed.

Lemma charAt_member (chars : string) (i : Z) :
  (0 <= i < Z.of_nat (String.length chars))%Z ->
  exists c, charAt chars i = String c "" /\ In c (String.list_ascii_of_string chars).
Proof.
  intros Hi. unfold charAt. destruct (Z.ltb_spec i 0) as [?|_]; [lia|].
  rewrite get_nth_error.
  destruct (nth_error (String.list_ascii_of_string chars) (Z.to_nat i)) as [c|] eqn:E.
  - exists c. split; [reflexivity|]. eapply nth_error_In. exact E.
  - apply nth_error_None in E. rewrite length_list_ascii in E. lia.
Qed.

Lemma generateRoomCode_loop_spec (chars : string) (k : nat) (result : string) (n : nat) :
  (0 < String.length chars)%nat ->
  Forall (fun c => In c (String.list_ascii_of_string chars)) (String.list_ascii_of_string result) ->
  let out := generateRoomCode_loop chars k result n in
  String.length (fst out) = (String.length result + k)%nat /\
  Forall (fun c => In c (String.list_ascii_of_string chars)) (String.list_ascii_of_string (fst out)) /\
  snd out = (n + k)%nat.
Proof.
  intros Hchars. cbv zeta. revert result n.
  induction k as [|k IH]; intros result n Hres; cbn [generateRoomCode_loop fst snd].
  - repeat split; [lia | assumption | lia].
  - destruct (random_unit n) as [R0 R1].
    destruct (charAt_member chars
                (Num.floor (Math_random n * INR (String.length chars))))
      as (c & Ec & Hc).
    { assert (0 < INR (String.length chars)) by (apply lt_0_INR; lia).
      split.
      - apply (floor_ge _ 0). cbn. nra.
      - apply floor_lt. rewrite <- INR_IZR_INZ. nra. }
    rewrite Ec.
    destruct (IH (String.append result (String c "")) (n + 1)%nat) as (L & F & N).
    { rewrite list_ascii_of_append. apply Forall_app. split; [assumption|].
      cbn. constructor; [assumption | constructor]. }
    split; [|split]; [| exact F | lia].
    rewrite L, <- !length_list_ascii, list_ascii_of_append, length_app. cbn. lia.
Qed.

(** X8.  With draws in [[0, 1)], [generateRoomCode] returns six
    characters, each of them a capital letter or a digit of its alphabet, and
    uses six draws. *)
Theorem generateRoomCode_spec (n : nat) :
  String.length (fst (generateRoomCode n)) = 6%nat /\
  Forall (fun c => In c (String.list_ascii_of_string roomCodeChars))
         (String.list_ascii_of_string (fst (generateRoomCode n))) /\
  snd (generateRoomCode n) = (n + 6)%nat.
Proof.
  unfold generateRoomCode.
  apply (generateRoomCode_loop_spec roomCodeChars 6 "" n); cbn; [lia | constructor].
Qed.

End Random.

Lemma random_ranges_witness :
  1 <= fst (@randomFloat halves 1 3 0) <= 3 /\
  (2 <= fst (@randomInt halves (IZR 2) (IZR 5) 0) <= 5 + 1)%Z /\
  exists v, fst (@randomChoice halves nat [7; 8; 9]%nat 0) = Some v /\ In v [7; 8; 9]%nat.
Proof.
  assert (Hu : forall i, 0 <= @Math_random halves i < 1) by (intros i; cbn; lra).
  destruct (@random_ranges halves Hu nat [7; 8; 9]%nat 1 3 2 5 0) as (Hf & Hi & Hc & _).
  split; [apply Hf; lra|]. split; [apply Hi; lia | apply Hc; discriminate].
Defined.

(** The upper end of these ranges is reached in the arithmetic of the
    machine.  At the draw [1 - 2^-53], which is below 1, the sums of
    [randomFloat(2, 3)] and of [randomInt(2, 2)] round to 3, and that of
    [randomInt(1000, 1005)] to 1006. *)
Lemma randomInt_reaches_max_plus_one :
  Double.ltb Double.last_draw (Double.of_Z 1) = true /\
  Double.randomFloat Double.last_draw (Double.of_Z 2) (Double.of_Z 3) = Double.of_Z 3 /\
  Double.randomInt Double.last_draw (Double.of_Z 2) (Double.of_Z 2) = Double.of_Z 3 /\
  Double.randomInt Double.last_draw (Double.of_Z 1000) (Double.of_Z 1005)
  = Double.of_Z 1006.
Proof. repeat split; vm_compute; reflexivity. Qed.

Lemma generateRoomCode_spec_witness :
  String.length (fst (@generateRoomCode halves 0)) = 6%nat.
Proof.
  apply (@generateRoomCode_spec halves). intros i. cbn. lra.
Defined.

(** ** [utils.ts]: the circular buffer *)

Lemma mod_shift_inj (cap h i j : nat) :
  (i < cap)%nat -> (j < cap)%nat ->
  ((h + i) mod cap = (h + j) mod cap)%nat -> i = j.
Proof.
  intros Hi Hj E.
  assert (Ei := Nat.div_mod_eq (h + i) cap).
  assert (Ej := Nat.div_mod_eq (h + j) cap).
  rewrite E in Ei.
  set (qi := ((h + i) / cap)%nat) in *. set (qj := ((h + j) / cap)%nat) in *.
  set (m := ((h + j) mod cap)%nat) in *.
  destruct (Nat.lt_trichotomy qi qj) as [L|[L|L]]; nia.
Qed.

Lemma mod_small_shift (cap a : nat) : (a < cap)%nat -> ((a + cap) mod cap = a)%nat.
Proof.
  intros H. rewrite <- (Nat.mod_small a cap H) at 2.
  replace (a + cap)%nat with (a + 1 * cap)%nat by lia. apply Nat.Div0.mod_add.
Qed.

Lemma map_seq_lookup {T : Type} (f : nat -> option T) (xs : list T) (o : nat) :
  (forall i x, xs !! i = Some x -> f (o + i)%nat = Some x) ->
  List.map f (seq o (List.length xs)) = List.map Some xs.
Proof.
  revert o. induction xs as [|x xs IH]; intros o H; cbn; [reflexivity|].
  f_equal.
  - rewrite <- (H 0%nat x eq_refl). f_equal. lia.
  - apply IH. intros i y Hy. rewrite <- (H (S i) y Hy). f_equal. lia.
Qed.

Lemma snoc_cases {T : Type} (l : list T) :
  l = [] \/ exists ys y, l = ys ++ [y].
Proof.
  induction l as [|y ys _] using rev_ind; [now left | right; eauto].
Qed.

Section CircularBufferFacts.

Context {T : Type}.
Variable cap : nat.
Hypothesis cap_pos : (0 < cap)%nat.

Lemma holds_create : holds cap (@CircularBuffer.create T cap) [].
Proof.
  unfold holds, CircularBuffer.create; cbn.
  split; [reflexivity|]. split; [apply length_replicate|].
  split; [reflexivity|]. split; [lia|]. split; [assumption|].
  split; [now rewrite Nat.Div0.mod_0_l|]. intros i x Hx. discriminate.
Qed.

Lemma holds_clear (b : CircularBuffer.t T) (xs : list T) :
  holds cap b xs -> holds cap (CircularBuffer.clear b) [].
Proof.
  intros (C & L & _). unfold holds, CircularBuffer.clear; cbn.
  split; [assumption|]. split; [assumption|].
  split; [reflexivity|]. split; [lia|]. split; [assumption|].
  split; [now rewrite Nat.Div0.mod_0_l|]. intros i x Hx. discriminate.
Qed.

Lemma holds_get (b : CircularBuffer.t T) (xs : list T) (i : nat) :
  holds cap b xs -> CircularBuffer.get i b = xs !! i.
Proof.
  intros (C & L & Sz & B & H & Tl & Content). unfold CircularBuffer.get.
  rewrite Sz, C. destruct (Nat.leb_spec (List.length xs) i) as [Hi|Hi].
  - symmetry. now apply lookup_ge_None.
  - destruct (lookup_lt_is_Some_2 xs i Hi) as [x Hx].
    unfold CircularBuffer.array_get. now rewrite (Content i x Hx), Hx.
Qed.

Lemma holds_toArray (b : CircularBuffer.t T) (xs : list T) :
  holds cap b xs -> CircularBuffer.toArray b = List.map Some xs.
Proof.
  intros (C & L & Sz & B & H & Tl & Content). unfold CircularBuffer.toArray.
  rewrite Sz, C. apply map_seq_lookup. intros i x Hx.
  unfold CircularBuffer.array_get. cbn [Nat.add]. now rewrite (Content i x Hx).
Qed.

Lemma holds_push (b : CircularBuffer.t T) (xs : list T) (x : T) :
  holds cap b xs ->
  holds cap (CircularBuffer.push x b)
        ((if Nat.ltb (List.length xs) cap then xs else List.tl xs) ++ [x]).
Proof.
  intros (C & L & Sz & B & H & Tl & Content). unfold CircularBuffer.push.
  assert (Htail : (CircularBuffer.tail b < cap)%nat)
    by (rewrite Tl; apply Nat.mod_upper_bound; lia).
  unfold CircularBuffer.array_set. rewrite L, Sz, C.
  destruct (Nat.ltb_spec (CircularBuffer.tail b) cap) as [_|?]; [|lia].
  destruct (Nat.ltb_spec (List.length xs) cap) as [Hroom|Hfull].
  - (* a free cell *)
    unfold holds; cbn [CircularBuffer.capacity CircularBuffer.buffer CircularBuffer.head
                       CircularBuffer.tail CircularBuffer.size].
    rewrite length_insert, length_app. cbn [List.length].
    split; [reflexivity|]. split; [assumption|]. split; [lia|]. split; [lia|].
    split; [assumption|]. split.
    { rewrite Tl, Nat.Div0.add_mod_idemp_l. f_equal. lia. }
    intros i y Hy.
    destruct (decide (i = List.length xs)) as [->|Hne].
    + rewrite lookup_app_r, Nat.sub_diag in Hy by lia. injection Hy as <-.
      rewrite <- Tl. apply list_lookup_insert_eq. lia.
    + assert (Hi : (i < List.length xs)%nat).
      { apply lookup_lt_Some in Hy. rewrite length_app in Hy. cbn in Hy. lia. }
      rewrite lookup_app_l in Hy by assumption.
      rewrite list_lookup_insert_ne; [now apply Content|].
      rewrite Tl. intros E. apply mod_shift_inj in E; lia.
  - (* full: the oldest item gives way *)
    assert (Hlen : List.length xs = cap) by lia.
    destruct xs as [|x0 rest]; [cbn in Hlen; lia|]. cbn [List.tl].
    cbn [List.length] in *.
    assert (Hth : CircularBuffer.tail b = CircularBuffer.head b).
    { rewrite Tl, Hlen. now apply mod_small_shift. }
    unfold holds; cbn [CircularBuffer.capacity CircularBuffer.buffer CircularBuffer.head
                       CircularBuffer.tail CircularBuffer.size].
    rewrite length_insert, length_app. cbn [List.length].
    assert (Hh' : ((CircularBuffer.head b + 1) mod cap < cap)%nat)
      by (apply Nat.mod_upper_bound; lia).
    split; [reflexivity|]. split; [assumption|]. split; [lia|]. split; [lia|].
    split; [assumption|]. split.
    { rewrite Hth. replace (List.length rest + 1)%nat with cap by lia.
      symmetry. now apply mod_small_shift. }
    intros i y Hy. rewrite Nat.Div0.add_mod_idemp_l.
    destruct (decide (i = List.length rest)) as [->|Hne].
    + rewrite lookup_app_r, Nat.sub_diag in Hy by lia. injection Hy as <-.
      replace (CircularBuffer.head b + 1 + List.length rest)%nat
        with (CircularBuffer.head b + cap)%nat by lia.
      rewrite mod_small_shift by assumption. rewrite Hth.
      apply list_lookup_insert_eq. lia.
    + assert (Hi : (i < List.length rest)%nat).
      { apply lookup_lt_Some in Hy. rewrite length_app in Hy. cbn in Hy. lia. }
      rewrite lookup_app_l in Hy by assumption.
      replace (CircularBuffer.head b + 1 + i)%nat
        with (CircularBuffer.head b + S i)%nat by lia.
      rewrite list_lookup_insert_ne; [now apply (Content (S i))|].
      rewrite Hth. rewrite <- (Nat.mod_small (CircularBuffer.head b) cap H) at 1.
      replace (CircularBuffer.head b) with (CircularBuffer.head b + 0)%nat at 1 by lia.
      intros E. apply mod_shift_inj in E; lia.
Qed.

Lemma before_tail_last (b : CircularBuffer.t T) (ys : list T) (y : T) :
  holds cap b (ys ++ [y]) ->
  CircularBuffer.before_tail b = ((CircularBuffer.head b + List.length ys) mod cap)%nat /\
  CircularBuffer.array_get (CircularBuffer.buffer b) (CircularBuffer.before_tail b) = Some y.
Proof.
  intros (C & L & Sz & B & H & Tl & Content). rewrite length_app in *. cbn [List.length] in *.
  assert (E : CircularBuffer.before_tail b
              = ((CircularBuffer.head b + List.length ys) mod cap)%nat).
  { unfold CircularBuffer.before_tail. rewrite C, Tl.
    rewrite <- Nat.Div0.add_mod_idemp_l, Nat.Div0.add_mod_idemp_l.
    replace ((CircularBuffer.head b + (List.length ys + 1)) mod cap + cap - 1)%nat
      with ((CircularBuffer.head b + (List.length ys + 1)) mod cap + (cap - 1))%nat
      by lia.
    rewrite Nat.Div0.add_mod_idemp_l.
    replace (CircularBuffer.head b + (List.length ys + 1) + (cap - 1))%nat
      with (CircularBuffer.head b + List.length ys + 1 * cap)%nat by lia.
    apply Nat.Div0.mod_add. }
  split; [exact E|]. rewrite E. unfold CircularBuffer.array_get.
  rewrite (Content (List.length ys) y); [reflexivity|].
  rewrite lookup_app_r, Nat.sub_diag by lia. reflexivity.
Qed.

Lemma holds_pop (b : CircularBuffer.t T) (ys : list T) (y : T) :
  holds cap b (ys ++ [y]) ->
  fst (CircularBuffer.pop b) = Some y /\ holds cap (snd (CircularBuffer.pop b)) ys.
Proof.
  intros Hb. destruct (before_tail_last b ys y Hb) as [Eb Ey].
  destruct Hb as (C & L & Sz & B & H & Tl & Content).
  rewrite length_app in *. cbn [List.length] in *.
  unfold CircularBuffer.pop. rewrite Sz.
  destruct (Nat.eqb_spec (List.length ys + 1) 0) as [?|_]; [lia|]. cbn [fst snd].
  split; [exact Ey|].
  unfold holds; cbn [CircularBuffer.capacity CircularBuffer.buffer CircularBuffer.head
                     CircularBuffer.tail CircularBuffer.size].
  split; [assumption|]. split; [assumption|]. split; [lia|]. split; [lia|].
  split; [assumption|]. split; [exact Eb|].
  intros i x Hx. apply Content. rewrite lookup_app_l; [assumption|].
  now apply lookup_lt_Some in Hx.
Qed.

Lemma holds_pop_empty (b : CircularBuffer.t T) :
  holds cap b [] -> CircularBuffer.pop b = (None, b) /\ CircularBuffer.peek b = None.
Proof.
  intros (_ & _ & Sz & _). unfold CircularBuffer.pop, CircularBuffer.peek.
  rewrite Sz. cbn. auto.
Qed.

Lemma holds_peek (b : CircularBuffer.t T) (ys : list T) (y : T) :
  holds cap b (ys ++ [y]) -> CircularBuffer.peek b = Some y.
Proof.
  intros Hb. destruct (before_tail_last b ys y Hb) as [_ Ey].
  destruct Hb as (_ & _ & Sz & _). unfold CircularBuffer.peek. rewrite Sz, length_app.
  cbn [List.length]. destruct (Nat.eqb_spec (List.length ys + 1) 0) as [?|_]; [lia|].
  exact Ey.
Qed.

Lemma built_holds (b : CircularBuffer.t T) :
  built cap b -> exists xs, holds cap b xs.
Proof.
  induction 1 as [|x b _ [xs IH]|b _ [xs IH]|b _ [xs IH]].
  - exists []. apply holds_create.
  - eexists. apply holds_push. exact IH.
  - destruct (snoc_cases xs) as [->|(ys & y & ->)].
    + exists []. destruct (holds_pop_empty b IH) as [-> _]. exact IH.
    + exists ys. now apply (holds_pop b ys y).
  - exists []. eapply holds_clear. exact IH.
Qed.

Lemma push_keep_last (l : list T) (x : T) :
  (if Nat.ltb (List.length (keep_last cap l)) cap
   then keep_last cap l else List.tl (keep_last cap l)) ++ [x]
  = keep_last cap (l ++ [x]).
Proof.
  unfold keep_last. rewrite length_skipn, length_app. cbn [List.length].
  destruct (Nat.ltb_spec (List.length l - (List.length l - cap)) cap) as [Hs|Hs].
  - replace (List.length l - cap)%nat with 0%nat by lia.
    replace (List.length l + 1 - cap)%nat with 0%nat by lia. reflexivity.
  - replace (List.length l + 1 - cap)%nat with (S (List.length l - cap)) by lia.
    rewrite skipn_app.
    replace (S (List.length l - cap) - List.length l)%nat with 0%nat by lia.
    cbn [skipn]. f_equal.
    generalize (List.length l - cap)%nat. clear.
    intros k. revert l. induction k as [|k IH]; intros [|a l]; cbn; auto.
Qed.

Lemma holds_pushes (items l : list T) (b : CircularBuffer.t T) :
  holds cap b (keep_last cap l) ->
  holds cap (fold_left (fun b x => CircularBuffer.push x b) items b)
        (keep_last cap (l ++ items)).
Proof.
  revert l b. induction items as [|x items IH]; intros l b Hb; cbn [fold_left].
  - now rewrite app_nil_r.
  - replace (l ++ x :: items) with ((l ++ [x]) ++ items) by now rewrite <- app_assoc.
    apply IH. rewrite <- push_keep_last. now apply holds_push.
Qed.

(** X9.  A circular buffer of positive capacity that has been pushed the
    items of a list, one after the other, holds the last [capacity] of them,
    oldest first: that is what [toArray] returns, [length] is the smaller of
    the two counts, and the buffer is full exactly when at least [capacity]
    items were pushed. *)
Theorem circular_buffer_keeps_last (items : list T) :
  let b := fold_left (fun b x => CircularBuffer.push x b) items
                     (CircularBuffer.create cap) in
  CircularBuffer.toArray b = List.map Some (keep_last cap items) /\
  CircularBuffer.length b = Nat.min (List.length items) cap /\
  (CircularBuffer.isFull b = true <-> (cap <= List.length items)%nat).
Proof.
  cbv zeta.
  assert (Hb := holds_pushes items [] (CircularBuffer.create cap) holds_create).
  cbn [app] in Hb. split; [now apply holds_toArray|].
  destruct Hb as (C & _ & Sz & _).
  unfold CircularBuffer.length, CircularBuffer.isFull. rewrite Sz, C.
  unfold keep_last. rewrite length_skipn. split; [lia|].
  rewrite Nat.eqb_eq. lia.
Qed.

(** X10.  A circular buffer of positive capacity, however built by
    [push], [pop] and [clear], holds a list of at most [capacity] items:
    [toArray] returns it, [get i] is its [i]-th item ([undefined] past the
    end), [peek] and [pop] return its last item ([undefined] when it is
    empty), [pop] leaves the list without that item, [push] appends an item
    and drops the oldest one when the buffer is full, [clear] empties it. *)
Theorem circular_buffer_is_bounded_list (b : CircularBuffer.t T) :
  built cap b ->
  exists xs : list T,
    CircularBuffer.toArray b = List.map Some xs /\
    CircularBuffer.length b = List.length xs /\
    (List.length xs <= cap)%nat /\
    (forall i, CircularBuffer.get i b = xs !! i) /\
    CircularBuffer.peek b = last xs /\
    fst (CircularBuffer.pop b) = last xs /\
    CircularBuffer.toArray (snd (CircularBuffer.pop b)) = List.map Some (removelast xs) /\
    (forall x, CircularBuffer.toArray (CircularBuffer.push x b)
               = List.map Some (keep_last cap (xs ++ [x]))) /\
    CircularBuffer.toArray (CircularBuffer.clear b) = [].
Proof.
  intros Hbuilt. destruct (built_holds b Hbuilt) as [xs Hb]. exists xs.
  split; [now apply holds_toArray|].
  split; [now destruct Hb as (_ & _ & Sz & _)|].
  split; [now destruct Hb as (_ & _ & _ & B & _)|].
  split; [intros i; now apply holds_get|].
  assert (Hpush : forall x, CircularBuffer.toArray (CircularBuffer.push x b)
                            = List.map Some (keep_last cap (xs ++ [x]))).
  { intros x. rewrite (holds_toArray _ _ (holds_push b xs x Hb)). f_equal.
    destruct Hb as (_ & _ & _ & B & _). unfold keep_last. rewrite length_app.
    cbn [List.length].
    destruct (Nat.ltb_spec (List.length xs) cap) as [Hs|Hs].
    - replace (List.length xs + 1 - cap)%nat with 0%nat by lia. reflexivity.
    - replace (List.length xs + 1 - cap)%nat with 1%nat by lia.
      destruct xs; [cbn in Hs; lia | reflexivity]. }
  assert (Hclear : CircularBuffer.toArray (CircularBuffer.clear b) = [])
    by (rewrite (holds_toArray _ _ (holds_clear b xs Hb)); reflexivity).
  destruct (snoc_cases xs) as [->|(ys & y & ->)].
  - destruct (holds_pop_empty b Hb) as [Hpop Hpeek]. rewrite Hpop, Hpeek.
    cbn [fst snd last removelast]. rewrite (holds_toArray _ _ Hb). auto.
  - destruct (holds_pop b ys y Hb) as [Hpop Hrest].
    rewrite (holds_peek b ys y Hb), Hpop, last_snoc, removelast_last.
    rewrite (holds_toArray _ _ Hrest). auto.
Qed.

End CircularBufferFacts.

Lemma circular_buffer_keeps_last_witness :
  CircularBuffer.toArray
    (fold_left (fun b x => CircularBuffer.push x b) [1; 2; 3; 4; 5]%nat
               (CircularBuffer.create 3))
  = List.map Some (keep_last 3 [1; 2; 3; 4; 5]%nat).
Proof.
  apply (circular_buffer_keeps_last (T := nat) 3). lia.
Defined.

Lemma circular_buffer_is_bounded_list_witness :
  exists xs : list nat,
    CircularBuffer.toArray (CircularBuffer.push 7%nat (CircularBuffer.create 2))
    = List.map Some xs /\
    CircularBuffer.peek (CircularBuffer.push 7%nat (CircularBuffer.create 2)) = last xs.
Proof.
  destruct (circular_buffer_is_bounded_list (T := nat) 2 ltac:(lia)
              (CircularBuffer.push 7%nat (CircularBuffer.create 2)))
    as (xs & H1 & _ & _ & _ & H2 & _).
  - apply built_push, built_create.
  - exists xs. split; assumption.
Defined.

(** ** [utils.ts]: the spatial hash, both ways *)

Lemma set_add_inv (id x : string) (s : list string) :
  x ∈ SpatialHash.set_add id s -> x = id \/ x ∈ s.
Proof.
  unfold SpatialHash.set_add. destruct (decide (id ∈ s)); [now right|].
  intros Hx. apply elem_of_app in Hx. destruct Hx as [Hx|Hx]; [now right|].
  apply list_elem_of_singleton in Hx. now left.
Qed.

Lemma set_add_idem (id : string) (s : list string) :
  SpatialHash.set_add id (SpatialHash.set_add id s) = SpatialHash.set_add id s.
Proof.
  unfold SpatialHash.set_add at 1.
  destruct (decide (id ∈ SpatialHash.set_add id s)) as [|Hn]; [reflexivity|].
  contradiction Hn. apply set_add_self.
Qed.

Lemma set_delete_spec (id x : string) (s : list string) :
  x ∈ SpatialHash.set_delete id s <-> x ∈ s /\ x <> id.
Proof.
  unfold SpatialHash.set_delete. rewrite list_elem_of_In, filter_In, <- list_elem_of_In.
  rewrite negb_true_iff, String.eqb_neq. reflexivity.
Qed.

Lemma set_delete_idem (id : string) (s : list string) :
  SpatialHash.set_delete id (SpatialHash.set_delete id s) = SpatialHash.set_delete id s.
Proof.
  unfold SpatialHash.set_delete. induction s as [|e s IH]; cbn; [reflexivity|].
  destruct (negb (String.eqb e id)) eqn:E; cbn; [rewrite E, IH|]; auto.
Qed.

Lemma set_delete_NoDup (id : string) (s : list string) :
  NoDup s -> NoDup (SpatialHash.set_delete id s).
Proof.
  induction s as [|e s IH]; intros H; [constructor|].
  apply NoDup_cons in H. destruct H as [He Hs].
  unfold SpatialHash.set_delete in *. cbn [List.filter].
  destruct (negb (String.eqb e id)); [|now apply IH].
  apply NoDup_cons. split; [|now apply IH].
  intros Hin. apply He. fold (SpatialHash.set_delete id s) in Hin.
  now apply set_delete_spec in Hin.
Qed.

(** What the loop of [insert] leaves under each key. *)
Lemma insert_keys_lookup (id : string) (keys : list (Z * Z))
    (cs : gmap (Z * Z) (list string)) (k : Z * Z) :
  fold_left (SpatialHash.insert_key id) keys cs !! k
  = if decide (k ∈ keys)
    then Some (SpatialHash.set_add id (default [] (cs !! k)))
    else cs !! k.
Proof.
  revert cs. induction keys as [|key rest IH]; intros cs; cbn [fold_left].
  - destruct (decide (k ∈ [])) as [H|_]; [now apply elem_of_nil in H | reflexivity].
  - rewrite IH.
    assert (Hstep : SpatialHash.insert_key id cs key !! k
                    = if decide (key = k)
                      then Some (SpatialHash.set_add id (default [] (cs !! k)))
                      else cs !! k).
    { unfold SpatialHash.insert_key. destruct (decide (key = k)) as [->|Hne].
      - destruct (cs !! k); now rewrite lookup_insert_eq.
      - destruct (cs !! key); now rewrite lookup_insert_ne. }
    rewrite Hstep.
    destruct (decide (k ∈ rest)) as [Hr|Hr];
      destruct (decide (key = k)) as [->|Hne];
      destruct (decide (_ ∈ _ :: rest)) as [Hc|Hc]; cbn [from_option Datatypes.id];
      try reflexivity.
    + now rewrite set_add_idem.
    + contradiction Hc. now right.
    + contradiction Hc. now right.
    + contradiction Hc. now left.
    + apply elem_of_cons in Hc. destruct Hc; congruence.
Qed.

(** What the loop of [remove] leaves under each key. *)
Lemma remove_keys_lookup (id : string) (keys : list (Z * Z))
    (cs : gmap (Z * Z) (list string)) (k : Z * Z) :
  fold_left (SpatialHash.remove_key id) keys cs !! k
  = if decide (k ∈ keys)
    then match cs !! k with
         | Some cell =>
             match SpatialHash.set_delete id cell with
             | [] => None
             | c => Some c
             end
         | None => None
         end
    else cs !! k.
Proof.
  revert cs. induction keys as [|key rest IH]; intros cs; cbn [fold_left].
  - destruct (decide (k ∈ [])) as [H|_]; [now apply elem_of_nil in H | reflexivity].
  - rewrite IH.
    assert (Hstep : SpatialHash.remove_key id cs key !! k
                    = if decide (key = k)
                      then match cs !! k with
                           | Some cell =>
                               match SpatialHash.set_delete id cell with
                               | [] => None
                               | c => Some c
                               end
                           | None => None
                           end
                      else cs !! k).
    { unfold SpatialHash.remove_key. destruct (decide (key = k)) as [->|Hne].
      - destruct (cs !! k) as [cell|] eqn:E; [|exact E].
        destruct (SpatialHash.set_delete id cell) as [|e l]; cbn [List.length Nat.eqb].
        + apply lookup_delete_eq.
        + apply lookup_insert_eq.
      - destruct (cs !! key) as [cell|]; [|reflexivity].
        destruct (Nat.eqb _ 0); [now rewrite lookup_delete_ne | now rewrite lookup_insert_ne]. }
    rewrite Hstep.
    destruct (decide (k ∈ rest)) as [Hr|Hr];
      destruct (decide (key = k)) as [->|Hne];
      destruct (decide (_ ∈ _ :: rest)) as [Hc|Hc];
      try reflexivity.
    + destruct (cs !! k) as [cell|]; [|reflexivity].
      destruct (SpatialHash.set_delete id cell) as [|e l] eqn:E; [reflexivity|].
      rewrite <- E, set_delete_idem, E. reflexivity.
    + contradiction Hc. now right.
    + contradiction Hc. now right.
    + contradiction Hc. now left.
    + apply elem_of_cons in Hc. destruct Hc; congruence.
Qed.

Lemma remove_tidy (id : string) (h : SpatialHash.t) :
  tidy h -> tidy (SpatialHash.remove id h).
Proof.
  intros Ht key cell'. rewrite remove_objects. unfold SpatialHash.remove.
  destruct (SpatialHash.objects h !! id) as [obj|] eqn:Hobj; cbn [SpatialHash.cells].
  2:{ intros Hc. destruct (Ht key cell' Hc) as (N & D & M). split; [|split]; auto.
      intros id' Hin. destruct (M id' Hin) as (obj' & Ho & Hk). exists obj'.
      split; [|assumption]. rewrite lookup_delete_ne; [assumption|]. congruence. }
  rewrite remove_keys_lookup.
  destruct (decide (key ∈ SpatialHash.cellKeys obj)) as [Hin|Hout].
  - destruct (SpatialHash.cells h !! key) as [cell|] eqn:Hc; [|discriminate].
    destruct (Ht key cell Hc) as (N & D & M).
    destruct (SpatialHash.set_delete id cell) as [|e l] eqn:E; [discriminate|].
    intros [= <-]. rewrite <- E. split; [rewrite E; discriminate|].
    split; [now apply set_delete_NoDup|].
    intros id' Hid'. apply set_delete_spec in Hid'. destruct Hid' as [Hid' Hne].
    destruct (M id' Hid') as (obj' & Ho & Hk). exists obj'.
    split; [now rewrite lookup_delete_ne | assumption].
  - intros Hc. destruct (Ht key cell' Hc) as (N & D & M). split; [|split]; auto.
    intros id' Hin. destruct (M id' Hin) as (obj' & Ho & Hk). exists obj'.
    split; [|assumption]. rewrite lookup_delete_ne; [assumption|].
    intros <-. rewrite Hobj in Ho. injection Ho as <-. contradiction.
Qed.

Lemma insert_tidy (id : string) (position : Vector2) (radius : R) (h : SpatialHash.t) :
  tidy h -> tidy (SpatialHash.insert id position radius h).
Proof.
  intros Ht. apply (remove_tidy id) in Ht.
  assert (Hgone : SpatialHash.objects (SpatialHash.remove id h) !! id = None)
    by (rewrite remove_objects; apply lookup_delete_eq).
  intros key cell'. unfold SpatialHash.insert.
  cbn [SpatialHash.cells SpatialHash.objects].
  set (h1 := SpatialHash.remove id h) in *.
  set (keys := SpatialHash.getCellsForObject (SpatialHash.cellSize h1) position radius).
  rewrite insert_keys_lookup.
  assert (Hold : forall cell id',
            SpatialHash.cells h1 !! key = Some cell -> id' ∈ cell ->
            exists obj,
              <[id := SpatialHash.mkStoredObject position radius keys]>
                (SpatialHash.objects h1) !! id' = Some obj /\
              key ∈ SpatialHash.cellKeys obj).
  { intros cell id' Hc Hin. destruct (Ht key cell Hc) as (_ & _ & M).
    destruct (M id' Hin) as (obj' & Ho & Hk). exists obj'. split; [|assumption].
    rewrite lookup_insert_ne; [assumption|]. intros <-. congruence. }
  destruct (decide (key ∈ keys)) as [Hin|Hout].
  - intros [= <-]. split; [|split].
    + intros E. assert (Hs := set_add_self id (default [] (SpatialHash.cells h1 !! key))).
      rewrite E in Hs. now apply elem_of_nil in Hs.
    + apply set_add_NoDup. destruct (SpatialHash.cells h1 !! key) as [cell|] eqn:Hc;
        cbn [from_option Datatypes.id]; [now destruct (Ht key cell Hc) as (_ & D & _) | constructor].
    + intros id' Hid'. apply set_add_inv in Hid'. destruct Hid' as [->|Hid'].
      * eexists. split; [apply lookup_insert_eq | exact Hin].
      * destruct (SpatialHash.cells h1 !! key) as [cell|] eqn:Hc; cbn in Hid'.
        -- now apply (Hold cell).
        -- now apply elem_of_nil in Hid'.
  - intros Hc. destruct (Ht key cell' Hc) as (N & D & _). split; [|split]; auto.
    intros id' Hid'. now apply (Hold cell').
Qed.

Lemma reachable_tidy (cellSize : R) (h : SpatialHash.t) : reachable cellSize h -> tidy h.
Proof.
  induction 1 as [|id position radius h _ IH|id h _ IH|h _ IH].
  - intros key cell Hc. cbn in Hc. now rewrite lookup_empty in Hc.
  - now apply insert_tidy.
  - now apply remove_tidy.
  - intros key cell Hc. cbn in Hc. now rewrite lookup_empty in Hc.
Qed.

Lemma add_all_inv (cell candidates : list string) (x : string) :
  x ∈ fold_left (fun c id => SpatialHash.set_add id c) cell candidates ->
  x ∈ candidates \/ x ∈ cell.
Proof.
  revert candidates. induction cell as [|id rest IH]; intros candidates; cbn; [now left|].
  intros Hx. destruct (IH _ Hx) as [Hc|Hr].
  - apply set_add_inv in Hc. destruct Hc as [->|Hc]; [right; now left | now left].
  - right. now right.
Qed.

Lemma query_keys_inv (cs : gmap (Z * Z) (list string)) (keys : list (Z * Z))
    (candidates : list string) (x : string) :
  x ∈ fold_left (SpatialHash.query_key cs) keys candidates ->
  x ∈ candidates \/ exists key, key ∈ keys /\ in_bucket cs key x.
Proof.
  revert candidates. induction keys as [|k rest IH]; intros candidates; cbn; [now left|].
  intros Hx. destruct (IH _ Hx) as [Hc|(key & Hk & Hb)].
  - unfold SpatialHash.query_key in Hc.
    destruct (cs !! k) as [cell|] eqn:E; [|now left].
    apply add_all_inv in Hc. destruct Hc as [Hc|Hc]; [now left|].
    right. exists k. split; [now left|]. now exists cell.
  - right. exists key. split; [now right | assumption].
Qed.

(** [query] returns exactly the stored ids whose bounding square shares a
    cell with the query's. *)
Lemma query_iff (cellSize : R) (h : SpatialHash.t) (q : Vector2) (radius : R) (id : string) :
  reachable cellSize h ->
  id ∈ SpatialHash.query q radius h <->
  exists obj,
    SpatialHash.objects h !! id = Some obj /\
    share_cell cellSize (SpatialHash.position obj) (SpatialHash.radius obj) q radius.
Proof.
  intros Hreach. destruct (reachable_indexed cellSize h Hreach) as [Hsize Hidx].
  assert (Ht := reachable_tidy cellSize h Hreach).
  unfold SpatialHash.query, share_cell. rewrite Hsize. split.
  - intros Hin. apply query_keys_inv in Hin.
    destruct Hin as [Hin|(key & Hk & cell & Hc & Hx)]; [now apply elem_of_nil in Hin|].
    destruct (Ht key cell Hc) as (_ & _ & M). destruct (M id Hx) as (obj & Ho & Hkey).
    exists obj. split; [assumption|]. exists key.
    destruct (Hidx id obj Ho) as [Hkeys _]. rewrite Hkeys, Hsize in Hkey. auto.
  - intros (obj & Ho & key & Hk1 & Hk2).
    destruct (query_keys_spec (SpatialHash.cells h)
                (SpatialHash.getCellsForObject cellSize q radius) []) as (_ & _ & A).
    apply (A key); [assumption|].
    destruct (Hidx id obj Ho) as [Hkeys Hin]. apply Hin. now rewrite Hkeys, Hsize.
Qed.

(** X11.  In a spatial hash built by any sequence of the class's
    operations, [query] returns a stored id if and only if the bounding
    square it was stored with shares a grid cell with the query's bounding
    square; it returns nothing that is not stored. *)
Theorem query_exact (cellSize : R) (h : SpatialHash.t) (q : Vector2) (radius : R)
    (id : string) :
  reachable cellSize h ->
  (id ∈ SpatialHash.query q radius h <->
   exists obj,
     SpatialHash.objects h !! id = Some obj /\
     share_cell cellSize (SpatialHash.position obj) (SpatialHash.radius obj) q radius) /\
  (SpatialHash.objects h !! id = None -> id ∉ SpatialHash.query q radius h).
Proof.
  intros Hreach. split; [now apply query_iff|].
  intros Hnone Hin. apply (query_iff cellSize) in Hin; [|assumption].
  destruct Hin as (obj & Ho & _). congruence.
Qed.

Lemma one_rock_reachable :
  reachable PHYSICS_CONFIG.SPATIAL_HASH_CELL_SIZE one_rock_index.
Proof. apply reachable_insert, reachable_create. Qed.

Lemma query_exact_witness :
  "bullet_shot"%string ∉ SpatialHash.query (mkVector2 160 160) 2 one_rock_index.
Proof.
  apply (query_exact PHYSICS_CONFIG.SPATIAL_HASH_CELL_SIZE one_rock_index
           (mkVector2 160 160) 2 "bullet_shot" one_rock_reachable).
  unfold one_rock_index. rewrite insert_objects. now rewrite lookup_insert_ne.
Defined.

(** X12.  [remove] takes an id out of every later query and leaves the
    answers about the other ids as they were; [insert] of an id that is
    stored already moves it: afterwards a query returns the id if and only
    if the new bounding square shares a cell with the query's, wherever the
    object was before. *)
Theorem remove_and_move (cellSize : R) (h : SpatialHash.t) (q : Vector2) (radius : R)
    (id : string) (position : Vector2) (r : R) :
  reachable cellSize h ->
  (id ∉ SpatialHash.query q radius (SpatialHash.remove id h)) /\
  (forall id', id' <> id ->
     (id' ∈ SpatialHash.query q radius (SpatialHash.remove id h) <->
      id' ∈ SpatialHash.query q radius h) /\
     (id' ∈ SpatialHash.query q radius (SpatialHash.insert id position r h) <->
      id' ∈ SpatialHash.query q radius h)) /\
  (id ∈ SpatialHash.query q radius (SpatialHash.insert id position r h) <->
   share_cell cellSize position r q radius).
Proof.
  intros Hreach.
  assert (Hrem := reachable_remove cellSize id h Hreach).
  assert (Hins := reachable_insert cellSize id position r h Hreach).
  split; [|split].
  - intros Hin. apply (query_iff cellSize) in Hin; [|assumption].
    destruct Hin as (obj & Ho & _).
    rewrite remove_objects, lookup_delete_eq in Ho. discriminate.
  - intros id' Hne. split.
    + rewrite (query_iff cellSize _ _ _ _ Hrem), (query_iff cellSize _ _ _ _ Hreach).
      now rewrite remove_objects, lookup_delete_ne.
    + rewrite (query_iff cellSize _ _ _ _ Hins), (query_iff cellSize _ _ _ _ Hreach).
      now rewrite insert_objects, lookup_insert_ne.
  - rewrite (query_iff cellSize _ _ _ _ Hins), insert_objects, lookup_insert_eq.
    split.
    + intros (obj & [= <-] & Hs). exact Hs.
    + intros Hs. eexists. split; [reflexivity | exact Hs].
Qed.

Lemma remove_and_move_witness :
  "asteroid_rock"%string
    ∉ SpatialHash.query (mkVector2 160 160) 2
        (SpatialHash.remove "asteroid_rock" one_rock_index).
Proof.
  apply (remove_and_move PHYSICS_CONFIG.SPATIAL_HASH_CELL_SIZE one_rock_index
           (mkVector2 160 160) 2 "asteroid_rock" (mkVector2 0 0) 1 one_rock_reachable).
Defined.

(** X13.  In a spatial hash built by any sequence of the class's
    operations, a bucket exists exactly for the grid cells that the bounding
    square of some stored object covers, and the bucket of a cell lists,
    without duplicates, exactly the ids of the stored objects covering
    it. *)
Theorem buckets_exact (cellSize : R) (h : SpatialHash.t) (key : Z * Z) :
  reachable cellSize h ->
  let covers id :=
    exists obj,
      SpatialHash.objects h !! id = Some obj /\
      key ∈ SpatialHash.getCellsForObject cellSize
              (SpatialHash.position obj) (SpatialHash.radius obj) in
  (is_Some (SpatialHash.cells h !! key) <-> exists id, covers id) /\
  (forall cell, SpatialHash.cells h !! key = Some cell ->
     NoDup cell /\ forall id, id ∈ cell <-> covers id).
Proof.
  intros Hreach. cbv zeta.
  destruct (reachable_indexed cellSize h Hreach) as [Hsize Hidx].
  assert (Ht := reachable_tidy cellSize h Hreach).
  assert (Hfwd : forall cell id,
            SpatialHash.cells h !! key = Some cell -> id ∈ cell ->
            exists obj, SpatialHash.objects h !! id = Some obj /\
              key ∈ SpatialHash.getCellsForObject cellSize
                      (SpatialHash.position obj) (SpatialHash.radius obj)).
  { intros cell id Hc Hin. destruct (Ht key cell Hc) as (_ & _ & M).
    destruct (M id Hin) as (obj & Ho & Hk). exists obj. split; [assumption|].
    destruct (Hidx id obj Ho) as [Hkeys _]. now rewrite Hkeys, Hsize in Hk. }
  assert (Hbwd : forall id obj,
            SpatialHash.objects h !! id = Some obj ->
            key ∈ SpatialHash.getCellsForObject cellSize
                    (SpatialHash.position obj) (SpatialHash.radius obj) ->
            in_bucket (SpatialHash.cells h) key id).
  { intros id obj Ho Hk. destruct (Hidx id obj Ho) as [Hkeys Hin].
    apply Hin. now rewrite Hkeys, Hsize. }
  split.
  - split.
    + intros [cell Hc]. destruct (Ht key cell Hc) as (N & _ & _).
      destruct cell as [|id rest]; [contradiction|]. exists id.
      apply (Hfwd (id :: rest)); [assumption | now left].
    + intros (id & obj & Ho & Hk). destruct (Hbwd id obj Ho Hk) as (cell & Hc & _).
      now exists cell.
  - intros cell Hc. split; [now destruct (Ht key cell Hc) as (_ & D & _)|].
    intros id. split; [now apply Hfwd|].
    intros (obj & Ho & Hk). destruct (Hbwd id obj Ho Hk) as (cell' & Hc' & Hin).
    congruence.
Qed.

Lemma buckets_exact_witness :
  is_Some (SpatialHash.cells one_rock_index !! (1%Z, 1%Z)) <->
  exists id obj,
    SpatialHash.objects one_rock_index !! id = Some obj /\
    (1%Z, 1%Z) ∈ SpatialHash.getCellsForObject PHYSICS_CONFIG.SPATIAL_HASH_CELL_SIZE
                   (SpatialHash.position obj) (SpatialHash.radius obj).
Proof.
  apply (buckets_exact PHYSICS_CONFIG.SPATIAL_HASH_CELL_SIZE one_rock_index
           (1%Z, 1%Z) one_rock_reachable).
Defined.

(** ** [entities.ts]: asteroids, bullets, particles *)

Lemma world_pos : 0 < GAME_CONFIG.WORLD_WIDTH /\ 0 < GAME_CONFIG.WORLD_HEIGHT.
Proof. unfold GAME_CONFIG.WORLD_WIDTH, GAME_CONFIG.WORLD_HEIGHT. lra. Qed.

Lemma wrapPosition_in_world (p : Vector2) :
  in_world (wrapPosition p GAME_CONFIG.WORLD_WIDTH GAME_CONFIG.WORLD_HEIGHT).
Proof.
  destruct world_pos as [Hw Hh]. split; cbn [wrapPosition x y]; now apply wrap_axis_range.
Qed.

Lemma wrapPosition_same_place (p : Vector2) :
  same_place (wrapPosition p GAME_CONFIG.WORLD_WIDTH GAME_CONFIG.WORLD_HEIGHT) p.
Proof.
  destruct (wrap_axis_shift (x p) GAME_CONFIG.WORLD_WIDTH) as [i Hi].
  destruct (wrap_axis_shift (y p) GAME_CONFIG.WORLD_HEIGHT) as [j Hj].
  exists i, j. cbn [wrapPosition x y]. now split.
Qed.

(** A wrapped step from a place that is [q] up to whole worlds. *)
Lemma same_place_step (p q v : Vector2) (dt : R) :
  same_place p q ->
  same_place
    (wrapPosition (Vec2.add p (Vec2.multiply v dt))
       GAME_CONFIG.WORLD_WIDTH GAME_CONFIG.WORLD_HEIGHT)
    (Vec2.add q (Vec2.multiply v dt)).
Proof.
  intros (i & j & Hx & Hy).
  destruct (wrapPosition_same_place (Vec2.add p (Vec2.multiply v dt))) as (i' & j' & Hx' & Hy').
  exists (i' + i)%Z, (j' + j)%Z. rewrite Hx', Hy', !plus_IZR.
  unfold Vec2.add, Vec2.multiply. cbn [x y]. rewrite Hx, Hy. split; ring.
Qed.

Lemma same_place_refl (p : Vector2) : same_place p p.
Proof. exists 0%Z, 0%Z. split; ring. Qed.

Lemma same_place_eq (p q q' : Vector2) : q = q' -> same_place p q -> same_place p q'.
Proof. now intros ->. Qed.



Lemma bullet_after_fields (dt : R) (k : nat) (b : Bullet) :
  let b' := bullet_after dt k b in
  Bullet.lifetime b' = Bullet.lifetime b - INR k * (dt * 1000) /\
  same_place (position (Bullet.transform b'))
    (Vec2.add (position (Bullet.transform b))
              (Vec2.multiply (Bullet.velocity b) (INR k * dt))) /\
  ((0 < k)%nat -> in_world (position (Bullet.transform b'))) /\
  Bullet.velocity b' = Bullet.velocity b /\
  rotation (Bullet.transform b') = rotation (Bullet.transform b) /\
  Bullet.id b' = Bullet.id b /\
  Bullet.playerId b' = Bullet.playerId b /\
  Bullet.createdAt b' = Bullet.createdAt b.
Proof.
  cbv zeta. induction k as [|k IH].
  - change (bullet_after dt 0 b) with b. change (INR 0) with 0. split; [ring|].
    split; [|split; [lia | repeat split]].
    eapply same_place_eq; [|apply same_place_refl].
    apply vec_eq; unfold Vec2.add, Vec2.multiply; cbn [x y]; ring.
  - destruct IH as (Hl & Hp & _ & Hv & Hr & Hi & Ho & Hc).
    change (bullet_after dt (S k) b)
      with (fst (updateBullet (bullet_after dt k b) dt)).
    set (c := bullet_after dt k b) in *.
    unfold updateBullet.
    cbn [fst Bullet.transform Bullet.velocity Bullet.id Bullet.playerId
         Bullet.createdAt Bullet.lifetime rotation position].
    rewrite Hv, Hl, S_INR. split; [ring|].
    split; [|split; [intros _; apply wrapPosition_in_world | repeat split; assumption]].
    eapply same_place_eq; [|apply same_place_step, Hp].
    apply vec_eq; unfold Vec2.add, Vec2.multiply; cbn [x y]; ring.
Qed.



(** The sum [1 + q + ... + q^(k-1)] for [q = 0.95], in closed form. *)
Lemma drag_sum (k : nat) :
  (1 - (95 / 100) ^ k) * 20 + (95 / 100) ^ k = (1 - (95 / 100) ^ S k) * 20.
Proof. cbn [pow]. lra. Qed.

Lemma drag_range (k : nat) : 0 < (95 / 100) ^ k <= 1.
Proof.
  induction k as [|k IH]; cbn [pow]; [lra|]. nra.
Qed.

Lemma particle_after_fields (dt : R) (k : nat) (p : Particle) :
  let p' := particle_after dt k p in
  Particle.lifetime p' = Particle.lifetime p - INR k * (dt * 1000) /\
  Particle.type p' = Particle.type p /\
  Particle.maxLifetime p' = Particle.maxLifetime p /\
  Particle.id p' = Particle.id p /\
  rotation (Particle.transform p') = rotation (Particle.transform p) /\
  (Particle.type p <> EXPLOSION ->
     Particle.velocity p' = Particle.velocity p /\
     position (Particle.transform p')
     = Vec2.add (position (Particle.transform p))
                (Vec2.multiply (Particle.velocity p) (INR k * dt))) /\
  (Particle.type p = EXPLOSION ->
     Particle.velocity p' = Vec2.multiply (Particle.velocity p) ((95 / 100) ^ k) /\
     position (Particle.transform p')
     = Vec2.add (position (Particle.transform p))
                (Vec2.multiply (Particle.velocity p)
                   ((1 - (95 / 100) ^ k) * 20 * dt))).
Proof.
  cbv zeta. induction k as [|k IH].
  - change (particle_after dt 0 p) with p. change (INR 0) with 0. cbn [pow]. split; [ring|]. repeat split.
    + apply vec_eq; unfold Vec2.add, Vec2.multiply; cbn [x y]; ring.
    + apply vec_eq; unfold Vec2.multiply; cbn [x y]; ring.
    + apply vec_eq; unfold Vec2.add, Vec2.multiply; cbn [x y]; ring.
  - destruct IH as (Hl & Ht & Hm & Hi & Hr & Hplain & Hexp).
    change (particle_after dt (S k) p)
      with (fst (updateParticle (particle_after dt k p) dt)).
    set (q := particle_after dt k p) in *.
    unfold updateParticle.
    cbn [fst Particle.transform Particle.velocity Particle.id Particle.type
         Particle.maxLifetime Particle.lifetime rotation position].
    rewrite Hl, Ht, S_INR. split; [ring|].
    split; [reflexivity|]. split; [assumption|]. split; [assumption|].
    split; [assumption|]. split.
    + intros Hne. destruct (Hplain Hne) as [Hv Hp]. rewrite Hv, Hp.
      split; [now destruct (Particle.type p)|].
      apply vec_eq; unfold Vec2.add, Vec2.multiply; cbn [x y]; ring.
    + intros He. destruct (Hexp He) as [Hv Hp]. rewrite Hv, Hp, He.
      split.
      * apply vec_eq; unfold Vec2.multiply; cbn [x y pow]; ring.
      * rewrite <- drag_sum.
        apply vec_eq; unfold Vec2.add, Vec2.multiply; cbn [x y]; ring.
Qed.

(** X16.  [updateParticle] moves a particle in a straight line and never
    wraps it into the world.  A thrust or bullet-hit particle keeps its
    velocity; an explosion particle loses 5% of it at every call, whatever
    the time step, so that after [k] calls it has covered
    [20 * (1 - 0.95^k)] steps of its first velocity and, for a step
    [dt >= 0], never gets farther than [20 * dt] times its first speed from
    where it started.  The rotation set at creation is never updated. *)
Theorem updateParticle_after (dt : R) (k : nat) (p : Particle) :
  let p' := particle_after dt k p in
  let travelled :=
    Vec2.subtract (position (Particle.transform p')) (position (Particle.transform p)) in
  Particle.lifetime p' = Particle.lifetime p - INR k * (dt * 1000) /\
  rotation (Particle.transform p') = rotation (Particle.transform p) /\
  (Particle.type p <> EXPLOSION ->
     Particle.velocity p' = Particle.velocity p /\
     travelled = Vec2.multiply (Particle.velocity p) (INR k * dt)) /\
  (Particle.type p = EXPLOSION ->
     Particle.velocity p' = Vec2.multiply (Particle.velocity p) ((95 / 100) ^ k) /\
     travelled = Vec2.multiply (Particle.velocity p) ((1 - (95 / 100) ^ k) * 20 * dt) /\
     (0 <= dt ->
      Vec2.length travelled <= 20 * dt * Vec2.length (Particle.velocity p))).
Proof.
  cbv zeta.
  destruct (particle_after_fields dt k p) as (Hl & _ & _ & _ & Hr & Hplain & Hexp).
  split; [exact Hl|]. split; [exact Hr|]. split.
  - intros Hne. destruct (Hplain Hne) as [Hv Hp]. split; [exact Hv|].
    rewrite Hp. apply vec_eq; unfold Vec2.subtract, Vec2.add, Vec2.multiply;
      cbn [x y]; ring.
  - intros He. destruct (Hexp He) as [Hv Hp]. split; [exact Hv|].
    assert (Ht : Vec2.subtract (position (Particle.transform (particle_after dt k p)))
                   (position (Particle.transform p))
                 = Vec2.multiply (Particle.velocity p) ((1 - (95 / 100) ^ k) * 20 * dt)).
    { rewrite Hp. apply vec_eq; unfold Vec2.subtract, Vec2.add, Vec2.multiply;
        cbn [x y]; ring. }
    split; [exact Ht|]. intros Hdt. rewrite Ht.
    destruct (drag_range k) as [Hq0 Hq1].
    assert (Hc : 0 <= (1 - (95 / 100) ^ k) * 20 * dt) by nra.
    rewrite length_multiply, Rabs_pos_eq by assumption.
    assert (Hlen := length_nonneg (Particle.velocity p)).
    assert (Hm : 0 <= dt * Vec2.length (Particle.velocity p))
      by now apply Rmult_le_pos.
    set (m := dt * Vec2.length (Particle.velocity p)) in *.
    replace (Vec2.length (Particle.velocity p) * ((1 - (95 / 100) ^ k) * 20 * dt))
      with (20 * m * (1 - (95 / 100) ^ k)) by (unfold m; ring).
    replace (20 * dt * Vec2.length (Particle.velocity p)) with (20 * m)
      by (unfold m; ring).
    nra.
Qed.

Lemma updateParticle_after_witness :
  let p := Particle.mk "spark" (mkTransform (mkVector2 0 0) 0) (mkVector2 3 4)
             1000 1000 EXPLOSION in
  Vec2.length
    (Vec2.subtract (position (Particle.transform (particle_after (1 / 60) 5 p)))
                   (position (Particle.transform p)))
  <= 20 * (1 / 60) * Vec2.length (Particle.velocity p).
Proof.
  cbv zeta.
  apply (updateParticle_after (1 / 60) 5
           (Particle.mk "spark" (mkTransform (mkVector2 0 0) 0) (mkVector2 3 4)
              1000 1000 EXPLOSION)); [reflexivity | lra].
Defined.

(** ** [entities.ts]: respawn and damage *)

Lemma damagePlayer_agrees (p : Player) (damage t : R) :
  damagePlayer p damage t = damagePlayerFromCollision p damage t.
Proof. reflexivity. Qed.

(** X17.  [respawnPlayer] brings a player back alive with full health at
    the given position, at rest, and keeps the score and the lives; until
    [INVULNERABILITY_TIME] after the respawn [damagePlayer] does nothing to
    the player, and from then on a hit of 100 or more destroys the player
    and takes one life.  A player fresh from [createPlayer] has no such
    protection: a hit of 100 or more at any time [>= 0] destroys it. *)
Theorem respawn_protects_creation_does_not
    (p : Player) (pos : Vector2) (t damage t' : R) (id name : string) :
  let q := respawnPlayer p pos t in
  (Player.isAlive q = true /\ Player.health q = PLAYER_CONFIG.MAX_HEALTH /\
   Player.lives q = Player.lives p /\ Player.score q = Player.score p /\
   position (Player.transform q) = pos /\
   linear (Player.velocity q) = Vec2.zero) /\
  (t' < t + PLAYER_CONFIG.INVULNERABILITY_TIME ->
   damagePlayer q damage t' = (q, false)) /\
  (t + PLAYER_CONFIG.INVULNERABILITY_TIME <= t' -> 100 <= damage ->
   damagePlayer q damage t'
   = (Player.set_lives (Player.set_isAlive (Player.set_health q 0) false)
        (Rmax 0 (Player.lives p - 1)),
      true)) /\
  (0 <= t' -> 100 <= damage ->
   damagePlayer (createPlayer id name pos) damage t'
   = (Player.set_lives
        (Player.set_isAlive (Player.set_health (createPlayer id name pos) 0) false)
        (PLAYER_CONFIG.MAX_LIVES - 1),
      true)).
Proof.
  cbv zeta. split; [|split; [|split]].
  - cbn. rewrite copy_id. repeat split.
  - intros Ht. unfold damagePlayer, isPlayerInvulnerable.
    cbn [respawnPlayer Player.invulnerableUntil Player.isAlive].
    assert (E : Num.ltb t' (t + PLAYER_CONFIG.INVULNERABILITY_TIME) = true)
      by now apply ltb_true.
    now rewrite E.
  - intros Ht Hd. unfold damagePlayer, isPlayerInvulnerable.
    cbn [respawnPlayer Player.invulnerableUntil Player.isAlive Player.health
         Player.set_health Player.lives Player.set_isAlive].
    assert (E : Num.ltb t' (t + PLAYER_CONFIG.INVULNERABILITY_TIME) = false)
      by now apply ltb_false.
    assert (E' : Num.leb (PLAYER_CONFIG.MAX_HEALTH - damage) 0 = true)
      by (apply leb_true; unfold PLAYER_CONFIG.MAX_HEALTH; lra).
    rewrite E, E'. reflexivity.
  - intros Ht Hd. unfold damagePlayer, isPlayerInvulnerable.
    cbn [createPlayer Player.invulnerableUntil Player.isAlive Player.health
         Player.set_health Player.lives Player.set_isAlive].
    assert (E : Num.ltb t' 0 = false) by now apply ltb_false.
    assert (E' : Num.leb (PLAYER_CONFIG.MAX_HEALTH - damage) 0 = true)
      by (apply leb_true; unfold PLAYER_CONFIG.MAX_HEALTH; lra).
    rewrite E, E'. cbn [orb negb]. f_equal.
    unfold Player.set_lives. cbn. f_equal.
    unfold PLAYER_CONFIG.MAX_LIVES. apply Rmax_right. lra.
Qed.

Lemma respawn_protects_creation_does_not_witness :
  damagePlayer (respawnPlayer last_life (mkVector2 50 50) 1000) 100 2999
  = (respawnPlayer last_life (mkVector2 50 50) 1000, false).
Proof.
  apply (respawn_protects_creation_does_not last_life (mkVector2 50 50) 1000 100 2999
           "P" "pilot").
  unfold PLAYER_CONFIG.INVULNERABILITY_TIME. lra.
Defined.

(** X18.  The private copies in [collision.ts] compute what the exported
    functions of [entities.ts] compute: [damagePlayerFromCollision] is
    [damagePlayer], and [getAsteroidScore] gives each asteroid the [POINTS]
    that [getScoreForAsteroid] reads from [ASTEROID_CONFIG]; only the copy
    of the split differs, which returns no asteroid where [splitAsteroid]
    returns [SPLIT_COUNT] of them. *)
Theorem collision_copies_agree `{Oracle} (p : Player) (damage t : R) (a : Asteroid) (n : nat) :
  damagePlayerFromCollision p damage t = damagePlayer p damage t /\
  getAsteroidScore a = getScoreForAsteroid (Asteroid.size a) /\
  List.length (splitAsteroidFromBullet a) = 0%nat /\
  List.length (fst (splitAsteroid a n)) = SPLIT_COUNT (ASTEROID_CONFIG (Asteroid.size a)).
Proof.
  split; [reflexivity|]. split; [now destruct a as [? ? ? [] ?]|].
  split; [reflexivity|].
  unfold splitAsteroid. destruct (Asteroid.size a); cbn [ASTEROID_CONFIG SPLIT_COUNT Nat.eqb seq].
  - cbn [splitAsteroid_loop]. now repeat (destruct (createAsteroid _ _ _ _); cbn).
  - cbn [splitAsteroid_loop]. now repeat (destruct (createAsteroid _ _ _ _); cbn).
  - reflexivity.
Qed.

(** ** [collision.ts]: detection *)

Lemma get_In {A : Type} (m : list (string * A)) (k : string) (v : A) :
  CollisionSystem.get m k = Some v -> In (k, v) m.
Proof.
  unfold CollisionSystem.get.
  destruct (List.find _ m) as [[k' v']|] eqn:E; [|discriminate].
  cbn. intros [= <-]. apply find_some in E. destruct E as [Hin Hk].
  cbn in Hk. apply String.eqb_eq in Hk. now subst.
Qed.

Lemma get_NoDup {A : Type} (m : list (string * A)) (k : string) (v : A) :
  NoDup (List.map fst m) -> In (k, v) m -> CollisionSystem.get m k = Some v.
Proof.
  unfold CollisionSystem.get. induction m as [|[k' v'] m IH]; intros Hnd Hin; [destruct Hin|].
  cbn [List.map fst] in Hnd. apply NoDup_cons in Hnd. destruct Hnd as [Hk' Hnd].
  cbn [List.find fst]. destruct (String.eqb k' k) eqn:E.
  - apply String.eqb_eq in E. subst k'. destruct Hin as [[= ->]|Hin]; [reflexivity|].
    contradiction Hk'. apply list_elem_of_In, in_map_iff. now exists (k, v).
  - apply String.eqb_neq in E. destruct Hin as [[= -> ->]|Hin]; [congruence|].
    now apply IH.
Qed.

Lemma substring_full (s : string) : String.substring 0 (String.length s) s = s.
Proof. induction s as [|c s IH]; cbn; [reflexivity | now rewrite IH]. Qed.

Lemma substring_asteroid (id : string) :
  CollisionSystem.substring (String.append "asteroid_" id) 9 = id.
Proof.
  unfold CollisionSystem.substring. cbv [String.append]. cbn.
  rewrite Nat.sub_0_r. apply substring_full.
Qed.

Lemma substring_bullet (id : string) :
  CollisionSystem.substring (String.append "bullet_" id) 7 = id.
Proof.
  unfold CollisionSystem.substring. cbv [String.append]. cbn.
  rewrite Nat.sub_0_r. apply substring_full.
Qed.

Lemma prefix_refl_nil (s : string) : String.prefix "" s = true.
Proof. now destruct s. Qed.

Lemma startsWith_asteroid (id : string) :
  CollisionSystem.startsWith (String.append "asteroid_" id) "asteroid_" = true.
Proof.
  unfold CollisionSystem.startsWith. cbv [String.append]. cbn. apply prefix_refl_nil.
Qed.

Lemma startsWith_bullet (id : string) :
  CollisionSystem.startsWith (String.append "bullet_" id) "bullet_" = true.
Proof.
  unfold CollisionSystem.startsWith. cbv [String.append]. cbn. apply prefix_refl_nil.
Qed.

Lemma fold_reachable {A : Type} (cellSize : R)
    (step : SpatialHash.t -> A -> SpatialHash.t) (l : list A) (h : SpatialHash.t) :
  (forall h e, reachable cellSize h -> reachable cellSize (step h e)) ->
  reachable cellSize h -> reachable cellSize (fold_left step l h).
Proof.
  intros Hstep. revert h. induction l as [|e l IH]; intros h Hh; cbn; [assumption|].
  apply IH, Hstep, Hh.
Qed.

Lemma fold_other {A : Type} (step : SpatialHash.t -> A -> SpatialHash.t)
    (l : list A) (h : SpatialHash.t) (k : string) :
  (forall h e, In e l ->
     SpatialHash.objects (step h e) !! k = SpatialHash.objects h !! k) ->
  SpatialHash.objects (fold_left step l h) !! k = SpatialHash.objects h !! k.
Proof.
  revert h. induction l as [|e l IH]; intros h Hstep; cbn; [reflexivity|].
  rewrite IH; [apply Hstep; now left|]. intros h' e' He'. apply Hstep. now right.
Qed.

Lemma insert_player_reachable cellSize store h e :
  reachable cellSize h -> reachable cellSize (CollisionSystem.insert_player store h e).
Proof.
  intros Hh. unfold CollisionSystem.insert_player.
  destruct (Player.isAlive _); [now apply reachable_insert | assumption].
Qed.

Lemma insert_asteroid_reachable cellSize h e :
  reachable cellSize h -> reachable cellSize (CollisionSystem.insert_asteroid h e).
Proof. intros Hh. now apply reachable_insert. Qed.

Lemma insert_bullet_reachable cellSize h e :
  reachable cellSize h -> reachable cellSize (CollisionSystem.insert_bullet h e).
Proof. intros Hh. now apply reachable_insert. Qed.

(** An object filed under a prefixed key of a map with distinct keys is
    found under it after the map's loop. *)
Lemma insert_asteroids_lookup cellSize (l : list (string * Asteroid)) h id a :
  reachable cellSize h -> NoDup (List.map fst l) -> In (id, a) l ->
  SpatialHash.objects (fold_left CollisionSystem.insert_asteroid l h)
    !! String.append "asteroid_" id
  = Some (SpatialHash.mkStoredObject
            (position (Asteroid.transform a)) (Asteroid.radius a)
            (SpatialHash.getCellsForObject cellSize
               (position (Asteroid.transform a)) (Asteroid.radius a))).
Proof.
  revert h. induction l as [|[k v] l IH]; intros h Hh Hnd Hin; [destruct Hin|].
  cbn [List.map fst] in Hnd. apply NoDup_cons in Hnd. destruct Hnd as [Hk Hnd].
  cbn [fold_left]. destruct Hin as [[= -> ->]|Hin].
  - rewrite fold_other.
    + unfold CollisionSystem.insert_asteroid. cbn [fst snd].
      rewrite insert_objects, lookup_insert_eq.
      now destruct (reachable_indexed cellSize h Hh) as [-> _].
    + intros h' [k' v'] He. unfold CollisionSystem.insert_asteroid. cbn [fst snd].
      rewrite insert_objects, lookup_insert_ne; [reflexivity|].
      cbv [String.append]. intros [= E]. subst k'. apply Hk, list_elem_of_In, in_map_iff.
      now exists (id, v').
  - apply IH; [now apply insert_asteroid_reachable | assumption | assumption].
Qed.

Lemma insert_bullets_lookup cellSize (l : list (string * Bullet)) h id b :
  reachable cellSize h -> NoDup (List.map fst l) -> In (id, b) l ->
  SpatialHash.objects (fold_left CollisionSystem.insert_bullet l h)
    !! String.append "bullet_" id
  = Some (SpatialHash.mkStoredObject
            (position (Bullet.transform b)) 2
            (SpatialHash.getCellsForObject cellSize (position (Bullet.transform b)) 2)).
Proof.
  revert h. induction l as [|[k v] l IH]; intros h Hh Hnd Hin; [destruct Hin|].
  cbn [List.map fst] in Hnd. apply NoDup_cons in Hnd. destruct Hnd as [Hk Hnd].
  cbn [fold_left]. destruct Hin as [[= -> ->]|Hin].
  - rewrite fold_other.
    + unfold CollisionSystem.insert_bullet. cbn [fst snd].
      rewrite insert_objects, lookup_insert_eq.
      now destruct (reachable_indexed cellSize h Hh) as [-> _].
    + intros h' [k' v'] He. unfold CollisionSystem.insert_bullet. cbn [fst snd].
      rewrite insert_objects, lookup_insert_ne; [reflexivity|].
      cbv [String.append]. intros [= E]. subst k'. apply Hk, list_elem_of_In, in_map_iff.
      now exists (id, v').
  - apply IH; [now apply insert_bullet_reachable | assumption | assumption].
Qed.

Lemma insert_bullets_asteroid (l : list (string * Bullet)) h id :
  SpatialHash.objects (fold_left CollisionSystem.insert_bullet l h)
    !! String.append "asteroid_" id
  = SpatialHash.objects h !! String.append "asteroid_" id.
Proof.
  apply fold_other. intros h' [k' v'] _. unfold CollisionSystem.insert_bullet.
  rewrite insert_objects, lookup_insert_ne; [reflexivity|].
  cbv [String.append]. discriminate.
Qed.

Section Detection.

Variable store : Store.
Variable players : list (string * ref).
Variable asteroids : list (string * Asteroid).
Variable bullets : list (string * Bullet).
Variable c : CollisionSystem.t.

Let cellSize := SpatialHash.cellSize (CollisionSystem.spatialHash c).
Let events := fst (CollisionSystem.update store players asteroids bullets c).
Let hash :=
  CollisionSystem.spatialHash
    (snd (CollisionSystem.update store players asteroids bullets c)).

Hypothesis cell_pos : 0 < cellSize.
Hypothesis asteroid_keys : NoDup (List.map fst asteroids).
Hypothesis bullet_keys : NoDup (List.map fst bullets).
Hypothesis asteroid_radii :
  forall id a, In (id, a) asteroids -> 0 <= Asteroid.radius a.

Lemma update_hash_reachable : reachable cellSize hash.
Proof.
  unfold hash, CollisionSystem.update. cbn [snd CollisionSystem.spatialHash].
  apply fold_reachable; [intros; now apply insert_bullet_reachable|].
  apply fold_reachable; [intros; now apply insert_asteroid_reachable|].
  apply fold_reachable; [intros; now apply insert_player_reachable|].
  apply reachable_create.
Qed.

Lemma asteroid_is_candidate id a (q : Vector2) (r : R) :
  In (id, a) asteroids -> 0 <= r ->
  Vec2.length (Vec2.subtract (position (Asteroid.transform a)) q) < r + Asteroid.radius a ->
  In (String.append "asteroid_" id) (SpatialHash.query q r hash).
Proof.
  intros Hin Hr Hd. apply list_elem_of_In.
  apply (query_iff cellSize); [apply update_hash_reachable|].
  eexists. split.
  - unfold hash, CollisionSystem.update. cbn [snd CollisionSystem.spatialHash].
    rewrite insert_bullets_asteroid.
    apply (insert_asteroids_lookup cellSize); [|assumption|exact Hin].
    apply fold_reachable; [intros; now apply insert_player_reachable|].
    apply reachable_create.
  - cbn [SpatialHash.position SpatialHash.radius].
    apply circles_share_cell; [assumption | now apply (asteroid_radii id) | assumption|].
    unfold Vec2.distance. lra.
Qed.

Lemma bullet_is_candidate id b (q : Vector2) (r : R) :
  In (id, b) bullets -> 0 <= r ->
  Vec2.length (Vec2.subtract (position (Bullet.transform b)) q) < r + 2 ->
  In (String.append "bullet_" id) (SpatialHash.query q r hash).
Proof.
  intros Hin Hr Hd. apply list_elem_of_In.
  apply (query_iff cellSize); [apply update_hash_reachable|].
  eexists. split.
  - unfold hash, CollisionSystem.update. cbn [snd CollisionSystem.spatialHash].
    apply (insert_bullets_lookup cellSize); [|assumption|exact Hin].
    apply fold_reachable; [intros; now apply insert_asteroid_reachable|].
    apply fold_reachable; [intros; now apply insert_player_reachable|].
    apply reachable_create.
  - cbn [SpatialHash.position SpatialHash.radius].
    apply circles_share_cell; [assumption | lra | assumption|].
    unfold Vec2.distance. lra.
Qed.

Lemma detects_playerAsteroid (e : PlayerAsteroidCollision.t) :
  e ∈ playerAsteroidCollisions events <->
  exists playerId player asteroidId asteroid,
    In (playerId, player) players /\ Player.isAlive (store player) = true /\
    In (asteroidId, asteroid) asteroids /\
    CollisionSystem.checkPlayerAsteroidCollision (store player) asteroid = true /\
    e = PlayerAsteroidCollision.mk playerId asteroidId player asteroid.
Proof.
  assert (Hradius : 0 <= PLAYER_CONFIG.RADIUS) by (unfold PLAYER_CONFIG.RADIUS; lra).
  rewrite list_elem_of_In. unfold events, CollisionSystem.update.
  cbn [fst playerAsteroidCollisions]. rewrite in_flat_map. split.
  - intros ([playerId player] & Hp & He). cbn [fst snd] in He.
    destruct (Player.isAlive (store player)) eqn:Halive; cbn [negb] in He; [|destruct He].
    apply in_flat_map in He. destruct He as (candidateId & _ & He).
    unfold CollisionSystem.playerAsteroid_candidate in He.
    destruct (CollisionSystem.startsWith candidateId "asteroid_"); [|destruct He].
    destruct (CollisionSystem.get asteroids _) as [asteroid|] eqn:Hget; [|destruct He].
    destruct (CollisionSystem.checkPlayerAsteroidCollision _ _) eqn:Hcheck; [|destruct He].
    destruct He as [<-|[]]. apply get_In in Hget.
    exists playerId, player, (CollisionSystem.substring candidateId 9), asteroid.
    repeat split; assumption.
  - intros (playerId & player & asteroidId & asteroid & Hp & Halive & Ha & Hcheck & ->).
    exists (playerId, player). split; [assumption|]. cbn [fst snd].
    rewrite Halive. cbn [negb]. apply in_flat_map.
    exists (String.append "asteroid_" asteroidId). split.
    + apply (asteroid_is_candidate asteroidId asteroid); [assumption | assumption|].
      apply circleCircleCollision_collided in Hcheck. tauto.
    + unfold CollisionSystem.playerAsteroid_candidate.
      rewrite startsWith_asteroid, substring_asteroid,
        (get_NoDup _ _ _ asteroid_keys Ha), Hcheck. now left.
Qed.

Lemma detects_bulletAsteroid (e : BulletAsteroidCollision.t) :
  e ∈ bulletAsteroidCollisions events <->
  exists bulletId bullet asteroidId asteroid,
    In (bulletId, bullet) bullets /\
    In (asteroidId, asteroid) asteroids /\
    CollisionSystem.checkBulletAsteroidCollision bullet asteroid = true /\
    e = BulletAsteroidCollision.mk bulletId asteroidId bullet asteroid.
Proof.
  rewrite list_elem_of_In. unfold events, CollisionSystem.update.
  cbn [fst bulletAsteroidCollisions]. rewrite in_flat_map. split.
  - intros ([bulletId bullet] & Hb & He). cbn [fst snd] in He.
    apply in_flat_map in He. destruct He as (candidateId & _ & He).
    unfold CollisionSystem.bulletAsteroid_candidate in He.
    destruct (CollisionSystem.startsWith candidateId "asteroid_"); [|destruct He].
    destruct (CollisionSystem.get asteroids _) as [asteroid|] eqn:Hget; [|destruct He].
    destruct (CollisionSystem.checkBulletAsteroidCollision _ _) eqn:Hcheck; [|destruct He].
    destruct He as [<-|[]]. apply get_In in Hget.
    exists bulletId, bullet, (CollisionSystem.substring candidateId 9), asteroid.
    repeat split; assumption.
  - intros (bulletId & bullet & asteroidId & asteroid & Hb & Ha & Hcheck & ->).
    exists (bulletId, bullet). split; [assumption|]. cbn [fst snd].
    apply in_flat_map. exists (String.append "asteroid_" asteroidId). split.
    + apply (asteroid_is_candidate asteroidId asteroid); [assumption | lra|].
      apply circleCircleCollision_collided in Hcheck. tauto.
    + unfold CollisionSystem.bulletAsteroid_candidate.
      rewrite startsWith_asteroid, substring_asteroid,
        (get_NoDup _ _ _ asteroid_keys Ha), Hcheck. now left.
Qed.

Lemma detects_playerBullet (e : PlayerBulletCollision.t) :
  e ∈ playerBulletCollisions events <->
  exists playerId player bulletId bullet,
    In (playerId, player) players /\ Player.isAlive (store player) = true /\
    In (bulletId, bullet) bullets /\
    Bullet.playerId bullet <> playerId /\
    CollisionSystem.checkPlayerBulletCollision (store player) bullet = true /\
    e = PlayerBulletCollision.mk playerId bulletId player bullet.
Proof.
  assert (Hradius : 0 <= PLAYER_CONFIG.RADIUS) by (unfold PLAYER_CONFIG.RADIUS; lra).
  rewrite list_elem_of_In. unfold events, CollisionSystem.update.
  cbn [fst playerBulletCollisions]. rewrite in_flat_map. split.
  - intros ([playerId player] & Hp & He). cbn [fst snd] in He.
    destruct (Player.isAlive (store player)) eqn:Halive; cbn [negb] in He; [|destruct He].
    apply in_flat_map in He. destruct He as (candidateId & _ & He).
    unfold CollisionSystem.playerBullet_candidate in He.
    destruct (CollisionSystem.startsWith candidateId "bullet_"); [|destruct He].
    destruct (CollisionSystem.get bullets _) as [bullet|] eqn:Hget; [|destruct He].
    destruct (String.eqb (Bullet.playerId bullet) playerId) eqn:Hown;
      cbn [negb andb] in He; [destruct He|].
    destruct (CollisionSystem.checkPlayerBulletCollision _ _) eqn:Hcheck; [|destruct He].
    destruct He as [<-|[]]. apply get_In in Hget. apply String.eqb_neq in Hown.
    exists playerId, player, (CollisionSystem.substring candidateId 7), bullet.
    repeat split; assumption.
  - intros (playerId & player & bulletId & bullet & Hp & Halive & Hb & Hown & Hcheck & ->).
    exists (playerId, player). split; [assumption|]. cbn [fst snd].
    rewrite Halive. cbn [negb]. apply in_flat_map.
    exists (String.append "bullet_" bulletId). split.
    + apply (bullet_is_candidate bulletId bullet); [assumption | assumption|].
      apply circleCircleCollision_collided in Hcheck. lra.
    + unfold CollisionSystem.playerBullet_candidate.
      apply String.eqb_neq in Hown.
      rewrite startsWith_bullet, substring_bullet,
        (get_NoDup _ _ _ bullet_keys Hb), Hown, Hcheck. now left.
Qed.

(** X19.  The broad phase loses nothing and invents nothing.  With distinct
    keys in each map, a positive cell size and asteroid radii [>= 0],
    [update] reports a player-asteroid event exactly for each living player
    and each asteroid of the map whose circles overlap; a bullet-asteroid
    event exactly for each bullet and asteroid that overlap; and a
    player-bullet event exactly for each living player and each overlapping
    bullet that is not the player's own.  The event carries the keys and
    the objects of the two maps. *)
Theorem update_detects_exactly :
  (forall e, e ∈ playerAsteroidCollisions events <->
     exists playerId player asteroidId asteroid,
       In (playerId, player) players /\ Player.isAlive (store player) = true /\
       In (asteroidId, asteroid) asteroids /\
       CollisionSystem.checkPlayerAsteroidCollision (store player) asteroid = true /\
       e = PlayerAsteroidCollision.mk playerId asteroidId player asteroid) /\
  (forall e, e ∈ bulletAsteroidCollisions events <->
     exists bulletId bullet asteroidId asteroid,
       In (bulletId, bullet) bullets /\
       In (asteroidId, asteroid) asteroids /\
       CollisionSystem.checkBulletAsteroidCollision bullet asteroid = true /\
       e = BulletAsteroidCollision.mk bulletId asteroidId bullet asteroid) /\
  (forall e, e ∈ playerBulletCollisions events <->
     exists playerId player bulletId bullet,
       In (playerId, player) players /\ Player.isAlive (store player) = true /\
       In (bulletId, bullet) bullets /\
       Bullet.playerId bullet <> playerId /\
       CollisionSystem.checkPlayerBulletCollision (store player) bullet = true /\
       e = PlayerBulletCollision.mk playerId bulletId player bullet).
Proof.
  split; [|split]; intros e.
  - apply detects_playerAsteroid.
  - apply detects_bulletAsteroid.
  - apply detects_playerBullet.
Qed.

End Detection.

Lemma collided_intro (pos1 : Vector2) (radius1 : R) (pos2 : Vector2) (radius2 : R) :
  Vec2.length (Vec2.subtract pos2 pos1) < radius1 + radius2 ->
  0 < Vec2.length (Vec2.subtract pos2 pos1) ->
  collided (circleCircleCollision pos1 radius1 pos2 radius2) = true.
Proof.
  intros H1 H2. unfold circleCircleCollision.
  apply ltb_true in H1. apply ltb_true in H2. now rewrite H1, H2.
Qed.

Lemma update_detects_exactly_witness :
  PlayerAsteroidCollision.mk "P" "rock" 0%nat large_rock
    ∈ playerAsteroidCollisions
        (fst (CollisionSystem.update field_store field_players field_asteroids
                field_bullets CollisionSystem.create)).
Proof.
  refine (proj2 (proj1 (update_detects_exactly field_store field_players field_asteroids
                          field_bullets CollisionSystem.create _ _ _ _) _) _).
  - cbn. unfold PHYSICS_CONFIG.SPATIAL_HASH_CELL_SIZE. lra.
  - cbn. apply NoDup_singleton.
  - cbn. apply NoDup_singleton.
  - intros id a [[= <- <-]|[]]. cbn. lra.
  - exists "P"%string, 0%nat, "rock"%string, large_rock.
    split; [now left|]. split; [reflexivity|]. split; [now left|]. split; [|reflexivity].
    unfold CollisionSystem.checkPlayerAsteroidCollision.
    assert (E : Vec2.length
                  (Vec2.subtract (position (Asteroid.transform large_rock))
                     (position (Player.transform (field_store 0%nat)))) = 10).
    { unfold Vec2.length, Vec2.subtract. cbn.
      replace ((100 - 110) * (100 - 110) + (100 - 100) * (100 - 100)) with (10 * 10) by ring.
      apply sqrt_square. lra. }
    apply collided_intro; rewrite E; cbn; unfold PLAYER_CONFIG.RADIUS; lra.
Defined.

(** ** [collision.ts]: what a resolution pass reports *)

Lemma fold_left_inv_in {A B : Type} (P : A -> Prop) (f : A -> B -> A) (l : list B) (a : A) :
  (forall a b, In b l -> P a -> P (f a b)) -> P a -> P (fold_left f l a).
Proof.
  revert a. induction l as [|b l IH]; intros a Hstep Ha; cbn; [assumption|].
  apply IH; [intros a' b' Hb'; apply Hstep; now right|]. apply Hstep; [now left | assumption].
Qed.

(** The lists that only the bullet-asteroid loop and the player-bullet loop
    write. *)
Lemma resolve_playerAsteroid_lists t acc c :
  let res := fst (resolve_playerAsteroid t acc c) in
  destroyedAsteroids res = destroyedAsteroids (fst acc) /\
  destroyedBullets res = destroyedBullets (fst acc) /\
  scoreUpdates res = scoreUpdates (fst acc).
Proof.
  destruct acc as [res s]. unfold resolve_playerAsteroid.
  destruct (damagePlayerFromCollision _ _ _) as [p' [|]]; cbn; auto.
Qed.

Lemma resolve_playerBullet_lists t acc c :
  let res := fst (resolve_playerBullet t acc c) in
  destroyedAsteroids res = destroyedAsteroids (fst acc) /\
  destroyedBullets res
  = destroyedBullets (fst acc) ++ [PlayerBulletCollision.bulletId c] /\
  scoreUpdates res = scoreUpdates (fst acc).
Proof.
  destruct acc as [res s]. unfold resolve_playerBullet.
  destruct (damagePlayerFromCollision _ _ _) as [p' [|]]; cbn; auto.
Qed.

Lemma playerAsteroid_pass_lists t l acc :
  let res := fst (fold_left (resolve_playerAsteroid t) l acc) in
  destroyedAsteroids res = destroyedAsteroids (fst acc) /\
  destroyedBullets res = destroyedBullets (fst acc) /\
  scoreUpdates res = scoreUpdates (fst acc).
Proof.
  cbv zeta. revert acc. induction l as [|c l IH]; intros acc; cbn [fold_left]; [auto|].
  destruct (IH (resolve_playerAsteroid t acc c)) as (-> & -> & ->).
  apply resolve_playerAsteroid_lists.
Qed.

Lemma bulletAsteroid_pass_lists l acc :
  let res := fst (fold_left resolve_bulletAsteroid l acc) in
  destroyedAsteroids res
  = destroyedAsteroids (fst acc) ++ List.map BulletAsteroidCollision.asteroidId l /\
  destroyedBullets res
  = destroyedBullets (fst acc) ++ List.map BulletAsteroidCollision.bulletId l /\
  scoreUpdates res
  = scoreUpdates (fst acc)
    ++ List.map (fun c => ScoreUpdate.mk
                            (Bullet.playerId (BulletAsteroidCollision.bullet c))
                            (getScoreForAsteroid
                               (Asteroid.size (BulletAsteroidCollision.asteroid c)))) l /\
  destroyedPlayers res = destroyedPlayers (fst acc) /\
  snd (fold_left resolve_bulletAsteroid l acc) = snd acc.
Proof.
  cbv zeta. revert acc. induction l as [|c l IH]; intros acc; cbn [fold_left List.map].
  - rewrite !app_nil_r. auto.
  - destruct (IH (resolve_bulletAsteroid acc c)) as (-> & -> & -> & -> & ->).
    destruct acc as [res s]. cbn. rewrite getAsteroidScore_agrees, <- !app_assoc.
    repeat split.
Qed.

Lemma playerBullet_pass_lists t l acc :
  let res := fst (fold_left (resolve_playerBullet t) l acc) in
  destroyedAsteroids res = destroyedAsteroids (fst acc) /\
  destroyedBullets res
  = destroyedBullets (fst acc) ++ List.map PlayerBulletCollision.bulletId l /\
  scoreUpdates res = scoreUpdates (fst acc).
Proof.
  cbv zeta. revert acc. induction l as [|c l IH]; intros acc; cbn [fold_left List.map].
  - rewrite !app_nil_r. auto.
  - destruct (IH (resolve_playerBullet t acc c)) as (-> & -> & ->).
    destruct (resolve_playerBullet_lists t acc c) as (-> & -> & ->).
    rewrite <- app_assoc. auto.
Qed.

(** The store away from the players that the events name. *)
Lemma resolve_playerAsteroid_frame t acc c r :
  r <> PlayerAsteroidCollision.player c ->
  snd (resolve_playerAsteroid t acc c) r = snd acc r.
Proof.
  intros Hne. destruct acc as [res s]. unfold resolve_playerAsteroid.
  destruct (damagePlayerFromCollision _ _ _) as [p' [|]]; cbn [snd];
    now apply assign_other.
Qed.

Lemma resolve_playerBullet_frame t acc c r :
  r <> PlayerBulletCollision.player c ->
  snd (resolve_playerBullet t acc c) r = snd acc r.
Proof.
  intros Hne. destruct acc as [res s]. unfold resolve_playerBullet.
  destruct (damagePlayerFromCollision _ _ _) as [p' [|]]; cbn [snd];
    now apply assign_other.
Qed.

(** The three lists that the bullet loops write, for any events. *)
Lemma resolveCollisions_lists
    (events : CollisionEvents) (players : gmap string ref)
    (asteroids : gmap string Asteroid) (bullets : gmap string Bullet)
    (currentTime : R) (store : Store) :
  let result := fst (resolveCollisions events players asteroids bullets currentTime store) in
  destroyedAsteroids result
  = List.map BulletAsteroidCollision.asteroidId (bulletAsteroidCollisions events) /\
  destroyedBullets result
  = List.map BulletAsteroidCollision.bulletId (bulletAsteroidCollisions events)
    ++ List.map PlayerBulletCollision.bulletId (playerBulletCollisions events) /\
  scoreUpdates result
  = List.map (fun c => ScoreUpdate.mk
                         (Bullet.playerId (BulletAsteroidCollision.bullet c))
                         (getScoreForAsteroid
                            (Asteroid.size (BulletAsteroidCollision.asteroid c))))
             (bulletAsteroidCollisions events).
Proof.
  cbv zeta. unfold resolveCollisions.
  set (acc0 := (mkResolveCollisionResult [] [] [] [] [] [], store)).
  set (acc1 := fold_left (resolve_playerAsteroid currentTime)
                 (playerAsteroidCollisions events) acc0).
  set (acc2 := fold_left resolve_bulletAsteroid (bulletAsteroidCollisions events) acc1).
  destruct (playerAsteroid_pass_lists currentTime (playerAsteroidCollisions events) acc0)
    as (A1 & B1 & S1).
  destruct (bulletAsteroid_pass_lists (bulletAsteroidCollisions events) acc1)
    as (A2 & B2 & S2 & _ & _).
  destruct (playerBullet_pass_lists currentTime (playerBulletCollisions events) acc2)
    as (A3 & B3 & S3).
  fold acc1 in A1, B1, S1. fold acc2 in A2, B2, S2.
  rewrite A3, B3, S3, A2, B2, S2, A1, B1, S1. cbn [fst acc0 destroyedAsteroids
    destroyedBullets scoreUpdates app].
  split; [reflexivity|]. split; reflexivity.
Qed.

(** The store away from the players that the events name. *)
Lemma resolveCollisions_frame
    (events : CollisionEvents) (players : gmap string ref)
    (asteroids : gmap string Asteroid) (bullets : gmap string Bullet)
    (currentTime : R) (store : Store) (r : ref) :
  (forall id, ~ In (id, r) (named events)) ->
  snd (resolveCollisions events players asteroids bullets currentTime store) r = store r.
Proof.
  intros Hr. unfold resolveCollisions.
  set (acc1 := fold_left (resolve_playerAsteroid currentTime)
                 (playerAsteroidCollisions events)
                 (mkResolveCollisionResult [] [] [] [] [] [], store)).
  assert (H1 : snd acc1 r = store r).
  { unfold acc1.
    apply (fold_left_inv_in (fun acc => snd acc r = store r)); [|reflexivity].
    intros a c Hc Ha. rewrite resolve_playerAsteroid_frame; [assumption|].
    intros ->. apply (Hr (PlayerAsteroidCollision.playerId c)).
    unfold named. apply in_or_app. left. apply in_map_iff. now exists c. }
  apply (fold_left_inv_in (fun acc => snd acc r = store r)).
  - intros a c Hc Ha. rewrite resolve_playerBullet_frame; [assumption|].
    intros ->. apply (Hr (PlayerBulletCollision.playerId c)).
    unfold named. apply in_or_app. right. apply in_map_iff. now exists c.
  - cbv beta. transitivity (snd acc1 r); [|exact H1].
    destruct (bulletAsteroid_pass_lists (bulletAsteroidCollisions events) acc1)
      as (_ & _ & _ & _ & St2).
    exact (f_equal (fun s : Store => s r) St2).
Qed.

(** X20.  The bookkeeping of a resolution pass, for any events: the
    destroyed asteroids are the asteroid ids of the bullet-asteroid events,
    in order; the destroyed bullets are the bullet ids of the
    bullet-asteroid events followed by those of the player-bullet events;
    there is one score update per bullet-asteroid event, to the owner of
    the bullet and of the asteroid's points, so that an asteroid struck by
    two bullets in one pass is listed and paid twice; and a player object
    that no event names is left as it was. *)
Theorem resolveCollisions_bookkeeping
    (events : CollisionEvents) (players : gmap string ref)
    (asteroids : gmap string Asteroid) (bullets : gmap string Bullet)
    (currentTime : R) (store : Store) :
  let result := fst (resolveCollisions events players asteroids bullets currentTime store) in
  let after := snd (resolveCollisions events players asteroids bullets currentTime store) in
  destroyedAsteroids result
  = List.map BulletAsteroidCollision.asteroidId (bulletAsteroidCollisions events) /\
  destroyedBullets result
  = List.map BulletAsteroidCollision.bulletId (bulletAsteroidCollisions events)
    ++ List.map PlayerBulletCollision.bulletId (playerBulletCollisions events) /\
  scoreUpdates result
  = List.map (fun c => ScoreUpdate.mk
                         (Bullet.playerId (BulletAsteroidCollision.bullet c))
                         (getScoreForAsteroid
                            (Asteroid.size (BulletAsteroidCollision.asteroid c))))
             (bulletAsteroidCollisions events) /\
  List.length (scoreUpdates result) = List.length (destroyedAsteroids result) /\
  forall r, (forall id, ~ In (id, r) (named events)) -> after r = store r.
Proof.
  cbv zeta.
  destruct (resolveCollisions_lists events players asteroids bullets currentTime store)
    as (A & B & S).
  split; [exact A|]. split; [exact B|]. split; [exact S|].
  split; [now rewrite A, S, !length_map|].
  intros r Hr. now apply resolveCollisions_frame.
Qed.

(** One damaging event against the player object [r] named [id]. *)
Lemma pass_destroyed_step (t damage : R) (names : list (string * ref)) (s0 : Store)
    (destroyed : list string) (s : Store) (id : string) (r : ref) :
  (forall id1 r1 id2 r2, In (id1, r1) names -> In (id2, r2) names -> id1 = id2 -> r1 = r2) ->
  In (id, r) names ->
  pass_destroyed t names s0 destroyed s ->
  let out := damagePlayerFromCollision (s r) damage t in
  pass_destroyed t names s0
    (if snd out then destroyed ++ [id] else destroyed)
    (assign s r (fst out)).
Proof.
  intros Hcons Hin (Hnd & Hinv & Hdead). cbv zeta.
  destruct (damagePlayerFromCollision_cases (s r) damage t) as (Cg & Ck & Cs).
  assert (Hinv' : forall r', pass_inv t (s0 r')
            (assign s r (fst (damagePlayerFromCollision (s r) damage t)) r')).
  { intros r'. apply pass_inv_assign, Hinv. }
  assert (Hkeep : forall id',
            id' ∈ destroyed ->
            exists r', In (id', r') names /\ ~ shielded t (s0 r') /\
              Player.isAlive
                (assign s r (fst (damagePlayerFromCollision (s r) damage t)) r') = false /\
              Player.health
                (assign s r (fst (damagePlayerFromCollision (s r) damage t)) r') = 0 /\
              Player.lives
                (assign s r (fst (damagePlayerFromCollision (s r) damage t)) r')
              = Rmax 0 (Player.lives (s0 r') - 1)).
  { intros id' Hid'. destruct (Hdead id' Hid') as (r' & Hn & Hopen & Ha & Hh & Hl).
    exists r'. split; [assumption|]. split; [assumption|].
    destruct (Nat.eq_dec r' r) as [->|Hne].
    - rewrite assign_same. destruct Cg as [-> _]; [now right | auto].
    - rewrite assign_other by assumption. auto. }
  assert (Hdec : shielded t (s r) \/ ~ shielded t (s r)).
  { unfold shielded. destruct (Rlt_dec t (Player.invulnerableUntil (s r)));
      [left; now left|].
    destruct (Player.isAlive (s r));
      [right; intros [?|?]; [contradiction | discriminate] | left; now right]. }
  destruct Hdec as [Hsh|Hopen].
  { destruct (Cg Hsh) as [E1 E2]. rewrite E2. split; [assumption|]. split; assumption. }
  destruct (Rle_dec (Player.health (s r) - damage) 0) as [Hkill|Hlive].
  2:{ destruct (Cs Hopen ltac:(lra)) as [E1 E2]. rewrite E2.
      split; [assumption|]. split; assumption. }
  destruct (Ck Hopen Hkill) as [E1 E2]. rewrite E2.
  assert (Halive : Player.isAlive (s r) = true).
  { destruct (Player.isAlive (s r)) eqn:E; [reflexivity|]. contradiction Hopen. now right. }
  assert (Hfresh : id ∉ destroyed).
  { intros Hid. destruct (Hdead id Hid) as (r' & Hn & _ & Ha & _).
    rewrite (Hcons id r' id r Hn Hin eq_refl) in Ha. congruence. }
  destruct (Hinv r) as (_ & Hd & _ & Hi & Ha0 & _).
  split; [|split; [assumption|]].
  - apply NoDup_app. split; [assumption|]. split; [|apply NoDup_singleton].
    intros x Hx Hx'. apply list_elem_of_singleton in Hx'. now subst.
  - intros id' Hid'. apply elem_of_app in Hid'. destruct Hid' as [Hid'|Hid'].
    + now apply Hkeep.
    + apply list_elem_of_singleton in Hid'. subst id'. exists r.
      split; [assumption|]. split.
      * intros [G|G]; [apply Hopen; left; now rewrite Hi | apply Ha0 in G; congruence].
      * rewrite assign_same, E1. cbn. split; [reflexivity|]. split; [reflexivity|].
        f_equal. f_equal.
        destruct (Req_dec_T (Player.lives (s r)) (Player.lives (s0 r))) as [E|E];
          [exact E|]. apply Hd in E. congruence.
Qed.

Lemma resolve_playerAsteroid_destroyed t acc c :
  let out :=
    damagePlayerFromCollision (snd acc (PlayerAsteroidCollision.player c)) 100 t in
  destroyedPlayers (fst (resolve_playerAsteroid t acc c))
  = (if snd out then destroyedPlayers (fst acc) ++ [PlayerAsteroidCollision.playerId c]
     else destroyedPlayers (fst acc)) /\
  snd (resolve_playerAsteroid t acc c)
  = assign (snd acc) (PlayerAsteroidCollision.player c) (fst out).
Proof.
  destruct acc as [res s]. cbv zeta. unfold resolve_playerAsteroid. cbn [fst snd].
  destruct (damagePlayerFromCollision _ _ _) as [p' [|]]; cbn; auto.
Qed.

Lemma resolve_playerBullet_destroyed t acc c :
  let out :=
    damagePlayerFromCollision (snd acc (PlayerBulletCollision.player c)) 25 t in
  destroyedPlayers (fst (resolve_playerBullet t acc c))
  = (if snd out then destroyedPlayers (fst acc) ++ [PlayerBulletCollision.playerId c]
     else destroyedPlayers (fst acc)) /\
  snd (resolve_playerBullet t acc c)
  = assign (snd acc) (PlayerBulletCollision.player c) (fst out).
Proof.
  destruct acc as [res s]. cbv zeta. unfold resolve_playerBullet. cbn [fst snd].
  destruct (damagePlayerFromCollision _ _ _) as [p' [|]]; cbn; auto.
Qed.

(** X21.  When the events name every player object by one id, as those
    of [CollisionSystem.update] do, no player is reported destroyed twice
    by a resolution pass, however many events strike it: a reported player
    was alive and vulnerable when the pass began and is left dead, with
    health 0 and one life less (but not less than 0). *)
Theorem no_player_destroyed_twice
    (events : CollisionEvents) (players : gmap string ref)
    (asteroids : gmap string Asteroid) (bullets : gmap string Bullet)
    (currentTime : R) (store : Store) :
  (forall id1 r1 id2 r2,
     In (id1, r1) (named events) -> In (id2, r2) (named events) -> id1 = id2 -> r1 = r2) ->
  let result := fst (resolveCollisions events players asteroids bullets currentTime store) in
  let after := snd (resolveCollisions events players asteroids bullets currentTime store) in
  NoDup (destroyedPlayers result) /\
  forall id, id ∈ destroyedPlayers result ->
    exists r, In (id, r) (named events) /\
      Player.isAlive (store r) = true /\
      ~ currentTime < Player.invulnerableUntil (store r) /\
      Player.isAlive (after r) = false /\ Player.health (after r) = 0 /\
      Player.lives (after r) = Rmax 0 (Player.lives (store r) - 1).
Proof.
  intros Hcons. cbv zeta.
  assert (Hpass : pass_destroyed currentTime (named events) store
            (destroyedPlayers
               (fst (resolveCollisions events players asteroids bullets currentTime store)))
            (snd (resolveCollisions events players asteroids bullets currentTime store))).
  { unfold resolveCollisions.
    apply (fold_left_inv_in
             (fun acc => pass_destroyed currentTime (named events) store
                           (destroyedPlayers (fst acc)) (snd acc))).
    { intros acc c Hc Hacc.
      destruct (resolve_playerBullet_destroyed currentTime acc c) as [-> ->].
      apply pass_destroyed_step; [assumption| |assumption].
      unfold named. apply in_or_app. right. apply in_map_iff. now exists c. }
    destruct (bulletAsteroid_pass_lists (bulletAsteroidCollisions events)
                (fold_left (resolve_playerAsteroid currentTime)
                   (playerAsteroidCollisions events)
                   (mkResolveCollisionResult [] [] [] [] [] [], store)))
      as (_ & _ & _ & -> & ->).
    apply (fold_left_inv_in
             (fun acc => pass_destroyed currentTime (named events) store
                           (destroyedPlayers (fst acc)) (snd acc))).
    { intros acc c Hc Hacc.
      destruct (resolve_playerAsteroid_destroyed currentTime acc c) as [-> ->].
      apply pass_destroyed_step; [assumption| |assumption].
      unfold named. apply in_or_app. left. apply in_map_iff. now exists c. }
    split; [constructor|]. split; [intros r; apply pass_inv_refl|].
    intros id Hid. now apply elem_of_nil in Hid. }
  destruct Hpass as (Hnd & _ & Hdead). split; [assumption|].
  intros id Hid. destruct (Hdead id Hid) as (r & Hn & Hopen & Ha & Hh & Hl).
  exists r. split; [assumption|].
  split; [destruct (Player.isAlive (store r)) eqn:E; [reflexivity|];
          contradiction Hopen; now right|].
  split; [intros G; apply Hopen; now left|]. auto.
Qed.

Lemma no_player_destroyed_twice_witness :
  NoDup (destroyedPlayers (fst (resolveCollisions double_crash ∅ ∅ ∅ 1000 field_store))).
Proof.
  apply (no_player_destroyed_twice double_crash ∅ ∅ ∅ 1000 field_store).
  intros id1 r1 id2 r2 H1 H2 _.
  cbn in H1, H2. destruct H1 as [[= <- <-]|[[= <- <-]|[]]];
    destruct H2 as [[= <- <-]|[[= <- <-]|[]]]; reflexivity.
Defined.

(** ** [entities.ts] and [gameWorld.ts]: particles *)

Lemma turns_pos (count : R) : 0 < count -> exists k, World.turns count = S k.
Proof.
  intros Hc. unfold World.turns.
  destruct (floor_spec (- count)) as [Hf _].
  assert (Hz : (Num.floor (- count) <= -1)%Z).
  { assert (Hlt : IZR (Num.floor (- count)) < 0) by lra.
    apply (lt_IZR _ 0) in Hlt. lia. }
  exists (Z.to_nat (- Num.floor (- count) - 1)). lia.
Qed.

Lemma turns_nonpos (count : R) : count <= 0 -> World.turns count = 0%nat.
Proof.
  intros Hc. unfold World.turns.
  assert (Hz : (0 <= Num.floor (- count))%Z).
  { rewrite <- (floor_unique 0 0%Z) by lra. apply floor_mono. lra. }
  lia.
Qed.

Section Particles.

Context {oracle : Oracle}.

Lemma keyed_createParticle_found (position velocity : Vector2) (type : ParticleType)
    (lifetime : option R) (n : nat) :
  type <> BULLET_HIT ->
  Keyed.createParticle position velocity type lifetime n
  = Some (createParticle position velocity type lifetime n).
Proof.
  intros Hne. unfold Keyed.createParticle, createParticle.
  assert (E : PARTICLE_CONFIG_at (toUpperCase (ParticleType_value type))
              = Some (PARTICLE_CONFIG type))
    by (destruct type; [reflexivity | reflexivity | contradiction]).
  rewrite E. cbn [option_map].
  destruct lifetime as [l|]; [destruct (Num.eqb l 0)|];
    now destruct (generateId n).
Qed.

Lemma keyed_createParticle_spark (position velocity : Vector2) (n : nat) :
  Keyed.createParticle position velocity BULLET_HIT None n = None.
Proof. reflexivity. Qed.

(** X22.  [createParticle] looks its configuration up under the upper-cased
    value of the type.  For ['thrust'] and ['explosion'] that is the key of
    their configuration, and the particle is built with its [LIFETIME]
    unless a non-zero lifetime is passed.  For ['bulletHit'] the key
    [BULLETHIT] does not exist ([BULLET_HIT] does): without a lifetime, or
    with lifetime 0, the call throws; with another lifetime it builds the
    particle, never reading the configuration.  So [createParticleEffect]
    of a hit spark of at least one particle throws at its first turn,
    having made its two random draws and no particle. *)
Theorem createParticle_lookup
    (position velocity : Vector2) (lifetime : option R) (n : nat)
    (s : GameWorld.state) (count l : R) :
  Keyed.createParticle position velocity THRUST lifetime n
  = Some (createParticle position velocity THRUST lifetime n) /\
  Keyed.createParticle position velocity EXPLOSION lifetime n
  = Some (createParticle position velocity EXPLOSION lifetime n) /\
  Keyed.createParticle position velocity BULLET_HIT None n = None /\
  Keyed.createParticle position velocity BULLET_HIT (Some 0) n = None /\
  (l <> 0 ->
   Keyed.createParticle position velocity BULLET_HIT (Some l) n
   = Some (createParticle position velocity BULLET_HIT (Some l) n)) /\
  (0 < count ->
   World.createParticleEffect s position BULLET_HIT count
   = TypeError (GameWorld.mkState (GameWorld.heap s) (GameWorld.rng s + 2)
                  (GameWorld.world s))) /\
  (count <= 0 -> World.createParticleEffect s position BULLET_HIT count = Normal s).
Proof.
  split; [now apply keyed_createParticle_found|].
  split; [now apply keyed_createParticle_found|].
  split; [reflexivity|]. split.
  { unfold Keyed.createParticle.
    assert (E : Num.eqb 0 0 = true) by now apply eqb_true.
    now rewrite E. }
  split.
  { intros Hl. unfold Keyed.createParticle, createParticle.
    assert (E : Num.eqb l 0 = false) by now apply eqb_false.
    rewrite E. now destruct (generateId n). }
  split.
  - intros Hc. destruct (turns_pos count Hc) as [k Hk].
    unfold World.createParticleEffect. rewrite Hk.
    cbn [World.createParticleEffect_loop]. unfold randomVector2, randomFloat.
    rewrite keyed_createParticle_spark. cbn [GameWorld.rng]. do 2 f_equal. lia.
  - intros Hc. unfold World.createParticleEffect. now rewrite turns_nonpos.
Qed.

(** An explosion effect runs to its end and touches the particles and the
    index of the random draws only. *)
Lemma createParticleEffect_loop_explosion (s : GameWorld.state) (position : Vector2)
    (k : nat) :
  exists s',
    World.createParticleEffect_loop s position EXPLOSION k = Normal s' /\
    GameWorld.heap s' = GameWorld.heap s /\
    GameWorld.players (GameWorld.world s') = GameWorld.players (GameWorld.world s) /\
    GameWorld.asteroids (GameWorld.world s') = GameWorld.asteroids (GameWorld.world s) /\
    GameWorld.bullets (GameWorld.world s') = GameWorld.bullets (GameWorld.world s) /\
    GameWorld.tick (GameWorld.world s') = GameWorld.tick (GameWorld.world s) /\
    GameWorld.lastUpdate (GameWorld.world s') = GameWorld.lastUpdate (GameWorld.world s).
Proof.
  revert s. induction k as [|k IH]; intros s; cbn [World.createParticleEffect_loop].
  - exists s. repeat split.
  - destruct (randomVector2 50 200 (GameWorld.rng s)) as [velocity n1].
    rewrite keyed_createParticle_found by discriminate.
    destruct (createParticle position velocity EXPLOSION None n1) as [particle n2].
    match goal with |- context [World.createParticleEffect_loop ?s1 _ _ _] =>
      destruct (IH s1) as (s' & E & H1 & H2 & H3 & H4 & H5 & H6) end.
    exists s'. split; [exact E|]. cbn in H1, H2, H3, H4, H5, H6. repeat split; assumption.
Qed.

Lemma same_but_particles_trans (s1 s2 s3 : GameWorld.state) :
  same_but_particles s1 s2 -> same_but_particles s2 s3 -> same_but_particles s1 s3.
Proof.
  unfold same_but_particles. intros (A1 & A2 & A3 & A4 & A5 & A6) (B1 & B2 & B3 & B4 & B5 & B6).
  repeat split; congruence.
Qed.

(** The loop over queued effects throws if and only if a hit spark is
    among them. *)
Lemma particleEffects_loop_queued (effects : list ParticleEffect.t) (s : GameWorld.state) :
  List.Forall queued effects ->
  exists s',
    same_but_particles s s' /\
    ((List.Exists (of_type "bulletHit") effects /\
      World.particleEffects_loop effects s = Some (TypeError s')) \/
     (List.Forall (of_type "explosion") effects /\
      World.particleEffects_loop effects s = Some (Normal s'))).
Proof.
  intros Hq. revert s. induction Hq as [|effect rest [[Ht|Ht] Hc] Hrest IH]; intros s.
  - exists s. split; [repeat split|]. right. split; [constructor | reflexivity].
  - cbn [World.particleEffects_loop]. unfold of_type in Ht. rewrite Ht.
    cbn [as_ParticleType String.eqb Ascii.eqb Bool.eqb andb].
    change (as_ParticleType "explosion") with (Some EXPLOSION). cbv iota.
    destruct (createParticleEffect_loop_explosion s (ParticleEffect.position effect)
                (World.turns (ParticleEffect.count effect)))
      as (s1 & E & Hsame).
    unfold World.createParticleEffect. rewrite E.
    destruct (IH s1) as (s' & Hsame' & Hcase).
    exists s'. split; [now apply (same_but_particles_trans s s1 s')|].
    destruct Hcase as [[Hex Hl]|[Hall Hl]].
    + left. split; [now apply List.Exists_cons_tl | exact Hl].
    + right. split; [now constructor | exact Hl].
  - cbn [World.particleEffects_loop]. unfold of_type in Ht. rewrite Ht.
    change (as_ParticleType "bulletHit") with (Some BULLET_HIT). cbv iota.
    destruct (turns_pos _ Hc) as [k Hk].
    unfold World.createParticleEffect. rewrite Hk.
    cbn [World.createParticleEffect_loop]. unfold randomVector2, randomFloat.
    rewrite keyed_createParticle_spark.
    eexists. split; [|left; split; [now apply List.Exists_cons_hd | reflexivity]].
    repeat split.
Qed.

End Particles.

(** ** [gameWorld.ts]: the collisions of a tick *)

(** What each turn of the three loops of [resolveCollisions] adds to the
    queue of effects. *)
Lemma resolve_playerAsteroid_effects t acc c :
  exists extra,
    particleEffects (fst (resolve_playerAsteroid t acc c))
    = particleEffects (fst acc) ++ extra /\
    List.Forall queued extra /\ List.Forall (of_type "explosion") extra.
Proof.
  destruct acc as [res s]. unfold resolve_playerAsteroid.
  destruct (damagePlayerFromCollision _ _ _) as [p' [|]]; cbn [fst particleEffects].
  - eexists. split; [reflexivity|]. unfold queued, of_type.
    split; repeat constructor; cbn; lra.
  - exists []. rewrite app_nil_r. repeat constructor.
Qed.

Lemma resolve_bulletAsteroid_effects acc c :
  exists extra,
    particleEffects (fst (resolve_bulletAsteroid acc c))
    = particleEffects (fst acc) ++ extra /\
    List.Forall queued extra /\ List.Exists (of_type "bulletHit") extra.
Proof.
  destruct acc as [res s]. unfold resolve_bulletAsteroid. cbn [fst particleEffects].
  eexists. split; [reflexivity|]. unfold queued, of_type. split.
  - repeat constructor; cbn; lra.
  - apply List.Exists_cons_tl, List.Exists_cons_hd. reflexivity.
Qed.

Lemma resolve_playerBullet_effects t acc c :
  exists extra,
    particleEffects (fst (resolve_playerBullet t acc c))
    = particleEffects (fst acc) ++ extra /\
    List.Forall queued extra /\ List.Exists (of_type "bulletHit") extra.
Proof.
  destruct acc as [res s]. unfold resolve_playerBullet.
  destruct (damagePlayerFromCollision _ _ _) as [p' [|]]; cbn [fst particleEffects];
    (eexists; split; [reflexivity|]); unfold queued, of_type; split.
  - repeat constructor; cbn; lra.
  - apply List.Exists_cons_tl, List.Exists_cons_hd. reflexivity.
  - repeat constructor; cbn; lra.
  - apply List.Exists_cons_hd. reflexivity.
Qed.

(** The queue of a whole pass: explosions and hit sparks only, and a hit
    spark exactly when there is a bullet event. *)
Lemma resolveCollisions_effects
    (events : CollisionEvents) (players : gmap string ref)
    (asteroids : gmap string Asteroid) (bullets : gmap string Bullet)
    (currentTime : R) (store : Store) :
  let effects :=
    particleEffects
      (fst (resolveCollisions events players asteroids bullets currentTime store)) in
  List.Forall queued effects /\
  (bulletAsteroidCollisions events <> [] \/ playerBulletCollisions events <> [] ->
   List.Exists (of_type "bulletHit") effects) /\
  (bulletAsteroidCollisions events = [] -> playerBulletCollisions events = [] ->
   List.Forall (of_type "explosion") effects).
Proof.
  cbv zeta. unfold resolveCollisions.
  set (acc0 := (mkResolveCollisionResult [] [] [] [] [] [], store)).
  set (acc1 := fold_left (resolve_playerAsteroid currentTime)
                 (playerAsteroidCollisions events) acc0).
  set (acc2 := fold_left resolve_bulletAsteroid (bulletAsteroidCollisions events) acc1).
  assert (H1 : List.Forall queued (particleEffects (fst acc1)) /\
               List.Forall (of_type "explosion") (particleEffects (fst acc1))).
  { unfold acc1.
    apply (fold_left_inv
             (fun acc => List.Forall queued (particleEffects (fst acc)) /\
                         List.Forall (of_type "explosion") (particleEffects (fst acc))));
      [|split; constructor].
    intros a c [Hq He].
    destruct (resolve_playerAsteroid_effects currentTime a c) as (extra & -> & Hq' & He').
    split; apply List.Forall_app; now split. }
  assert (Hgrow2 : forall l a,
            List.Forall queued (particleEffects (fst a)) ->
            List.Forall queued (particleEffects (fst (fold_left resolve_bulletAsteroid l a))) /\
            (List.Exists (of_type "bulletHit") (particleEffects (fst a)) \/ l <> [] ->
             List.Exists (of_type "bulletHit")
               (particleEffects (fst (fold_left resolve_bulletAsteroid l a))))).
  { induction l as [|c l IH]; intros a Hq; cbn [fold_left].
    - split; [assumption|]. intros [H|H]; [assumption | contradiction].
    - destruct (resolve_bulletAsteroid_effects a c) as (extra & E & Hq' & He').
      destruct (IH (resolve_bulletAsteroid a c)) as [IHq IHe].
      { rewrite E. apply List.Forall_app. now split. }
      split; [assumption|]. intros _. apply IHe. left. rewrite E.
      apply List.Exists_app. now right. }
  assert (Hgrow3 : forall l a,
            List.Forall queued (particleEffects (fst a)) ->
            List.Forall queued
              (particleEffects (fst (fold_left (resolve_playerBullet currentTime) l a))) /\
            (List.Exists (of_type "bulletHit") (particleEffects (fst a)) \/ l <> [] ->
             List.Exists (of_type "bulletHit")
               (particleEffects
                  (fst (fold_left (resolve_playerBullet currentTime) l a))))).
  { induction l as [|c l IH]; intros a Hq; cbn [fold_left].
    - split; [assumption|]. intros [H|H]; [assumption | contradiction].
    - destruct (resolve_playerBullet_effects currentTime a c) as (extra & E & Hq' & He').
      destruct (IH (resolve_playerBullet currentTime a c)) as [IHq IHe].
      { rewrite E. apply List.Forall_app. now split. }
      split; [assumption|]. intros _. apply IHe. left. rewrite E.
      apply List.Exists_app. now right. }
  destruct H1 as [Hq1 He1].
  destruct (Hgrow2 (bulletAsteroidCollisions events) acc1 Hq1) as [Hq2 He2].
  fold acc2 in Hq2, He2.
  destruct (Hgrow3 (playerBulletCollisions events) acc2 Hq2) as [Hq3 He3].
  split; [exact Hq3|]. split.
  - intros [Hba|Hpb]; apply He3; [left; apply He2; now right | now right].
  - intros Eba Epb. rewrite Epb. cbn [fold_left]. unfold acc2. rewrite Eba.
    cbn [fold_left]. exact He1.
Qed.

(** The maps after the results have been applied. *)
Lemma apply_result_maps (w0 : World.t) (res : ResolveCollisionResult) (heap1 : Store)
    (t : R) :
  newAsteroids res = [] ->
  let world := GameWorld.world (World.base w0) in
  let w1 := World.apply_result w0 res heap1 t in
  GameWorld.asteroids (GameWorld.world (World.base w1))
  = fold_left (fun m id => delete id m) (destroyedAsteroids res)
      (GameWorld.asteroids world) /\
  GameWorld.bullets (GameWorld.world (World.base w1))
  = fold_left (fun m id => delete id m) (destroyedBullets res)
      (GameWorld.bullets world) /\
  GameWorld.players (GameWorld.world (World.base w1)) = GameWorld.players world /\
  GameWorld.particles (GameWorld.world (World.base w1)) = GameWorld.particles world /\
  GameWorld.tick (GameWorld.world (World.base w1)) = GameWorld.tick world /\
  GameWorld.lastUpdate (GameWorld.world (World.base w1)) = GameWorld.lastUpdate world /\
  GameWorld.rng (World.base w1) = GameWorld.rng (World.base w0) /\
  World.collisionSystem w1 = World.collisionSystem w0.
Proof.
  intros Hnew. cbv zeta. unfold World.apply_result.
  destruct (fold_left (World.destroy_player _ t) (destroyedPlayers res) (heap1, World.timers w0))
    as [heap2 timers1].
  cbn [World.base World.collisionSystem GameWorld.world GameWorld.asteroids
       GameWorld.bullets GameWorld.players GameWorld.particles GameWorld.tick
       GameWorld.lastUpdate GameWorld.rng].
  rewrite Hnew. cbn [fold_left]. repeat split.
Qed.

Lemma laid_out_twice (p : Player) : laid_out (laid_out p) = laid_out p.
Proof. reflexivity. Qed.

(** The loop over the destroyed players. *)
Lemma destroy_players_spec (players : gmap string ref) (t : R) (ids : list string)
    (heap1 : Store) (timers0 : list (string * R)) :
  let out := fold_left (World.destroy_player players t) ids (heap1, timers0) in
  (forall r, fst out r = heap1 r \/ fst out r = laid_out (heap1 r)) /\
  (forall id r, In id ids -> players !! id = Some r -> fst out r = laid_out (heap1 r)) /\
  snd out = timers0 ++ respawns players heap1 t ids.
Proof.
  cbv zeta.
  assert (Hgen : forall heapC timersC,
            (forall r, heapC r = heap1 r \/ heapC r = laid_out (heap1 r)) ->
            let out := fold_left (World.destroy_player players t) ids (heapC, timersC) in
            (forall r, fst out r = heap1 r \/ fst out r = laid_out (heap1 r)) /\
            (forall r, heapC r = laid_out (heap1 r) -> fst out r = laid_out (heap1 r)) /\
            (forall id r, In id ids -> players !! id = Some r ->
               fst out r = laid_out (heap1 r)) /\
            snd out = timersC ++ respawns players heap1 t ids).
  { induction ids as [|id ids IH]; intros heapC timersC Hinv; cbv zeta; cbn [fold_left].
    - cbn [fst snd respawns flat_map]. rewrite app_nil_r.
      split; [assumption|]. split; [auto|]. split; [intros ? ? []|reflexivity].
    - destruct (players !! id) as [r0|] eqn:Elook.
      + assert (Hstep : World.destroy_player players t (heapC, timersC) id
                        = (assign heapC r0 (laid_out (heapC r0)),
                           if Num.ltb 0 (Player.lives (laid_out (heapC r0)))
                           then timersC ++ [(id, t + 3000)] else timersC))
          by (unfold World.destroy_player; now rewrite Elook).
        rewrite Hstep.
        assert (Hlaid : laid_out (heapC r0) = laid_out (heap1 r0)).
        { destruct (Hinv r0) as [->| ->]; [reflexivity | apply laid_out_twice]. }
        assert (Hinv' : forall r,
                  assign heapC r0 (laid_out (heapC r0)) r = heap1 r \/
                  assign heapC r0 (laid_out (heapC r0)) r = laid_out (heap1 r)).
        { intros r. destruct (Nat.eq_dec r r0) as [->|Hne].
          - rewrite assign_same. now right.
          - rewrite assign_other by assumption. apply Hinv. }
        destruct (IH (assign heapC r0 (laid_out (heapC r0)))
                     (if Num.ltb 0 (Player.lives (laid_out (heapC r0)))
                      then timersC ++ [(id, t + 3000)] else timersC) Hinv')
          as (I1 & I2 & I3 & I4).
        split; [exact I1|]. split; [|split].
        * intros r Hr. apply I2. destruct (Nat.eq_dec r r0) as [->|Hne].
          -- now rewrite assign_same.
          -- now rewrite assign_other.
        * intros id' r [<-|Hin] Hl.
          -- rewrite Elook in Hl. injection Hl as <-. apply I2.
             now rewrite assign_same.
          -- now apply (I3 id').
        * etransitivity; [exact I4|]. cbn [respawns flat_map]. rewrite Elook.
          replace (Player.lives (laid_out (heapC r0))) with (Player.lives (heap1 r0))
            by (rewrite Hlaid; reflexivity).
          destruct (Num.ltb 0 (Player.lives (heap1 r0))); [|reflexivity].
          now rewrite <- app_assoc.
      + assert (Hstep : World.destroy_player players t (heapC, timersC) id
                        = (heapC, timersC))
          by (unfold World.destroy_player; now rewrite Elook).
        rewrite Hstep.
        destruct (IH heapC timersC Hinv) as (I1 & I2 & I3 & I4).
        split; [exact I1|]. split; [exact I2|]. split.
        * intros id' r [<-|Hin] Hl; [congruence | now apply (I3 id')].
        * etransitivity; [exact I4|]. cbn [respawns flat_map]. now rewrite Elook. }
  destruct (Hgen heap1 timers0 (fun r => or_introl eq_refl)) as (I1 & _ & I3 & I4).
  split; [exact I1|]. split; [exact I3 | exact I4].
Qed.

(** The loop over the score updates touches scores only. *)
Lemma add_scores_spec (players : gmap string ref) (updates : list ScoreUpdate.t)
    (heap2 : Store) (r : ref) :
  let p := fold_left (World.add_score players) updates heap2 r in
  Player.isAlive p = Player.isAlive (heap2 r) /\
  Player.health p = Player.health (heap2 r) /\
  Player.lives p = Player.lives (heap2 r) /\
  Player.invulnerableUntil p = Player.invulnerableUntil (heap2 r).
Proof.
  cbv zeta. revert heap2. induction updates as [|u updates IH]; intros heap2;
    cbn [fold_left]; [repeat split|].
  destruct (IH (World.add_score players heap2 u)) as (-> & -> & -> & ->).
  unfold World.add_score. destruct (players !! ScoreUpdate.playerId u) as [r0|];
    [|repeat split].
  destruct (Nat.eq_dec r r0) as [->|Hne].
  - rewrite assign_same. repeat split.
  - rewrite assign_other by assumption. repeat split.
Qed.

(** The players and the timers after the results have been applied. *)
Lemma apply_result_players (w0 : World.t) (res : ResolveCollisionResult) (heap1 : Store)
    (t : R) :
  let players := GameWorld.players (GameWorld.world (World.base w0)) in
  let w1 := World.apply_result w0 res heap1 t in
  World.timers w1 = World.timers w0 ++ respawns players heap1 t (destroyedPlayers res) /\
  (forall r,
     Player.lives (GameWorld.heap (World.base w1) r) = Player.lives (heap1 r)) /\
  (forall id r, In id (destroyedPlayers res) -> players !! id = Some r ->
     Player.isAlive (GameWorld.heap (World.base w1) r) = false /\
     Player.health (GameWorld.heap (World.base w1) r) = 0).
Proof.
  cbv zeta. unfold World.apply_result.
  destruct (destroy_players_spec (GameWorld.players (GameWorld.world (World.base w0))) t
              (destroyedPlayers res) heap1 (World.timers w0)) as (D1 & D2 & D3).
  destruct (fold_left (World.destroy_player _ t) (destroyedPlayers res)
              (heap1, World.timers w0)) as [heap2 timers1].
  cbn [fst snd] in D1, D2, D3. cbn [World.timers World.base GameWorld.heap].
  split; [exact D3|]. split.
  - intros r.
    destruct (add_scores_spec (GameWorld.players (GameWorld.world (World.base w0)))
                (scoreUpdates res) heap2 r) as (_ & _ & -> & _).
    destruct (D1 r) as [->| ->]; reflexivity.
  - intros id r Hin Hl.
    destruct (add_scores_spec (GameWorld.players (GameWorld.world (World.base w0)))
                (scoreUpdates res) heap2 r) as (-> & -> & _).
    rewrite (D2 id r Hin Hl). split; reflexivity.
Qed.

Section Collisions.

Context {oracle : Oracle}.

Variables porder aorder border : list string.
Variable w : World.t.
Variable currentTime : R.

Let world := GameWorld.world (World.base w).
Let heap := GameWorld.heap (World.base w).
Let detection :=
  CollisionSystem.update heap
    (World.entries porder (GameWorld.players world))
    (World.entries aorder (GameWorld.asteroids world))
    (World.entries border (GameWorld.bullets world))
    (World.collisionSystem w).
Let events := fst detection.
Let resolution :=
  resolveCollisions events (GameWorld.players world) (GameWorld.asteroids world)
    (GameWorld.bullets world) currentTime heap.
Let result := fst resolution.
Let applied :=
  World.apply_result (World.mk (World.base w) (snd detection) (World.timers w))
    result (snd resolution) currentTime.

(** How [processCollisions] ends: with the results applied and some
    particles made. *)
Lemma processCollisions_ends :
  exists s',
    same_but_particles (World.base applied) s' /\
    ((bulletAsteroidCollisions events <> [] \/ playerBulletCollisions events <> []) /\
     World.processCollisions porder aorder border w currentTime
     = Some (TypeError (World.mk s' (World.collisionSystem applied) (World.timers applied)))
     \/
     (bulletAsteroidCollisions events = [] /\ playerBulletCollisions events = []) /\
     World.processCollisions porder aorder border w currentTime
     = Some (Normal (World.mk s' (World.collisionSystem applied) (World.timers applied)))).
Proof.
  unfold World.processCollisions. fold world heap. fold detection.
  assert (Ed : detection = (events, snd detection)) by (unfold events; now destruct detection).
  rewrite Ed. fold resolution.
  assert (Er : resolution = (result, snd resolution))
    by (unfold result; now destruct resolution).
  rewrite Er. fold applied.
  destruct (resolveCollisions_effects events (GameWorld.players world)
              (GameWorld.asteroids world) (GameWorld.bullets world) currentTime heap)
    as (Hq & Hspark & Hquiet).
  fold resolution result in Hq, Hspark, Hquiet.
  destruct (particleEffects_loop_queued (particleEffects result) (World.base applied) Hq)
    as (s' & Hsame & Hcase).
  exists s'. split; [exact Hsame|].
  destruct Hcase as [[Hex ->]|[Hall ->]].
  - left. split; [|reflexivity].
    destruct (bulletAsteroidCollisions events) as [|c l] eqn:Eba; [|left; discriminate].
    destruct (playerBulletCollisions events) as [|c l] eqn:Epb; [|right; discriminate].
    exfalso. specialize (Hquiet eq_refl eq_refl).
    apply List.Exists_exists in Hex. destruct Hex as (e & He & Hs).
    rewrite List.Forall_forall in Hquiet. specialize (Hquiet e He).
    unfold of_type in *. congruence.
  - right. split; [|reflexivity].
    destruct (bulletAsteroidCollisions events) as [|c l] eqn:Eba.
    + destruct (playerBulletCollisions events) as [|c l] eqn:Epb; [now split|].
      exfalso. assert (Hne : c :: l <> []) by discriminate.
      assert (Hex := Hspark (or_intror Hne)).
      apply List.Exists_exists in Hex. destruct Hex as (e & He & Hs).
      rewrite List.Forall_forall in Hall. specialize (Hall e He).
      unfold of_type in *. congruence.
    + exfalso. assert (Hne : c :: l <> []) by discriminate.
      assert (Hex := Hspark (or_introl Hne)).
      apply List.Exists_exists in Hex. destruct Hex as (e & He & Hs).
      rewrite List.Forall_forall in Hall. specialize (Hall e He).
      unfold of_type in *. congruence.
Qed.

Lemma applied_maps :
  GameWorld.asteroids (GameWorld.world (World.base applied))
  = fold_left (fun m id => delete id m) (destroyedAsteroids result)
      (GameWorld.asteroids world) /\
  GameWorld.bullets (GameWorld.world (World.base applied))
  = fold_left (fun m id => delete id m) (destroyedBullets result)
      (GameWorld.bullets world) /\
  GameWorld.players (GameWorld.world (World.base applied)) = GameWorld.players world /\
  GameWorld.particles (GameWorld.world (World.base applied)) = GameWorld.particles world /\
  GameWorld.tick (GameWorld.world (World.base applied)) = GameWorld.tick world /\
  GameWorld.lastUpdate (GameWorld.world (World.base applied))
  = GameWorld.lastUpdate world /\
  GameWorld.rng (World.base applied) = GameWorld.rng (World.base w) /\
  World.collisionSystem applied = snd detection.
Proof.
  apply (apply_result_maps (World.mk (World.base w) (snd detection) (World.timers w))).
  apply resolveCollisions_newAsteroids.
Qed.

(** X23.  Whatever the order in which the maps are iterated,
    [processCollisions] ends in one of two ways.  If the detection reports
    no bullet-asteroid and no player-bullet event it returns.  If it
    reports one, the hit spark that the resolution queues for it makes
    [createParticleEffect] throw a [TypeError]: [processCollisions] throws.
    By then the destroyed asteroids and bullets have been deleted from
    their maps. *)
Theorem processCollisions_throws_on_bullet_hit :
  (bulletAsteroidCollisions events <> [] \/ playerBulletCollisions events <> [] ->
   exists w',
     World.processCollisions porder aorder border w currentTime = Some (TypeError w') /\
     GameWorld.asteroids (GameWorld.world (World.base w'))
     = fold_left (fun m id => delete id m) (destroyedAsteroids result)
         (GameWorld.asteroids world) /\
     GameWorld.bullets (GameWorld.world (World.base w'))
     = fold_left (fun m id => delete id m) (destroyedBullets result)
         (GameWorld.bullets world)) /\
  (bulletAsteroidCollisions events = [] -> playerBulletCollisions events = [] ->
   exists w',
     World.processCollisions porder aorder border w currentTime = Some (Normal w') /\
     GameWorld.asteroids (GameWorld.world (World.base w')) = GameWorld.asteroids world /\
     GameWorld.bullets (GameWorld.world (World.base w')) = GameWorld.bullets world).
Proof.
  destruct processCollisions_ends as (s' & (_ & _ & Sa & Sb & _) & Hcase).
  destruct applied_maps as (Ha & Hb & _).
  destruct (resolveCollisions_lists events (GameWorld.players world)
              (GameWorld.asteroids world) (GameWorld.bullets world) currentTime heap)
    as (La & Lb & _).
  fold resolution result in La, Lb.
  split.
  - intros Hhit.
    exists (World.mk s' (World.collisionSystem applied) (World.timers applied)).
    split; [|cbn [World.base]; rewrite Sa, Sb; split; assumption].
    destruct Hcase as [[_ E]|[[Eba Epb] _]]; [exact E|].
    destruct Hhit as [H|H]; contradiction.
  - intros Eba Epb.
    exists (World.mk s' (World.collisionSystem applied) (World.timers applied)).
    split.
    + destruct Hcase as [[[H|H] _]|[_ E]]; [contradiction | contradiction | exact E].
    + cbn [World.base]. rewrite Sa, Sb, Ha, Hb, La, Lb, Eba, Epb. split; reflexivity.
Qed.

(** X24.  However [processCollisions] ends, every player that the pass
    has reported destroyed and that the map of the players still holds is
    left dead with health 0.  If it has a life left, a call of
    [respawnPlayerSafely] with the time of the collision plus 3000 has been
    handed to [setTimeout]; made on the world as the collisions leave it,
    that call brings the player back alive, in full health, with the same
    lives and invulnerable until 5000 after the collision.  If it has no
    life left no call is scheduled for it, and [respawnPlayerSafely] would
    do nothing. *)
Theorem destroyed_players_wait_for_respawn :
  exists w',
    (World.processCollisions porder aorder border w currentTime = Some (Normal w') \/
     World.processCollisions porder aorder border w currentTime = Some (TypeError w')) /\
    World.timers w'
    = World.timers w
      ++ respawns (GameWorld.players world) (snd resolution) currentTime
           (destroyedPlayers result) /\
    forall id r,
      In id (destroyedPlayers result) -> GameWorld.players world !! id = Some r ->
      let p := GameWorld.heap (World.base w') r in
      let s' := World.respawnPlayerSafely (World.base w') id (currentTime + 3000) in
      Player.isAlive p = false /\ Player.health p = 0 /\
      Player.lives p = Player.lives (snd resolution r) /\
      (0 < Player.lives p ->
       In (id, currentTime + 3000) (World.timers w') /\
       Player.isAlive (GameWorld.heap s' r) = true /\
       Player.health (GameWorld.heap s' r) = PLAYER_CONFIG.MAX_HEALTH /\
       Player.lives (GameWorld.heap s' r) = Player.lives p /\
       Player.invulnerableUntil (GameWorld.heap s' r) = currentTime + 5000) /\
      (Player.lives p <= 0 -> s' = World.base w').
Proof.
  destruct processCollisions_ends as (s' & (Sh & Sp & _) & Hcase).
  destruct applied_maps as (_ & _ & Hp & _).
  destruct (apply_result_players
              (World.mk (World.base w) (snd detection) (World.timers w))
              result (snd resolution) currentTime) as (Ht & Hl & Hd).
  fold applied in Ht, Hl, Hd. cbn [World.base World.timers GameWorld.world] in Ht, Hd.
  fold world in Hd, Ht.
  exists (World.mk s' (World.collisionSystem applied) (World.timers applied)).
  split; [destruct Hcase as [[_ E]|[_ E]]; [now right | now left]|].
  cbn [World.timers World.base]. split; [exact Ht|].
  intros id r Hin Hlook. cbv zeta. rewrite Sh.
  destruct (Hd id r Hin Hlook) as [Ha Hh].
  split; [exact Ha|]. split; [exact Hh|]. split; [apply Hl|].
  unfold World.respawnPlayerSafely. rewrite Sp, Hp, Hlook, Sh.
  split.
  - intros Hlives.
    assert (E : Num.leb (Player.lives (GameWorld.heap (World.base applied) r)) 0 = false)
      by now apply leb_false.
    rewrite E. split.
    + rewrite Ht. apply in_or_app. right. unfold respawns. apply in_flat_map.
      exists id. split; [assumption|]. rewrite Hlook.
      assert (E' : Num.ltb 0 (Player.lives (snd resolution r)) = true)
        by (apply ltb_true; now rewrite <- Hl).
      rewrite E'. now left.
    + destruct (World.findSafeSpawnPosition s' (GameWorld.rng s')) as [spot n1].
      cbn [GameWorld.heap]. rewrite assign_same. cbn.
      repeat split. unfold PLAYER_CONFIG.INVULNERABILITY_TIME. ring.
  - intros Hlives.
    assert (E : Num.leb (Player.lives (GameWorld.heap (World.base applied) r)) 0 = true)
      by now apply leb_true.
    now rewrite E.
Qed.

End Collisions.

Lemma field_entries :
  World.entries ["P"%string]
    (GameWorld.players (GameWorld.world (World.base field_world))) = field_players /\
  World.entries ["rock"%string]
    (GameWorld.asteroids (GameWorld.world (World.base field_world))) = field_asteroids /\
  World.entries ["shot"%string]
    (GameWorld.bullets (GameWorld.world (World.base field_world))) = field_bullets.
Proof.
  unfold World.entries, field_world, field_players, field_asteroids, field_bullets.
  cbn [World.base GameWorld.world GameWorld.players GameWorld.asteroids GameWorld.bullets
       list_to_map foldr fst snd flat_map uncurry].
  rewrite !lookup_insert_eq. repeat split.
Qed.

Lemma processCollisions_throws_on_bullet_hit_witness :
  exists w',
    @World.processCollisions halves
      ["P"%string] ["rock"%string] ["shot"%string] field_world 1000
    = Some (TypeError w').
Proof.
  destruct (proj1 (processCollisions_throws_on_bullet_hit (oracle := halves)
                     ["P"%string] ["rock"%string] ["shot"%string] field_world 1000))
    as (w' & E & _); [|now exists w'].
  left. destruct field_entries as (-> & -> & ->).
  intros Hnil.
  assert (Hin : BulletAsteroidCollision.mk "shot" "rock" (snd (List.hd ("shot"%string, scenario_bullet) field_bullets)) large_rock
                ∈ bulletAsteroidCollisions
                    (fst (CollisionSystem.update
                            (GameWorld.heap (World.base field_world))
                            field_players field_asteroids field_bullets
                            (World.collisionSystem field_world)))).
  { apply detects_bulletAsteroid.
    - cbn. unfold PHYSICS_CONFIG.SPATIAL_HASH_CELL_SIZE. lra.
    - cbn. apply NoDup_singleton.
    - intros id a [[= <- <-]|[]]. cbn. lra.
    - eexists _, _, _, _. split; [now left|]. split; [now left|]. split; [|reflexivity].
      unfold CollisionSystem.checkBulletAsteroidCollision. cbn [List.hd snd field_bullets].
      assert (E : Vec2.length
                    (Vec2.subtract (position (Asteroid.transform large_rock))
                       (mkVector2 105 100)) = 5).
      { unfold Vec2.length, Vec2.subtract. cbn.
        replace ((100 - 105) * (100 - 105) + (100 - 100) * (100 - 100)) with (5 * 5)
          by ring.
        apply sqrt_square. lra. }
      apply collided_intro; cbn [Bullet.transform position]; rewrite E; cbn; lra. }
  rewrite Hnil in Hin. now apply elem_of_nil in Hin.
Defined.

(** A reported player stays reported to the end of the pass. *)
Lemma destroyed_stays_playerAsteroid t l acc id :
  In id (destroyedPlayers (fst acc)) ->
  In id (destroyedPlayers (fst (fold_left (resolve_playerAsteroid t) l acc))).
Proof.
  revert acc. induction l as [|c l IH]; intros acc Hin; cbn [fold_left]; [assumption|].
  apply IH. destruct (resolve_playerAsteroid_destroyed t acc c) as [-> _].
  destruct (snd _); [apply in_or_app; now left | assumption].
Qed.

Lemma destroyed_stays_playerBullet t l acc id :
  In id (destroyedPlayers (fst acc)) ->
  In id (destroyedPlayers (fst (fold_left (resolve_playerBullet t) l acc))).
Proof.
  revert acc. induction l as [|c l IH]; intros acc Hin; cbn [fold_left]; [assumption|].
  apply IH. destruct (resolve_playerBullet_destroyed t acc c) as [-> _].
  destruct (snd _); [apply in_or_app; now left | assumption].
Qed.

(** A living, vulnerable player with health 100 or less that an asteroid
    event names is reported destroyed, under the id of the first such
    event. *)
Lemma struck_player_is_destroyed t l acc c :
  In c l ->
  Player.isAlive (snd acc (PlayerAsteroidCollision.player c)) = true ->
  ~ t < Player.invulnerableUntil (snd acc (PlayerAsteroidCollision.player c)) ->
  Player.health (snd acc (PlayerAsteroidCollision.player c)) <= 100 ->
  exists c',
    In c' l /\ PlayerAsteroidCollision.player c' = PlayerAsteroidCollision.player c /\
    In (PlayerAsteroidCollision.playerId c')
       (destroyedPlayers (fst (fold_left (resolve_playerAsteroid t) l acc))).
Proof.
  revert acc. induction l as [|a l IH]; intros acc Hin Halive Hvul Hhealth; [destruct Hin|].
  cbn [fold_left].
  destruct (Nat.eq_dec (PlayerAsteroidCollision.player a) (PlayerAsteroidCollision.player c))
    as [Heq|Hne].
  - exists a. split; [now left|]. split; [exact Heq|].
    apply destroyed_stays_playerAsteroid.
    destruct (resolve_playerAsteroid_destroyed t acc a) as [-> _].
    destruct (damagePlayerFromCollision_cases
                (snd acc (PlayerAsteroidCollision.player a)) 100 t) as (_ & Ck & _).
    rewrite Heq in *.
    destruct Ck as [_ ->]; [|lra|].
    + intros [G|G]; [contradiction | congruence].
    + apply in_or_app. right. now left.
  - destruct Hin as [->|Hin]; [contradiction|].
    destruct (resolve_playerAsteroid_destroyed t acc a) as [_ Hs].
    assert (Hsame : snd (resolve_playerAsteroid t acc a) (PlayerAsteroidCollision.player c)
                    = snd acc (PlayerAsteroidCollision.player c)).
    { rewrite Hs. apply assign_other. congruence. }
    unfold Store in Hsame.
    destruct (IH (resolve_playerAsteroid t acc a) Hin) as (c' & Hc' & Hp & Hd);
      [now rewrite Hsame | now rewrite Hsame | now rewrite Hsame |].
    exists c'. split; [now right|]. split; assumption.
Qed.

Lemma destroyed_players_wait_for_respawn_witness :
  exists w',
    (@World.processCollisions halves ["P"%string] ["rock"%string] ["shot"%string]
       field_world 1000 = Some (Normal w') \/
     @World.processCollisions halves ["P"%string] ["rock"%string] ["shot"%string]
       field_world 1000 = Some (TypeError w')) /\
    Player.isAlive (GameWorld.heap (World.base w') 0%nat) = false /\
    In ("P"%string, 1000 + 3000) (World.timers w').
Proof.
  destruct (@destroyed_players_wait_for_respawn halves
              ["P"%string] ["rock"%string] ["shot"%string] field_world 1000)
    as (w' & Hend & _ & Hplayers).
  exists w'. split; [exact Hend|].
  destruct field_entries as (Ep & Ea & Eb).
  rewrite Ep, Ea, Eb in Hplayers.
  set (events := fst (CollisionSystem.update (GameWorld.heap (World.base field_world))
                        field_players field_asteroids field_bullets
                        (World.collisionSystem field_world))) in *.
  assert (Hcell : 0 < SpatialHash.cellSize
                        (CollisionSystem.spatialHash (World.collisionSystem field_world)))
    by (cbn; unfold PHYSICS_CONFIG.SPATIAL_HASH_CELL_SIZE; lra).
  assert (Hka : NoDup (List.map fst field_asteroids)) by (cbn; apply NoDup_singleton).
  assert (Hkb : NoDup (List.map fst field_bullets)) by (cbn; apply NoDup_singleton).
  assert (Hrad : forall id a, In (id, a) field_asteroids -> 0 <= Asteroid.radius a)
    by (intros id a [[= <- <-]|[]]; cbn; lra).
  assert (Hcrash : In (PlayerAsteroidCollision.mk "P" "rock" 0%nat large_rock)
                      (playerAsteroidCollisions events)).
  { apply list_elem_of_In.
    apply (detects_playerAsteroid _ _ _ _ _ Hcell Hka Hrad).
    exists "P"%string, 0%nat, "rock"%string, large_rock.
    split; [now left|]. split; [reflexivity|]. split; [now left|]. split; [|reflexivity].
    unfold CollisionSystem.checkPlayerAsteroidCollision.
    assert (E : Vec2.length
                  (Vec2.subtract (position (Asteroid.transform large_rock))
                     (position (Player.transform (field_store 0%nat)))) = 10).
    { unfold Vec2.length, Vec2.subtract. cbn.
      replace ((100 - 110) * (100 - 110) + (100 - 100) * (100 - 100)) with (10 * 10) by ring.
      apply sqrt_square. lra. }
    apply collided_intro; cbn [World.base GameWorld.heap field_world]; rewrite E; cbn;
      unfold PLAYER_CONFIG.RADIUS; lra. }
  assert (Hreported :
    In "P"%string
       (destroyedPlayers
          (fst (resolveCollisions events
                  (GameWorld.players (GameWorld.world (World.base field_world)))
                  (GameWorld.asteroids (GameWorld.world (World.base field_world)))
                  (GameWorld.bullets (GameWorld.world (World.base field_world)))
                  1000 (GameWorld.heap (World.base field_world)))))).
  { unfold resolveCollisions. apply destroyed_stays_playerBullet.
    match goal with |- context [fold_left resolve_bulletAsteroid ?l ?a] =>
      destruct (bulletAsteroid_pass_lists l a) as (_ & _ & _ & -> & _) end.
    destruct (struck_player_is_destroyed 1000 (playerAsteroidCollisions events)
                (mkResolveCollisionResult [] [] [] [] [] [],
                 GameWorld.heap (World.base field_world))
                (PlayerAsteroidCollision.mk "P" "rock" 0%nat large_rock) Hcrash)
      as (c' & Hc' & _ & Hd); [reflexivity | cbn; lra | cbn; lra |].
    apply list_elem_of_In in Hc'.
    apply (detects_playerAsteroid _ _ _ _ _ Hcell Hka Hrad) in Hc'.
    destruct Hc' as (pid & pl & aid & a & [[= <- <-]|[]] & _ & _ & _ & ->).
    exact Hd. }
  destruct (Hplayers "P"%string 0%nat Hreported) as (Ha & _ & Hl & Hrespawn & _).
  { cbn [field_world World.base GameWorld.world GameWorld.players field_players
         list_to_map foldr fst snd uncurry].
    apply lookup_insert_eq. }
  split; [exact Ha|]. apply Hrespawn. rewrite Hl.
  match goal with |- 0 < Player.lives (?s 0%nat) =>
    assert (Hinv := resolveCollisions_inv events
                      (GameWorld.players (GameWorld.world (World.base field_world)))
                      (GameWorld.asteroids (GameWorld.world (World.base field_world)))
                      (GameWorld.bullets (GameWorld.world (World.base field_world)))
                      1000 (GameWorld.heap (World.base field_world)) 0%nat) end.
  destruct Hinv as (Hlives & _). cbn in Hlives. cbn. lra.
Defined.

(** ** [gameWorld.ts]: spawning *)

Lemma isSafe_spec (s : GameWorld.state) (spot : Vector2) :
  World.isSafe s spot = true <-> clear_of_all s spot.
Proof.
  unfold World.isSafe, clear_of_all. cbv zeta.
  rewrite andb_true_iff, !forallb_forall. split.
  - intros [Ha Hp]. split.
    + intros id a Hin. apply elem_of_map_to_list, list_elem_of_In in Hin.
      specialize (Ha _ Hin). cbn [snd] in Ha.
      apply negb_true_iff, ltb_false in Ha. exact Ha.
    + intros id r Hin Halive. apply elem_of_map_to_list, list_elem_of_In in Hin.
      specialize (Hp _ Hin). cbn [snd] in Hp. rewrite Halive in Hp.
      apply negb_true_iff, ltb_false in Hp. exact Hp.
  - intros [Ha Hp]. split.
    + intros [id a] Hin. apply list_elem_of_In, elem_of_map_to_list in Hin.
      cbn [snd]. apply negb_true_iff, ltb_false. now apply (Ha id).
    + intros [id r] Hin. apply list_elem_of_In, elem_of_map_to_list in Hin.
      cbn [snd]. destruct (Player.isAlive (GameWorld.heap s r)) eqn:Halive; [|reflexivity].
      apply negb_true_iff, ltb_false. now apply (Hp id).
Qed.

Lemma centre_in_spawn_box : in_spawn_box centre.
Proof.
  unfold in_spawn_box, centre, GAME_CONFIG.WORLD_WIDTH, GAME_CONFIG.WORLD_HEIGHT.
  cbn [x y]. lra.
Qed.

Lemma in_spawn_box_in_world (spot : Vector2) : in_spawn_box spot -> in_world spot.
Proof.
  unfold in_spawn_box, in_world, GAME_CONFIG.WORLD_WIDTH, GAME_CONFIG.WORLD_HEIGHT. lra.
Qed.

Section Spawning.

Context {oracle : Oracle}.
Hypothesis random_unit : forall n, 0 <= Math_random n < 1.

Lemma findSafeSpawnPosition_loop_spec (s : GameWorld.state) (k n : nat) :
  let spot := fst (World.findSafeSpawnPosition_loop s k n) in
  let n' := snd (World.findSafeSpawnPosition_loop s k n) in
  in_spawn_box spot /\
  (clear_of_all s spot /\ (n < n' <= n + 2 * k)%nat
   \/ spot = centre /\ n' = (n + 2 * k)%nat).
Proof.
  cbv zeta. revert n. induction k as [|k IH]; intros n;
    cbn [World.findSafeSpawnPosition_loop].
  - cbn [fst snd]. split; [apply centre_in_spawn_box|]. right. split; [reflexivity | lia].
  - unfold randomFloat.
    destruct (World.isSafe s _) eqn:Esafe.
    + cbn [fst snd]. split.
      * destruct (random_unit n) as [A1 A2]. destruct (random_unit (n + 1)) as [B1 B2].
        unfold in_spawn_box, GAME_CONFIG.WORLD_WIDTH, GAME_CONFIG.WORLD_HEIGHT.
        cbn [x y]. nra.
      * left. split; [now apply isSafe_spec | lia].
    + destruct (IH (n + 1 + 1)%nat) as [Hbox Hcase]. split; [exact Hbox|].
      destruct Hcase as [[Hclear Hn]|[Hc Hn]].
      * left. split; [exact Hclear | lia].
      * right. split; [exact Hc | lia].
Qed.

(** The search returns the first drawn position that passes the safety
    check, having used two draws for it and for each attempt before it; or,
    no attempt of the [k] passing, the centre after [2 * k] draws. *)
Lemma findSafeSpawnPosition_loop_first (s : GameWorld.state) (k n : nat) :
  let spot := fst (World.findSafeSpawnPosition_loop s k n) in
  let n' := snd (World.findSafeSpawnPosition_loop s k n) in
  (exists j, (j < k)%nat /\ spot = drawn n j /\
             (forall i, (i < j)%nat -> World.isSafe s (drawn n i) = false) /\
             World.isSafe s (drawn n j) = true /\
             n' = (n + 2 * (j + 1))%nat)
  \/ ((forall i, (i < k)%nat -> World.isSafe s (drawn n i) = false) /\
      spot = centre /\ n' = (n + 2 * k)%nat).
Proof.
  cbv zeta. revert n. induction k as [|k IH]; intros n;
    cbn [World.findSafeSpawnPosition_loop].
  - right. cbn [fst snd]. split; [intros i Hi; lia|]. split; [reflexivity | lia].
  - assert (Hfirst :
      {| x := fst (randomFloat 100 (GAME_CONFIG.WORLD_WIDTH - 100) n);
         y := fst (randomFloat 100 (GAME_CONFIG.WORLD_HEIGHT - 100) (n + 1)) |}
      = drawn n 0).
    { unfold drawn. now rewrite Nat.mul_0_r, Nat.add_0_r. }
    assert (Hshift : forall i, drawn (n + 1 + 1) i = drawn n (S i)).
    { intros i. unfold drawn.
      replace (n + 1 + 1 + 2 * i)%nat with (n + 2 * S i)%nat by lia. reflexivity. }
    unfold randomFloat in Hfirst |- *. cbn [fst] in Hfirst.
    cbv beta iota zeta. rewrite Hfirst.
    destruct (World.isSafe s (drawn n 0)) eqn:Esafe.
    + left. exists 0%nat. cbn [fst snd].
      split; [lia|]. split; [reflexivity|]. split; [intros i Hi; lia|].
      split; [exact Esafe | lia].
    + destruct (IH (n + 1 + 1)%nat) as [(j & Hj & Hspot & Hbefore & Hsafe & Hn)|(Hall & Hc & Hn)].
      * left. exists (S j). rewrite Hshift in Hspot, Hsafe.
        split; [lia|]. split; [exact Hspot|]. split.
        { intros [|i] Hi; [exact Esafe|]. rewrite <- Hshift. apply Hbefore. lia. }
        split; [exact Hsafe | lia].
      * right. split.
        { intros [|i] Hi; [exact Esafe|]. rewrite <- Hshift. apply Hall. lia. }
        split; [exact Hc | lia].
Qed.

(** X25.  With draws of [Math.random] in [[0, 1)], the position returned
    by [findSafeSpawnPosition] is at least 100 away from every edge of the
    world.  The search makes up to 50 attempts, of two draws each, and
    returns the first drawn position from which no asteroid is nearer than
    100 plus its radius and no living player nearer than 100: it is the
    position of some attempt [j], every attempt before [j] drew a position
    that is not clear, and two draws were used for each attempt up to [j].
    When none of the 50 drawn positions is clear, and only then, it returns
    the centre of the world, unchecked, after 100 draws. *)
Theorem findSafeSpawnPosition_spec (s : GameWorld.state) (n : nat) :
  let spot := fst (World.findSafeSpawnPosition s n) in
  let n' := snd (World.findSafeSpawnPosition s n) in
  in_spawn_box spot /\
  ((exists j, (j < 50)%nat /\ spot = drawn n j /\
              (forall i, (i < j)%nat -> ~ clear_of_all s (drawn n i)) /\
              clear_of_all s spot /\
              n' = (n + 2 * (j + 1))%nat)
   \/ ((forall i, (i < 50)%nat -> ~ clear_of_all s (drawn n i)) /\
       spot = centre /\ n' = (n + 100)%nat)).
Proof.
  cbv zeta. unfold World.findSafeSpawnPosition.
  destruct (findSafeSpawnPosition_loop_spec s 50 n) as [Hbox _].
  split; [exact Hbox|].
  assert (Hunsafe : forall spot, World.isSafe s spot = false -> ~ clear_of_all s spot).
  { intros spot Hf Hclear. apply isSafe_spec in Hclear. congruence. }
  destruct (findSafeSpawnPosition_loop_first s 50 n)
    as [(j & Hj & Hspot & Hbefore & Hsafe & Hn)|(Hall & Hc & Hn)].
  - left. exists j. split; [exact Hj|]. split; [exact Hspot|]. split.
    + intros i Hi. apply Hunsafe, Hbefore, Hi.
    + split; [|exact Hn]. rewrite Hspot. now apply isSafe_spec.
  - right. split; [|split; [exact Hc | lia]].
    intros i Hi. apply Hunsafe, Hall, Hi.
Qed.

End Spawning.

Lemma halves_unit : forall n, 0 <= @Math_random halves n < 1.
Proof. intros n. cbn. lra. Qed.

(** In the world of [field_world] the first position drawn under [halves],
    the middle of the spawn box, is clear of the rock and of the pilot. *)
Lemma far_enough (a b : Vector2) (d : R) :
  0 <= d ->
  d * d <= (x a - x b) * (x a - x b) + (y a - y b) * (y a - y b) ->
  d <= Vec2.distance a b.
Proof.
  intros Hd H. unfold Vec2.distance, Vec2.length, Vec2.subtract. cbn [x y].
  rewrite <- (sqrt_square d) at 1 by exact Hd. now apply sqrt_le_1_alt.
Qed.

Lemma field_world_first_draw_clear :
  clear_of_all (World.base field_world) (@drawn halves 0 0).
Proof.
  split.
  - intros id a Hlook. cbn in Hlook.
    apply lookup_insert_Some in Hlook. destruct Hlook as [[_ <-]|[_ Hlook]].
    + apply far_enough; cbn;
        unfold GAME_CONFIG.WORLD_WIDTH, GAME_CONFIG.WORLD_HEIGHT; lra.
    + now rewrite lookup_empty in Hlook.
  - intros id r Hlook _. cbn in Hlook.
    apply lookup_insert_Some in Hlook. destruct Hlook as [[_ <-]|[_ Hlook]].
    + apply far_enough; cbn;
        unfold GAME_CONFIG.WORLD_WIDTH, GAME_CONFIG.WORLD_HEIGHT; lra.
    + now rewrite lookup_empty in Hlook.
Qed.

Lemma findSafeSpawnPosition_spec_witness :
  let spot := fst (@World.findSafeSpawnPosition halves (World.base field_world) 0) in
  let n' := snd (@World.findSafeSpawnPosition halves (World.base field_world) 0) in
  in_spawn_box spot /\ spot = @drawn halves 0 0 /\
  clear_of_all (World.base field_world) spot /\ n' = 2%nat.
Proof.
  cbv zeta.
  destruct (@findSafeSpawnPosition_spec halves halves_unit (World.base field_world) 0)
    as [Hbox Hcase].
  split; [exact Hbox|].
  destruct Hcase as [(j & Hj & Hspot & Hbefore & Hclear & Hn)|(Hall & _)].
  - destruct j as [|j].
    + split; [exact Hspot|]. split; [exact Hclear | exact Hn].
    + exfalso. apply (Hbefore 0%nat); [lia | exact field_world_first_draw_clear].
  - exfalso. apply (Hall 0%nat); [lia | exact field_world_first_draw_clear].
Defined.
(** ** [gameWorld.ts]: the asteroid count and the update *)

Section Update.

Context {oracle : Oracle}.
Hypothesis random_unit : forall n, 0 <= Math_random n < 1.

Lemma maintainAsteroidCount_loop_spec (s : GameWorld.state) (k : nat) :
  let s' := World.maintainAsteroidCount_loop s k in
  let count := size (GameWorld.asteroids (GameWorld.world s)) in
  let count' := size (GameWorld.asteroids (GameWorld.world s')) in
  same_but_asteroids s s' /\
  (count <= count' <= count + k)%nat /\
  ((0 < k)%nat -> (0 < count')%nat) /\
  (forall id a,
     GameWorld.asteroids (GameWorld.world s') !! id = Some a ->
     GameWorld.asteroids (GameWorld.world s) !! id = Some a \/ spawned a).
Proof.
  cbv zeta. revert s. induction k as [|k IH]; intros s;
    cbn [World.maintainAsteroidCount_loop].
  - split; [repeat split|]. split; [lia|]. split; [lia|]. auto.
  - destruct (World.findSafeSpawnPosition s (GameWorld.rng s)) as [spot n1] eqn:Espot.
    assert (Hbox : in_spawn_box spot).
    { destruct (findSafeSpawnPosition_loop_spec random_unit s 50 (GameWorld.rng s))
        as [Hb _].
      unfold World.findSafeSpawnPosition in Espot. now rewrite Espot in Hb. }
    unfold randomVector2, randomFloat, createAsteroid.
    destruct (generateId (n1 + 1 + 1)) as [aid n3]. cbv beta iota zeta.
    cbn [Asteroid.id].
    match goal with |- context [World.maintainAsteroidCount_loop ?s1 k] =>
      destruct (IH s1) as ((F1 & F2 & F3 & F4 & F5 & F6) & Hsize & _ & Hold) end.
    cbn [GameWorld.heap GameWorld.world World.set_asteroids GameWorld.players
         GameWorld.bullets GameWorld.particles GameWorld.tick GameWorld.lastUpdate
         GameWorld.asteroids Asteroid.id] in F1, F2, F3, F4, F5, F6, Hsize, Hold.
    split; [repeat split; assumption|].
    match type of Hsize with context [size (<[aid := ?a]> ?m)] =>
      set (new := a) in *; assert (Hins := map_size_insert aid new m) end.
    set (count1 := size (<[aid := new]> (GameWorld.asteroids (GameWorld.world s)))) in *.
    split.
    { destruct (GameWorld.asteroids (GameWorld.world s) !! aid); cbn [Datatypes.id] in Hins;
        unfold Datatypes.id in Hins; lia. }
    split.
    { intros _.
      destruct (GameWorld.asteroids (GameWorld.world s) !! aid) eqn:E;
        unfold Datatypes.id in Hins; [|lia].
      assert (0 < size (GameWorld.asteroids (GameWorld.world s)))%nat; [|lia].
      destruct (decide (size (GameWorld.asteroids (GameWorld.world s)) = 0%nat)) as [Hz|Hz];
        [|lia].
      apply map_size_empty_iff in Hz. rewrite Hz, lookup_empty in E. discriminate. }
    intros id a Hin. destruct (Hold id a Hin) as [Hprev|Hsp]; [|now right].
    destruct (decide (id = aid)) as [->|Hne].
    + rewrite lookup_insert_eq in Hprev. injection Hprev as <-. right.
      unfold spawned, new. cbn [Asteroid.size Asteroid.radius Asteroid.velocity
                            Asteroid.transform linear position].
      split; [reflexivity|]. split; [reflexivity|]. rewrite !copy_id.
      split; [|exact Hbox].
      rewrite length_fromAngle. destruct (random_unit (n1 + 1)) as [A1 A2].
      cbn [ASTEROID_CONFIG MAX_SPEED MIN_SPEED]. rewrite Rabs_pos_eq; nra.
    + rewrite lookup_insert_ne in Hprev by congruence. now left.
Qed.

(** What [maintainAsteroidCount] leaves in place. *)
Lemma maintainAsteroidCount_keeps (s : GameWorld.state) :
  let s' := World.maintainAsteroidCount s in
  (forall id a,
     GameWorld.asteroids (GameWorld.world s') !! id = Some a ->
     GameWorld.asteroids (GameWorld.world s) !! id = Some a \/ spawned a) /\
  same_but_asteroids s s'.
Proof.
  cbv zeta. unfold World.maintainAsteroidCount. cbv zeta.
  destruct (Nat.ltb (size (GameWorld.asteroids (GameWorld.world s))) 4).
  - destruct (maintainAsteroidCount_loop_spec s
                (4 - size (GameWorld.asteroids (GameWorld.world s))))
      as (Hframe & _ & _ & Hold).
    split; assumption.
  - split; [auto | repeat split].
Qed.

(** X26.  [maintainAsteroidCount] leaves a world of four asteroids or more
    as it is.  Below four it spawns: afterwards there are at least as many
    asteroids as before, at least one and at most four (four when the new
    identifiers are new keys), and every asteroid of the map is either one
    that was there, unchanged, or a LARGE one of radius 40 with a speed from
    20 to 60, placed at least 100 from the edges of the world.  Players,
    bullets and particles are not touched. *)
Theorem maintainAsteroidCount_spec (s : GameWorld.state) :
  let s' := World.maintainAsteroidCount s in
  let count := size (GameWorld.asteroids (GameWorld.world s)) in
  let count' := size (GameWorld.asteroids (GameWorld.world s')) in
  ((4 <= count)%nat -> s' = s) /\
  ((count < 4)%nat -> (count <= count' <= 4)%nat /\ (0 < count')%nat) /\
  (forall id a,
     GameWorld.asteroids (GameWorld.world s') !! id = Some a ->
     GameWorld.asteroids (GameWorld.world s) !! id = Some a \/ spawned a) /\
  same_but_asteroids s s'.
Proof.
  cbv zeta. unfold World.maintainAsteroidCount. cbv zeta.
  destruct (Nat.ltb_spec (size (GameWorld.asteroids (GameWorld.world s))) 4) as [Hlt|Hge].
  - destruct (maintainAsteroidCount_loop_spec s
                (4 - size (GameWorld.asteroids (GameWorld.world s))))
      as (Hframe & Hsize & Hpos & Hold).
    split; [intros; lia|].
    split; [intros _; split; [lia | apply Hpos; lia]|].
    split; assumption.
  - split; [reflexivity|]. split; [intros; lia|]. split; [auto | repeat split].
Qed.

Lemma delete_all_lookup {A : Type} (ids : list string) (m : gmap string A)
    (k : string) (v : A) :
  fold_left (fun m id => delete id m) ids m !! k = Some v -> m !! k = Some v.
Proof.
  revert m. induction ids as [|id ids IH]; intros m; cbn [fold_left]; [auto|].
  intros H. apply IH in H. destruct (decide (k = id)) as [->|Hne].
  - rewrite lookup_delete_eq in H. discriminate.
  - now rewrite lookup_delete_ne in H.
Qed.

Lemma advance_asteroids (world : GameWorld.t) (dt t : R) (id : string) (a : Asteroid) :
  GameWorld.asteroids (World.advance world dt t) !! id = Some a ->
  exists a0, GameWorld.asteroids world !! id = Some a0 /\ a = updateAsteroid a0 dt.
Proof.
  unfold World.advance. cbn [GameWorld.asteroids]. rewrite lookup_fmap.
  destruct (GameWorld.asteroids world !! id) as [a0|]; [|discriminate].
  cbn. intros [= <-]. now exists a0.
Qed.

Lemma advance_bullets (world : GameWorld.t) (dt t : R) (id : string) (b : Bullet) :
  GameWorld.bullets (World.advance world dt t) !! id = Some b <->
  exists b0,
    GameWorld.bullets world !! id = Some b0 /\ b = fst (updateBullet b0 dt) /\
    0 < Bullet.lifetime b.
Proof.
  unfold World.advance. cbn [GameWorld.bullets]. rewrite lookup_omap.
  destruct (GameWorld.bullets world !! id) as [b0|]; cbn [mbind option_bind].
  - destruct (updateBullet b0 dt) as [b' live] eqn:E.
    assert (Hlive : live = Num.ltb 0 (Bullet.lifetime b'))
      by (unfold updateBullet in E; injection E as <- <-; reflexivity).
    split.
    + destruct live; [|discriminate]. intros [= <-]. exists b0.
      split; [reflexivity|]. split; [now rewrite E|]. now apply ltb_true.
    + intros (b1 & Hb1 & Hb & Hpos). injection Hb1 as <-. rewrite E in Hb.
      cbn [fst] in Hb. subst b'.
      apply ltb_true in Hpos. rewrite Hlive, Hpos. reflexivity.
  - split; [discriminate|]. intros (b0 & H & _). discriminate.
Qed.

(** X27.  However a call of [update] ends, and whatever the order in which
    the maps are iterated, it leaves the tick counter one higher and
    [lastUpdate] at the time given; every asteroid of the world then lies
    in the world; every bullet of the world is a bullet that was there,
    moved by one step, lies in the world and has a lifetime above 0: no
    expired bullet outlives the call; and the map of the players is the
    same. *)
Theorem update_keeps_the_world_tidy
    (porder aorder border : list string) (w : World.t) (deltaTime currentTime : R) :
  exists w',
    (World.update porder aorder border w deltaTime currentTime = Some (Normal w') \/
     World.update porder aorder border w deltaTime currentTime = Some (TypeError w')) /\
    GameWorld.tick (GameWorld.world (World.base w'))
    = GameWorld.tick (GameWorld.world (World.base w)) + 1 /\
    GameWorld.lastUpdate (GameWorld.world (World.base w')) = currentTime /\
    GameWorld.players (GameWorld.world (World.base w'))
    = GameWorld.players (GameWorld.world (World.base w)) /\
    (forall id a,
       GameWorld.asteroids (GameWorld.world (World.base w')) !! id = Some a ->
       in_world (position (Asteroid.transform a))) /\
    (forall id b,
       GameWorld.bullets (GameWorld.world (World.base w')) !! id = Some b ->
       in_world (position (Bullet.transform b)) /\ 0 < Bullet.lifetime b /\
       exists b0,
         GameWorld.bullets (GameWorld.world (World.base w)) !! id = Some b0 /\
         b = fst (updateBullet b0 deltaTime)).
Proof.
  unfold World.update.
  set (w1 := World.mk
               (GameWorld.mkState (GameWorld.heap (World.base w))
                  (GameWorld.rng (World.base w))
                  (World.advance (GameWorld.world (World.base w)) deltaTime currentTime))
               (World.collisionSystem w) (World.timers w)).
  destruct (processCollisions_ends porder aorder border w1 currentTime)
    as (s' & (_ & Sp & Sa & Sb & St & Sl) & Hcase).
  destruct (applied_maps porder aorder border w1 currentTime)
    as (Ha & Hb & Hp & _ & Ht & Hl & _).
  rewrite Ha in Sa. rewrite Hb in Sb. rewrite Hp in Sp. rewrite Ht in St. rewrite Hl in Sl.
  cbn [w1 World.base GameWorld.world GameWorld.heap] in Sa, Sb, Sp, St, Sl.
  assert (Hasteroids : forall id a,
            GameWorld.asteroids (GameWorld.world s') !! id = Some a ->
            in_world (position (Asteroid.transform a))).
  { intros id a Hin. rewrite Sa in Hin. apply delete_all_lookup in Hin.
    apply advance_asteroids in Hin. destruct Hin as (a0 & _ & ->).
    apply wrapPosition_in_world. }
  assert (Hbullets : forall id b,
            GameWorld.bullets (GameWorld.world s') !! id = Some b ->
            in_world (position (Bullet.transform b)) /\ 0 < Bullet.lifetime b /\
            exists b0,
              GameWorld.bullets (GameWorld.world (World.base w)) !! id = Some b0 /\
              b = fst (updateBullet b0 deltaTime)).
  { intros id b Hin. rewrite Sb in Hin. apply delete_all_lookup in Hin.
    apply advance_bullets in Hin. destruct Hin as (b0 & Hb0 & -> & Hpos).
    split; [apply wrapPosition_in_world|]. split; [exact Hpos|]. now exists b0. }
  destruct Hcase as [[_ ->]|[_ ->]].
  - eexists. split; [right; reflexivity|]. cbn [World.base].
    rewrite St, Sl, Sp. cbn [World.advance GameWorld.tick GameWorld.lastUpdate
                             GameWorld.players].
    split; [reflexivity|]. split; [reflexivity|]. split; [reflexivity|].
    split; assumption.
  - eexists. split; [left; reflexivity|]. cbn [World.base].
    destruct (maintainAsteroidCount_keeps s') as (Hold & (_ & Mp & Mb & _ & Mt & Ml)).
    rewrite Mt, Ml, Mp, Mb, St, Sl, Sp.
    cbn [World.advance GameWorld.tick GameWorld.lastUpdate GameWorld.players].
    split; [reflexivity|]. split; [reflexivity|]. split; [reflexivity|].
    split; [|exact Hbullets].
    intros id a Hin. destruct (Hold id a Hin) as [Hprev|(_ & _ & _ & Hbox)].
    + now apply (Hasteroids id).
    + now apply in_spawn_box_in_world.
Qed.

End Update.

Lemma maintainAsteroidCount_spec_witness :
  (0 < size (GameWorld.asteroids
               (GameWorld.world
                  (@World.maintainAsteroidCount halves (World.base field_world)))))%nat.
Proof.
  apply (@maintainAsteroidCount_spec halves halves_unit (World.base field_world)).
  cbn. rewrite map_size_insert_None by apply lookup_empty. rewrite map_size_empty. lia.
Defined.

Lemma update_keeps_the_world_tidy_witness :
  exists w',
    (@World.update halves ["P"%string] ["rock"%string] ["shot"%string] field_world
       (1 / 60) 1000 = Some (Normal w') \/
     @World.update halves ["P"%string] ["rock"%string] ["shot"%string] field_world
       (1 / 60) 1000 = Some (TypeError w')) /\
    GameWorld.lastUpdate (GameWorld.world (World.base w')) = 1000.
Proof.
  destruct (@update_keeps_the_world_tidy halves halves_unit
              ["P"%string] ["rock"%string] ["shot"%string] field_world (1 / 60) 1000)
    as (w' & Hend & _ & Hl & _).
  now exists w'.
Defined.

(** ** [Room.ts]: the input buffers *)

Lemma keep_last_short {T : Type} (cap : nat) (l : list T) :
  (List.length l <= cap)%nat -> keep_last cap l = l.
Proof.
  intros H. unfold keep_last. now replace (List.length l - cap)%nat with 0%nat by lia.
Qed.

Lemma keep_last_length {T : Type} (cap : nat) (l : list T) :
  (List.length (keep_last cap l) <= cap)%nat.
Proof. unfold keep_last. rewrite length_skipn. lia. Qed.

Lemma keep_last_app {T : Type} (cap : nat) (l m : list T) :
  keep_last cap (keep_last cap l ++ m) = keep_last cap (l ++ m).
Proof.
  destruct (Nat.le_gt_cases (List.length l) cap) as [Hle|Hgt].
  - now rewrite (keep_last_short cap l).
  - unfold keep_last. rewrite !length_app, length_skipn.
    replace (List.length l - (List.length l - cap) + List.length m - cap)%nat
      with (List.length m) by lia.
    replace (List.length l + List.length m - cap)%nat
      with (List.length m + (List.length l - cap))%nat by lia.
    rewrite <- skipn_skipn. f_equal. rewrite skipn_app.
    replace (List.length l - cap - List.length l)%nat with 0%nat by lia. reflexivity.
Qed.

Lemma shift_keep_last {T : Type} (b : list T) (x : T) :
  (List.length b <= 60)%nat ->
  (if Nat.ltb 60 (List.length (b ++ [x])) then Room.shift (b ++ [x]) else b ++ [x])
  = keep_last 60 (b ++ [x]).
Proof.
  intros Hb. unfold keep_last. rewrite length_app. cbn [List.length].
  destruct (Nat.ltb_spec 60 (List.length b + 1)) as [Hfull|Hroom].
  - replace (List.length b + 1 - 60)%nat with 1%nat by lia. reflexivity.
  - replace (List.length b + 1 - 60)%nat with 0%nat by lia. reflexivity.
Qed.

Lemma ack_is_max (acknowledged sequence : R) :
  (if Num.ltb acknowledged sequence then sequence else acknowledged)
  = Rmax acknowledged sequence.
Proof.
  destruct (Num.ltb acknowledged sequence) eqn:E;
    [apply ltb_true in E | apply ltb_false in E].
  - symmetry. apply Rmax_right. lra.
  - symmetry. apply Rmax_left. lra.
Qed.

Lemma buffer_input_frame (client : ClientConnection.t) (d : InputData) :
  let client' :=
    Room.buffer_input client (data_sequence d) (data_timestamp d) (data_input d) in
  ClientConnection.id client' = ClientConnection.id client /\
  ClientConnection.player client' = ClientConnection.player client /\
  (ClientConnection.player client = None -> client' = client) /\
  (ClientConnection.player client <> None ->
   (List.length (ClientConnection.inputBuffer client) <= 60)%nat ->
   ClientConnection.inputBuffer client'
   = keep_last 60 (ClientConnection.inputBuffer client ++ [buffered d]) /\
   ClientConnection.acknowledged client'
   = Rmax (ClientConnection.acknowledged client) (data_sequence d)).
Proof.
  cbv zeta. unfold Room.buffer_input.
  destruct (ClientConnection.player client) as [p|] eqn:Ep.
  - cbn [ClientConnection.id ClientConnection.player ClientConnection.inputBuffer
         ClientConnection.acknowledged].
    split; [reflexivity|]. split; [reflexivity|]. split; [discriminate|].
    intros _ Hlen. split; [|apply ack_is_max].
    apply (shift_keep_last _ (buffered d) Hlen).
  - split; [reflexivity|]. split; [exact Ep|]. split; [reflexivity|].
    intros Hne. congruence.
Qed.

(** A connection after the records have been buffered. *)
Lemma buffer_inputs (records : list InputData) (client : ClientConnection.t) :
  let client' :=
    fold_left
      (fun c d => Room.buffer_input c (data_sequence d) (data_timestamp d) (data_input d))
      records client in
  ClientConnection.id client' = ClientConnection.id client /\
  ClientConnection.player client' = ClientConnection.player client /\
  (ClientConnection.player client = None -> client' = client) /\
  (ClientConnection.player client <> None ->
   (List.length (ClientConnection.inputBuffer client) <= 60)%nat ->
   ClientConnection.inputBuffer client'
   = keep_last 60 (ClientConnection.inputBuffer client ++ List.map buffered records) /\
   ClientConnection.acknowledged client'
   = fold_left Rmax (List.map data_sequence records) (ClientConnection.acknowledged client)).
Proof.
  cbv zeta. revert client. induction records as [|d records IH]; intros client;
    cbn [fold_left List.map].
  - split; [reflexivity|]. split; [reflexivity|]. split; [reflexivity|].
    intros _ Hlen. rewrite app_nil_r. split; [|reflexivity].
    symmetry. now apply keep_last_short.
  - destruct (buffer_input_frame client d) as (Fid & Fpl & Fnone & Fsome).
    destruct (IH (Room.buffer_input client (data_sequence d) (data_timestamp d)
                    (data_input d))) as (Hid & Hpl & Hnone & Hsome).
    split; [now rewrite Hid|]. split; [now rewrite Hpl|]. split.
    + intros Hp. rewrite Hnone by now rewrite Fpl. now apply Fnone.
    + intros Hp Hlen. destruct (Fsome Hp Hlen) as [Fb Fa].
      destruct Hsome as [Hb Ha].
      * now rewrite Fpl.
      * rewrite Fb. apply keep_last_length.
      * split.
        -- rewrite Hb, Fb, keep_last_app, <- app_assoc. reflexivity.
        -- rewrite Ha, Fa. reflexivity.
Qed.

Lemma receive_clients (r : Room.t) (clientId : string) (records : list InputData) :
  Room.clients (receive r clientId records)
  = List.map
      (fun entry : string * ClientConnection.t =>
         if String.eqb (fst entry) clientId
         then (fst entry,
               fold_left
                 (fun c d => Room.buffer_input c (data_sequence d) (data_timestamp d)
                               (data_input d))
                 records (snd entry))
         else entry)
      (Room.clients r) /\
  Room.lastTick (receive r clientId records) = Room.lastTick r /\
  Room.isActive (receive r clientId records) = Room.isActive r.
Proof.
  unfold receive. revert r. induction records as [|d records IH]; intros r; cbn [fold_left].
  - split; [|split; reflexivity].
    transitivity (List.map (fun x => x) (Room.clients r)); [symmetry; apply map_id|].
    apply map_ext. intros [k c]. cbn [fst snd]. now destruct (String.eqb k clientId).
  - destruct (IH (Room.processInput r clientId (data_sequence d) (data_timestamp d)
                    (data_input d))) as (-> & -> & ->).
    unfold Room.processInput. cbn [Room.clients Room.lastTick Room.isActive].
    split; [|split; reflexivity]. rewrite map_map. apply map_ext.
    intros [k c]. cbn [fst snd]. destruct (String.eqb k clientId) eqn:E; cbn [fst snd];
      now rewrite E.
Qed.

(** X28.  [Room.processInput] touches nothing but the connection stored
    under the client id, and that only if it has a player.  It refuses no
    record: whatever the sequence numbers, each record is appended to the
    buffer, unprocessed, and the oldest entry is dropped beyond 60.  After
    any list of records the buffer holds the last 60 of its former entries
    followed by the records, in the order of arrival, and [acknowledged]
    is the largest of its former value and the sequence numbers
    received. *)
Theorem processInput_buffers (r : Room.t) (clientId : string) (records : list InputData)
    (i : nat) (key : string) (client : ClientConnection.t) :
  Room.clients r !! i = Some (key, client) ->
  exists client',
    Room.clients (receive r clientId records) !! i = Some (key, client') /\
    ClientConnection.id client' = ClientConnection.id client /\
    ClientConnection.player client' = ClientConnection.player client /\
    (key <> clientId \/ ClientConnection.player client = None -> client' = client) /\
    (key = clientId -> ClientConnection.player client <> None ->
     (List.length (ClientConnection.inputBuffer client) <= 60)%nat ->
     ClientConnection.inputBuffer client'
     = keep_last 60 (ClientConnection.inputBuffer client ++ List.map buffered records) /\
     (List.length (ClientConnection.inputBuffer client') <= 60)%nat /\
     ClientConnection.acknowledged client'
     = fold_left Rmax (List.map data_sequence records)
         (ClientConnection.acknowledged client)).
Proof.
  intros Hi. destruct (receive_clients r clientId records) as (-> & _ & _).
  rewrite list_lookup_fmap, Hi. cbn [fmap option_fmap option_map fst snd].
  destruct (buffer_inputs records client) as (Hid & Hpl & Hnone & Hsome).
  destruct (String.eqb key clientId) eqn:E;
    [apply String.eqb_eq in E | apply String.eqb_neq in E].
  - eexists. split; [reflexivity|]. split; [exact Hid|]. split; [exact Hpl|].
    split; [intros [Hne|Hp]; [contradiction | now apply Hnone]|].
    intros _ Hp Hlen. destruct (Hsome Hp Hlen) as [Hb Ha].
    split; [exact Hb|]. split; [|exact Ha]. rewrite Hb. apply keep_last_length.
  - exists client. split; [reflexivity|]. split; [reflexivity|]. split; [reflexivity|].
    split; [reflexivity|]. intros Hk. contradiction.
Qed.

Lemma processInput_buffers_witness :
  exists client',
    Room.clients (receive lobby "c1" two_records) !! 0%nat = Some ("c1"%string, client') /\
    ClientConnection.id client' = "c1"%string.
Proof.
  destruct (processInput_buffers lobby "c1" two_records 0 "c1"
              (ClientConnection.mk "c1" (Some 0%nat) [] 0) eq_refl)
    as (client' & Hlook & Hid & _).
  exists client'. split; [exact Hlook | exact Hid].
Defined.

(** ** [ClientPrediction.ts]: sequence numbers *)

Lemma numbered_floor (top f f' : R) (buffer : list PredictionInput.t) :
  f' <= f -> numbered top f buffer -> numbered top f' buffer.
Proof.
  intros Hf. destruct buffer as [|e rest]; cbn [numbered]; [lra|].
  intros [H1 H2]. split; [lra | assumption].
Qed.

Lemma numbered_top (top f : R) (buffer : list PredictionInput.t) :
  numbered top f buffer ->
  f <= top /\ List.Forall (fun e => f < PredictionInput.sequence e <= top) buffer.
Proof.
  revert f. induction buffer as [|e rest IH]; intros f; cbn [numbered].
  - intros H. split; [assumption | constructor].
  - intros [H1 H2]. destruct (IH _ H2) as [Hle Hall]. split; [lra|].
    constructor; [lra|]. eapply List.Forall_impl; [|exact Hall].
    cbn beta. intros a Ha. lra.
Qed.

Lemma numbered_snoc (top f : R) (buffer : list PredictionInput.t) (e : PredictionInput.t) :
  numbered top f buffer -> PredictionInput.sequence e = top + 1 ->
  numbered (top + 1) f (buffer ++ [e]).
Proof.
  intros Hb He. revert f Hb. induction buffer as [|a rest IH]; intros f; cbn [numbered app].
  - intros Hf. rewrite He. split; lra.
  - intros [H1 H2]. split; [assumption|]. now apply IH.
Qed.

Lemma numbered_filter (top f : R) (keep : PredictionInput.t -> bool)
    (buffer : list PredictionInput.t) :
  numbered top f buffer -> numbered top f (List.filter keep buffer).
Proof.
  revert f. induction buffer as [|e rest IH]; intros f; cbn [numbered List.filter]; [auto|].
  intros [H1 H2]. destruct (keep e); cbn [numbered].
  - split; [assumption|]. now apply IH.
  - apply (numbered_floor top (PredictionInput.sequence e)); [lra|]. now apply IH.
Qed.

Section Sequences.

Context {oracle : Oracle}.

Lemma predicting_numbered (c : ClientPrediction.t) :
  predicting c ->
  numbered (ClientPrediction.sequenceNumber c) 0 (ClientPrediction.inputBuffer c) /\
  (List.length (ClientPrediction.inputBuffer c) <= 60)%nat.
Proof.
  induction 1 as [|c playerId _ IH|c clk playerId inputState _ IH
                  |c snapshot_players _ IH|c sequence _ IH|c clk _ IH].
  - cbn. split; [lra | lia].
  - exact IH.
  - destruct IH as [Hn Hl]. unfold ClientPrediction.applyInput.
    destruct (ClientPrediction.playerId c) as [own|]; [|now split].
    destruct (String.eqb own "" || negb (String.eqb own playerId)); [now split|].
    cbn [fst ClientPrediction.sequenceNumber ClientPrediction.inputBuffer].
    set (e := PredictionInput.mk (ClientPrediction.sequenceNumber c + 1)
                (Date_now clk) inputState false).
    assert (Hs := numbered_snoc _ 0 _ e Hn eq_refl).
    rewrite length_app. cbn [List.length].
    destruct (Nat.ltb_spec 60 (List.length (ClientPrediction.inputBuffer c) + 1)).
    + destruct (ClientPrediction.inputBuffer c ++ [e]) as [|a rest] eqn:E.
      * destruct (ClientPrediction.inputBuffer c); discriminate.
      * assert (Hlen : List.length (a :: rest)
                       = (List.length (ClientPrediction.inputBuffer c) + 1)%nat)
          by (rewrite <- E, length_app; reflexivity).
        cbn [Room.shift List.tl]. cbn [numbered] in Hs. destruct Hs as [Ha Hs].
        split; [apply (numbered_floor _ (PredictionInput.sequence a)); [lra | exact Hs]|].
        cbn [List.length] in Hlen. lia.
    + split; [exact Hs|]. rewrite length_app. cbn [List.length]. lia.
  - unfold ClientPrediction.reconcile.
    destruct (ClientPrediction.playerId c) as [own|]; [|exact IH].
    destruct (String.eqb own ""); [exact IH|].
    destruct (List.find _ snapshot_players); exact IH.
  - exact IH.
  - destruct IH as [Hn Hl]. cbn [Prediction.update fst ClientPrediction.sequenceNumber
                                  ClientPrediction.inputBuffer].
    split; [now apply numbered_filter|].
    etransitivity; [apply List.filter_length_le | exact Hl].
Qed.

(** X29.  In every state that the methods of [ClientPrediction] can reach
    from a new object, the buffer holds at most 60 inputs whose sequence
    numbers go up strictly, are above 0 and never above the counter
    [sequenceNumber].  An input for the player's own, non-empty id takes
    the next number, one above the counter, and goes to the end of the
    buffer with the time of the clock; an input for any other id changes
    nothing.  [acknowledgeSequence] never lowers the acknowledged number,
    and acknowledging the same number again changes nothing. *)
Theorem prediction_numbers_its_inputs (c : ClientPrediction.t) :
  predicting c ->
  numbered (ClientPrediction.sequenceNumber c) 0 (ClientPrediction.inputBuffer c) /\
  (List.length (ClientPrediction.inputBuffer c) <= 60)%nat /\
  (forall clk playerId inputState,
     let c' := fst (ClientPrediction.applyInput c clk playerId inputState) in
     (ClientPrediction.playerId c = Some playerId -> playerId <> ""%string ->
      ClientPrediction.sequenceNumber c' = ClientPrediction.sequenceNumber c + 1 /\
      last (ClientPrediction.inputBuffer c')
      = Some (PredictionInput.mk (ClientPrediction.sequenceNumber c + 1)
                (Date_now clk) inputState false)) /\
     (ClientPrediction.playerId c <> Some playerId -> c' = c)) /\
  (forall sequence,
     let c' := ClientPrediction.acknowledgeSequence c sequence in
     ClientPrediction.lastAcknowledgedSequence c
       <= ClientPrediction.lastAcknowledgedSequence c' /\
     sequence <= ClientPrediction.lastAcknowledgedSequence c' /\
     ClientPrediction.acknowledgeSequence c' sequence = c').
Proof.
  intros Hc. destruct (predicting_numbered c Hc) as [Hn Hl].
  split; [exact Hn|]. split; [exact Hl|]. split.
  - intros clk playerId inputState. cbv zeta. unfold ClientPrediction.applyInput. split.
    + intros -> Hne.
      assert (E1 : String.eqb playerId "" = false) by now apply String.eqb_neq.
      rewrite E1, String.eqb_refl. cbn [orb negb fst ClientPrediction.sequenceNumber
                                          ClientPrediction.inputBuffer].
      split; [reflexivity|].
      match goal with |- context [Nat.ltb 60 ?n] =>
        destruct (Nat.ltb_spec 60 n) as [Hfull|Hroom] end.
      * destruct (ClientPrediction.inputBuffer c) as [|a rest]; [cbn in Hfull; lia|].
        cbn [app Room.shift List.tl]. apply last_snoc.
      * apply last_snoc.
    + intros Hne. destruct (ClientPrediction.playerId c) as [own|]; [|reflexivity].
      assert (E : String.eqb own playerId = false)
        by (apply String.eqb_neq; congruence).
      rewrite E. cbn [negb]. now rewrite orb_true_r.
  - intros sequence. cbv zeta. unfold ClientPrediction.acknowledgeSequence.
    cbn [ClientPrediction.lastAcknowledgedSequence ClientPrediction.playerId
         ClientPrediction.inputBuffer ClientPrediction.sequenceNumber
         ClientPrediction.predictedState].
    split; [apply Rmax_l|]. split; [apply Rmax_r|]. f_equal.
    apply Rmax_left. apply Rmax_r.
Qed.

End Sequences.

Lemma prediction_numbers_its_inputs_witness :
  (List.length
     (ClientPrediction.inputBuffer
        (fst (@ClientPrediction.applyInput halves
                (ClientPrediction.setPlayerId Prediction.create "P") 0 "P"
                (mkInputState true 0 false false)))) <= 60)%nat.
Proof.
  apply (@prediction_numbers_its_inputs halves).
  apply predicting_applyInput, predicting_setPlayerId, predicting_create.
Defined.

(** ** [ClientPrediction.ts]: the predicted game state *)

Lemma player_eta (p : Player) :
  Player.set_velocity
    (Player.set_transform p
       (mkTransform (Vec2.copy (position (Player.transform p)))
                    (rotation (Player.transform p))))
    (mkVelocity (Vec2.copy (linear (Player.velocity p))) (angular (Player.velocity p)))
  = p.
Proof.
  destruct p as [id name [pos rot] [lin ang] ? ? ? ? ? ? ?]. cbn. rewrite !copy_id.
  reflexivity.
Qed.

Lemma find_own (own : string) (l : list Player) (p q : Player) :
  NoDup (List.map Player.id l) ->
  List.find (fun p => String.eqb (Player.id p) own) l = Some p ->
  In q l -> Player.id q = own -> q = p.
Proof.
  induction l as [|a l IH]; intros Hnd Hfind Hin Hq; [destruct Hin|].
  cbn [List.map] in Hnd. apply NoDup_cons in Hnd. destruct Hnd as [Ha Hnd].
  cbn [List.find] in Hfind. destruct (String.eqb (Player.id a) own) eqn:E.
  - injection Hfind as <-. apply String.eqb_eq in E.
    destruct Hin as [->|Hin]; [reflexivity|].
    contradiction Ha. apply list_elem_of_In, in_map_iff. exists q. split; [congruence|assumption].
  - apply String.eqb_neq in E. destruct Hin as [->|Hin]; [congruence|]. now apply IH.
Qed.

Lemma find_none (own : string) (l : list Player) (q : Player) :
  List.find (fun p => String.eqb (Player.id p) own) l = None ->
  In q l -> Player.id q <> own.
Proof.
  intros Hfind Hin Hq. apply (find_none _ _ Hfind) in Hin. cbn beta in Hin.
  apply String.eqb_neq in Hin. contradiction.
Qed.

Lemma map_fixed {A : Type} (f : A -> A) (l : list A) :
  (forall a, In a l -> f a = a) -> List.map f l = l.
Proof.
  induction l as [|a l IH]; intros H; cbn [List.map]; [reflexivity|].
  rewrite H by now left. rewrite IH; [reflexivity|]. intros b Hb. apply H. now right.
Qed.

Section Predicted.

Context {oracle : Oracle}.

(** X30.  [getPredictedState] returns the game state with the same
    asteroids, bullets, particles, tick and timestamp and as many players
    in the same order; a player whose id is not the local one is returned
    as it is, the local one with the predicted transform and velocity and
    everything else as in the game state.  When nothing is pending, that
    is when the acknowledged number has caught up with the counter, a
    reconciliation against the players of a game state (with distinct ids)
    predicts exactly this game state. *)
Theorem predicted_state_of_the_local_player
    (c : ClientPrediction.t) (gameState : GameState.t) (own : string) :
  predicting c ->
  ClientPrediction.playerId c = Some own ->
  let view := Prediction.getPredictedState c gameState in
  GameState.asteroids view = GameState.asteroids gameState /\
  GameState.bullets view = GameState.bullets gameState /\
  GameState.particles view = GameState.particles gameState /\
  GameState.tick view = GameState.tick gameState /\
  GameState.timestamp view = GameState.timestamp gameState /\
  (forall i p, GameState.players gameState !! i = Some p ->
     exists p', GameState.players view !! i = Some p' /\
       (Player.id p <> own -> p' = p) /\
       (forall predicted, ClientPrediction.predictedState c = Some predicted ->
          Player.id p = own -> own <> ""%string ->
          p' = Player.set_velocity
                 (Player.set_transform p (PredictedState.transform predicted))
                 (PredictedState.velocity predicted))) /\
  (ClientPrediction.sequenceNumber c <= ClientPrediction.lastAcknowledgedSequence c ->
   NoDup (List.map Player.id (GameState.players gameState)) ->
   Prediction.getPredictedState
     (ClientPrediction.reconcile c (GameState.players gameState)) gameState
   = gameState).
Proof.
  intros Hc Hown. cbv zeta.
  assert (Hview : forall c0,
            ClientPrediction.playerId c0 = Some own ->
            Prediction.getPredictedState c0 gameState
            = match ClientPrediction.predictedState c0 with
              | Some predicted =>
                  if String.eqb own "" then gameState
                  else GameState.mk
                         (List.map
                            (fun player =>
                               if String.eqb (Player.id player) own
                               then Player.set_velocity
                                      (Player.set_transform player
                                         (PredictedState.transform predicted))
                                      (PredictedState.velocity predicted)
                               else player)
                            (GameState.players gameState))
                         (GameState.asteroids gameState) (GameState.bullets gameState)
                         (GameState.particles gameState) (GameState.tick gameState)
                         (GameState.timestamp gameState)
              | None => gameState
              end).
  { intros c0 H0. unfold Prediction.getPredictedState. now rewrite H0. }
  rewrite (Hview c Hown).
  split; [destruct (ClientPrediction.predictedState c); [destruct (String.eqb own "")|];
          reflexivity|].
  split; [destruct (ClientPrediction.predictedState c); [destruct (String.eqb own "")|];
          reflexivity|].
  split; [destruct (ClientPrediction.predictedState c); [destruct (String.eqb own "")|];
          reflexivity|].
  split; [destruct (ClientPrediction.predictedState c); [destruct (String.eqb own "")|];
          reflexivity|].
  split; [destruct (ClientPrediction.predictedState c); [destruct (String.eqb own "")|];
          reflexivity|].
  split.
  - intros i p Hi.
    destruct (ClientPrediction.predictedState c) as [predicted|].
    + destruct (String.eqb own "") eqn:Eown.
      * exists p. split; [exact Hi|]. split; [reflexivity|].
        intros ? _ _ Hne. apply String.eqb_eq in Eown. contradiction.
      * cbn [GameState.players]. rewrite list_lookup_fmap, Hi.
        cbn [fmap option_fmap option_map].
        destruct (String.eqb (Player.id p) own) eqn:E;
          [apply String.eqb_eq in E | apply String.eqb_neq in E].
        -- eexists. split; [reflexivity|]. split; [intros; contradiction|].
           intros predicted' [= <-] _ _. reflexivity.
        -- exists p. split; [reflexivity|]. split; [reflexivity|].
           intros ? _ Hid. contradiction.
    + exists p. split; [exact Hi|]. split; [reflexivity|]. intros ? [=].
  - intros Hack Hnd.
    destruct (predicting_numbered c Hc) as [Hn _].
    destruct (numbered_top _ _ _ Hn) as [_ Hall].
    assert (Hrec : ClientPrediction.playerId
                     (ClientPrediction.reconcile c (GameState.players gameState))
                   = Some own).
    { unfold ClientPrediction.reconcile. rewrite Hown.
      destruct (String.eqb own ""); [exact Hown|].
      destruct (List.find _ _); [reflexivity | exact Hown]. }
    rewrite (Hview _ Hrec). unfold ClientPrediction.reconcile. rewrite Hown.
    destruct (String.eqb own "") eqn:Eown.
    { destruct (ClientPrediction.predictedState c); reflexivity. }
    destruct (List.find (fun p => String.eqb (Player.id p) own) (GameState.players gameState))
      as [serverPlayer|] eqn:Efind.
    + cbn [ClientPrediction.predictedState].
      assert (Hnone : List.filter
                        (fun input =>
                           Num.ltb (ClientPrediction.lastAcknowledgedSequence c)
                                   (PredictionInput.sequence input))
                        (ClientPrediction.inputBuffer c) = []).
      { match goal with |- ?l = [] => destruct l as [|e rest] eqn:E end; [reflexivity|].
        exfalso. assert (He : In e (e :: rest)) by now left.
        rewrite <- E in He. apply filter_In in He.
        destruct He as [He Hlt]. apply ltb_true in Hlt.
        rewrite List.Forall_forall in Hall. specialize (Hall e He). lra. }
      rewrite Hnone. cbn [fold_left PredictedState.transform PredictedState.velocity].
      destruct gameState as [ps ? ? ? ? ?]. cbn [GameState.players] in *. f_equal.
      apply map_fixed. intros q Hq.
      destruct (String.eqb (Player.id q) own) eqn:E; [|reflexivity].
      apply String.eqb_eq in E.
      rewrite <- (find_own own ps serverPlayer q Hnd Efind Hq E). apply player_eta.
    + destruct (ClientPrediction.predictedState c) as [predicted|]; [|reflexivity].
      destruct gameState as [ps ? ? ? ? ?]. cbn [GameState.players] in *. f_equal.
      apply map_fixed. intros q Hq.
      assert (Hne := find_none own ps q Efind Hq).
      apply String.eqb_neq in Hne. now rewrite Hne.
Qed.

End Predicted.

Lemma predicted_state_of_the_local_player_witness :
  Prediction.getPredictedState
    (ClientPrediction.reconcile
       (ClientPrediction.setPlayerId Prediction.create "P")
       (GameState.players lone_pilot))
    lone_pilot
  = lone_pilot.
Proof.
  apply (@predicted_state_of_the_local_player halves
           (ClientPrediction.setPlayerId Prediction.create "P") lone_pilot "P").
  - apply predicting_setPlayerId, predicting_create.
  - reflexivity.
  - cbn. lra.
  - cbn. apply NoDup_singleton.
Defined.

